(** * The extendible hash index of BusTub: bucket page, directory page, table

    A shallow embedding of [src/storage/page/hash_table_bucket_page.cpp] and
    [src/container/hash/extendible_hash_table.cpp], and the properties the
    specification states about them. *)

From Stdlib Require Import ZArith List Lia Bool Arith.
Import ListNotations.
Local Open Scope Z_scope.

(** ** Machine integers

    [uint32_t] values are kept in [0, 2^32), [char] values in [-128, 128)
    ([char] is the signed 8-bit type on the targets the project builds for,
    which is why the source compares bitmap bytes with
    [static_cast<char>(0xff)]), [int] values in [-2^31, 2^31). *)

Definition u32 (x : Z) : Z := x mod 2 ^ 32.
Definition u8 (x : Z) : Z := x mod 2 ^ 8.
Definition to_char (x : Z) : Z := (x + 128) mod 256 - 128.
Definition to_int (x : Z) : Z := (x + 2 ^ 31) mod 2 ^ 32 - 2 ^ 31.

(** In-place update of an array cell. *)
Fixpoint upd {A : Type} (l : list A) (i : nat) (x : A) : list A :=
  match l, i with
  | [], _ => []
  | _ :: t, O => x :: t
  | h :: t, S j => h :: upd t j x
  end.

Definition char_range : list Z := map (fun n => Z.of_nat n - 128) (seq 0 256).
Definition bit_range : list nat := seq 0 8.

(** Bit [k] of a byte, as the source tests it: [byte & (1 << k)] is non-zero. *)
Definition bit (c : Z) (k : nat) : bool :=
  negb (Z.land c (Z.shiftl 1 (Z.of_nat k)) =? 0).

(** [for (uint32_t i = lo; i < lo + n; i++) body] on a state [s]. *)
Fixpoint for_loop {S : Type} (n : nat) (i : Z) (body : Z -> S -> S) (s : S) : S :=
  match n with
  | O => s
  | S n' => for_loop n' (i + 1) body (body i s)
  end.

(** ** The bucket page *)

Module BucketPage.
Section Bucket.

Context (BUCKET_ARRAY_SIZE : nat) {KeyType ValueType : Type}.
(** [KeyComparator]: a three-way comparison, of which only [== 0] is used. *)
Context (cmp : KeyType -> KeyType -> Z).
(** [operator==] of [ValueType]. *)
Context (value_eq : ValueType -> ValueType -> bool).
(** [KeyType{}] and [ValueType{}]; also the content of a zeroed page. *)
Context (default_key : KeyType) (default_value : ValueType).

Definition MappingType : Type := (KeyType * ValueType)%type.

Record HashTableBucketPage : Type := mkBucket {
  occupied_ : list Z;
  readable_ : list Z;
  array_ : list MappingType
}.

(** Number of bytes of each bitmap: [(BUCKET_ARRAY_SIZE - 1) / 8 + 1]. *)
Definition bitmap_size : nat := ((BUCKET_ARRAY_SIZE - 1) / 8 + 1)%nat.

Definition slot (b : HashTableBucketPage) (i : nat) : MappingType :=
  nth i (array_ b) (default_key, default_value).

Definition IsOccupied (b : HashTableBucketPage) (bucket_idx : nat) : bool :=
  let index := (bucket_idx / 8)%nat in
  let offset := (bucket_idx mod 8)%nat in
  negb (Z.land (nth index (occupied_ b) 0) (Z.shiftl 1 (Z.of_nat offset)) =? 0).

Definition SetOccupied (b : HashTableBucketPage) (bucket_idx : nat) : HashTableBucketPage :=
  let index := (bucket_idx / 8)%nat in
  let offset := (bucket_idx mod 8)%nat in
  mkBucket
    (upd (occupied_ b) index
       (to_char (Z.lor (nth index (occupied_ b) 0) (Z.shiftl 1 (Z.of_nat offset)))))
    (readable_ b) (array_ b).

Definition IsReadable (b : HashTableBucketPage) (bucket_idx : nat) : bool :=
  let index := (bucket_idx / 8)%nat in
  let offset := (bucket_idx mod 8)%nat in
  negb (Z.land (nth index (readable_ b) 0) (Z.shiftl 1 (Z.of_nat offset)) =? 0).

Definition SetReadable (b : HashTableBucketPage) (bucket_idx : nat) : HashTableBucketPage :=
  let index := (bucket_idx / 8)%nat in
  let offset := (bucket_idx mod 8)%nat in
  mkBucket (occupied_ b)
    (upd (readable_ b) index
       (to_char (Z.lor (nth index (readable_ b) 0) (Z.shiftl 1 (Z.of_nat offset)))))
    (array_ b).

Definition SetUnreadable (b : HashTableBucketPage) (bucket_idx : nat) : HashTableBucketPage :=
  let index := (bucket_idx / 8)%nat in
  let offset := (bucket_idx mod 8)%nat in
  mkBucket (occupied_ b)
    (upd (readable_ b) index
       (to_char (Z.land (nth index (readable_ b) 0)
                   (Z.lnot (Z.shiftl 1 (Z.of_nat offset))))))
    (array_ b).

(** [array_[i] = {key, value}] *)
Definition SetSlot (b : HashTableBucketPage) (i : nat) (key : KeyType) (value : ValueType)
  : HashTableBucketPage :=
  mkBucket (occupied_ b) (readable_ b) (upd (array_ b) i (key, value)).

(** The test [IsReadable(i) && cmp(array_[i].first, key) == 0]. *)
Definition key_match (b : HashTableBucketPage) (key : KeyType) (i : nat) : bool :=
  IsReadable b i && (cmp (fst (slot b i)) key =? 0).

(** The test [IsReadable(i) && cmp(array_[i].first, key) == 0 && array_[i].second == value]. *)
Definition pair_match (b : HashTableBucketPage) (key : KeyType) (value : ValueType) (i : nat)
  : bool :=
  IsReadable b i && (cmp (fst (slot b i)) key =? 0) && value_eq (snd (slot b i)) value.

(** The loop of [GetValue], with [n] iterations left at index [i]. *)
Fixpoint GetValue_loop (b : HashTableBucketPage) (key : KeyType) (n i : nat)
    (flag : bool) (result : list ValueType) : bool * list ValueType :=
  match n with
  | O => (flag, result)
  | S n' =>
      if key_match b key i then
        GetValue_loop b key n' (S i) true (result ++ [snd (slot b i)])
      else if negb (IsOccupied b i) then (flag, result)
      else GetValue_loop b key n' (S i) flag result
  end.

Definition GetValue (b : HashTableBucketPage) (key : KeyType) (result : list ValueType)
  : bool * list ValueType :=
  GetValue_loop b key BUCKET_ARRAY_SIZE 0%nat false result.

(** The loop of [Insert]: [None] is the [return false] on an identical pair,
    [Some insert_index] the value of [insert_index] when the loop is left. *)
Fixpoint Insert_loop (b : HashTableBucketPage) (key : KeyType) (value : ValueType)
    (n i insert_index : nat) : option nat :=
  match n with
  | O => Some insert_index
  | S n' =>
      if pair_match b key value i then None
      else if negb (IsReadable b i) then
        let insert_index' :=
          if (insert_index =? BUCKET_ARRAY_SIZE)%nat then i else insert_index in
        if negb (IsOccupied b i) then Some insert_index'
        else Insert_loop b key value n' (S i) insert_index'
      else Insert_loop b key value n' (S i) insert_index
  end.

Definition Insert (b : HashTableBucketPage) (key : KeyType) (value : ValueType)
  : bool * HashTableBucketPage :=
  match Insert_loop b key value BUCKET_ARRAY_SIZE 0%nat BUCKET_ARRAY_SIZE with
  | None => (false, b)
  | Some insert_index =>
      if (insert_index =? BUCKET_ARRAY_SIZE)%nat then (false, b)
      else
        (true,
         SetReadable (SetOccupied (SetSlot b insert_index key value) insert_index)
           insert_index)
  end.

Fixpoint Remove_loop (b : HashTableBucketPage) (key : KeyType) (value : ValueType)
    (n i : nat) : bool * HashTableBucketPage :=
  match n with
  | O => (false, b)
  | S n' =>
      if pair_match b key value i then (true, SetUnreadable b i)
      else if negb (IsOccupied b i) then (false, b)
      else Remove_loop b key value n' (S i)
  end.

Definition Remove (b : HashTableBucketPage) (key : KeyType) (value : ValueType)
  : bool * HashTableBucketPage :=
  Remove_loop b key value BUCKET_ARRAY_SIZE 0%nat.

Definition KeyAt (b : HashTableBucketPage) (bucket_idx : nat) : KeyType :=
  if IsReadable b bucket_idx then fst (slot b bucket_idx) else default_key.

Definition ValueAt (b : HashTableBucketPage) (bucket_idx : nat) : ValueType :=
  if IsReadable b bucket_idx then snd (slot b bucket_idx) else default_value.

Definition RemoveAt (b : HashTableBucketPage) (bucket_idx : nat) : HashTableBucketPage :=
  SetUnreadable b bucket_idx.

(** The first loop of [IsFull]: [false] as soon as a byte differs from
    [static_cast<char>(0xff)]. *)
Fixpoint IsFull_loop (b : HashTableBucketPage) (n i : nat) : bool :=
  match n with
  | O => true
  | S n' =>
      if negb (nth i (readable_ b) 0 =? to_char 255) then false
      else IsFull_loop b n' (S i)
  end.

Definition IsFull (b : HashTableBucketPage) : bool :=
  let exact_div_size := (BUCKET_ARRAY_SIZE / 8)%nat in
  if IsFull_loop b exact_div_size 0%nat then
    let rest := (BUCKET_ARRAY_SIZE - BUCKET_ARRAY_SIZE / 8 * 8)%nat in
    negb (negb (rest =? 0)%nat
          && negb (nth ((BUCKET_ARRAY_SIZE - 1) / 8)%nat (readable_ b) 0
                   =? to_char (to_int (Z.shiftl 1 (Z.of_nat rest) - 1))))
  else false.

Definition Size : nat := BUCKET_ARRAY_SIZE.

(** The inner loop of [NumReadable]: [while (n != 0) { n &= n - 1; cnt++; }]
    on an [int] [n]; [n - 1] wraps around at [INT_MIN], as the two's
    complement targets compute it (the language leaves that overflow
    undefined).  [None] when the fuel does not suffice. *)
Fixpoint clear_lowest_loop (fuel : nat) (n cnt : Z) : option Z :=
  match fuel with
  | O => None
  | S fuel' =>
      if n =? 0 then Some cnt
      else clear_lowest_loop fuel' (Z.land n (to_int (n - 1))) (u32 (cnt + 1))
  end.

Fixpoint NumReadable_loop (b : HashTableBucketPage) (m i : nat) (cnt : Z) : option Z :=
  match m with
  | O => Some cnt
  | S m' =>
      let n := to_int (nth i (readable_ b) 0) in
      match clear_lowest_loop 33 n cnt with
      | None => None
      | Some cnt' => NumReadable_loop b m' (S i) cnt'
      end
  end.

Definition NumReadable (b : HashTableBucketPage) : option Z :=
  let read_array_size := ((BUCKET_ARRAY_SIZE - 1) / 8 + 1)%nat in
  NumReadable_loop b read_array_size 0%nat 0.

Fixpoint IsEmpty_loop (b : HashTableBucketPage) (n i : nat) : bool :=
  match n with
  | O => true
  | S n' =>
      if negb (nth i (readable_ b) 0 =? to_char 0) then false
      else IsEmpty_loop b n' (S i)
  end.

Definition IsEmpty (b : HashTableBucketPage) : bool :=
  let read_array_size := ((BUCKET_ARRAY_SIZE - 1) / 8 + 1)%nat in
  IsEmpty_loop b read_array_size 0%nat.

Fixpoint GetAllItem_loop (b : HashTableBucketPage) (n i : nat) (items : list MappingType)
  : list MappingType :=
  match n with
  | O => items
  | S n' =>
      GetAllItem_loop b n' (S i) (if IsReadable b i then items ++ [slot b i] else items)
  end.

Definition GetAllItem (b : HashTableBucketPage) : list MappingType :=
  GetAllItem_loop b BUCKET_ARRAY_SIZE 0%nat [].

(** A page as the buffer pool hands it out: all bytes zero. *)
Definition zero_page : HashTableBucketPage :=
  mkBucket (repeat 0 bitmap_size) (repeat 0 bitmap_size)
    (repeat (default_key, default_value) BUCKET_ARRAY_SIZE).

(** The shape of a bucket page: the sizes of its three arrays and the range
    of its bitmap bytes. *)
Record wf_bucket (b : HashTableBucketPage) : Prop := {
  wf_occupied_len : length (occupied_ b) = bitmap_size;
  wf_readable_len : length (readable_ b) = bitmap_size;
  wf_array_len : length (array_ b) = BUCKET_ARRAY_SIZE;
  wf_occupied_range : Forall (fun c => -128 <= c < 128) (occupied_ b);
  wf_readable_range : Forall (fun c => -128 <= c < 128) (readable_ b)
}.

(** The scans of [Insert] leave the loop at a slot whose two bits are clear. *)
Definition probe_stop (b : HashTableBucketPage) (i : nat) : bool :=
  negb (IsReadable b i) && negb (IsOccupied b i).

(** Slot [i] is reached by the scan of [Insert]. *)
Definition scanned (b : HashTableBucketPage) (i : nat) : Prop :=
  (i < BUCKET_ARRAY_SIZE)%nat /\ forall j, (j < i)%nat -> probe_stop b j = false.

(** Slot [i] lies in the range that ends with the first slot whose
    occupied bit is clear. *)
Definition up_to_first_unoccupied (b : HashTableBucketPage) (i : nat) : Prop :=
  (i < BUCKET_ARRAY_SIZE)%nat /\ forall j, (j < i)%nat -> IsOccupied b j = true.

(** What [Insert] writes when it takes slot [i]. *)
Definition write_slot (b : HashTableBucketPage) (i : nat) (key : KeyType) (value : ValueType)
  : HashTableBucketPage :=
  SetReadable (SetOccupied (SetSlot b i key value) i) i.

(** A readable bit implies the occupied bit. *)
Definition readable_implies_occupied (b : HashTableBucketPage) : Prop :=
  forall i, (i < BUCKET_ARRAY_SIZE)%nat -> IsReadable b i = true -> IsOccupied b i = true.

(** The invariant of a bucket page: its shape; a readable slot is occupied;
    the occupied slots form a prefix of the array; no readable bit is set
    beyond the array; no pair is stored twice. *)
Record bucket_inv (b : HashTableBucketPage) : Prop := {
  inv_wf : wf_bucket b;
  inv_readable_occupied : readable_implies_occupied b;
  inv_occupied_prefix :
    forall i j, (i < j)%nat -> (j < BUCKET_ARRAY_SIZE)%nat ->
                IsOccupied b j = true -> IsOccupied b i = true;
  inv_tail : forall i, (BUCKET_ARRAY_SIZE <= i)%nat -> IsReadable b i = false;
  inv_nodup :
    forall i j, (i < BUCKET_ARRAY_SIZE)%nat -> (j < BUCKET_ARRAY_SIZE)%nat ->
                IsReadable b i = true -> IsReadable b j = true ->
                slot b i = slot b j -> i = j
}.

(** The pair is stored in the page, in a readable slot. *)
Definition holds (b : HashTableBucketPage) (key : KeyType) (value : ValueType) : Prop :=
  exists s, (s < BUCKET_ARRAY_SIZE)%nat /\ IsReadable b s = true /\ slot b s = (key, value).

(** The number of slots in [0, BUCKET_ARRAY_SIZE) whose readable bit is set. *)
Definition count_readable (b : HashTableBucketPage) : nat :=
  length (filter (IsReadable b) (seq 0 BUCKET_ARRAY_SIZE)).

End Bucket.
End BucketPage.

Arguments BucketPage.HashTableBucketPage : clear implicits.
Arguments BucketPage.mkBucket {KeyType ValueType} _ _ _.

(** ** The directory page *)

Module Directory.
Section Dir.

(** The value of [1 << n] for [n >= 32], which the language leaves
    undefined; every statement below holds whatever it is. *)
Context (shl_overflow : Z -> Z).

(** [1 << n] read as a [uint32_t]. *)
Definition shl1 (n : Z) : Z :=
  if (0 <=? n) && (n <? 32) then u32 (Z.shiftl 1 n) else shl_overflow n.

(** Modelled from the spec: the directory page, whose header is missing.
    It holds [global_depth] (u32), [local_depths] (u8 per slot) and
    [bucket_page_ids] (one page id per slot), the arrays having
    [MAX_SIZE = 1 << MAX_DEPTH] cells. *)
Record HashTableDirectoryPage : Type := mkDir {
  global_depth_ : Z;
  local_depths_ : Z -> Z;
  bucket_page_ids_ : Z -> Z
}.

(** Modelled from the spec: [GetGlobalDepth()]. *)
Definition GetGlobalDepth (d : HashTableDirectoryPage) : Z := global_depth_ d.

(** Modelled from the spec: [IncrGlobalDepth()]. *)
Definition IncrGlobalDepth (d : HashTableDirectoryPage) : HashTableDirectoryPage :=
  mkDir (u32 (global_depth_ d + 1)) (local_depths_ d) (bucket_page_ids_ d).

(** Modelled from the spec: [DecrGlobalDepth()]. *)
Definition DecrGlobalDepth (d : HashTableDirectoryPage) : HashTableDirectoryPage :=
  mkDir (u32 (global_depth_ d - 1)) (local_depths_ d) (bucket_page_ids_ d).

(** Modelled from the spec: [GetGlobalDepthMask() = (1 << global_depth) - 1]. *)
Definition GetGlobalDepthMask (d : HashTableDirectoryPage) : Z :=
  u32 (shl1 (global_depth_ d) - 1).

(** Modelled from the spec: [Size() = 1 << global_depth]. *)
Definition Size (d : HashTableDirectoryPage) : Z := shl1 (global_depth_ d).

(** Modelled from the spec: [GetLocalDepth(i)]. *)
Definition GetLocalDepth (d : HashTableDirectoryPage) (i : Z) : Z := local_depths_ d i.

(** Modelled from the spec: [SetLocalDepth(i, d)]. *)
Definition SetLocalDepth (d : HashTableDirectoryPage) (i : Z) (x : Z)
  : HashTableDirectoryPage :=
  mkDir (global_depth_ d)
    (fun j => if j =? i then u8 x else local_depths_ d j)
    (bucket_page_ids_ d).

(** Modelled from the spec: [IncrLocalDepth(i)]. *)
Definition IncrLocalDepth (d : HashTableDirectoryPage) (i : Z) : HashTableDirectoryPage :=
  SetLocalDepth d i (local_depths_ d i + 1).

(** Modelled from the spec: [DecrLocalDepth(i)]. *)
Definition DecrLocalDepth (d : HashTableDirectoryPage) (i : Z) : HashTableDirectoryPage :=
  SetLocalDepth d i (local_depths_ d i - 1).

(** Modelled from the spec: [GetLocalDepthMask(i) = (1 << local_depths[i]) - 1]. *)
Definition GetLocalDepthMask (d : HashTableDirectoryPage) (i : Z) : Z :=
  u32 (shl1 (local_depths_ d i) - 1).

(** Modelled from the spec: [GetBucketPageId(i)]. *)
Definition GetBucketPageId (d : HashTableDirectoryPage) (i : Z) : Z := bucket_page_ids_ d i.

(** Modelled from the spec: [SetBucketPageId(i, pid)]. *)
Definition SetBucketPageId (d : HashTableDirectoryPage) (i : Z) (pid : Z)
  : HashTableDirectoryPage :=
  mkDir (global_depth_ d) (local_depths_ d)
    (fun j => if j =? i then pid else bucket_page_ids_ d j).

(** Modelled from the spec:
    [GetSplitImageIndex(i) = i XOR (1 << (local_depths[i] - 1))]. *)
Definition GetSplitImageIndex (d : HashTableDirectoryPage) (i : Z) : Z :=
  Z.lxor i (shl1 (u32 (local_depths_ d i - 1))).

(** The slots of the directory, [0 .. Size()). *)
Definition slots (d : HashTableDirectoryPage) : list Z :=
  map Z.of_nat (seq 0 (Z.to_nat (Size d))).

(** Modelled from the spec: [CanShrink() = (max local_depth < global_depth)]. *)
Definition CanShrink (d : HashTableDirectoryPage) : bool :=
  forallb (fun i => local_depths_ d i <? global_depth_ d) (slots d).

(** The two cells of slot [i]: its local depth and its bucket page id. *)
Definition cell (d : HashTableDirectoryPage) (i : Z) : Z * Z :=
  (local_depths_ d i, bucket_page_ids_ d i).

(** Modelled from the spec: a directory page as allocated, all bytes zero. *)
Definition zero_page : HashTableDirectoryPage :=
  mkDir 0 (fun _ => 0) (fun _ => 0).

End Dir.
End Directory.

(** ** The hash table *)

Module ExtendibleHashTable.
Section Table.

Context (BUCKET_ARRAY_SIZE : nat) {KeyType ValueType : Type}.
Context (cmp : KeyType -> KeyType -> Z).
Context (value_eq : ValueType -> ValueType -> bool).
Context (default_key : KeyType) (default_value : ValueType).
(** [hash_fn_.GetHash], a 64-bit hash. *)
Context (hash_fn : KeyType -> Z).
(** The directory arrays have [1 << MAX_DEPTH] cells. *)
Context (MAX_DEPTH : Z).
Context (shl_overflow : Z -> Z).

Local Abbreviation bucket := (BucketPage.HashTableBucketPage KeyType ValueType).
Local Abbreviation directory := Directory.HashTableDirectoryPage.
Local Abbreviation bucket_Insert :=
  (BucketPage.Insert BUCKET_ARRAY_SIZE cmp value_eq default_key default_value).
Local Abbreviation bucket_Remove :=
  (BucketPage.Remove BUCKET_ARRAY_SIZE cmp value_eq default_key default_value).
Local Abbreviation bucket_GetValue :=
  (BucketPage.GetValue BUCKET_ARRAY_SIZE cmp default_key default_value).
Local Abbreviation IsFull := (BucketPage.IsFull BUCKET_ARRAY_SIZE).
Local Abbreviation IsEmpty := (BucketPage.IsEmpty BUCKET_ARRAY_SIZE).
Local Abbreviation KeyAt := (BucketPage.KeyAt default_key default_value).
Local Abbreviation ValueAt := (BucketPage.ValueAt default_key default_value).
Local Abbreviation RemoveAt := BucketPage.RemoveAt.
Local Abbreviation GetGlobalDepthMask := (Directory.GetGlobalDepthMask shl_overflow).
Local Abbreviation GetLocalDepthMask := (Directory.GetLocalDepthMask shl_overflow).
Local Abbreviation GetSplitImageIndex := (Directory.GetSplitImageIndex shl_overflow).
Local Abbreviation dir_Size := (Directory.Size shl_overflow).
Local Abbreviation CanShrink := (Directory.CanShrink shl_overflow).
Local Abbreviation shl1 := (Directory.shl1 shl_overflow).

(** The state the table works on: the directory page and the bucket pages
    held by the buffer pool, and the next page id the pool hands out. *)
Record HashTable : Type := mkTable {
  dir_page : directory;
  bucket_pages : Z -> option bucket;
  next_page_id : Z
}.

(** Modelled from the spec: [BufferPoolManager::NewPage], a zeroed page
    under a page id never handed out before. *)
Definition NewPage (t : HashTable) : Z * HashTable :=
  (next_page_id t,
   mkTable (dir_page t)
     (fun p => if p =? next_page_id t
               then Some (BucketPage.zero_page BUCKET_ARRAY_SIZE default_key default_value)
               else bucket_pages t p)
     (next_page_id t + 1)).

(** Modelled from the spec: [BufferPoolManager::DeletePage]. *)
Definition DeletePage (t : HashTable) (pid : Z) : HashTable :=
  mkTable (dir_page t) (fun p => if p =? pid then None else bucket_pages t p)
    (next_page_id t).

(** [FetchBucketPage]; [None] when the pool holds no such bucket page. *)
Definition FetchBucketPage (t : HashTable) (bucket_page_id : Z) : option bucket :=
  bucket_pages t bucket_page_id.

(** The content of a pinned bucket page after the caller's writes. *)
Definition put_bucket (t : HashTable) (pid : Z) (b : bucket) : HashTable :=
  mkTable (dir_page t) (fun p => if p =? pid then Some b else bucket_pages t p)
    (next_page_id t).

Definition put_dir (t : HashTable) (d : directory) : HashTable :=
  mkTable d (bucket_pages t) (next_page_id t).

(** The constructor: a directory page, then the first bucket page, whose id
    goes to slot 0.  The directory page takes the first page id. *)
Definition init : HashTable :=
  let directory_page_id := 0 in
  let bucket_page_id := 1 in
  mkTable (Directory.SetBucketPageId Directory.zero_page 0 bucket_page_id)
    (fun p => if p =? bucket_page_id
              then Some (BucketPage.zero_page BUCKET_ARRAY_SIZE default_key default_value)
              else None)
    2.

Definition Hash (key : KeyType) : Z := u32 (hash_fn key).

Definition KeyToDirectoryIndex (key : KeyType) (dir : directory) : Z :=
  Z.land (Hash key) (GetGlobalDepthMask dir).

Definition KeyToPageId (key : KeyType) (dir : directory) : Z :=
  let index := KeyToDirectoryIndex key dir in
  Directory.GetBucketPageId dir index.

Definition GetValue (t : HashTable) (key : KeyType) (result : list ValueType)
  : option (bool * list ValueType) :=
  let dir := dir_page t in
  let bucket_page_id := KeyToPageId key dir in
  match FetchBucketPage t bucket_page_id with
  | None => None
  | Some bucket_page => Some (bucket_GetValue bucket_page key result)
  end.

(** The loop of [SplitInsert] that moves entries of the old bucket to the
    new one. *)
Fixpoint redistribute (dir : directory) (new_bucket_page_id : Z) (n i : nat)
    (old_bucket_page new_bucket_page : bucket) : bucket * bucket :=
  match n with
  | O => (old_bucket_page, new_bucket_page)
  | S n' =>
      let bucket_key := KeyAt old_bucket_page i in
      let bucket_value := ValueAt old_bucket_page i in
      let bucket_page_id := KeyToPageId bucket_key dir in
      if bucket_page_id =? new_bucket_page_id then
        redistribute dir new_bucket_page_id n' (S i)
          (RemoveAt old_bucket_page i)
          (snd (bucket_Insert new_bucket_page bucket_key bucket_value))
      else redistribute dir new_bucket_page_id n' (S i) old_bucket_page new_bucket_page
  end.

(** The directory part of [SplitInsert]; [None] when the doubled directory
    would not fit the page's arrays. *)
Definition split_directory (dir : directory) (old_bucket_page_index old_bucket_page_id
    new_bucket_page_id : Z) : option directory :=
  let local_depth := Directory.GetLocalDepth dir old_bucket_page_index in
  let old_local_mask := GetLocalDepthMask dir old_bucket_page_index in
  let new_local_mask := u32 (old_local_mask + u32 (old_local_mask + 1)) in
  let new_local_hash := Z.land old_bucket_page_index new_local_mask in
  let dir_size := dir_Size dir in
  let dir :=
    for_loop (Z.to_nat dir_size) 0
      (fun i dir =>
         if Z.land i new_local_mask =? new_local_hash
         then Directory.IncrLocalDepth dir i else dir) dir in
  if local_depth <? Directory.GetGlobalDepth dir then
    Some
      (for_loop (Z.to_nat dir_size) 0
         (fun i dir =>
            let page_id := Directory.GetBucketPageId dir i in
            if (page_id =? old_bucket_page_id)
               && negb (Z.land i new_local_mask =? new_local_hash)
            then Directory.IncrLocalDepth
                   (Directory.SetBucketPageId dir i new_bucket_page_id) i
            else dir) dir)
  else
    let dir := Directory.IncrGlobalDepth dir in
    if MAX_DEPTH <? Directory.GetGlobalDepth dir then None
    else
      let new_dir_size := dir_Size dir in
      Some
        (for_loop (Z.to_nat (new_dir_size - dir_size)) dir_size
           (fun i dir =>
              let upper_page_id := Directory.GetBucketPageId dir (u32 (i - dir_size)) in
              let upper_local_depth := Directory.GetLocalDepth dir (u32 (i - dir_size)) in
              let dir :=
                if upper_page_id =? old_bucket_page_id
                then Directory.SetBucketPageId dir i new_bucket_page_id
                else Directory.SetBucketPageId dir i upper_page_id in
              Directory.SetLocalDepth dir i upper_local_depth) dir).

Definition SplitInsert (t : HashTable) (key : KeyType) (value : ValueType)
  : option (bool * HashTable) :=
  let dir := dir_page t in
  let old_bucket_page_index := KeyToDirectoryIndex key dir in
  let old_bucket_page_id := KeyToPageId key dir in
  match FetchBucketPage t old_bucket_page_id with
  | None => None
  | Some old_bucket_page =>
      if negb (IsFull old_bucket_page) then
        let (ret_tmp, old_bucket_page) := bucket_Insert old_bucket_page key value in
        Some (ret_tmp, put_bucket t old_bucket_page_id old_bucket_page)
      else
        let (new_bucket_page_id, t) := NewPage t in
        let new_bucket_page :=
          BucketPage.zero_page BUCKET_ARRAY_SIZE default_key default_value in
        match split_directory dir old_bucket_page_index old_bucket_page_id
                new_bucket_page_id with
        | None => None
        | Some dir =>
            let bucket_size := BucketPage.Size BUCKET_ARRAY_SIZE in
            let (old_bucket_page, new_bucket_page) :=
              redistribute dir new_bucket_page_id bucket_size 0%nat
                old_bucket_page new_bucket_page in
            let bucket_page_id := KeyToPageId key dir in
            let t := put_dir t dir in
            if bucket_page_id =? old_bucket_page_id then
              let (ret, old_bucket_page) := bucket_Insert old_bucket_page key value in
              Some (ret,
                    put_bucket (put_bucket t old_bucket_page_id old_bucket_page)
                      new_bucket_page_id new_bucket_page)
            else
              let (ret, new_bucket_page) := bucket_Insert new_bucket_page key value in
              Some (ret,
                    put_bucket (put_bucket t old_bucket_page_id old_bucket_page)
                      new_bucket_page_id new_bucket_page)
        end
  end.

Definition Insert (t : HashTable) (key : KeyType) (value : ValueType)
  : option (bool * HashTable) :=
  let dir := dir_page t in
  let bucket_page_id := KeyToPageId key dir in
  match FetchBucketPage t bucket_page_id with
  | None => None
  | Some bucket_page =>
      let (ret, bucket_page) := bucket_Insert bucket_page key value in
      let t := put_bucket t bucket_page_id bucket_page in
      if negb ret && IsFull bucket_page then SplitInsert t key value
      else Some (ret, t)
  end.

(** The shift amount of [1 << (local_depth - 1)] in [Merge], an unsigned
    32-bit subtraction. *)
Definition Merge_shift_amount (dir : directory) (key : KeyType) : Z :=
  let index := KeyToDirectoryIndex key dir in
  let local_depth := Directory.GetLocalDepth dir index in
  u32 (local_depth - 1).

Definition Merge (t : HashTable) (key : KeyType) (value : ValueType) : option HashTable :=
  let dir := dir_page t in
  let index := KeyToDirectoryIndex key dir in
  let bucket_page_id := KeyToPageId key dir in
  let dir_size := dir_Size dir in
  let local_depth := Directory.GetLocalDepth dir index in
  let local_mask := GetLocalDepthMask dir index in
  let same_mask := Z.lxor local_mask (shl1 (Merge_shift_amount dir key)) in
  match FetchBucketPage t bucket_page_id with
  | None => None
  | Some bucket_page =>
      if (0 <? local_depth) && IsEmpty bucket_page then
        let another_bucket_idx := GetSplitImageIndex dir index in
        let another_local_depth := Directory.GetLocalDepth dir another_bucket_idx in
        if another_local_depth =? local_depth then
          let another_bucket_page_id := Directory.GetBucketPageId dir another_bucket_idx in
          let dir :=
            for_loop (Z.to_nat dir_size) 0
              (fun i dir =>
                 if Z.land i local_mask =? Z.land index local_mask
                 then Directory.SetBucketPageId dir i another_bucket_page_id
                 else dir) dir in
          let t := DeletePage t bucket_page_id in
          let dir :=
            for_loop (Z.to_nat dir_size) 0
              (fun i dir =>
                 if Z.land i same_mask =? Z.land index same_mask
                 then Directory.DecrLocalDepth dir i
                 else dir) dir in
          let ret := CanShrink dir in
          let dir := if ret then Directory.DecrGlobalDepth dir else dir in
          Some (put_dir t dir)
        else Some t
      else Some t
  end.

Definition ExtraMerge (t : HashTable) (key : KeyType) (value : ValueType)
  : option (bool * HashTable) :=
  let dir := dir_page t in
  let bucket_page_id := KeyToPageId key dir in
  let index := KeyToDirectoryIndex key dir in
  let local_depth := Directory.GetLocalDepth dir index in
  let dir_size := dir_Size dir in
  if 0 <? local_depth then
    let extra_bucket_idx := GetSplitImageIndex dir index in
    let extra_local_depth := Directory.GetLocalDepth dir extra_bucket_idx in
    let extra_bucket_page_id := Directory.GetBucketPageId dir extra_bucket_idx in
    match FetchBucketPage t extra_bucket_page_id with
    | None => None
    | Some extra_bucket =>
        if (extra_local_depth =? local_depth) && IsEmpty extra_bucket then
          let dir :=
            for_loop (Z.to_nat dir_size) 0
              (fun i dir =>
                 let tmp_bucket_page_id := Directory.GetBucketPageId dir i in
                 if tmp_bucket_page_id =? extra_bucket_page_id then
                   Directory.DecrLocalDepth
                     (Directory.SetBucketPageId dir i bucket_page_id) i
                 else if tmp_bucket_page_id =? bucket_page_id then
                   Directory.DecrLocalDepth dir i
                 else dir) dir in
          let t := DeletePage t extra_bucket_page_id in
          let ret := CanShrink dir in
          let dir := if ret then Directory.DecrGlobalDepth dir else dir in
          Some (true, put_dir t dir)
        else Some (false, t)
    end
  else Some (false, t).

(** [while (ExtraMerge(transaction, key, value)) {}]; [None] also when the
    fuel does not suffice. *)
Fixpoint ExtraMerge_loop (fuel : nat) (t : HashTable) (key : KeyType) (value : ValueType)
  : option HashTable :=
  match fuel with
  | O => None
  | S fuel' =>
      match ExtraMerge t key value with
      | None => None
      | Some (true, t') => ExtraMerge_loop fuel' t' key value
      | Some (false, t') => Some t'
      end
  end.

(** The part of [Remove] that runs under the table's read latch. *)
Definition Remove_in_bucket (t : HashTable) (key : KeyType) (value : ValueType)
  : option (bool * bucket * HashTable) :=
  let dir := dir_page t in
  let bucket_page_id := KeyToPageId key dir in
  match FetchBucketPage t bucket_page_id with
  | None => None
  | Some bucket_page =>
      let (ret, bucket_page) := bucket_Remove bucket_page key value in
      Some (ret, bucket_page, put_bucket t bucket_page_id bucket_page)
  end.

Definition Remove (t : HashTable) (key : KeyType) (value : ValueType)
  : option (bool * HashTable) :=
  match Remove_in_bucket t key value with
  | None => None
  | Some (ret, bucket_page, t) =>
      if ret && IsEmpty bucket_page then
        match Merge t key value with
        | None => None
        | Some t =>
            match ExtraMerge_loop 257 t key value with
            | None => None
            | Some t => Some (ret, t)
            end
        end
      else Some (ret, t)
  end.

(** The loop of [RemoveAllItem]: [Remove] of each listed pair, its result
    dropped. *)
Fixpoint RemoveAllItem_loop (items : list (KeyType * ValueType)) (t : HashTable)
  : option HashTable :=
  match items with
  | [] => Some t
  | item :: items' =>
      match Remove t (fst item) (snd item) with
      | None => None
      | Some (_, t) => RemoveAllItem_loop items' t
      end
  end.

Definition RemoveAllItem (t : HashTable) (bucket_idx : Z) : option HashTable :=
  let dir := dir_page t in
  let bucket_page_id := Directory.GetBucketPageId dir bucket_idx in
  match FetchBucketPage t bucket_page_id with
  | None => None
  | Some bucket_page =>
      let items := BucketPage.GetAllItem BUCKET_ARRAY_SIZE default_key default_value
                     bucket_page in
      RemoveAllItem_loop items t
  end.

Definition GetGlobalDepth (t : HashTable) : Z := Directory.GetGlobalDepth (dir_page t).

(** A call of the table's interface, and the run of a sequence of calls. *)
Inductive operation : Type :=
| OpInsert (key : KeyType) (value : ValueType)
| OpRemove (key : KeyType) (value : ValueType).

Definition step (t : HashTable) (o : operation) : option (bool * HashTable) :=
  match o with
  | OpInsert key value => Insert t key value
  | OpRemove key value => Remove t key value
  end.

Fixpoint run (ops : list operation) (t : HashTable) : option HashTable :=
  match ops with
  | [] => Some t
  | o :: ops' =>
      match step t o with
      | None => None
      | Some (_, t') => run ops' t'
      end
  end.

(** *** The invariants *)

(** The number of directory slots that hold the page id [p]. *)
Definition slot_count (dir : directory) (p : Z) : nat :=
  length (filter (fun i => Directory.GetBucketPageId dir i =? p)
            (Directory.slots shl_overflow dir)).

(** The directory invariants of the specification: the size is
    [2^global_depth]; no local depth exceeds the global depth; two slots of
    equal local depth that agree under their local masks hold the same page
    id; a page id is held by [2^(global_depth - local_depth)] slots. *)
Record directory_invariants (dir : directory) : Prop := {
  size_pow2 : dir_Size dir = 2 ^ Directory.GetGlobalDepth dir;
  local_depth_le_global :
    forall i, 0 <= i < dir_Size dir ->
      0 <= Directory.GetLocalDepth dir i <= Directory.GetGlobalDepth dir;
  split_image_consistent :
    forall i j, 0 <= i < dir_Size dir -> 0 <= j < dir_Size dir ->
      Z.land i (GetLocalDepthMask dir i) = Z.land j (GetLocalDepthMask dir j) ->
      Directory.GetLocalDepth dir i = Directory.GetLocalDepth dir j ->
      Directory.GetBucketPageId dir i = Directory.GetBucketPageId dir j;
  pointer_count :
    forall i, 0 <= i < dir_Size dir ->
      Z.of_nat (slot_count dir (Directory.GetBucketPageId dir i))
      = 2 ^ (Directory.GetGlobalDepth dir - Directory.GetLocalDepth dir i)
}.

(** The invariant that the operations maintain on the directory: the slots
    that hold the page of slot [i] are those that agree with [i] on the low
    [local_depths[i]] bits, and they have the local depth of [i]. *)
Record dir_inv (dir : directory) : Prop := {
  global_depth_range : 0 <= Directory.global_depth_ dir <= MAX_DEPTH;
  local_depth_range :
    forall i, 0 <= i < 2 ^ Directory.global_depth_ dir ->
      0 <= Directory.local_depths_ dir i <= Directory.global_depth_ dir;
  same_class :
    forall i j, 0 <= i < 2 ^ Directory.global_depth_ dir ->
      0 <= j < 2 ^ Directory.global_depth_ dir ->
      j mod 2 ^ Directory.local_depths_ dir i = i mod 2 ^ Directory.local_depths_ dir i ->
      Directory.cell dir j = Directory.cell dir i;
  same_page :
    forall i j, 0 <= i < 2 ^ Directory.global_depth_ dir ->
      0 <= j < 2 ^ Directory.global_depth_ dir ->
      Directory.bucket_page_ids_ dir j = Directory.bucket_page_ids_ dir i ->
      j mod 2 ^ Directory.local_depths_ dir i = i mod 2 ^ Directory.local_depths_ dir i
}.

(** The invariant of the table: the directory invariant; every slot's page
    is in the pool, satisfies the bucket invariant, and holds only keys whose
    hash agrees with the slot on its local depth; page ids in use are below
    the next id the pool hands out. *)
Record table_inv (t : HashTable) : Prop := {
  inv_dir : dir_inv (dir_page t);
  inv_pages :
    forall i, 0 <= i < 2 ^ Directory.global_depth_ (dir_page t) ->
      exists b, bucket_pages t (Directory.bucket_page_ids_ (dir_page t) i) = Some b
        /\ BucketPage.bucket_inv BUCKET_ARRAY_SIZE default_key default_value b
        /\ forall s, (s < BUCKET_ARRAY_SIZE)%nat -> BucketPage.IsReadable b s = true ->
             Hash (fst (BucketPage.slot default_key default_value b s))
               mod 2 ^ Directory.local_depths_ (dir_page t) i
             = i mod 2 ^ Directory.local_depths_ (dir_page t) i;
  inv_fresh :
    forall i, 0 <= i < 2 ^ Directory.global_depth_ (dir_page t) ->
      Directory.bucket_page_ids_ (dir_page t) i < next_page_id t
}.

(** The pair is stored in the bucket its key routes to. *)
Definition present (t : HashTable) (key : KeyType) (value : ValueType) : Prop :=
  exists b, bucket_pages t (KeyToPageId key (dir_page t)) = Some b
    /\ BucketPage.holds BUCKET_ARRAY_SIZE default_key default_value b key value.

(** [Insert(key, _)] would have to double a directory that fills its
    arrays: the bucket of the key is full, its local depth is the global
    depth, and the global depth is [MAX_DEPTH].  [SplitInsert] then calls
    [IncrGlobalDepth] without a check and writes the slots from [Size()] on. *)
Definition beyond_MAX_DEPTH (t : HashTable) (key : KeyType) : Prop :=
  exists b, bucket_pages t (KeyToPageId key (dir_page t)) = Some b
    /\ IsFull b = true
    /\ Directory.GetLocalDepth (dir_page t) (KeyToDirectoryIndex key (dir_page t))
       = Directory.GetGlobalDepth (dir_page t)
    /\ Directory.GetGlobalDepth (dir_page t) = MAX_DEPTH.

(** The entry in slot [s] of the bucket [b0] is routed to the page
    [new_pid] by the directory [dir], and the number of such entries among
    the first [n] slots. *)
Definition moves_to (dir : directory) (new_pid : Z) (b0 : bucket) (s : nat) : bool :=
  KeyToPageId (fst (BucketPage.slot default_key default_value b0 s)) dir =? new_pid.

Definition moved_count (dir : directory) (new_pid : Z) (b0 : bucket) (n : nat) : nat :=
  length (filter (moves_to dir new_pid b0) (seq 0 n)).

(** Two states with the same global depth, the same cells in every
    directory slot, the same bucket pages and the same next page id. *)
Definition same_state (t t' : HashTable) : Prop :=
  Directory.global_depth_ (dir_page t) = Directory.global_depth_ (dir_page t')
  /\ (forall i, Directory.cell (dir_page t) i = Directory.cell (dir_page t') i)
  /\ (forall p, bucket_pages t p = bucket_pages t' p)
  /\ next_page_id t = next_page_id t'.

End Table.
End ExtendibleHashTable.

(** ** An instantiation *)

(** A table of integer keys and values: the comparator returns 0 on equal
    keys as [IntComparator] does, the hash function is the identity, a
    bucket page has 56 slots and the directory at most [2^9].  [1 << n] for
    [n >= 32] takes the low five bits of [n], as the x86 shift does. *)
Module IntTable.

Definition BUCKET_ARRAY_SIZE : nat := 56.
Definition MAX_DEPTH : Z := 9.

Definition IntComparator (a b : Z) : Z :=
  if a <? b then -1 else if b <? a then 1 else 0.

Definition hash_fn (key : Z) : Z := key.

Definition shl_overflow (n : Z) : Z := u32 (Z.shiftl 1 (n mod 32)).

Definition bucket : Type := BucketPage.HashTableBucketPage Z Z.
Definition HashTable : Type := @ExtendibleHashTable.HashTable Z Z.
Definition operation : Type := @ExtendibleHashTable.operation Z Z.

Definition bucket_Insert : bucket -> Z -> Z -> bool * bucket :=
  BucketPage.Insert BUCKET_ARRAY_SIZE IntComparator Z.eqb 0 0.
Definition zero_page : bucket := BucketPage.zero_page BUCKET_ARRAY_SIZE 0 0.
Definition bucket_Remove : bucket -> Z -> Z -> bool * bucket :=
  BucketPage.Remove BUCKET_ARRAY_SIZE IntComparator Z.eqb 0 0.
Definition bucket_GetValue : bucket -> Z -> list Z -> bool * list Z :=
  BucketPage.GetValue BUCKET_ARRAY_SIZE IntComparator 0 0.
Definition holds : bucket -> Z -> Z -> Prop := BucketPage.holds BUCKET_ARRAY_SIZE 0 0.

Definition init : HashTable := @ExtendibleHashTable.init BUCKET_ARRAY_SIZE Z Z 0 0.
Definition Insert : HashTable -> Z -> Z -> option (bool * HashTable) :=
  ExtendibleHashTable.Insert BUCKET_ARRAY_SIZE IntComparator Z.eqb 0 0 hash_fn MAX_DEPTH
    shl_overflow.
Definition Remove : HashTable -> Z -> Z -> option (bool * HashTable) :=
  ExtendibleHashTable.Remove BUCKET_ARRAY_SIZE IntComparator Z.eqb 0 0 hash_fn shl_overflow.
Definition Remove_in_bucket : HashTable -> Z -> Z -> option (bool * bucket * HashTable) :=
  ExtendibleHashTable.Remove_in_bucket BUCKET_ARRAY_SIZE IntComparator Z.eqb 0 0 hash_fn
    shl_overflow.
Definition Merge : HashTable -> Z -> Z -> option HashTable :=
  ExtendibleHashTable.Merge BUCKET_ARRAY_SIZE hash_fn shl_overflow.
Definition ExtraMerge : HashTable -> Z -> Z -> option (bool * HashTable) :=
  ExtendibleHashTable.ExtraMerge BUCKET_ARRAY_SIZE hash_fn shl_overflow.
Definition GetValue : HashTable -> Z -> list Z -> option (bool * list Z) :=
  ExtendibleHashTable.GetValue BUCKET_ARRAY_SIZE IntComparator 0 0 hash_fn shl_overflow.
Definition run : list operation -> HashTable -> option HashTable :=
  ExtendibleHashTable.run BUCKET_ARRAY_SIZE IntComparator Z.eqb 0 0 hash_fn MAX_DEPTH
    shl_overflow.
Definition GetGlobalDepth : HashTable -> Z := ExtendibleHashTable.GetGlobalDepth.
Definition ExtraMerge_loop : nat -> HashTable -> Z -> Z -> option HashTable :=
  ExtendibleHashTable.ExtraMerge_loop BUCKET_ARRAY_SIZE hash_fn shl_overflow.
Definition RemoveAllItem : HashTable -> Z -> option HashTable :=
  ExtendibleHashTable.RemoveAllItem BUCKET_ARRAY_SIZE IntComparator Z.eqb 0 0 hash_fn
    shl_overflow.
Definition present : HashTable -> Z -> Z -> Prop :=
  ExtendibleHashTable.present BUCKET_ARRAY_SIZE 0 0 hash_fn shl_overflow.
Definition KeyToPageId (key : Z) (t : HashTable) : Z :=
  ExtendibleHashTable.KeyToPageId hash_fn shl_overflow key (ExtendibleHashTable.dir_page t).

(** The bucket page a key is routed to (an empty page if the pool has none). *)
Definition page_of (t : HashTable) (key : Z) : bucket :=
  match ExtendibleHashTable.FetchBucketPage t (KeyToPageId key t) with
  | Some b => b
  | None => zero_page
  end.

(** The state after the calls [ops] on a new table ([init] if one fails). *)
Definition after (ops : list operation) : HashTable :=
  match run ops init with
  | Some t => t
  | None => init
  end.

(** The state a call returns ([t] if it fails). *)
Definition state_of (t : HashTable) (r : option (bool * HashTable)) : HashTable :=
  match r with
  | Some (_, t') => t'
  | None => t
  end.

(** [Insert(k, k)] for the keys [first, first + step, ...], [n] of them. *)
Fixpoint inserts (n : nat) (first step : Z) : list operation :=
  match n with
  | O => []
  | S n' => ExtendibleHashTable.OpInsert first first :: inserts n' (first + step) step
  end.

(** [Remove(k, k)] for the keys [first, first + step, ...], [n] of them. *)
Fixpoint removes (n : nat) (first step : Z) : list operation :=
  match n with
  | O => []
  | S n' => ExtendibleHashTable.OpRemove first first :: removes n' (first + step) step
  end.

(** The state in which [Remove(55, 55)] calls [Merge]: the keys 0 .. 56 were
    inserted, which split the first bucket into the even and the odd keys,
    and the odd keys were removed, the last one from its bucket page only. *)
Definition before_merge : HashTable :=
  match Remove_in_bucket (after (inserts 57 0 1 ++ removes 27 1 2)) 55 55 with
  | Some (_, _, t) => t
  | None => init
  end.

(** Calls that fill the directory: the 56 keys 0, 1024, ..., 56320 fill the
    first bucket, and each of nine calls [Insert(57344, 57344)] splits the
    bucket on a hash bit that all the keys share, so that the global depth
    reaches [MAX_DEPTH]. *)
Definition at_MAX_DEPTH : list operation :=
  inserts 56 0 1024 ++ repeat (ExtendibleHashTable.OpInsert 57344 57344) 9.

(** The bucket page after [Insert(k, k)] for [k = 0 .. n-1] on an empty page. *)
Fixpoint filled (n : nat) : bucket :=
  match n with
  | O => zero_page
  | S n' => snd (bucket_Insert (filled n') (Z.of_nat n') (Z.of_nat n'))
  end.

End IntTable.

(** * Properties *)

(** ** Arrays and bitmap bytes *)

Lemma length_upd {A : Type} (l : list A) (i : nat) (x : A) : length (upd l i x) = length l.
Proof.
  revert i; induction l as [|h t IH]; intros [|i]; simpl; auto.
Qed.

Lemma nth_upd_eq {A : Type} (l : list A) (i : nat) (x d : A) :
  (i < length l)%nat -> nth i (upd l i x) d = x.
Proof.
  revert i; induction l as [|h t IH]; intros [|i] Hi; simpl in *; try lia; auto.
  apply IH; lia.
Qed.

Lemma nth_upd_neq {A : Type} (l : list A) (i j : nat) (x d : A) :
  i <> j -> nth j (upd l i x) d = nth j l d.
Proof.
  revert i j; induction l as [|h t IH]; intros [|i] [|j] Hij; simpl; auto; try lia.
Qed.

Lemma Forall_upd {A : Type} (P : A -> Prop) (l : list A) (i : nat) (x : A) :
  Forall P l -> P x -> Forall P (upd l i x).
Proof.
  intros Hl Hx; revert i; induction Hl as [|h t Hh Ht IH]; intros [|i]; simpl;
    constructor; auto.
Qed.

Lemma Forall_nth_default {A : Type} (P : A -> Prop) (l : list A) (i : nat) (d : A) :
  Forall P l -> P d -> P (nth i l d).
Proof.
  intros Hl Hd. destruct (Nat.lt_ge_cases i (length l)) as [Hi|Hi].
  - rewrite Forall_forall in Hl. apply Hl, nth_In, Hi.
  - rewrite nth_overflow by exact Hi. exact Hd.
Qed.

Lemma to_char_range (x : Z) : -128 <= to_char x < 128.
Proof.
  unfold to_char. pose proof (Z.mod_pos_bound (x + 128) 256). lia.
Qed.

Lemma char_range_In (c : Z) : -128 <= c < 128 -> In c char_range.
Proof.
  intros Hc. unfold char_range. apply in_map_iff.
  exists (Z.to_nat (c + 128)). split; [lia|]. apply in_seq. lia.
Qed.

Lemma bit_range_In (k : nat) : (k < 8)%nat -> In k bit_range.
Proof.
  intros Hk. unfold bit_range. apply in_seq. lia.
Qed.

(** The facts on bytes below concern the 256 values of a [char] and the
    8 bit positions, and are checked on all of them. *)
Ltac check_all_chars :=
  match goal with
  | |- forallb _ _ = true => vm_compute; reflexivity
  end.

Lemma bit_lor_shiftl (c : Z) (k m : nat) :
  -128 <= c < 128 -> (k < 8)%nat -> (m < 8)%nat ->
  bit (to_char (Z.lor c (Z.shiftl 1 (Z.of_nat k)))) m = (m =? k)%nat || bit c m.
Proof.
  intros Hc Hk Hm.
  assert (H : forallb (fun c => forallb (fun k => forallb (fun m =>
              Bool.eqb (bit (to_char (Z.lor c (Z.shiftl 1 (Z.of_nat k)))) m)
                       ((m =? k)%nat || bit c m)) bit_range) bit_range) char_range = true)
    by check_all_chars.
  rewrite forallb_forall in H. specialize (H c (char_range_In c Hc)).
  rewrite forallb_forall in H. specialize (H k (bit_range_In k Hk)).
  rewrite forallb_forall in H. specialize (H m (bit_range_In m Hm)).
  apply eqb_prop in H. exact H.
Qed.

Lemma bit_land_lnot_shiftl (c : Z) (k m : nat) :
  -128 <= c < 128 -> (k < 8)%nat -> (m < 8)%nat ->
  bit (to_char (Z.land c (Z.lnot (Z.shiftl 1 (Z.of_nat k))))) m
  = negb (m =? k)%nat && bit c m.
Proof.
  intros Hc Hk Hm.
  assert (H : forallb (fun c => forallb (fun k => forallb (fun m =>
              Bool.eqb (bit (to_char (Z.land c (Z.lnot (Z.shiftl 1 (Z.of_nat k))))) m)
                       (negb (m =? k)%nat && bit c m)) bit_range) bit_range) char_range = true)
    by check_all_chars.
  rewrite forallb_forall in H. specialize (H c (char_range_In c Hc)).
  rewrite forallb_forall in H. specialize (H k (bit_range_In k Hk)).
  rewrite forallb_forall in H. specialize (H m (bit_range_In m Hm)).
  apply eqb_prop in H. exact H.
Qed.

(** A byte is determined by its eight bits. *)
Lemma char_ext (c c' : Z) :
  -128 <= c < 128 -> -128 <= c' < 128 ->
  (forall m, (m < 8)%nat -> bit c m = bit c' m) -> c = c'.
Proof.
  intros Hc Hc' Hbits.
  assert (H : forallb (fun c => forallb (fun c' =>
              implb (forallb (fun m => Bool.eqb (bit c m) (bit c' m)) bit_range) (c =? c'))
              char_range) char_range = true) by check_all_chars.
  rewrite forallb_forall in H. specialize (H c (char_range_In c Hc)).
  rewrite forallb_forall in H. specialize (H c' (char_range_In c' Hc')).
  assert (Hall : forallb (fun m => Bool.eqb (bit c m) (bit c' m)) bit_range = true).
  { apply forallb_forall. intros m Hm. apply in_seq in Hm.
    rewrite Hbits by lia. apply eqb_reflx. }
  rewrite Hall in H. simpl in H. lia.
Qed.

Lemma bit_ones (r m : nat) :
  (r <= 8)%nat -> (m < 8)%nat ->
  bit (to_char (to_int (Z.shiftl 1 (Z.of_nat r) - 1))) m = (m <? r)%nat.
Proof.
  intros Hr Hm.
  assert (H : forallb (fun r => forallb (fun m =>
              Bool.eqb (bit (to_char (to_int (Z.shiftl 1 (Z.of_nat r) - 1))) m) (m <? r)%nat)
              bit_range) (seq 0 9) = true) by check_all_chars.
  rewrite forallb_forall in H. specialize (H r). rewrite in_seq in H.
  specialize (H ltac:(lia)).
  rewrite forallb_forall in H. specialize (H m (bit_range_In m Hm)).
  apply eqb_prop in H. exact H.
Qed.

Lemma bit_char_255 (m : nat) : (m < 8)%nat -> bit (to_char 255) m = true.
Proof.
  intros Hm. do 8 (destruct m as [|m]; [reflexivity|]). lia.
Qed.

Lemma bit_zero (m : nat) : bit 0 m = false.
Proof.
  unfold bit. rewrite Z.land_0_l. reflexivity.
Qed.

Lemma slot_index (i j : nat) :
  i = j <-> (i / 8 = j / 8 /\ i mod 8 = j mod 8)%nat.
Proof.
  split; [intros ->; auto|]. intros [Hd Hm].
  rewrite (Nat.div_mod_eq i 8), (Nat.div_mod_eq j 8). congruence.
Qed.

(** ** The bucket page *)

Section BucketFacts.

Context (BUCKET_ARRAY_SIZE : nat) {KeyType ValueType : Type}.
Context (cmp : KeyType -> KeyType -> Z).
Context (value_eq : ValueType -> ValueType -> bool).
Context (default_key : KeyType) (default_value : ValueType).

Local Abbreviation bucket := (BucketPage.HashTableBucketPage KeyType ValueType).
Local Abbreviation bitmap_size := (BucketPage.bitmap_size BUCKET_ARRAY_SIZE).
Local Abbreviation wf_bucket := (BucketPage.wf_bucket BUCKET_ARRAY_SIZE).
Local Abbreviation slot := (BucketPage.slot default_key default_value).
Local Abbreviation IsReadable := (@BucketPage.IsReadable KeyType ValueType).
Local Abbreviation IsOccupied := (@BucketPage.IsOccupied KeyType ValueType).
Local Abbreviation SetReadable := (@BucketPage.SetReadable KeyType ValueType).
Local Abbreviation SetOccupied := (@BucketPage.SetOccupied KeyType ValueType).
Local Abbreviation SetUnreadable := (@BucketPage.SetUnreadable KeyType ValueType).
Local Abbreviation SetSlot := (@BucketPage.SetSlot KeyType ValueType).
Local Abbreviation zero_page :=
  (BucketPage.zero_page BUCKET_ARRAY_SIZE default_key default_value).
Local Abbreviation IsFull := (@BucketPage.IsFull BUCKET_ARRAY_SIZE KeyType ValueType).
Local Abbreviation IsEmpty := (@BucketPage.IsEmpty BUCKET_ARRAY_SIZE KeyType ValueType).
Local Abbreviation pair_match := (BucketPage.pair_match cmp value_eq default_key default_value).
Local Abbreviation key_match := (BucketPage.key_match cmp default_key default_value).
Local Abbreviation Insert_loop :=
  (BucketPage.Insert_loop BUCKET_ARRAY_SIZE cmp value_eq default_key default_value).
Local Abbreviation Insert :=
  (BucketPage.Insert BUCKET_ARRAY_SIZE cmp value_eq default_key default_value).
Local Abbreviation Remove_loop :=
  (BucketPage.Remove_loop cmp value_eq default_key default_value).
Local Abbreviation Remove :=
  (BucketPage.Remove BUCKET_ARRAY_SIZE cmp value_eq default_key default_value).
Local Abbreviation GetValue_loop :=
  (BucketPage.GetValue_loop cmp default_key default_value).
Local Abbreviation GetValue :=
  (BucketPage.GetValue BUCKET_ARRAY_SIZE cmp default_key default_value).

Lemma bitmap_index_lt (i : nat) :
  (i < BUCKET_ARRAY_SIZE)%nat -> (i / 8 < bitmap_size)%nat.
Proof.
  intros Hi. unfold BucketPage.bitmap_size.
  assert ((i / 8 <= (BUCKET_ARRAY_SIZE - 1) / 8)%nat)
    by (apply Nat.Div0.div_le_mono; lia).
  lia.
Qed.

Lemma readable_byte_range (b : bucket) (j : nat) :
  wf_bucket b -> -128 <= nth j (BucketPage.readable_ b) 0 < 128.
Proof.
  intros Hwf. apply Forall_nth_default; [apply Hwf | lia].
Qed.

Lemma occupied_byte_range (b : bucket) (j : nat) :
  wf_bucket b -> -128 <= nth j (BucketPage.occupied_ b) 0 < 128.
Proof.
  intros Hwf. apply Forall_nth_default; [apply Hwf | lia].
Qed.

Lemma same_byte_eqb (i j : nat) :
  (i / 8 = j / 8)%nat -> (j mod 8 =? i mod 8)%nat = (j =? i)%nat.
Proof.
  intros Hd.
  destruct (Nat.eqb_spec (j mod 8) (i mod 8)) as [Hm|Hm];
    destruct (Nat.eqb_spec j i) as [Hji|Hji]; auto; exfalso.
  - apply Hji, slot_index. auto.
Qed.

Lemma IsReadable_SetReadable (b : bucket) (i j : nat) :
  wf_bucket b -> (i < BUCKET_ARRAY_SIZE)%nat ->
  IsReadable (SetReadable b i) j = (j =? i)%nat || IsReadable b j.
Proof.
  intros Hwf Hi. unfold BucketPage.IsReadable, BucketPage.SetReadable; cbn [BucketPage.readable_].
  fold (bit (nth (j / 8) (BucketPage.readable_ b) 0) (j mod 8)).
  destruct (Nat.eq_dec (i / 8) (j / 8)) as [Hd|Hd].
  - rewrite <- Hd, nth_upd_eq
      by (rewrite (BucketPage.wf_readable_len _ _ Hwf); apply bitmap_index_lt, Hi).
    match goal with |- negb (Z.land ?c (Z.shiftl 1 (Z.of_nat ?m)) =? 0) = _ =>
      change (negb (Z.land c (Z.shiftl 1 (Z.of_nat m)) =? 0)) with (bit c m) end.
    rewrite bit_lor_shiftl
      by (try apply readable_byte_range; auto; apply Nat.mod_upper_bound; lia).
    rewrite (same_byte_eqb i j Hd), Hd. reflexivity.
  - rewrite nth_upd_neq by exact Hd.
    destruct (Nat.eqb_spec j i) as [->|_]; [congruence | reflexivity].
Qed.

Lemma IsReadable_SetUnreadable (b : bucket) (i j : nat) :
  wf_bucket b -> (i < BUCKET_ARRAY_SIZE)%nat ->
  IsReadable (SetUnreadable b i) j = negb (j =? i)%nat && IsReadable b j.
Proof.
  intros Hwf Hi. unfold BucketPage.IsReadable, BucketPage.SetUnreadable; cbn [BucketPage.readable_].
  fold (bit (nth (j / 8) (BucketPage.readable_ b) 0) (j mod 8)).
  destruct (Nat.eq_dec (i / 8) (j / 8)) as [Hd|Hd].
  - rewrite <- Hd, nth_upd_eq
      by (rewrite (BucketPage.wf_readable_len _ _ Hwf); apply bitmap_index_lt, Hi).
    match goal with |- negb (Z.land ?c (Z.shiftl 1 (Z.of_nat ?m)) =? 0) = _ =>
      change (negb (Z.land c (Z.shiftl 1 (Z.of_nat m)) =? 0)) with (bit c m) end.
    rewrite bit_land_lnot_shiftl
      by (try apply readable_byte_range; auto; apply Nat.mod_upper_bound; lia).
    rewrite (same_byte_eqb i j Hd), Hd. reflexivity.
  - rewrite nth_upd_neq by exact Hd.
    destruct (Nat.eqb_spec j i) as [->|_]; [congruence | reflexivity].
Qed.

Lemma IsOccupied_SetOccupied (b : bucket) (i j : nat) :
  wf_bucket b -> (i < BUCKET_ARRAY_SIZE)%nat ->
  IsOccupied (SetOccupied b i) j = (j =? i)%nat || IsOccupied b j.
Proof.
  intros Hwf Hi. unfold BucketPage.IsOccupied, BucketPage.SetOccupied; cbn [BucketPage.occupied_].
  fold (bit (nth (j / 8) (BucketPage.occupied_ b) 0) (j mod 8)).
  destruct (Nat.eq_dec (i / 8) (j / 8)) as [Hd|Hd].
  - rewrite <- Hd, nth_upd_eq
      by (rewrite (BucketPage.wf_occupied_len _ _ Hwf); apply bitmap_index_lt, Hi).
    match goal with |- negb (Z.land ?c (Z.shiftl 1 (Z.of_nat ?m)) =? 0) = _ =>
      change (negb (Z.land c (Z.shiftl 1 (Z.of_nat m)) =? 0)) with (bit c m) end.
    rewrite bit_lor_shiftl
      by (try apply occupied_byte_range; auto; apply Nat.mod_upper_bound; lia).
    rewrite (same_byte_eqb i j Hd), Hd. reflexivity.
  - rewrite nth_upd_neq by exact Hd.
    destruct (Nat.eqb_spec j i) as [->|_]; [congruence | reflexivity].
Qed.

Lemma slot_SetSlot (b : bucket) (i j : nat) (key : KeyType) (value : ValueType) :
  wf_bucket b -> (i < BUCKET_ARRAY_SIZE)%nat ->
  slot (SetSlot b i key value) j = if (j =? i)%nat then (key, value) else slot b j.
Proof.
  intros Hwf Hi. unfold BucketPage.slot, BucketPage.SetSlot; simpl.
  destruct (Nat.eqb_spec j i) as [->|Hji].
  - apply nth_upd_eq. rewrite (BucketPage.wf_array_len _ _ Hwf). exact Hi.
  - apply nth_upd_neq. auto.
Qed.

Lemma wf_SetReadable (b : bucket) (i : nat) : wf_bucket b -> wf_bucket (SetReadable b i).
Proof.
  intros [H1 H2 H3 H4 H5]. constructor; simpl; auto.
  - rewrite length_upd; auto.
  - apply Forall_upd; auto. apply to_char_range.
Qed.

Lemma wf_SetUnreadable (b : bucket) (i : nat) : wf_bucket b -> wf_bucket (SetUnreadable b i).
Proof.
  intros [H1 H2 H3 H4 H5]. constructor; simpl; auto.
  - rewrite length_upd; auto.
  - apply Forall_upd; auto. apply to_char_range.
Qed.

Lemma wf_SetOccupied (b : bucket) (i : nat) : wf_bucket b -> wf_bucket (SetOccupied b i).
Proof.
  intros [H1 H2 H3 H4 H5]. constructor; simpl; auto.
  - rewrite length_upd; auto.
  - apply Forall_upd; auto. apply to_char_range.
Qed.

Lemma wf_SetSlot (b : bucket) (i : nat) (key : KeyType) (value : ValueType) :
  wf_bucket b -> wf_bucket (SetSlot b i key value).
Proof.
  intros [H1 H2 H3 H4 H5]. constructor; simpl; auto.
  rewrite length_upd; auto.
Qed.

Lemma wf_zero_page : wf_bucket zero_page.
Proof.
  constructor; simpl; try apply repeat_length;
    apply Forall_forall; intros c Hc; apply repeat_spec in Hc; lia.
Qed.

Lemma nth_repeat_zero (n j : nat) : nth j (repeat 0 n) 0 = 0.
Proof.
  destruct (Nat.lt_ge_cases j n) as [Hj|Hj].
  - apply nth_repeat_lt. exact Hj.
  - apply nth_overflow. rewrite repeat_length. exact Hj.
Qed.

Lemma IsReadable_zero_page (i : nat) : IsReadable zero_page i = false.
Proof.
  unfold BucketPage.IsReadable, BucketPage.zero_page; simpl.
  rewrite nth_repeat_zero. reflexivity.
Qed.

Lemma IsOccupied_zero_page (i : nat) : IsOccupied zero_page i = false.
Proof.
  unfold BucketPage.IsOccupied, BucketPage.zero_page; simpl.
  rewrite nth_repeat_zero. reflexivity.
Qed.

Lemma IsReadable_byte (b : bucket) (j m : nat) :
  (m < 8)%nat -> IsReadable b (8 * j + m) = bit (nth j (BucketPage.readable_ b) 0) m.
Proof.
  intros Hm. unfold BucketPage.IsReadable, bit.
  replace ((8 * j + m) / 8)%nat with j
    by (apply Nat.div_unique with m; lia).
  replace ((8 * j + m) mod 8)%nat with m
    by (apply Nat.mod_unique with j; lia).
  reflexivity.
Qed.

Lemma IsReadable_bit (b : bucket) (i : nat) :
  IsReadable b i = bit (nth (i / 8) (BucketPage.readable_ b) 0) (i mod 8).
Proof. reflexivity. Qed.

Lemma IsFull_loop_true (b : bucket) (n i : nat) :
  BucketPage.IsFull_loop b n i = true <->
  (forall j, (i <= j < i + n)%nat -> nth j (BucketPage.readable_ b) 0 = to_char 255).
Proof.
  revert i; induction n as [|n IH]; intros i; simpl.
  - split; [intros _ j Hj; lia | auto].
  - destruct (Z.eqb_spec (nth i (BucketPage.readable_ b) 0) (to_char 255)) as [He|He]; simpl.
    + rewrite IH. split; intros H j Hj.
      * destruct (Nat.eq_dec j i) as [->|Hne]; [exact He | apply H; lia].
      * apply H; lia.
    + split; [discriminate|]. intros H. exfalso. apply He, H. lia.
Qed.

Lemma IsEmpty_loop_true (b : bucket) (n i : nat) :
  BucketPage.IsEmpty_loop b n i = true <->
  (forall j, (i <= j < i + n)%nat -> nth j (BucketPage.readable_ b) 0 = 0).
Proof.
  revert i; induction n as [|n IH]; intros i; simpl.
  - split; [intros _ j Hj; lia | auto].
  - change (to_char 0) with 0.
    destruct (Z.eqb_spec (nth i (BucketPage.readable_ b) 0) 0) as [He|He]; simpl.
    + rewrite IH. split; intros H j Hj.
      * destruct (Nat.eq_dec j i) as [->|Hne]; [exact He | apply H; lia].
      * apply H; lia.
    + split; [discriminate|]. intros H. exfalso. apply He, H. lia.
Qed.

Lemma char_255_bits (c : Z) :
  -128 <= c < 128 -> (c = to_char 255 <-> forall m, (m < 8)%nat -> bit c m = true).
Proof.
  intros Hc. split.
  - intros -> m Hm. apply bit_char_255, Hm.
  - intros H. apply char_ext; [exact Hc | apply to_char_range |].
    intros m Hm. rewrite H, bit_char_255; auto.
Qed.

Lemma char_zero_bits (c : Z) :
  -128 <= c < 128 -> (c = 0 <-> forall m, (m < 8)%nat -> bit c m = false).
Proof.
  intros Hc. split.
  - intros -> m Hm. apply bit_zero.
  - intros H. apply char_ext; [exact Hc | lia |].
    intros m Hm. rewrite H, bit_zero; auto.
Qed.

Lemma char_ones_bits (c : Z) (r : nat) :
  -128 <= c < 128 -> (r <= 8)%nat ->
  (c = to_char (to_int (Z.shiftl 1 (Z.of_nat r) - 1)) <->
   forall m, (m < 8)%nat -> bit c m = (m <? r)%nat).
Proof.
  intros Hc Hr. split.
  - intros -> m Hm. apply bit_ones; auto.
  - intros H. apply char_ext; [exact Hc | apply to_char_range |].
    intros m Hm. rewrite H, bit_ones; auto.
Qed.

(** [IsEmpty] on a well-formed page: no slot is readable. *)
Lemma IsEmpty_true (b : bucket) :
  wf_bucket b -> (IsEmpty b = true <-> forall i, IsReadable b i = false).
Proof.
  intros Hwf. unfold BucketPage.IsEmpty. rewrite IsEmpty_loop_true. split.
  - intros H i. rewrite IsReadable_bit.
    destruct (Nat.lt_ge_cases (i / 8) bitmap_size) as [Hlt|Hge].
    + rewrite H by (unfold BucketPage.bitmap_size in Hlt; lia). apply bit_zero.
    + rewrite nth_overflow by (rewrite (BucketPage.wf_readable_len _ _ Hwf); exact Hge).
      apply bit_zero.
  - intros H j Hj. apply char_zero_bits; [apply readable_byte_range, Hwf|].
    intros m Hm. rewrite <- IsReadable_byte by exact Hm. apply H.
Qed.

Lemma ones_char_small (r : nat) :
  (r < 8)%nat ->
  to_char (to_int (Z.shiftl 1 (Z.of_nat r) - 1)) = Z.shiftl 1 (Z.of_nat r) - 1.
Proof.
  intros Hr. do 8 (destruct r as [|r]; [reflexivity|]). lia.
Qed.

(** [IsFull] read off the code: the whole bytes are [0xff], the trailing
    byte, if any, is [(1 << rest) - 1]. *)
Lemma IsFull_bytes (b : bucket) :
  IsFull b = true <->
  (forall j, (j < BUCKET_ARRAY_SIZE / 8)%nat ->
             nth j (BucketPage.readable_ b) 0 = to_char 255)
  /\ ((BUCKET_ARRAY_SIZE mod 8 <> 0)%nat ->
      nth ((BUCKET_ARRAY_SIZE - 1) / 8) (BucketPage.readable_ b) 0
      = Z.shiftl 1 (Z.of_nat (BUCKET_ARRAY_SIZE mod 8)) - 1).
Proof.
  unfold BucketPage.IsFull.
  pose proof (Nat.div_mod_eq BUCKET_ARRAY_SIZE 8) as Hdm.
  pose proof (Nat.mod_upper_bound BUCKET_ARRAY_SIZE 8 ltac:(lia)) as Hr.
  replace (BUCKET_ARRAY_SIZE - BUCKET_ARRAY_SIZE / 8 * 8)%nat
    with (BUCKET_ARRAY_SIZE mod 8)%nat by lia.
  rewrite ones_char_small by exact Hr.
  destruct (BucketPage.IsFull_loop b (BUCKET_ARRAY_SIZE / 8) 0) eqn:Hloop.
  - rewrite IsFull_loop_true in Hloop.
    destruct (Nat.eqb_spec (BUCKET_ARRAY_SIZE mod 8) 0) as [Hz|Hz]; cbn [negb andb].
    + split; [intros _|reflexivity].
      split; [intros j Hj; apply Hloop; lia | intros Hc; exfalso; apply Hc, Hz].
    + rewrite negb_involutive, Z.eqb_eq. split.
      * intros He. split; [intros j Hj; apply Hloop; lia | auto].
      * intros [_ He]. auto.
  - split; [discriminate|]. intros [Hall _].
    assert (Ht : BucketPage.IsFull_loop b (BUCKET_ARRAY_SIZE / 8) 0 = true)
      by (apply IsFull_loop_true; intros j Hj; apply Hall; lia).
    rewrite Ht in Hloop. discriminate.
Qed.

(** [IsFull] and the readable bits, and [IsFull] and the bytes of the bitmap. *)
Lemma IsFull_readable_and_bytes (b : bucket) :
  wf_bucket b ->
  (forall i, (BUCKET_ARRAY_SIZE <= i < 8 * bitmap_size)%nat -> IsReadable b i = false) ->
  (IsFull b = true <-> forall i, (i < BUCKET_ARRAY_SIZE)%nat -> IsReadable b i = true)
  /\ (IsFull b = true <->
      (forall j, (j < BUCKET_ARRAY_SIZE / 8)%nat ->
                 nth j (BucketPage.readable_ b) 0 = to_char 255)
      /\ ((BUCKET_ARRAY_SIZE mod 8 <> 0)%nat ->
          nth ((BUCKET_ARRAY_SIZE - 1) / 8) (BucketPage.readable_ b) 0
          = Z.shiftl 1 (Z.of_nat (BUCKET_ARRAY_SIZE mod 8)) - 1)).
Proof.
  intros Hwf Htail. split; [|apply IsFull_bytes].
  rewrite IsFull_bytes.
  pose proof (Nat.div_mod_eq BUCKET_ARRAY_SIZE 8) as Hdm.
  pose proof (Nat.mod_upper_bound BUCKET_ARRAY_SIZE 8 ltac:(lia)) as Hr.
  set (q := (BUCKET_ARRAY_SIZE / 8)%nat) in Hdm |- *.
  set (r := (BUCKET_ARRAY_SIZE mod 8)%nat) in Hdm, Hr |- *.
  assert (Hlast : r <> 0%nat -> ((BUCKET_ARRAY_SIZE - 1) / 8)%nat = q).
  { intros Hr0. symmetry. apply Nat.div_unique with (r - 1)%nat; lia. }
  split.
  - intros [Hwhole Hrest] i Hi.
    rewrite IsReadable_bit.
    destruct (Nat.lt_ge_cases (i / 8) q) as [Hlt|Hge].
    + rewrite Hwhole by exact Hlt. apply bit_char_255, Nat.mod_upper_bound. lia.
    + pose proof (Nat.div_mod_eq i 8) as Hi8.
      pose proof (Nat.mod_upper_bound i 8 ltac:(lia)) as Him.
      assert (Hq : (i / 8)%nat = q) by lia.
      assert (Hr0 : r <> 0%nat) by lia.
      rewrite Hq, <- (Hlast Hr0), (Hrest Hr0), <- ones_char_small by exact Hr.
      rewrite bit_ones by lia. apply Nat.ltb_lt. lia.
  - intros Hall. split.
    + intros j Hj. apply char_255_bits; [apply readable_byte_range, Hwf|].
      intros m Hm. rewrite <- IsReadable_byte by exact Hm. apply Hall. lia.
    + intros Hr0. rewrite <- ones_char_small by exact Hr.
      apply char_ones_bits; [apply readable_byte_range, Hwf | lia |].
      intros m Hm. rewrite (Hlast Hr0), <- IsReadable_byte by exact Hm.
      destruct (Nat.ltb_spec m r) as [Hlt|Hge].
      * apply Hall. lia.
      * apply Htail. unfold BucketPage.bitmap_size. rewrite (Hlast Hr0). lia.
Qed.

(** C8. On a page whose readable bitmap has no bit set beyond slot
    [BUCKET_ARRAY_SIZE - 1], [IsFull()] is true exactly when every slot's
    readable bit is set; and it is true exactly when every whole byte of the
    bitmap is [0xff] and the trailing byte, when [BUCKET_ARRAY_SIZE mod 8]
    is not zero, is [(1 << rest) - 1]. *)
Theorem IsFull_iff_all_readable (b : bucket) :
  wf_bucket b ->
  (forall i, (BUCKET_ARRAY_SIZE <= i < 8 * bitmap_size)%nat -> IsReadable b i = false) ->
  (IsFull b = true <-> forall i, (i < BUCKET_ARRAY_SIZE)%nat -> IsReadable b i = true)
  /\ (IsFull b = true <->
      (forall j, (j < BUCKET_ARRAY_SIZE / 8)%nat ->
                 nth j (BucketPage.readable_ b) 0 = to_char 255)
      /\ ((BUCKET_ARRAY_SIZE mod 8 <> 0)%nat ->
          nth ((BUCKET_ARRAY_SIZE - 1) / 8) (BucketPage.readable_ b) 0
          = Z.shiftl 1 (Z.of_nat (BUCKET_ARRAY_SIZE mod 8)) - 1)).
Proof.
  intros Hwf Htail. exact (IsFull_readable_and_bytes b Hwf Htail).
Qed.

Local Abbreviation scanned := (@BucketPage.scanned BUCKET_ARRAY_SIZE KeyType ValueType).
Local Abbreviation probe_stop := (@BucketPage.probe_stop KeyType ValueType).

Lemma Insert_loop_spec (b : bucket) (key : KeyType) (value : ValueType)
    (n i insert_index : nat) :
  (i + n = BUCKET_ARRAY_SIZE)%nat ->
  (forall j, (j < i)%nat -> probe_stop b j = false) ->
  (forall j, (j < i)%nat -> pair_match b key value j = false) ->
  (insert_index = BUCKET_ARRAY_SIZE -> forall j, (j < i)%nat -> IsReadable b j = true) ->
  (insert_index <> BUCKET_ARRAY_SIZE ->
   (insert_index < i)%nat /\ IsReadable b insert_index = false
   /\ forall m, (m < insert_index)%nat -> IsReadable b m = true) ->
  match Insert_loop b key value n i insert_index with
  | None => exists j, scanned b j /\ pair_match b key value j = true
  | Some r =>
      (forall j, scanned b j -> pair_match b key value j = false)
      /\ ((r = BUCKET_ARRAY_SIZE /\ forall j, scanned b j -> IsReadable b j = true)
          \/ (scanned b r /\ IsReadable b r = false
              /\ forall m, (m < r)%nat -> IsReadable b m = true))
  end.
Proof.
  revert i insert_index; induction n as [|n IH]; intros i ins Hn Hstop Hdup Hfull Hfree.
  - simpl. split.
    + intros j [Hj _]. apply Hdup. lia.
    + destruct (Nat.eq_dec ins BUCKET_ARRAY_SIZE) as [He|Hne].
      * left. split; [exact He|]. intros j [Hj _]. apply Hfull; [exact He | lia].
      * right. destruct (Hfree Hne) as (Hlt & Hnr & Hbefore).
        repeat split; auto; try lia. intros j Hj. apply Hstop. lia.
  - simpl. destruct (pair_match b key value i) eqn:Hpm.
    + exists i. split; [split; [lia | exact Hstop] | exact Hpm].
    + destruct (IsReadable b i) eqn:Hr; cbn [negb].
      * apply IH; try lia.
        -- intros j Hj. destruct (Nat.eq_dec j i) as [->|Hji]; [|apply Hstop; lia].
           unfold BucketPage.probe_stop. rewrite Hr. reflexivity.
        -- intros j Hj. destruct (Nat.eq_dec j i) as [->|Hji]; [exact Hpm | apply Hdup; lia].
        -- intros He j Hj. destruct (Nat.eq_dec j i) as [->|Hji]; [exact Hr|].
           apply Hfull; [exact He | lia].
        -- intros Hne. destruct (Hfree Hne) as (Hlt & Hnr & Hbefore).
           repeat split; auto; lia.
      * set (ins' := if (ins =? BUCKET_ARRAY_SIZE)%nat then i else ins).
        assert (Hins' : (ins' < S i)%nat /\ IsReadable b ins' = false
                        /\ forall m, (m < ins')%nat -> IsReadable b m = true).
        { unfold ins'. destruct (Nat.eqb_spec ins BUCKET_ARRAY_SIZE) as [He|Hne].
          - split; [lia | split; [exact Hr | intros m Hm; apply Hfull; auto]].
          - destruct (Hfree Hne) as (Hlt & Hnr & Hbefore).
            split; [lia | split; [exact Hnr | exact Hbefore]]. }
        destruct Hins' as (Hlt' & Hnr' & Hbefore').
        destruct (IsOccupied b i) eqn:Ho; cbn [negb].
        -- apply IH; try lia.
           ++ intros j Hj. destruct (Nat.eq_dec j i) as [->|Hji]; [|apply Hstop; lia].
              unfold BucketPage.probe_stop. rewrite Ho, andb_false_r. reflexivity.
           ++ intros j Hj. destruct (Nat.eq_dec j i) as [->|Hji];
                [exact Hpm | apply Hdup; lia].
           ++ intros _. split; [lia | split; [exact Hnr' | exact Hbefore']].
        -- assert (Hstop_i : probe_stop b i = true)
             by (unfold BucketPage.probe_stop; rewrite Hr, Ho; reflexivity).
           assert (Hle : forall j, scanned b j -> (j <= i)%nat).
           { intros j [Hj Hs]. destruct (Nat.le_gt_cases j i) as [Hle|Hgt]; [exact Hle|].
             specialize (Hs i Hgt). congruence. }
           split.
           ++ intros j Hj. specialize (Hle j Hj).
              destruct (Nat.eq_dec j i) as [->|Hji]; [exact Hpm | apply Hdup; lia].
           ++ right. repeat split; auto; try lia. intros j Hj. apply Hstop. lia.
Qed.

Lemma scanned_up_to_first_unoccupied (b : bucket) (i : nat) :
  BucketPage.readable_implies_occupied BUCKET_ARRAY_SIZE b ->
  (scanned b i <-> BucketPage.up_to_first_unoccupied BUCKET_ARRAY_SIZE b i).
Proof.
  intros Hinv. unfold BucketPage.scanned, BucketPage.up_to_first_unoccupied.
  split; intros [Hi H]; split; auto; intros j Hj.
  - specialize (H j Hj). unfold BucketPage.probe_stop in H.
    destruct (IsOccupied b j) eqn:Ho; auto.
    destruct (IsReadable b j) eqn:Hr; [|discriminate].
    rewrite <- Ho. apply Hinv; [lia | exact Hr].
  - unfold BucketPage.probe_stop. rewrite (H j Hj), andb_false_r. reflexivity.
Qed.

Local Abbreviation write_slot := (@BucketPage.write_slot KeyType ValueType).

(** The two ways [Insert] ends. *)
Lemma Insert_outcome (b : bucket) (key : KeyType) (value : ValueType) :
  (Insert b key value = (false, b)
   /\ ((exists j, scanned b j /\ pair_match b key value j = true)
       \/ ((forall j, scanned b j -> pair_match b key value j = false)
           /\ forall j, scanned b j -> IsReadable b j = true)))
  \/ (exists r, Insert b key value = (true, write_slot b r key value)
       /\ (forall j, scanned b j -> pair_match b key value j = false)
       /\ scanned b r /\ IsReadable b r = false
       /\ forall m, (m < r)%nat -> IsReadable b m = true).
Proof.
  assert (H := Insert_loop_spec b key value BUCKET_ARRAY_SIZE 0 BUCKET_ARRAY_SIZE
                 (Nat.add_0_l _)
                 ltac:(intros; exfalso; lia) ltac:(intros; exfalso; lia)
                 ltac:(intros; exfalso; lia) ltac:(intros; exfalso; lia)).
  unfold BucketPage.Insert.
  destruct (Insert_loop b key value BUCKET_ARRAY_SIZE 0 BUCKET_ARRAY_SIZE) as [r|].
  - destruct H as [Hnodup [[He Hall]|(Hs & Hnr & Hbefore)]].
    + left. subst r. rewrite Nat.eqb_refl. auto.
    + right. exists r. pose proof Hs as [Hr _].
      destruct (Nat.eqb_spec r BUCKET_ARRAY_SIZE) as [He|_]; [lia|].
      repeat split; auto. apply Hs.
  - left. split; [reflexivity|]. left. exact H.
Qed.

Lemma IsReadable_write_slot (b : bucket) (i j : nat) (key : KeyType) (value : ValueType) :
  wf_bucket b -> (i < BUCKET_ARRAY_SIZE)%nat ->
  IsReadable (write_slot b i key value) j = (j =? i)%nat || IsReadable b j.
Proof.
  intros Hwf Hi. unfold BucketPage.write_slot.
  rewrite IsReadable_SetReadable; auto using wf_SetOccupied, wf_SetSlot.
Qed.

Lemma IsOccupied_write_slot (b : bucket) (i j : nat) (key : KeyType) (value : ValueType) :
  wf_bucket b -> (i < BUCKET_ARRAY_SIZE)%nat ->
  IsOccupied (write_slot b i key value) j = (j =? i)%nat || IsOccupied b j.
Proof.
  intros Hwf Hi. unfold BucketPage.write_slot.
  change (IsOccupied (SetReadable ?x i) j) with (IsOccupied x j).
  rewrite IsOccupied_SetOccupied; auto using wf_SetSlot.
Qed.

Lemma slot_write_slot (b : bucket) (i j : nat) (key : KeyType) (value : ValueType) :
  wf_bucket b -> (i < BUCKET_ARRAY_SIZE)%nat ->
  slot (write_slot b i key value) j = if (j =? i)%nat then (key, value) else slot b j.
Proof.
  intros Hwf Hi. unfold BucketPage.write_slot.
  change (slot (SetReadable (SetOccupied ?x i) i) j) with (slot x j).
  apply slot_SetSlot; auto.
Qed.

Lemma wf_write_slot (b : bucket) (i : nat) (key : KeyType) (value : ValueType) :
  wf_bucket b -> wf_bucket (write_slot b i key value).
Proof.
  intros Hwf. unfold BucketPage.write_slot.
  auto using wf_SetReadable, wf_SetOccupied, wf_SetSlot.
Qed.

(** C3. [Insert] on a bucket page.  With the scan running up to the first
    slot whose occupied bit is clear: if a readable slot in that range holds
    the same key and value, [Insert] returns false and leaves the page as it
    is; otherwise, if the range has a slot that is not readable, the pair is
    written into the earliest one, both bits of that slot are set, nothing
    else changes and the result is true; and if the range has no such slot,
    [Insert] returns false and leaves the page as it is. *)
Theorem Insert_spec (b : bucket) (key : KeyType) (value : ValueType) :
  wf_bucket b ->
  BucketPage.readable_implies_occupied BUCKET_ARRAY_SIZE b ->
  let in_scan := BucketPage.up_to_first_unoccupied BUCKET_ARRAY_SIZE b in
  ((exists i, in_scan i /\ pair_match b key value i = true) ->
   Insert b key value = (false, b))
  /\ ((forall i, in_scan i -> pair_match b key value i = false) ->
      forall j, in_scan j -> IsReadable b j = false ->
      (forall m, (m < j)%nat -> IsReadable b m = true) ->
      exists b', Insert b key value = (true, b')
        /\ slot b' j = (key, value)
        /\ IsOccupied b' j = true /\ IsReadable b' j = true
        /\ forall i, i <> j ->
             slot b' i = slot b i
             /\ IsOccupied b' i = IsOccupied b i
             /\ IsReadable b' i = IsReadable b i)
  /\ ((forall i, in_scan i -> pair_match b key value i = false) ->
      (forall i, in_scan i -> IsReadable b i = true) ->
      Insert b key value = (false, b)).
Proof.
  intros Hwf Hinv in_scan.
  assert (Hscan : forall i, scanned b i <-> in_scan i)
    by (intros i; apply scanned_up_to_first_unoccupied, Hinv).
  destruct (Insert_outcome b key value)
    as [[Hret Hwhy]|(r & Hret & Hnodup & Hsr & Hnr & Hbefore)].
  - split; [auto|]. split; [|auto].
    intros Hnodup j Hj Hnrj _. exfalso.
    destruct Hwhy as [(i & Hi & Hpm)|[_ Hall]].
    + rewrite Hnodup in Hpm by (apply Hscan, Hi). discriminate.
    + rewrite Hall in Hnrj by (apply Hscan, Hj). discriminate.
  - split; [|split].
    + intros (i & Hi & Hpm). rewrite Hnodup in Hpm by (apply Hscan, Hi). discriminate.
    + intros _ j Hj Hnrj Hbeforej.
      assert (r = j).
      { destruct (Nat.lt_trichotomy r j) as [Hlt|[He|Hgt]]; auto.
        - rewrite Hbeforej in Hnr by exact Hlt. discriminate.
        - rewrite Hbefore in Hnrj by exact Hgt. discriminate. }
      subst r. destruct Hj as [Hj _].
      exists (write_slot b j key value). split; [exact Hret|].
      rewrite slot_write_slot, IsOccupied_write_slot, IsReadable_write_slot by auto.
      rewrite Nat.eqb_refl. repeat split; auto.
      * rewrite slot_write_slot by auto.
        destruct (Nat.eqb_spec i j); [contradiction | reflexivity].
      * rewrite IsOccupied_write_slot by auto.
        destruct (Nat.eqb_spec i j); [contradiction | reflexivity].
      * rewrite IsReadable_write_slot by auto.
        destruct (Nat.eqb_spec i j); [contradiction | reflexivity].
    + intros _ Hall. rewrite Hall in Hnr by (apply Hscan, Hsr). discriminate.
Qed.

End BucketFacts.

(** ** The bucket invariant, and what the page holds *)

Section BucketInvariant.

Context (BUCKET_ARRAY_SIZE : nat) {KeyType ValueType : Type}.
Context (cmp : KeyType -> KeyType -> Z).
Context (value_eq : ValueType -> ValueType -> bool).
Context (default_key : KeyType) (default_value : ValueType).

(** The comparator returns 0 on equal keys only, and [operator==] on values
    is equality. *)
Hypothesis cmp_spec : forall a b, cmp a b = 0 <-> a = b.
Hypothesis value_eq_spec : forall a b, value_eq a b = true <-> a = b.

Local Abbreviation bucket := (BucketPage.HashTableBucketPage KeyType ValueType).
Local Abbreviation wf_bucket := (BucketPage.wf_bucket BUCKET_ARRAY_SIZE).
Local Abbreviation bucket_inv :=
  (BucketPage.bucket_inv BUCKET_ARRAY_SIZE default_key default_value).
Local Abbreviation holds := (BucketPage.holds BUCKET_ARRAY_SIZE default_key default_value).
Local Abbreviation slot := (BucketPage.slot default_key default_value).
Local Abbreviation IsReadable := (@BucketPage.IsReadable KeyType ValueType).
Local Abbreviation IsOccupied := (@BucketPage.IsOccupied KeyType ValueType).
Local Abbreviation SetUnreadable := (@BucketPage.SetUnreadable KeyType ValueType).
Local Abbreviation zero_page :=
  (BucketPage.zero_page BUCKET_ARRAY_SIZE default_key default_value).
Local Abbreviation IsFull := (@BucketPage.IsFull BUCKET_ARRAY_SIZE KeyType ValueType).
Local Abbreviation IsEmpty := (@BucketPage.IsEmpty BUCKET_ARRAY_SIZE KeyType ValueType).
Local Abbreviation pair_match := (BucketPage.pair_match cmp value_eq default_key default_value).
Local Abbreviation key_match := (BucketPage.key_match cmp default_key default_value).
Local Abbreviation Insert :=
  (BucketPage.Insert BUCKET_ARRAY_SIZE cmp value_eq default_key default_value).
Local Abbreviation Remove_loop :=
  (BucketPage.Remove_loop cmp value_eq default_key default_value).
Local Abbreviation Remove :=
  (BucketPage.Remove BUCKET_ARRAY_SIZE cmp value_eq default_key default_value).
Local Abbreviation GetValue_loop :=
  (BucketPage.GetValue_loop cmp default_key default_value).
Local Abbreviation GetValue :=
  (BucketPage.GetValue BUCKET_ARRAY_SIZE cmp default_key default_value).
Local Abbreviation scanned := (@BucketPage.scanned BUCKET_ARRAY_SIZE KeyType ValueType).
Local Abbreviation probe_stop := (@BucketPage.probe_stop KeyType ValueType).
Local Abbreviation write_slot := (@BucketPage.write_slot KeyType ValueType).

Lemma pair_match_true (b : bucket) (key : KeyType) (value : ValueType) (s : nat) :
  pair_match b key value s = true <-> IsReadable b s = true /\ slot b s = (key, value).
Proof.
  unfold BucketPage.pair_match. rewrite !andb_true_iff, Z.eqb_eq, cmp_spec, value_eq_spec.
  destruct (slot b s) as [k v]; simpl. split.
  - intros [[Hr ->] ->]. auto.
  - intros [Hr He]. injection He as -> ->. auto.
Qed.

Lemma key_match_true (b : bucket) (key : KeyType) (s : nat) :
  key_match b key s = true <-> IsReadable b s = true /\ fst (slot b s) = key.
Proof.
  unfold BucketPage.key_match. rewrite andb_true_iff, Z.eqb_eq, cmp_spec. tauto.
Qed.

Lemma bucket_inv_zero_page : bucket_inv zero_page.
Proof.
  constructor.
  - apply wf_zero_page.
  - intros i _ H. rewrite IsReadable_zero_page in H. discriminate.
  - intros i j _ _ H. rewrite IsOccupied_zero_page in H. discriminate.
  - intros i _. apply IsReadable_zero_page.
  - intros i j _ _ H. rewrite IsReadable_zero_page in H. discriminate.
Qed.

Lemma not_holds_zero_page (key : KeyType) (value : ValueType) : ~ holds zero_page key value.
Proof.
  intros (s & _ & Hr & _). rewrite IsReadable_zero_page in Hr. discriminate.
Qed.

(** On a page that satisfies the invariant the scan reaches every occupied
    slot, hence every readable one. *)
Lemma occupied_scanned (b : bucket) (s : nat) :
  bucket_inv b -> (s < BUCKET_ARRAY_SIZE)%nat -> IsOccupied b s = true -> scanned b s.
Proof.
  intros Hinv Hs Ho. split; [exact Hs|]. intros j Hj.
  unfold BucketPage.probe_stop.
  rewrite (BucketPage.inv_occupied_prefix _ _ _ _ Hinv j s Hj Hs Ho), andb_false_r.
  reflexivity.
Qed.

Lemma readable_scanned (b : bucket) (s : nat) :
  bucket_inv b -> (s < BUCKET_ARRAY_SIZE)%nat -> IsReadable b s = true -> scanned b s.
Proof.
  intros Hinv Hs Hr. apply occupied_scanned; auto.
  apply (BucketPage.inv_readable_occupied _ _ _ _ Hinv); auto.
Qed.

(** If every slot the scan reaches is readable, every slot is. *)
Lemma all_scanned_readable (b : bucket) :
  (forall j, scanned b j -> IsReadable b j = true) ->
  forall s, (s < BUCKET_ARRAY_SIZE)%nat -> scanned b s /\ IsReadable b s = true.
Proof.
  intros Hall s. induction s as [s IH] using lt_wf_ind. intros Hs.
  assert (Hsc : scanned b s).
  { split; [exact Hs|]. intros j Hj. destruct (IH j Hj ltac:(lia)) as [_ Hr].
    unfold BucketPage.probe_stop. rewrite Hr. reflexivity. }
  split; [exact Hsc | apply Hall, Hsc].
Qed.

Lemma bucket_inv_write_slot (b : bucket) (r : nat) (key : KeyType) (value : ValueType) :
  bucket_inv b -> (r < BUCKET_ARRAY_SIZE)%nat ->
  (forall m, (m < r)%nat -> IsReadable b m = true) ->
  IsReadable b r = false -> ~ holds b key value ->
  bucket_inv (write_slot b r key value).
Proof.
  intros [Hwf Hro Hpre Htail Hnd] Hr Hbefore Hnr Hnew. constructor.
  - apply wf_write_slot, Hwf.
  - intros i Hi. rewrite (IsReadable_write_slot BUCKET_ARRAY_SIZE), (IsOccupied_write_slot BUCKET_ARRAY_SIZE) by auto.
    destruct (Nat.eqb_spec i r); simpl; auto.
  - intros i j Hij Hj. rewrite !(IsOccupied_write_slot BUCKET_ARRAY_SIZE) by auto.
    destruct (Nat.eqb_spec j r) as [->|Hne]; simpl.
    + intros _. rewrite (Hro i ltac:(lia) (Hbefore i Hij)). apply orb_true_r.
    + intros Ho. rewrite (Hpre i j Hij Hj Ho). apply orb_true_r.
  - intros i Hi. rewrite (IsReadable_write_slot BUCKET_ARRAY_SIZE) by auto.
    destruct (Nat.eqb_spec i r); [lia|]. simpl. apply Htail, Hi.
  - intros i j Hi Hj.
    rewrite !(IsReadable_write_slot BUCKET_ARRAY_SIZE), !(slot_write_slot BUCKET_ARRAY_SIZE)
      by auto.
    destruct (Nat.eqb_spec i r) as [->|Hir]; destruct (Nat.eqb_spec j r) as [->|Hjr];
      simpl; auto.
    + intros _ Hrj He. exfalso. apply Hnew. exists j. auto.
    + intros Hri _ He. exfalso. apply Hnew. exists i. auto.
Qed.

Lemma bucket_inv_Insert (b : bucket) (key : KeyType) (value : ValueType) :
  bucket_inv b -> bucket_inv (snd (Insert b key value)).
Proof.
  intros Hinv.
  destruct (Insert_outcome BUCKET_ARRAY_SIZE cmp value_eq default_key default_value
              b key value) as [[-> _]|(r & -> & Hnodup & [Hr _] & Hnr & Hbefore)];
    simpl; auto.
  apply bucket_inv_write_slot; auto.
  intros (s & Hs & Hrs & Hslot).
  assert (Hpm : pair_match b key value s = true) by (apply pair_match_true; auto).
  rewrite Hnodup in Hpm by (apply readable_scanned; auto). discriminate.
Qed.

Lemma holds_write_slot (b : bucket) (r : nat) (key k : KeyType) (value v : ValueType) :
  wf_bucket b -> (r < BUCKET_ARRAY_SIZE)%nat -> IsReadable b r = false ->
  (holds (write_slot b r key value) k v <-> holds b k v \/ (k, v) = (key, value)).
Proof.
  intros Hwf Hr Hnr. unfold BucketPage.holds. split.
  - intros (s & Hs & Hrs & Hslot).
    rewrite (IsReadable_write_slot BUCKET_ARRAY_SIZE) in Hrs by auto. rewrite (slot_write_slot BUCKET_ARRAY_SIZE) in Hslot by auto.
    destruct (Nat.eqb_spec s r) as [->|Hne]; [right; auto|].
    left. exists s. auto.
  - intros [(s & Hs & Hrs & Hslot)|He].
    + exists s. rewrite (IsReadable_write_slot BUCKET_ARRAY_SIZE), (slot_write_slot BUCKET_ARRAY_SIZE) by auto.
      destruct (Nat.eqb_spec s r) as [->|Hne]; [congruence|]. auto.
    + exists r. rewrite (IsReadable_write_slot BUCKET_ARRAY_SIZE), (slot_write_slot BUCKET_ARRAY_SIZE) by auto.
      rewrite Nat.eqb_refl. auto.
Qed.

(** [Insert] on a page that satisfies the invariant: false and no change
    when the pair is there or when the page is full, else true and the pair
    is added. *)
Lemma Insert_holds (b : bucket) (key : KeyType) (value : ValueType) :
  bucket_inv b ->
  (holds b key value -> Insert b key value = (false, b))
  /\ (~ holds b key value ->
      (forall s, (s < BUCKET_ARRAY_SIZE)%nat -> IsReadable b s = true) ->
      Insert b key value = (false, b))
  /\ (~ holds b key value ->
      (exists s, (s < BUCKET_ARRAY_SIZE)%nat /\ IsReadable b s = false) ->
      exists r, (r < BUCKET_ARRAY_SIZE)%nat /\ IsReadable b r = false
        /\ (forall m, (m < r)%nat -> IsReadable b m = true)
        /\ Insert b key value = (true, write_slot b r key value)).
Proof.
  intros Hinv.
  destruct (Insert_outcome BUCKET_ARRAY_SIZE cmp value_eq default_key default_value
              b key value)
    as [[Hret Hwhy]|(r & Hret & Hnodup & [Hr Hsr] & Hnr & Hbefore)].
  - split; [auto|]. split; [auto|]. intros Hnot (s & Hs & Hnrs). exfalso.
    destruct Hwhy as [(j & Hj & Hpm)|[_ Hall]].
    + apply pair_match_true in Hpm. apply Hnot. exists j. destruct Hj. tauto.
    + destruct (all_scanned_readable b Hall s Hs) as [_ Hrs]. congruence.
  - split; [|split].
    + intros (s & Hs & Hrs & Hslot). exfalso.
      assert (Hpm : pair_match b key value s = true) by (apply pair_match_true; auto).
      rewrite Hnodup in Hpm by (apply readable_scanned; auto). discriminate.
    + intros _ Hall. rewrite Hall in Hnr by exact Hr. discriminate.
    + intros _ _. exists r. auto.
Qed.

Lemma Insert_preserves_holds (b : bucket) (key k : KeyType) (value v : ValueType) :
  bucket_inv b -> holds b k v -> holds (snd (Insert b key value)) k v.
Proof.
  intros Hinv Hh.
  destruct (Insert_outcome BUCKET_ARRAY_SIZE cmp value_eq default_key default_value
              b key value) as [[-> _]|(r & -> & _ & [Hr _] & Hnr & _)]; simpl; auto.
  apply holds_write_slot; auto. apply Hinv.
Qed.

Lemma Insert_holds_inv (b : bucket) (key k : KeyType) (value v : ValueType) :
  bucket_inv b -> holds (snd (Insert b key value)) k v ->
  holds b k v \/ (k, v) = (key, value).
Proof.
  intros Hinv.
  destruct (Insert_outcome BUCKET_ARRAY_SIZE cmp value_eq default_key default_value
              b key value) as [[-> _]|(r & -> & _ & [Hr _] & Hnr & _)]; simpl; auto.
  apply holds_write_slot; auto. apply Hinv.
Qed.

Lemma Insert_true_holds (b b' : bucket) (key : KeyType) (value : ValueType) :
  bucket_inv b -> Insert b key value = (true, b') -> holds b' key value.
Proof.
  intros Hinv.
  destruct (Insert_outcome BUCKET_ARRAY_SIZE cmp value_eq default_key default_value
              b key value) as [[-> _]|(r & -> & _ & [Hr _] & Hnr & _)]; [discriminate|].
  intros [= <-]. apply holds_write_slot; auto. apply Hinv.
Qed.

Lemma Insert_false_same (b b' : bucket) (key : KeyType) (value : ValueType) :
  Insert b key value = (false, b') -> b' = b.
Proof.
  destruct (Insert_outcome BUCKET_ARRAY_SIZE cmp value_eq default_key default_value
              b key value) as [[-> _]|(r & -> & _)]; congruence.
Qed.

(** [IsFull] and [IsEmpty] under the invariant. *)
Lemma IsFull_inv (b : bucket) :
  bucket_inv b ->
  (IsFull b = true <-> forall s, (s < BUCKET_ARRAY_SIZE)%nat -> IsReadable b s = true).
Proof.
  intros Hinv.
  apply (IsFull_readable_and_bytes BUCKET_ARRAY_SIZE b); [apply Hinv|].
  intros i Hi. apply Hinv. lia.
Qed.

Lemma IsFull_false (b : bucket) :
  bucket_inv b -> IsFull b = false ->
  exists s, (s < BUCKET_ARRAY_SIZE)%nat /\ IsReadable b s = false.
Proof.
  intros Hinv Hnf.
  assert (H : forall n, (n <= BUCKET_ARRAY_SIZE)%nat ->
            (exists s, (s < n)%nat /\ IsReadable b s = false)
            \/ forall s, (s < n)%nat -> IsReadable b s = true).
  { induction n as [|n IH]; intros Hn.
    - right. intros s Hs. lia.
    - destruct (IH ltac:(lia)) as [(s & Hs & Hr)|Hall].
      + left. exists s. split; [lia | exact Hr].
      + destruct (IsReadable b n) eqn:Hrn.
        * right. intros s Hs. destruct (Nat.eq_dec s n) as [->|]; [auto | apply Hall; lia].
        * left. exists n. split; [lia | exact Hrn]. }
  destruct (H BUCKET_ARRAY_SIZE (Nat.le_refl _)) as [Hex|Hall]; [exact Hex|].
  apply IsFull_inv in Hall; [congruence | exact Hinv].
Qed.

Lemma IsEmpty_not_holds (b : bucket) (key : KeyType) (value : ValueType) :
  bucket_inv b -> IsEmpty b = true -> ~ holds b key value.
Proof.
  intros Hinv He (s & _ & Hr & _).
  rewrite (proj1 (IsEmpty_true BUCKET_ARRAY_SIZE b (BucketPage.inv_wf _ _ _ _ Hinv)) He) in Hr.
  discriminate.
Qed.

Lemma holds_dec (b : bucket) (key : KeyType) (value : ValueType) :
  holds b key value \/ ~ holds b key value.
Proof.
  assert (Hdec : forall n, (n <= BUCKET_ARRAY_SIZE)%nat ->
            (exists s, (s < n)%nat /\ IsReadable b s = true /\ slot b s = (key, value))
            \/ (forall s, (s < n)%nat -> ~ (IsReadable b s = true /\ slot b s = (key, value)))).
  { induction n as [|n IH]; intros Hn.
    - right. intros s Hs. lia.
    - destruct (IH ltac:(lia)) as [(s & Hs & H)|Hnone].
      + left. exists s. split; [lia | exact H].
      + destruct (BucketPage.pair_match cmp value_eq default_key default_value b key value n)
          eqn:Hpm.
        * left. exists n. split; [lia|]. apply pair_match_true, Hpm.
        * right. intros s Hs H. destruct (Nat.eq_dec s n) as [->|Hne].
          -- apply pair_match_true in H. rewrite H in Hpm. discriminate.
          -- apply (Hnone s); [lia | exact H]. }
  destruct (Hdec BUCKET_ARRAY_SIZE (Nat.le_refl _)) as [(s & Hs & Hr & Hslot)|Hnone].
  - left. exists s. auto.
  - right. intros (s & Hs & Hr & Hslot). apply (Hnone s Hs). auto.
Qed.

(** [Insert] stores the pair unless the page is full. *)
Lemma Insert_stores (b : bucket) (key : KeyType) (value : ValueType) :
  bucket_inv b ->
  (exists s, (s < BUCKET_ARRAY_SIZE)%nat /\ IsReadable b s = false) ->
  holds (snd (Insert b key value)) key value.
Proof.
  intros Hinv Hfree. destruct (Insert_holds b key value Hinv) as (Hdup & _ & Hnew).
  destruct (holds_dec b key value) as [Hh|Hn].
  - rewrite (Hdup Hh). exact Hh.
  - destruct (Hnew Hn Hfree) as (r & Hr & Hnr & _ & Hret).
    apply (Insert_true_holds b _ key value Hinv). rewrite Hret. reflexivity.
Qed.

(** The slot [Insert] takes is not beyond the first slot that is free. *)
Lemma Insert_occupied (b : bucket) (key : KeyType) (value : ValueType) (c : nat) :
  bucket_inv b -> (c < BUCKET_ARRAY_SIZE)%nat ->
  (forall m, (c <= m)%nat -> IsOccupied b m = false) ->
  forall m, (S c <= m)%nat -> IsOccupied (snd (Insert b key value)) m = false.
Proof.
  intros Hinv Hc Hfree m Hm.
  destruct (Insert_outcome BUCKET_ARRAY_SIZE cmp value_eq default_key default_value
              b key value) as [[-> _]|(r & -> & _ & [Hr _] & Hnr & Hbefore)]; simpl.
  - apply Hfree. lia.
  - rewrite (IsOccupied_write_slot BUCKET_ARRAY_SIZE) by (auto; apply Hinv).
    assert (Hrc : (r <= c)%nat).
    { destruct (Nat.le_gt_cases r c) as [Hle|Hgt]; [exact Hle|]. exfalso.
      pose proof (Hbefore c Hgt) as Hrd.
      apply (BucketPage.inv_readable_occupied _ _ _ _ Hinv) in Hrd; [|exact Hc].
      rewrite Hfree in Hrd by lia. discriminate. }
    destruct (Nat.eqb_spec m r); [lia|]. simpl. apply Hfree. lia.
Qed.

Lemma Remove_loop_outcome (b : bucket) (key : KeyType) (value : ValueType) (n i : nat) :
  (i + n = BUCKET_ARRAY_SIZE)%nat ->
  Remove_loop b key value n i = (false, b)
  \/ exists s, (s < BUCKET_ARRAY_SIZE)%nat /\ pair_match b key value s = true
       /\ Remove_loop b key value n i = (true, SetUnreadable b s).
Proof.
  revert i; induction n as [|n IH]; intros i Hn; simpl; auto.
  destruct (pair_match b key value i) eqn:Hpm.
  - right. exists i. split; [lia | auto].
  - destruct (IsOccupied b i); simpl; auto. apply IH. lia.
Qed.

Lemma Remove_outcome (b : bucket) (key : KeyType) (value : ValueType) :
  Remove b key value = (false, b)
  \/ exists s, (s < BUCKET_ARRAY_SIZE)%nat /\ pair_match b key value s = true
       /\ Remove b key value = (true, SetUnreadable b s).
Proof.
  apply Remove_loop_outcome. reflexivity.
Qed.

Lemma bucket_inv_SetUnreadable (b : bucket) (s : nat) :
  bucket_inv b -> (s < BUCKET_ARRAY_SIZE)%nat -> bucket_inv (SetUnreadable b s).
Proof.
  intros [Hwf Hro Hpre Htail Hnd] Hs. constructor.
  - apply wf_SetUnreadable, Hwf.
  - intros i Hi. rewrite (IsReadable_SetUnreadable BUCKET_ARRAY_SIZE) by auto.
    intros H. apply andb_true_iff in H. apply Hro; tauto.
  - exact Hpre.
  - intros i Hi. rewrite (IsReadable_SetUnreadable BUCKET_ARRAY_SIZE) by auto.
    rewrite (Htail i Hi). apply andb_false_r.
  - intros i j Hi Hj. rewrite !(IsReadable_SetUnreadable BUCKET_ARRAY_SIZE) by auto.
    intros Hri Hrj. apply andb_true_iff in Hri, Hrj. apply Hnd; tauto.
Qed.

Lemma holds_SetUnreadable (b : bucket) (s : nat) (k : KeyType) (v : ValueType) :
  wf_bucket b -> (s < BUCKET_ARRAY_SIZE)%nat ->
  (holds (SetUnreadable b s) k v <->
   exists s', (s' < BUCKET_ARRAY_SIZE)%nat /\ s' <> s
              /\ IsReadable b s' = true /\ slot b s' = (k, v)).
Proof.
  intros Hwf Hs. unfold BucketPage.holds. split.
  - intros (s' & Hs' & Hr & Hslot).
    rewrite (IsReadable_SetUnreadable BUCKET_ARRAY_SIZE) in Hr by auto.
    apply andb_true_iff in Hr. destruct Hr as [Hne Hr].
    exists s'. repeat split; auto.
    intros ->. rewrite Nat.eqb_refl in Hne. discriminate.
  - intros (s' & Hs' & Hne & Hr & Hslot). exists s'.
    rewrite (IsReadable_SetUnreadable BUCKET_ARRAY_SIZE) by auto.
    destruct (Nat.eqb_spec s' s); [contradiction|]. auto.
Qed.

Lemma bucket_inv_Remove (b : bucket) (key : KeyType) (value : ValueType) :
  bucket_inv b -> bucket_inv (snd (Remove b key value)).
Proof.
  intros Hinv. destruct (Remove_outcome b key value) as [->|(s & Hs & _ & ->)]; simpl; auto.
  apply bucket_inv_SetUnreadable; auto.
Qed.

Lemma Remove_holds_inv (b : bucket) (key k : KeyType) (value v : ValueType) :
  bucket_inv b -> holds (snd (Remove b key value)) k v -> holds b k v.
Proof.
  intros Hinv. destruct (Remove_outcome b key value) as [->|(s & Hs & _ & ->)]; simpl; auto.
  intros H. apply holds_SetUnreadable in H; [|apply Hinv|exact Hs].
  destruct H as (s' & Hs' & _ & Hr & Hslot). exists s'. auto.
Qed.

Lemma Remove_preserves_holds (b : bucket) (key k : KeyType) (value v : ValueType) :
  bucket_inv b -> holds b k v -> (k, v) <> (key, value) ->
  holds (snd (Remove b key value)) k v.
Proof.
  intros Hinv Hh Hne.
  destruct (Remove_outcome b key value) as [->|(s & Hs & Hpm & ->)]; simpl; auto.
  apply holds_SetUnreadable; [apply Hinv | exact Hs |].
  destruct Hh as (s' & Hs' & Hr & Hslot). exists s'. repeat split; auto.
  intros ->. apply pair_match_true in Hpm. destruct Hpm as [_ Hpm].
  rewrite Hpm in Hslot. apply Hne. symmetry. exact Hslot.
Qed.




End BucketInvariant.

(** ** The operations of a bucket page on the pairs it holds *)

Lemma NoDup_map_on {A B : Type} (f : A -> B) (l : list A) :
  (forall x y, In x l -> In y l -> f x = f y -> x = y) -> NoDup l -> NoDup (map f l).
Proof.
  intros Hinj Hnd. induction Hnd as [|x l Hx Hnd IH]; cbn [map]; constructor.
  - intros Hin. apply in_map_iff in Hin. destruct Hin as (y & Hy & Hyl).
    apply Hx. rewrite (Hinj x y); cbn; auto.
  - apply IH. intros y z Hy Hz. apply Hinj; cbn; auto.
Qed.

Lemma filter_none {A : Type} (f : A -> bool) (l : list A) :
  (forall x, In x l -> f x = false) -> filter f l = [].
Proof.
  induction l as [|x l IH]; intros Hf; cbn; [reflexivity|].
  rewrite (Hf x) by (cbn; auto). apply IH. intros y Hy. apply Hf. cbn. auto.
Qed.

Section BucketOperations.

Context (BUCKET_ARRAY_SIZE : nat) {KeyType ValueType : Type}.
Context (cmp : KeyType -> KeyType -> Z).
Context (value_eq : ValueType -> ValueType -> bool).
Context (default_key : KeyType) (default_value : ValueType).

Hypothesis cmp_spec : forall a b, cmp a b = 0 <-> a = b.
Hypothesis value_eq_spec : forall a b, value_eq a b = true <-> a = b.

Local Abbreviation bucket := (BucketPage.HashTableBucketPage KeyType ValueType).
Local Abbreviation wf_bucket := (BucketPage.wf_bucket BUCKET_ARRAY_SIZE).
Local Abbreviation bucket_inv :=
  (BucketPage.bucket_inv BUCKET_ARRAY_SIZE default_key default_value).
Local Abbreviation holds := (BucketPage.holds BUCKET_ARRAY_SIZE default_key default_value).
Local Abbreviation slot := (BucketPage.slot default_key default_value).
Local Abbreviation IsReadable := (@BucketPage.IsReadable KeyType ValueType).
Local Abbreviation IsOccupied := (@BucketPage.IsOccupied KeyType ValueType).
Local Abbreviation SetReadable := (@BucketPage.SetReadable KeyType ValueType).
Local Abbreviation SetOccupied := (@BucketPage.SetOccupied KeyType ValueType).
Local Abbreviation SetUnreadable := (@BucketPage.SetUnreadable KeyType ValueType).
Local Abbreviation IsFull := (@BucketPage.IsFull BUCKET_ARRAY_SIZE KeyType ValueType).
Local Abbreviation IsEmpty := (@BucketPage.IsEmpty BUCKET_ARRAY_SIZE KeyType ValueType).
Local Abbreviation pair_match := (BucketPage.pair_match cmp value_eq default_key default_value).
Local Abbreviation key_match := (BucketPage.key_match cmp default_key default_value).
Local Abbreviation Insert :=
  (BucketPage.Insert BUCKET_ARRAY_SIZE cmp value_eq default_key default_value).
Local Abbreviation Remove_loop :=
  (BucketPage.Remove_loop cmp value_eq default_key default_value).
Local Abbreviation Remove :=
  (BucketPage.Remove BUCKET_ARRAY_SIZE cmp value_eq default_key default_value).
Local Abbreviation GetValue_loop :=
  (BucketPage.GetValue_loop cmp default_key default_value).
Local Abbreviation GetValue :=
  (BucketPage.GetValue BUCKET_ARRAY_SIZE cmp default_key default_value).
Local Abbreviation GetAllItem_loop :=
  (BucketPage.GetAllItem_loop default_key default_value).
Local Abbreviation GetAllItem :=
  (BucketPage.GetAllItem BUCKET_ARRAY_SIZE default_key default_value).
Local Abbreviation count_readable :=
  (@BucketPage.count_readable BUCKET_ARRAY_SIZE KeyType ValueType).

(** *** [GetValue] *)

(** The values of the slots in [[i, i + n)] that are readable under [key]. *)
Lemma unoccupied_rest (b : bucket) (i j : nat) :
  bucket_inv b -> (i <= j < BUCKET_ARRAY_SIZE)%nat -> IsOccupied b i = false ->
  IsReadable b j = false.
Proof.
  intros Hinv Hj Hi. destruct (IsReadable b j) eqn:Hr; [|reflexivity]. exfalso.
  assert (Ho : IsOccupied b j = true)
    by (apply (BucketPage.inv_readable_occupied _ _ _ _ Hinv); [lia | exact Hr]).
  destruct (Nat.eq_dec i j) as [->|Hne]; [congruence|].
  rewrite (BucketPage.inv_occupied_prefix _ _ _ _ Hinv i j) in Hi; [discriminate|lia|lia|exact Ho].
Qed.

Lemma GetValue_loop_values (b : bucket) (key : KeyType) (n i : nat) (flag : bool)
    (result : list ValueType) :
  bucket_inv b -> (i + n = BUCKET_ARRAY_SIZE)%nat ->
  let vs := map (fun s => snd (slot b s)) (filter (key_match b key) (seq i n)) in
  GetValue_loop b key n i flag result
  = (flag || match vs with [] => false | _ :: _ => true end, result ++ vs).
Proof.
  intros Hinv. revert i flag result. induction n as [|n IH]; intros i flag result Hn; cbn zeta.
  - cbn. rewrite Bool.orb_false_r, app_nil_r. reflexivity.
  - cbn [seq filter BucketPage.GetValue_loop]. destruct (key_match b key i) eqn:Hkm.
    + cbn [map]. rewrite IH by lia. cbn zeta. rewrite <- app_assoc. cbn [app].
      rewrite Bool.orb_true_r. reflexivity.
    + destruct (IsOccupied b i) eqn:Ho; cbn [negb].
      * apply IH. lia.
      * assert (Hnone : filter (key_match b key) (seq (S i) n) = []).
        { apply filter_none. intros j Hj. apply in_seq in Hj. unfold BucketPage.key_match.
          rewrite (unoccupied_rest b i j Hinv ltac:(lia) Ho). reflexivity. }
        rewrite Hnone. cbn. rewrite Bool.orb_false_r, app_nil_r. reflexivity.
Qed.

Lemma bucket_GetValue_values (b : bucket) (key : KeyType) (result : list ValueType) :
  bucket_inv b ->
  let vs := map (fun s => snd (slot b s))
              (filter (key_match b key) (seq 0 BUCKET_ARRAY_SIZE)) in
  GetValue b key result = (match vs with [] => false | _ :: _ => true end, result ++ vs)
  /\ (forall v, In v vs <-> holds b key v)
  /\ NoDup vs.
Proof.
  intros Hinv vs. subst vs.
  split; [|split].
  - unfold BucketPage.GetValue.
    rewrite (GetValue_loop_values b key BUCKET_ARRAY_SIZE 0 false result Hinv) by lia.
    reflexivity.
  - intros v. rewrite in_map_iff. split.
    + intros (s & Hv & Hs). apply filter_In in Hs. destruct Hs as [Hs Hkm].
      apply in_seq in Hs.
      apply (key_match_true cmp default_key default_value cmp_spec) in Hkm.
      destruct Hkm as [Hr Hk].
      exists s. split; [lia|]. split; [exact Hr|]. rewrite <- Hv, <- Hk.
      apply surjective_pairing.
    + intros (s & Hs & Hr & Hslot). exists s. split; [rewrite Hslot; reflexivity|].
      apply filter_In. split; [apply in_seq; lia|].
      apply (key_match_true cmp default_key default_value cmp_spec).
      rewrite Hslot. auto.
  - apply NoDup_map_on; [|apply NoDup_filter, seq_NoDup].
    intros x y Hx Hy Hsnd. apply filter_In in Hx, Hy.
    destruct Hx as [Hx Hkx], Hy as [Hy Hky]. apply in_seq in Hx, Hy.
    apply (key_match_true cmp default_key default_value cmp_spec) in Hkx, Hky.
    destruct Hkx as [Hrx Hfx], Hky as [Hry Hfy].
    apply (BucketPage.inv_nodup _ _ _ _ Hinv); auto; try lia.
    rewrite (surjective_pairing (slot b x)), (surjective_pairing (slot b y)).
    rewrite Hfx, Hfy, Hsnd. reflexivity.
Qed.

Lemma bucket_GetValue_parts (b : bucket) (key : KeyType) (result : list ValueType) :
  bucket_inv b ->
  exists vs,
    GetValue b key result = (match vs with [] => false | _ :: _ => true end, result ++ vs)
    /\ (forall v, In v vs <-> holds b key v)
    /\ NoDup vs.
Proof.
  intros Hinv. eexists. apply (bucket_GetValue_values b key result Hinv).
Qed.

(** [GetValue(key, cmp, result)] appends to [result] the values of the
    readable slots whose key is [key], in slot order; these are the values
    the page holds under [key], each once, and the call returns whether
    there is one. *)
Theorem bucket_GetValue_spec (b : bucket) (key : KeyType) (result : list ValueType) :
  bucket_inv b ->
  let vs := map (fun s => snd (slot b s))
              (filter (key_match b key) (seq 0 BUCKET_ARRAY_SIZE)) in
  GetValue b key result = (match vs with [] => false | _ :: _ => true end, result ++ vs)
  /\ (forall v, In v vs <-> holds b key v)
  /\ NoDup vs.
Proof.
  exact (bucket_GetValue_values b key result).
Qed.

(** *** [Remove] *)

Lemma Remove_loop_finds (b : bucket) (key : KeyType) (value : ValueType) (n i s : nat) :
  (i <= s < i + n)%nat ->
  (forall j, (i <= j <= s)%nat -> IsOccupied b j = true) ->
  pair_match b key value s = true ->
  fst (Remove_loop b key value n i) = true.
Proof.
  revert i. induction n as [|n IH]; intros i Hs Hocc Hpm; [lia|].
  cbn [BucketPage.Remove_loop]. destruct (pair_match b key value i) eqn:Hi; [reflexivity|].
  rewrite (Hocc i ltac:(lia)). cbn [negb].
  assert (i <> s) by (intros ->; congruence).
  apply IH; [lia | | exact Hpm]. intros j Hj. apply Hocc. lia.
Qed.

Lemma Remove_result (b : bucket) (key : KeyType) (value : ValueType) :
  bucket_inv b ->
  (holds b key value ->
   exists s, (s < BUCKET_ARRAY_SIZE)%nat /\ IsReadable b s = true
     /\ slot b s = (key, value) /\ Remove b key value = (true, SetUnreadable b s))
  /\ (~ holds b key value -> Remove b key value = (false, b)).
Proof.
  intros Hinv.
  assert (Hpm : forall s, pair_match b key value s = true <->
                          IsReadable b s = true /\ slot b s = (key, value))
    by (intros s;
        apply (pair_match_true cmp value_eq default_key default_value cmp_spec value_eq_spec)).
  split.
  - intros (s & Hs & Hr & Hslot).
    assert (Htrue : fst (Remove b key value) = true).
    { unfold BucketPage.Remove. apply Remove_loop_finds with s; [lia| |apply Hpm; auto].
      intros j Hj.
      assert (Ho : IsOccupied b s = true)
        by (apply (BucketPage.inv_readable_occupied _ _ _ _ Hinv); auto).
      destruct (Nat.eq_dec j s) as [->|Hne]; [exact Ho|].
      apply (BucketPage.inv_occupied_prefix _ _ _ _ Hinv j s); auto. lia. }
    destruct (Remove_outcome BUCKET_ARRAY_SIZE cmp value_eq default_key default_value
                b key value) as [Hf|(s' & Hs' & Hpm' & Hrem)].
    + rewrite Hf in Htrue. discriminate.
    + apply Hpm in Hpm'. destruct Hpm' as [Hr' Hslot'].
      exists s'. auto.
  - intros Hno.
    destruct (Remove_outcome BUCKET_ARRAY_SIZE cmp value_eq default_key default_value
                b key value) as [Hf|(s' & Hs' & Hpm' & Hrem)]; [exact Hf|].
    exfalso. apply Hno. apply Hpm in Hpm'. exists s'. tauto.
Qed.

Lemma Remove_pairs (b : bucket) (key k : KeyType) (value v : ValueType) :
  bucket_inv b ->
  (holds (snd (Remove b key value)) k v <-> holds b k v /\ (k, v) <> (key, value)).
Proof.
  intros Hinv. split.
  - intros Hh. split.
    + apply (Remove_holds_inv BUCKET_ARRAY_SIZE cmp value_eq default_key default_value
               b key k value v Hinv Hh).
    + intros He. injection He as -> ->.
      destruct (holds_dec BUCKET_ARRAY_SIZE cmp value_eq default_key default_value
                  cmp_spec value_eq_spec b key value) as [Hold|Hold].
      * destruct (proj1 (Remove_result b key value Hinv) Hold)
          as (s & Hs & Hr & Hslot & Hrem).
        rewrite Hrem in Hh. cbn [snd] in Hh.
        apply (holds_SetUnreadable BUCKET_ARRAY_SIZE default_key default_value) in Hh;
          [|apply Hinv|exact Hs].
        destruct Hh as (s' & Hs' & Hne & Hr' & Hslot'). apply Hne.
        apply (BucketPage.inv_nodup _ _ _ _ Hinv); auto. congruence.
      * rewrite (proj2 (Remove_result b key value Hinv) Hold) in Hh. auto.
  - intros [Hh Hne].
    apply (Remove_preserves_holds BUCKET_ARRAY_SIZE cmp value_eq default_key default_value
             cmp_spec value_eq_spec b key k value v Hinv Hh Hne).
Qed.

Lemma bucket_Remove_parts (b : bucket) (key : KeyType) (value : ValueType) :
  bucket_inv b ->
  (fst (Remove b key value) = true <-> holds b key value)
  /\ bucket_inv (snd (Remove b key value))
  /\ (forall k v, holds (snd (Remove b key value)) k v
                  <-> holds b k v /\ (k, v) <> (key, value)).
Proof.
  intros Hinv. split; [|split].
  - destruct (holds_dec BUCKET_ARRAY_SIZE cmp value_eq default_key default_value
                cmp_spec value_eq_spec b key value) as [Hold|Hold].
    + destruct (proj1 (Remove_result b key value Hinv) Hold) as (s & _ & _ & _ & ->).
      split; auto.
    + rewrite (proj2 (Remove_result b key value Hinv) Hold). cbn [fst].
      split; [discriminate | contradiction].
  - apply (bucket_inv_Remove BUCKET_ARRAY_SIZE cmp value_eq default_key default_value),
      Hinv.
  - intros k v. apply Remove_pairs, Hinv.
Qed.

(** [Remove(key, value, cmp)] returns true exactly when the page holds the
    pair; afterwards the page holds the pairs it held except that one, and
    it keeps its invariant. *)
Theorem bucket_Remove_spec (b : bucket) (key : KeyType) (value : ValueType) :
  bucket_inv b ->
  (fst (Remove b key value) = true <-> holds b key value)
  /\ bucket_inv (snd (Remove b key value))
  /\ (forall k v, holds (snd (Remove b key value)) k v
                  <-> holds b k v /\ (k, v) <> (key, value)).
Proof.
  exact (bucket_Remove_parts b key value).
Qed.

(** After [Remove] has returned true the page is not full, and [Insert]
    of a pair the page does not hold returns true and stores it: the slot
    of a removed pair is used again. *)
Theorem Remove_then_Insert (b : bucket) (key k : KeyType) (value v : ValueType) :
  bucket_inv b -> holds b key value ->
  let b1 := snd (Remove b key value) in
  IsFull b1 = false
  /\ (~ holds b1 k v ->
      exists b2, Insert b1 k v = (true, b2) /\ holds b2 k v /\ bucket_inv b2).
Proof.
  intros Hinv Hold b1.
  destruct (proj1 (Remove_result b key value Hinv) Hold) as (s & Hs & Hr & Hslot & Hrem).
  assert (Hinv1 : bucket_inv b1)
    by (apply (bucket_inv_Remove BUCKET_ARRAY_SIZE cmp value_eq default_key default_value),
          Hinv).
  assert (Hfree : IsReadable b1 s = false).
  { unfold b1. rewrite Hrem. cbn [snd].
    rewrite (IsReadable_SetUnreadable BUCKET_ARRAY_SIZE) by (apply Hinv || exact Hs).
    rewrite Nat.eqb_refl. reflexivity. }
  split.
  - destruct (IsFull b1) eqn:Hfull; [|reflexivity].
    rewrite (proj1 (IsFull_inv BUCKET_ARRAY_SIZE default_key default_value b1 Hinv1) Hfull s Hs)
      in Hfree. discriminate.
  - intros Hno.
    destruct (Insert_holds BUCKET_ARRAY_SIZE cmp value_eq default_key default_value
                cmp_spec value_eq_spec b1 k v Hinv1) as (_ & _ & Hins).
    destruct (Hins Hno (ex_intro _ s (conj Hs Hfree))) as (r & Hr1 & Hr2 & Hr3 & Hrun).
    exists (BucketPage.write_slot b1 r k v). split; [exact Hrun|]. split.
    + apply (Insert_true_holds BUCKET_ARRAY_SIZE cmp value_eq default_key default_value
               b1 _ k v Hinv1 Hrun).
    + pose proof (bucket_inv_Insert BUCKET_ARRAY_SIZE cmp value_eq default_key default_value
                    cmp_spec value_eq_spec b1 k v Hinv1) as H.
      rewrite Hrun in H. exact H.
Qed.

(** *** [GetAllItem] and [IsEmpty] *)

Lemma GetAllItem_loop_items (b : bucket) (n i : nat) (items : list (KeyType * ValueType)) :
  GetAllItem_loop b n i items = items ++ map (slot b) (filter (IsReadable b) (seq i n)).
Proof.
  revert i items. induction n as [|n IH]; intros i items; cbn [BucketPage.GetAllItem_loop].
  - cbn. rewrite app_nil_r. reflexivity.
  - rewrite IH. cbn [seq filter]. destruct (IsReadable b i); [|reflexivity].
    cbn [map]. rewrite <- app_assoc. reflexivity.
Qed.

Lemma GetAllItem_In (b : bucket) (k : KeyType) (v : ValueType) :
  In (k, v) (GetAllItem b) <-> holds b k v.
Proof.
  unfold BucketPage.GetAllItem. rewrite GetAllItem_loop_items. cbn [app].
  rewrite in_map_iff. split.
  - intros (s & Hslot & Hs). apply filter_In in Hs. destruct Hs as [Hs Hr].
    apply in_seq in Hs. exists s. split; [lia | auto].
  - intros (s & Hs & Hr & Hslot). exists s. split; [exact Hslot|].
    apply filter_In. split; [apply in_seq; lia | exact Hr].
Qed.

(** [GetAllItem()] lists the pairs of the readable slots, in slot order: a
    pair is in the list exactly when the page holds it, the list is as long
    as the number of readable slots, and on a page that satisfies the
    invariant no pair is listed twice. *)
Theorem GetAllItem_spec (b : bucket) :
  GetAllItem b = map (slot b) (filter (IsReadable b) (seq 0 BUCKET_ARRAY_SIZE))
  /\ (forall k v, In (k, v) (GetAllItem b) <-> holds b k v)
  /\ length (GetAllItem b) = count_readable b
  /\ (bucket_inv b -> NoDup (GetAllItem b)).
Proof.
  assert (Hitems : GetAllItem b
                   = map (slot b) (filter (IsReadable b) (seq 0 BUCKET_ARRAY_SIZE))).
  { unfold BucketPage.GetAllItem. rewrite GetAllItem_loop_items. reflexivity. }
  split; [exact Hitems|]. split; [intros k v; apply GetAllItem_In|].
  rewrite Hitems. split.
  - rewrite length_map. reflexivity.
  - intros Hinv. apply NoDup_map_on; [|apply NoDup_filter, seq_NoDup].
    intros x y Hx Hy Hslot. apply filter_In in Hx, Hy.
    destruct Hx as [Hx Hrx], Hy as [Hy Hry]. apply in_seq in Hx, Hy.
    apply (BucketPage.inv_nodup _ _ _ _ Hinv); auto; lia.
Qed.

(** [IsEmpty()] is true exactly when the page holds no pair, and exactly
    when [GetAllItem()] is empty. *)
Theorem IsEmpty_spec (b : bucket) :
  bucket_inv b ->
  (IsEmpty b = true <-> forall k v, ~ holds b k v)
  /\ (IsEmpty b = true <-> GetAllItem b = []).
Proof.
  intros Hinv.
  assert (Hnone : IsEmpty b = true <-> forall k v, ~ holds b k v).
  { split.
    - intros He k v.
      apply (IsEmpty_not_holds BUCKET_ARRAY_SIZE default_key default_value b k v Hinv He).
    - intros Hno. apply (IsEmpty_true BUCKET_ARRAY_SIZE); [apply Hinv|]. intros i.
      destruct (Nat.lt_ge_cases i BUCKET_ARRAY_SIZE) as [Hi|Hi].
      + destruct (IsReadable b i) eqn:Hr; [|reflexivity]. exfalso.
        apply (Hno (fst (slot b i)) (snd (slot b i))). exists i.
        split; [exact Hi|]. split; [exact Hr|]. apply surjective_pairing.
      + apply (BucketPage.inv_tail _ _ _ _ Hinv), Hi. }
  split; [exact Hnone|]. rewrite Hnone.
  split.
  - intros Hno. destruct (GetAllItem b) as [|[k v] l] eqn:Hl; [reflexivity|].
    exfalso. apply (Hno k v), GetAllItem_In. rewrite Hl. cbn. auto.
  - intros Hl k v Hh. apply GetAllItem_In in Hh. rewrite Hl in Hh. exact Hh.
Qed.

(** *** The bitmap accessors *)

(** Setting and clearing a slot's bit changes what [IsReadable] and
    [IsOccupied] return for that slot only, also for the bit 7 of a byte,
    where the byte becomes negative; each bitmap is left alone by the
    accessors of the other. *)
Theorem bitmap_accessors (b : bucket) (i j : nat) :
  wf_bucket b -> (i < BUCKET_ARRAY_SIZE)%nat ->
  IsReadable (SetReadable b i) j = (j =? i)%nat || IsReadable b j
  /\ IsReadable (SetUnreadable b i) j = negb (j =? i)%nat && IsReadable b j
  /\ IsOccupied (SetOccupied b i) j = (j =? i)%nat || IsOccupied b j
  /\ IsOccupied (SetReadable b i) j = IsOccupied b j
  /\ IsOccupied (SetUnreadable b i) j = IsOccupied b j
  /\ IsReadable (SetOccupied b i) j = IsReadable b j.
Proof.
  intros Hwf Hi.
  split; [apply (IsReadable_SetReadable BUCKET_ARRAY_SIZE); assumption|].
  split; [apply (IsReadable_SetUnreadable BUCKET_ARRAY_SIZE); assumption|].
  split; [apply (IsOccupied_SetOccupied BUCKET_ARRAY_SIZE); assumption|].
  split; [reflexivity|]. split; reflexivity.
Qed.

(** *** [NumReadable] on bytes whose bit 7 is clear *)

Lemma char_nonneg (c : Z) : -128 <= c < 128 -> bit c 7 = false -> 0 <= c < 128.
Proof.
  intros Hc Hb.
  assert (H : forallb (fun c => bit c 7 || (0 <=? c)) char_range = true) by check_all_chars.
  rewrite forallb_forall in H. specialize (H c (char_range_In c Hc)).
  rewrite Hb in H. cbn [orb] in H. apply Z.leb_le in H. lia.
Qed.

Lemma clear_lowest_byte (c : Z) :
  0 <= c < 128 ->
  BucketPage.clear_lowest_loop 33 (to_int c) 0
  = Some (Z.of_nat (length (filter (bit c) bit_range))).
Proof.
  intros Hc.
  assert (H : forallb
                (fun n =>
                   match BucketPage.clear_lowest_loop 33 (to_int (Z.of_nat n)) 0 with
                   | Some k => k =? Z.of_nat (length (filter (bit (Z.of_nat n)) bit_range))
                   | None => false
                   end) (seq 0 128) = true) by check_all_chars.
  rewrite forallb_forall in H. specialize (H (Z.to_nat c)).
  rewrite Z2Nat.id in H by lia.
  destruct (BucketPage.clear_lowest_loop 33 (to_int c) 0) as [k|].
  - f_equal. apply Z.eqb_eq, H, in_seq. lia.
  - discriminate H. apply in_seq. lia.
Qed.

Lemma u32_add_l (x y : Z) : u32 (u32 x + y) = u32 (x + y).
Proof. unfold u32. apply Zplus_mod_idemp_l. Qed.

Lemma u32_add_r (x y : Z) : u32 (x + u32 y) = u32 (x + y).
Proof. unfold u32. apply Zplus_mod_idemp_r. Qed.

(** The loop adds to [cnt] what it counts from 0. *)
Lemma clear_lowest_loop_from (fuel : nat) (n cnt : Z) :
  BucketPage.clear_lowest_loop fuel n (u32 cnt)
  = match BucketPage.clear_lowest_loop fuel n 0 with
    | Some k => Some (u32 (cnt + k))
    | None => None
    end.
Proof.
  revert n cnt. induction fuel as [|fuel IH]; intros n cnt; [reflexivity|].
  cbn [BucketPage.clear_lowest_loop]. destruct (n =? 0).
  - rewrite Z.add_0_r. reflexivity.
  - rewrite u32_add_l, IH. rewrite (IH _ (0 + 1)).
    destruct (BucketPage.clear_lowest_loop fuel _ 0) as [k|]; [|reflexivity].
    rewrite u32_add_r. f_equal. f_equal. lia.
Qed.

Lemma count_shift_nat (P : nat -> bool) (a n c : nat) :
  length (filter P (seq (a + c) n)) = length (filter (fun m => P (a + m)%nat) (seq c n)).
Proof.
  revert c. induction n as [|n IH]; intros c; [reflexivity|].
  cbn [seq filter]. specialize (IH (S c)). rewrite <- plus_n_Sm in IH.
  destruct (P (a + c)%nat); cbn [length]; rewrite IH; reflexivity.
Qed.

Lemma count_byte (b : bucket) (j : nat) :
  length (filter (IsReadable b) (seq (8 * j) 8))
  = length (filter (bit (nth j (BucketPage.readable_ b) 0)) bit_range).
Proof.
  rewrite <- (Nat.add_0_r (8 * j)), count_shift_nat. unfold bit_range. f_equal.
  apply filter_ext_in. intros m Hm. apply in_seq in Hm.
  apply (IsReadable_byte b j m). lia.
Qed.

Lemma NumReadable_loop_count (b : bucket) (m i : nat) (cnt : Z) :
  (forall j, (i <= j < i + m)%nat -> 0 <= nth j (BucketPage.readable_ b) 0 < 128) ->
  BucketPage.NumReadable_loop b m i (u32 cnt)
  = Some (u32 (cnt + Z.of_nat (length (filter (IsReadable b) (seq (8 * i) (8 * m)))))).
Proof.
  revert i cnt. induction m as [|m IH]; intros i cnt Hbytes.
  - cbn. rewrite Z.add_0_r. reflexivity.
  - cbn [BucketPage.NumReadable_loop].
    rewrite clear_lowest_loop_from, clear_lowest_byte by (apply Hbytes; lia).
    rewrite IH by (intros j Hj; apply Hbytes; lia).
    replace (8 * S m)%nat with (8 + 8 * m)%nat by lia.
    rewrite seq_app, filter_app, length_app, count_byte.
    replace (8 * S i)%nat with (8 * i + 8)%nat by lia.
    f_equal. f_equal. lia.
Qed.

(** [NumReadable()] returns the number of readable slots when no bitmap
    byte has its bit 7 set, that is when none of the slots 7, 15, 23, ... is
    readable. *)
Theorem NumReadable_without_bit7 (b : bucket) :
  wf_bucket b ->
  Z.of_nat BUCKET_ARRAY_SIZE < 2 ^ 32 ->
  (forall i, (BUCKET_ARRAY_SIZE <= i)%nat -> IsReadable b i = false) ->
  (forall j, IsReadable b (8 * j + 7) = false) ->
  BucketPage.NumReadable BUCKET_ARRAY_SIZE b = Some (Z.of_nat (count_readable b)).
Proof.
  intros Hwf Hsize Htail Hhigh. unfold BucketPage.NumReadable. cbv zeta.
  change 0 with (u32 0) at 1. rewrite NumReadable_loop_count.
  - set (m := ((BUCKET_ARRAY_SIZE - 1) / 8 + 1)%nat).
    assert (Hm : (BUCKET_ARRAY_SIZE <= 8 * m)%nat).
    { unfold m. pose proof (Nat.div_mod_eq (BUCKET_ARRAY_SIZE - 1) 8) as Hd.
      pose proof (Nat.mod_upper_bound (BUCKET_ARRAY_SIZE - 1) 8 ltac:(lia)). lia. }
    replace (8 * m)%nat with (BUCKET_ARRAY_SIZE + (8 * m - BUCKET_ARRAY_SIZE))%nat by lia.
    rewrite Nat.mul_0_r, seq_app, filter_app, length_app.
    rewrite (filter_none (IsReadable b) (seq (0 + BUCKET_ARRAY_SIZE) _))
      by (intros i Hi; apply in_seq in Hi; apply Htail; lia).
    cbn [length]. rewrite Nat.add_0_r, Z.add_0_l.
    unfold BucketPage.count_readable. f_equal. apply Z.mod_small.
    pose proof (filter_length_le (IsReadable b) (seq 0 BUCKET_ARRAY_SIZE)) as Hle.
    rewrite length_seq in Hle. lia.
  - intros j _. apply char_nonneg; [apply (readable_byte_range BUCKET_ARRAY_SIZE), Hwf|].
    rewrite <- (IsReadable_byte b j 7) by lia. apply Hhigh.
Qed.

(** *** [Insert] and then [GetValue] *)

(** When the page holds the pair or is not full, after [Insert(key, value)]
    [GetValue(key)] returns true and lists [value] beside the values the
    page held under the key, and the page keeps its invariant. *)
Theorem bucket_Insert_then_GetValue (b : bucket) (key : KeyType) (value : ValueType)
    (result : list ValueType) :
  bucket_inv b ->
  holds b key value \/ IsFull b = false ->
  let b1 := snd (Insert b key value) in
  bucket_inv b1
  /\ exists vs,
       GetValue b1 key result = (true, result ++ vs)
       /\ (forall v, In v vs <-> holds b key v \/ v = value).
Proof.
  intros Hinv Hroom b1.
  assert (Hinv1 : bucket_inv b1)
    by (apply (bucket_inv_Insert BUCKET_ARRAY_SIZE cmp value_eq default_key default_value
                 cmp_spec value_eq_spec), Hinv).
  assert (Hstored : holds b1 key value).
  { destruct Hroom as [Hh|Hnf].
    - unfold b1. apply Insert_preserves_holds; assumption.
    - unfold b1. apply Insert_stores; try assumption.
      apply (IsFull_false BUCKET_ARRAY_SIZE default_key default_value b Hinv Hnf). }
  split; [exact Hinv1|].
  destruct (bucket_GetValue_parts b1 key result Hinv1) as (vs & Hget & Hin & _).
  exists vs. split.
  - rewrite Hget. destruct vs as [|v vs]; [|reflexivity].
    exfalso. apply (proj2 (Hin value) Hstored).
  - intros v. rewrite Hin. split.
    + intros Hh. unfold b1 in Hh. apply Insert_holds_inv in Hh; try assumption.
      destruct Hh as [Hold|He]; [left; exact Hold | right; congruence].
    + intros [Hold| ->]; [|exact Hstored].
      unfold b1. apply Insert_preserves_holds; assumption.
Qed.

End BucketOperations.

(** ** Low bits: masks, remainders modulo powers of two *)

Section LowBits.

Lemma pow2_pos (n : Z) : 0 <= n -> 0 < 2 ^ n.
Proof. intros Hn. apply Z.pow_pos_nonneg; lia. Qed.

Lemma pow2_le (a b : Z) : 0 <= a <= b -> 2 ^ a <= 2 ^ b.
Proof. intros H. apply Z.pow_le_mono_r; lia. Qed.

Lemma pow2_succ (n : Z) : 0 <= n -> 2 ^ (n + 1) = 2 * 2 ^ n.
Proof. intros Hn. apply Z.pow_succ_r, Hn. Qed.

Lemma mod_pow2_range (x n : Z) : 0 <= n -> 0 <= x mod 2 ^ n < 2 ^ n.
Proof. intros Hn. apply Z.mod_pos_bound, pow2_pos, Hn. Qed.

Lemma mod_mod_pow2 (x a b : Z) : 0 <= a <= b -> (x mod 2 ^ b) mod 2 ^ a = x mod 2 ^ a.
Proof.
  intros Hab. apply Z.mod_mod_divide.
  exists (2 ^ (b - a)). rewrite <- Z.pow_add_r by lia. f_equal. lia.
Qed.

(** Agreement on the low [b] bits gives agreement on the low [a <= b] bits. *)
Lemma low_bits_le (x y a b : Z) :
  0 <= a <= b -> x mod 2 ^ b = y mod 2 ^ b -> x mod 2 ^ a = y mod 2 ^ a.
Proof.
  intros Hab H. rewrite <- (mod_mod_pow2 x a b), <- (mod_mod_pow2 y a b) by exact Hab.
  rewrite H. reflexivity.
Qed.

Lemma testbit_mod_pow2 (x n k : Z) :
  0 <= n -> 0 <= k -> Z.testbit (x mod 2 ^ n) k = (k <? n) && Z.testbit x k.
Proof.
  intros Hn Hk. destruct (Z.ltb_spec k n) as [Hlt|Hge]; simpl.
  - apply Z.mod_pow2_bits_low. lia.
  - apply Z.mod_pow2_bits_high. lia.
Qed.

Lemma low_bits_eq_iff (x y n : Z) :
  0 <= n ->
  (x mod 2 ^ n = y mod 2 ^ n <-> forall k, 0 <= k < n -> Z.testbit x k = Z.testbit y k).
Proof.
  intros Hn. split.
  - intros H k Hk.
    rewrite <- (Z.mod_pow2_bits_low x n k), <- (Z.mod_pow2_bits_low y n k) by lia.
    rewrite H. reflexivity.
  - intros H. apply Z.bits_inj'. intros k Hk. rewrite !testbit_mod_pow2 by lia.
    destruct (Z.ltb_spec k n); simpl; [apply H; lia | reflexivity].
Qed.

(** Agreement on the low [d + 1] bits is agreement on the low [d] bits and
    on bit [d]. *)
Lemma low_bits_succ (x y d : Z) :
  0 <= d ->
  (x mod 2 ^ (d + 1) = y mod 2 ^ (d + 1)
   <-> x mod 2 ^ d = y mod 2 ^ d /\ Z.testbit x d = Z.testbit y d).
Proof.
  intros Hd. rewrite !low_bits_eq_iff by lia. split.
  - intros H. split; [intros k Hk|]; apply H; lia.
  - intros [Hlow Hbit] k Hk. destruct (Z.eq_dec k d) as [->|Hne]; [exact Hbit|].
    apply Hlow. lia.
Qed.

Lemma mod_small_pow2 (x n : Z) : 0 <= x < 2 ^ n -> x mod 2 ^ n = x.
Proof. intros Hx. apply Z.mod_small, Hx. Qed.

Lemma land_mask (x n : Z) : 0 <= n -> Z.land x (2 ^ n - 1) = x mod 2 ^ n.
Proof.
  intros Hn. rewrite <- Z.land_ones by exact Hn. f_equal.
  rewrite Z.ones_equiv. lia.
Qed.

Lemma testbit_mask (n k : Z) : 0 <= n -> 0 <= k -> Z.testbit (2 ^ n - 1) k = (k <? n).
Proof.
  intros Hn Hk. replace (2 ^ n - 1) with (Z.ones n) by (rewrite Z.ones_equiv; lia).
  apply Z.testbit_ones_nonneg; lia.
Qed.

(** The mask of [d] low bits with bit [d - 1] removed is the mask of
    [d - 1] low bits. *)
Lemma lxor_mask_top (d : Z) : 1 <= d -> Z.lxor (2 ^ d - 1) (2 ^ (d - 1)) = 2 ^ (d - 1) - 1.
Proof.
  intros Hd. apply Z.bits_inj'. intros k Hk.
  rewrite Z.lxor_spec, !testbit_mask, Z.pow2_bits_eqb by lia.
  destruct (Z.ltb_spec k d); destruct (Z.eqb_spec (d - 1) k);
    destruct (Z.ltb_spec k (d - 1)); simpl; auto; lia.
Qed.

Lemma testbit_lxor_pow2 (x n k : Z) :
  0 <= n -> Z.testbit (Z.lxor x (2 ^ n)) k = xorb (Z.testbit x k) (n =? k).
Proof.
  intros Hn. rewrite Z.lxor_spec, Z.pow2_bits_eqb by lia. reflexivity.
Qed.

(** Flipping bit [n] keeps a slot index within the directory. *)
Lemma lxor_pow2_range (x n g : Z) :
  0 <= n < g -> 0 <= x < 2 ^ g -> 0 <= Z.lxor x (2 ^ n) < 2 ^ g.
Proof.
  intros Hn Hx.
  assert (He : Z.lxor x (2 ^ n) mod 2 ^ g = Z.lxor x (2 ^ n)).
  { apply Z.bits_inj'. intros k Hk.
    rewrite testbit_mod_pow2, testbit_lxor_pow2 by lia.
    destruct (Z.ltb_spec k g) as [Hlt|Hge]; simpl; auto.
    rewrite <- (mod_small_pow2 x g Hx), testbit_mod_pow2 by lia.
    destruct (Z.ltb_spec k g); [lia|]. destruct (Z.eqb_spec n k); [lia|]. reflexivity. }
  rewrite <- He. apply mod_pow2_range. lia.
Qed.

Lemma lxor_pow2_low (x n : Z) :
  0 <= n -> Z.lxor x (2 ^ n) mod 2 ^ n = x mod 2 ^ n.
Proof.
  intros Hn. apply low_bits_eq_iff; [exact Hn|]. intros k Hk.
  rewrite testbit_lxor_pow2 by lia. destruct (Z.eqb_spec n k); [lia|].
  apply xorb_false_r.
Qed.

Lemma lxor_pow2_bit (x n : Z) :
  0 <= n -> Z.testbit (Z.lxor x (2 ^ n)) n = negb (Z.testbit x n).
Proof.
  intros Hn. rewrite testbit_lxor_pow2, Z.eqb_refl by lia. apply xorb_true_r.
Qed.

(** Two indices that agree on the low [d] bits either agree on bit [d] too,
    or both differ from a third one that agrees with them on the low bits. *)
Lemma low_bits_other_half (x y z d : Z) :
  0 <= d ->
  x mod 2 ^ d = z mod 2 ^ d -> y mod 2 ^ d = z mod 2 ^ d ->
  x mod 2 ^ (d + 1) <> z mod 2 ^ (d + 1) ->
  y mod 2 ^ (d + 1) <> z mod 2 ^ (d + 1) ->
  x mod 2 ^ (d + 1) = y mod 2 ^ (d + 1).
Proof.
  intros Hd Hx Hy Hxz Hyz. apply low_bits_succ; [exact Hd|].
  split; [rewrite Hx, Hy; reflexivity|].
  rewrite low_bits_succ in Hxz, Hyz by exact Hd.
  destruct (Z.testbit x d), (Z.testbit y d), (Z.testbit z d); auto; exfalso; auto.
Qed.

Lemma u32_small (x : Z) : 0 <= x < 2 ^ 32 -> u32 x = x.
Proof. intros Hx. apply Z.mod_small, Hx. Qed.

Lemma pow2_lt_32 (n : Z) : 0 <= n <= 31 -> 0 < 2 ^ n < 2 ^ 32.
Proof.
  intros Hn. split; [apply pow2_pos; lia|]. apply Z.pow_lt_mono_r; lia.
Qed.

Lemma shl1_pow2 (shl_overflow : Z -> Z) (n : Z) :
  0 <= n <= 31 -> Directory.shl1 shl_overflow n = 2 ^ n.
Proof.
  intros Hn. unfold Directory.shl1.
  destruct (Z.leb_spec 0 n); [|lia]. destruct (Z.ltb_spec n 32); [|lia]. simpl.
  rewrite Z.shiftl_1_l. apply u32_small. pose proof (pow2_lt_32 n Hn). lia.
Qed.

End LowBits.

(** ** Loops over the directory *)

Section DirectoryLoops.

Local Abbreviation directory := Directory.HashTableDirectoryPage.
Local Abbreviation cell := Directory.cell.
Local Abbreviation gd := Directory.global_depth_.

(** A loop over the slots [lo, lo + n) whose iteration [i] writes the cells
    of slot [i] only, with values [F i] that it computes from cells the loop
    has not written yet or never writes. *)
Lemma for_loop_cells (body : Z -> directory -> directory) (F : Z -> Z * Z)
    (d0 : directory) (lo : Z) (n : nat) :
  (forall i d, gd (body i d) = gd d) ->
  (forall i d j, j <> i -> cell (body i d) j = cell d j) ->
  (forall i d, lo <= i < lo + Z.of_nat n ->
     gd d = gd d0 ->
     (forall j, j < lo \/ i <= j -> cell d j = cell d0 j) ->
     cell (body i d) i = F i) ->
  let r := for_loop n lo body d0 in
  gd r = gd d0
  /\ forall j, cell r j = if (lo <=? j) && (j <? lo + Z.of_nat n) then F j else cell d0 j.
Proof.
  intros Hgd Hother Hcell.
  assert (Hgen : forall m i d,
    lo <= i -> i + Z.of_nat m = lo + Z.of_nat n ->
    gd d = gd d0 ->
    (forall j, cell d j = if (lo <=? j) && (j <? i) then F j else cell d0 j) ->
    gd (for_loop m i body d) = gd d0
    /\ forall j, cell (for_loop m i body d) j
                 = if (lo <=? j) && (j <? lo + Z.of_nat n) then F j else cell d0 j).
  { induction m as [|m IH]; intros i d Hlo Hend Hg Hc; simpl.
    - split; [exact Hg|]. intros j. rewrite Hc. replace (lo + Z.of_nat n) with i by lia.
      reflexivity.
    - apply IH; try lia.
      + rewrite Hgd. exact Hg.
      + intros j. destruct (Z.eq_dec j i) as [->|Hne].
        * rewrite Hcell; try lia; auto.
          -- destruct (Z.leb_spec lo i); [|lia]. destruct (Z.ltb_spec i (i + 1)); [|lia].
             reflexivity.
          -- intros j Hj. rewrite Hc.
             destruct (Z.leb_spec lo j); destruct (Z.ltb_spec j i); simpl; auto; lia.
        * rewrite Hother by exact Hne. rewrite Hc.
          destruct (Z.leb_spec lo j); destruct (Z.ltb_spec j i);
            destruct (Z.ltb_spec j (i + 1)); simpl; auto; lia. }
  apply Hgen; try lia; auto.
  intros j. destruct (Z.leb_spec lo j); destruct (Z.ltb_spec j lo); simpl; auto; lia.
Qed.

Lemma range_to_nat (lo n j : Z) :
  (lo <=? j) && (j <? lo + Z.of_nat (Z.to_nat n)) = (lo <=? j) && (j <? lo + n).
Proof.
  destruct (Z.leb_spec lo j); destruct (Z.ltb_spec j (lo + Z.of_nat (Z.to_nat n)));
    destruct (Z.ltb_spec j (lo + n)); simpl; auto; lia.
Qed.

Lemma range_true (lo hi j : Z) : lo <= j < hi -> (lo <=? j) && (j <? hi) = true.
Proof.
  intros Hj. destruct (Z.leb_spec lo j); destruct (Z.ltb_spec j hi); simpl; auto; lia.
Qed.

Lemma range_false (lo hi j : Z) : ~ lo <= j < hi -> (lo <=? j) && (j <? hi) = false.
Proof.
  intros Hj. destruct (Z.leb_spec lo j); destruct (Z.ltb_spec j hi); simpl; auto; lia.
Qed.

End DirectoryLoops.

(** ** The hash table: [Merge] and [ExtraMerge] *)

Section TableFacts.

Context (BUCKET_ARRAY_SIZE : nat) {KeyType ValueType : Type}.
Context (cmp : KeyType -> KeyType -> Z).
Context (value_eq : ValueType -> ValueType -> bool).
Context (default_key : KeyType) (default_value : ValueType).
Context (hash_fn : KeyType -> Z).
Context (MAX_DEPTH : Z).
Context (shl_overflow : Z -> Z).

Local Abbreviation bucket := (BucketPage.HashTableBucketPage KeyType ValueType).
Local Abbreviation directory := Directory.HashTableDirectoryPage.
Local Abbreviation HashTable := (@ExtendibleHashTable.HashTable KeyType ValueType).
Local Abbreviation IsFull := (@BucketPage.IsFull BUCKET_ARRAY_SIZE KeyType ValueType).
Local Abbreviation IsEmpty := (@BucketPage.IsEmpty BUCKET_ARRAY_SIZE KeyType ValueType).
Local Abbreviation GetGlobalDepthMask := (Directory.GetGlobalDepthMask shl_overflow).
Local Abbreviation GetLocalDepthMask := (Directory.GetLocalDepthMask shl_overflow).
Local Abbreviation GetSplitImageIndex := (Directory.GetSplitImageIndex shl_overflow).
Local Abbreviation dir_Size := (Directory.Size shl_overflow).
Local Abbreviation CanShrink := (Directory.CanShrink shl_overflow).
Local Abbreviation shl1 := (Directory.shl1 shl_overflow).
Local Abbreviation GetLocalDepth := Directory.GetLocalDepth.
Local Abbreviation GetBucketPageId := Directory.GetBucketPageId.
Local Abbreviation GetGlobalDepth := Directory.GetGlobalDepth.
Local Abbreviation dir_page := (@ExtendibleHashTable.dir_page KeyType ValueType).
Local Abbreviation bucket_pages := (@ExtendibleHashTable.bucket_pages KeyType ValueType).
Local Abbreviation FetchBucketPage := (@ExtendibleHashTable.FetchBucketPage KeyType ValueType).
Local Abbreviation KeyToDirectoryIndex :=
  (ExtendibleHashTable.KeyToDirectoryIndex hash_fn shl_overflow).
Local Abbreviation KeyToPageId := (ExtendibleHashTable.KeyToPageId hash_fn shl_overflow).
Local Abbreviation Hash := (ExtendibleHashTable.Hash hash_fn).
Local Abbreviation Merge :=
  (@ExtendibleHashTable.Merge BUCKET_ARRAY_SIZE KeyType ValueType hash_fn shl_overflow).
Local Abbreviation ExtraMerge :=
  (@ExtendibleHashTable.ExtraMerge BUCKET_ARRAY_SIZE KeyType ValueType hash_fn shl_overflow).

Lemma slots_In (d : directory) (j : Z) :
  In j (Directory.slots shl_overflow d) <-> 0 <= j < dir_Size d.
Proof.
  unfold Directory.slots. rewrite in_map_iff. split.
  - intros (n & <- & Hn). apply in_seq in Hn. lia.
  - intros Hj. exists (Z.to_nat j). split; [lia|]. apply in_seq. lia.
Qed.

Lemma CanShrink_true (d : directory) :
  CanShrink d = true <->
  forall j, 0 <= j < dir_Size d -> GetLocalDepth d j < GetGlobalDepth d.
Proof.
  unfold Directory.CanShrink. rewrite forallb_forall. split.
  - intros H j Hj. apply Z.ltb_lt, H, slots_In, Hj.
  - intros H j Hj. apply Z.ltb_lt, H, slots_In, Hj.
Qed.

(** The effect of [Merge] on the directory and the pages. *)
Lemma Merge_effect (t : HashTable) (key : KeyType) (value : ValueType) (bp : bucket) :
  let dir := dir_page t in
  let index := KeyToDirectoryIndex key dir in
  let pid := KeyToPageId key dir in
  let d := GetLocalDepth dir index in
  let local_mask := GetLocalDepthMask dir index in
  let same_mask := Z.lxor local_mask (shl1 (u32 (d - 1))) in
  let split := GetSplitImageIndex dir index in
  0 <= d ->
  FetchBucketPage t pid = Some bp ->
  exists t', Merge t key value = Some t'
    /\ (d = 0 \/ IsEmpty bp = false \/ GetLocalDepth dir split <> d -> t' = t)
    /\ (d <> 0 -> IsEmpty bp = true -> GetLocalDepth dir split = d ->
        let dir' := dir_page t' in
        (forall j, 0 <= j < dir_Size dir ->
           GetBucketPageId dir' j
           = (if Z.land j local_mask =? Z.land index local_mask
              then GetBucketPageId dir split else GetBucketPageId dir j)
           /\ GetLocalDepth dir' j
              = (if Z.land j same_mask =? Z.land index same_mask
                 then u8 (GetLocalDepth dir j - 1) else GetLocalDepth dir j))
        /\ (forall j, ~ 0 <= j < dir_Size dir ->
              GetBucketPageId dir' j = GetBucketPageId dir j
              /\ GetLocalDepth dir' j = GetLocalDepth dir j)
        /\ bucket_pages t' pid = None
        /\ (forall p, p <> pid -> bucket_pages t' p = bucket_pages t p)
        /\ ((forall j, 0 <= j < dir_Size dir -> GetLocalDepth dir' j < GetGlobalDepth dir) ->
            GetGlobalDepth dir' = u32 (GetGlobalDepth dir - 1))
        /\ ((exists j, 0 <= j < dir_Size dir /\ GetGlobalDepth dir <= GetLocalDepth dir' j) ->
            GetGlobalDepth dir' = GetGlobalDepth dir)
        /\ ExtendibleHashTable.next_page_id t' = ExtendibleHashTable.next_page_id t).
Proof.
  cbv zeta. unfold ExtendibleHashTable.Merge, ExtendibleHashTable.Merge_shift_amount.
  cbv zeta.
  set (dir := dir_page t).
  set (index := KeyToDirectoryIndex key dir).
  set (pid := KeyToPageId key dir).
  set (d := GetLocalDepth dir index).
  set (local_mask := GetLocalDepthMask dir index).
  set (same_mask := Z.lxor local_mask (shl1 (u32 (d - 1)))).
  set (split := GetSplitImageIndex dir index).
  intros Hd Hfetch. rewrite Hfetch.
  destruct (Z.ltb_spec 0 d) as [Hpos|Hzero]; cbn [andb].
  2:{ eexists; split; [reflexivity|]. split; [reflexivity|]. intros; lia. }
  destruct (IsEmpty bp) eqn:Hempty.
  2:{ eexists; split; [reflexivity|]. split; [reflexivity|]. intros; discriminate. }
  destruct (Z.eqb_spec (GetLocalDepth dir split) d) as [Hsame|Hdiff].
  2:{ eexists; split; [reflexivity|]. split; [reflexivity|]. intros; contradiction. }
  eexists; split; [reflexivity|]. split; [intros [H|[H|H]]; [lia|discriminate|contradiction]|].
  intros _ _ _.
  set (another := GetBucketPageId dir split).
  set (bodyA := fun i dir => if Z.land i local_mask =? Z.land index local_mask
                 then Directory.SetBucketPageId dir i another else dir).
  set (bodyB := fun i dir => if Z.land i same_mask =? Z.land index same_mask
                 then Directory.DecrLocalDepth dir i else dir).
  set (dirA := for_loop (Z.to_nat (dir_Size dir)) 0 bodyA dir).
  set (dirB := for_loop (Z.to_nat (dir_Size dir)) 0 bodyB dirA).
  destruct (for_loop_cells bodyA
              (fun j => (GetLocalDepth dir j,
                         if Z.land j local_mask =? Z.land index local_mask
                         then another else GetBucketPageId dir j))
              dir 0 (Z.to_nat (dir_Size dir))) as [HgA HcA].
  { intros i x. unfold bodyA. destruct (_ =? _); reflexivity. }
  { intros i x j Hj. unfold bodyA, Directory.cell.
    destruct (_ =? _); cbn; [|reflexivity].
    destruct (Z.eqb_spec j i); [contradiction|reflexivity]. }
  { intros i x Hi Hg Hc. specialize (Hc i ltac:(lia)).
    unfold Directory.cell in *. injection Hc as Hc1 Hc2. unfold bodyA.
    destruct (_ =? _); cbn; rewrite ?Z.eqb_refl; unfold Directory.GetLocalDepth,
      Directory.GetBucketPageId; congruence. }
  fold dirA in HgA, HcA.
  destruct (for_loop_cells bodyB
              (fun j => (if Z.land j same_mask =? Z.land index same_mask
                         then u8 (GetLocalDepth dirA j - 1) else GetLocalDepth dirA j,
                         GetBucketPageId dirA j))
              dirA 0 (Z.to_nat (dir_Size dir))) as [HgB HcB].
  { intros i x. unfold bodyB. destruct (_ =? _); reflexivity. }
  { intros i x j Hj. unfold bodyB, Directory.cell.
    destruct (_ =? _); cbn; [|reflexivity].
    destruct (Z.eqb_spec j i); [contradiction|reflexivity]. }
  { intros i x Hi Hg Hc. specialize (Hc i ltac:(lia)).
    unfold Directory.cell in *. injection Hc as Hc1 Hc2. unfold bodyB.
    destruct (_ =? _); cbn; rewrite ?Z.eqb_refl; unfold Directory.GetLocalDepth,
      Directory.GetBucketPageId; congruence. }
  fold dirB in HgB, HcB.
  assert (Hcells : forall j,
    Directory.cell dirB j
    = if (0 <=? j) && (j <? 0 + dir_Size dir)
      then (if Z.land j same_mask =? Z.land index same_mask
            then u8 (GetLocalDepth dir j - 1) else GetLocalDepth dir j,
            if Z.land j local_mask =? Z.land index local_mask
            then another else GetBucketPageId dir j)
      else Directory.cell dir j).
  { intros j. rewrite HcB, range_to_nat.
    pose proof (HcA j) as HA. rewrite range_to_nat in HA. unfold Directory.cell in HA.
    destruct ((0 <=? j) && (j <? 0 + dir_Size dir)) eqn:Hin.
    - injection HA as HA1 HA2.
      unfold Directory.GetLocalDepth, Directory.GetBucketPageId in *.
      rewrite HA1, HA2. reflexivity.
    - exact HA. }
  assert (Hin : forall j, 0 <= j < dir_Size dir ->
                (0 <=? j) && (j <? 0 + dir_Size dir) = true)
    by (intros j Hj; apply range_true; lia).
  assert (Hout : forall j, ~ 0 <= j < dir_Size dir ->
                 (0 <=? j) && (j <? 0 + dir_Size dir) = false)
    by (intros j Hj; apply range_false; lia).
  cbn zeta. cbn [ExtendibleHashTable.dir_page ExtendibleHashTable.put_dir
                 ExtendibleHashTable.bucket_pages ExtendibleHashTable.DeletePage].
  assert (Hcell' : forall j,
    Directory.cell (if CanShrink dirB then Directory.DecrGlobalDepth dirB else dirB) j
    = Directory.cell dirB j) by (intros; destruct (CanShrink dirB); reflexivity).
  repeat split.
  - pose proof (Hcell' j) as Hc. rewrite Hcells, Hin in Hc by assumption.
    unfold Directory.cell in Hc. injection Hc as _ Hc. exact Hc.
  - pose proof (Hcell' j) as Hc. rewrite Hcells, Hin in Hc by assumption.
    unfold Directory.cell in Hc. injection Hc as Hc _. exact Hc.
  - pose proof (Hcell' j) as Hc. rewrite Hcells, Hout in Hc by assumption.
    unfold Directory.cell in Hc. injection Hc as _ Hc. exact Hc.
  - pose proof (Hcell' j) as Hc. rewrite Hcells, Hout in Hc by assumption.
    unfold Directory.cell in Hc. injection Hc as Hc _. exact Hc.
  - rewrite Z.eqb_refl. reflexivity.
  - intros p Hp. destruct (Z.eqb_spec p pid); [contradiction|reflexivity].
  - intros Hall.
    assert (Hs : CanShrink dirB = true).
    { apply CanShrink_true. unfold Directory.Size, Directory.GetGlobalDepth.
      rewrite HgB, HgA. intros j Hj. specialize (Hall j Hj).
      pose proof (Hcell' j) as Hc. unfold Directory.cell in Hc. injection Hc as Hc _.
      unfold Directory.GetLocalDepth in *. rewrite <- Hc. exact Hall. }
    rewrite Hs. unfold Directory.GetGlobalDepth. cbn. rewrite HgB, HgA. reflexivity.
  - intros (j & Hj & Hge).
    assert (Hs : CanShrink dirB = false).
    { destruct (CanShrink dirB) eqn:Hs; [|reflexivity]. exfalso.
      rewrite CanShrink_true in Hs. unfold Directory.Size, Directory.GetGlobalDepth in Hs.
      rewrite HgB, HgA in Hs. specialize (Hs j Hj).
      unfold Directory.GetLocalDepth, Directory.GetGlobalDepth in *. cbn in Hge. lia. }
    rewrite Hs. unfold Directory.GetGlobalDepth. rewrite HgB, HgA. reflexivity.
Qed.

(** C6. [Merge], given the routed bucket page [bp] and its local depth [d]:
    when [d] is 0, or [bp] is not empty, or the split image's local depth is
    not [d], the table (hence the directory) is left as it is; otherwise
    every slot with the bucket's local-mask prefix points to the sibling's
    page, the bucket's page is deleted, every slot with the merged prefix has
    its local depth decremented, and the global depth is decremented exactly
    when no slot's local depth reaches it ([CanShrink]). *)
Theorem Merge_spec (t : HashTable) (key : KeyType) (value : ValueType) (bp : bucket) :
  let dir := dir_page t in
  let index := KeyToDirectoryIndex key dir in
  let pid := KeyToPageId key dir in
  let d := GetLocalDepth dir index in
  let local_mask := GetLocalDepthMask dir index in
  let same_mask := Z.lxor local_mask (shl1 (u32 (d - 1))) in
  let split := GetSplitImageIndex dir index in
  0 <= d ->
  FetchBucketPage t pid = Some bp ->
  exists t', Merge t key value = Some t'
    /\ (d = 0 \/ IsEmpty bp = false \/ GetLocalDepth dir split <> d -> t' = t)
    /\ (d <> 0 -> IsEmpty bp = true -> GetLocalDepth dir split = d ->
        let dir' := dir_page t' in
        (forall j, 0 <= j < dir_Size dir ->
           GetBucketPageId dir' j
           = (if Z.land j local_mask =? Z.land index local_mask
              then GetBucketPageId dir split else GetBucketPageId dir j)
           /\ GetLocalDepth dir' j
              = (if Z.land j same_mask =? Z.land index same_mask
                 then u8 (GetLocalDepth dir j - 1) else GetLocalDepth dir j))
        /\ (forall j, ~ 0 <= j < dir_Size dir ->
              GetBucketPageId dir' j = GetBucketPageId dir j
              /\ GetLocalDepth dir' j = GetLocalDepth dir j)
        /\ bucket_pages t' pid = None
        /\ (forall p, p <> pid -> bucket_pages t' p = bucket_pages t p)
        /\ ((forall j, 0 <= j < dir_Size dir -> GetLocalDepth dir' j < GetGlobalDepth dir) ->
            GetGlobalDepth dir' = u32 (GetGlobalDepth dir - 1))
        /\ ((exists j, 0 <= j < dir_Size dir /\ GetGlobalDepth dir <= GetLocalDepth dir' j) ->
            GetGlobalDepth dir' = GetGlobalDepth dir)).
Proof.
  intros dir index pid d local_mask same_mask split Hd Hfetch.
  destruct (Merge_effect t key value bp Hd Hfetch) as (t' & Hrun & Hsame & Hmerge).
  exists t'. split; [exact Hrun|]. split; [exact Hsame|].
  intros Hnz Hempty Heq.
  destruct (Hmerge Hnz Hempty Heq) as (Hcells & Hout & Hdel & Hkeep & Hshrink & Hno & _).
  cbv zeta. split; [exact Hcells|]. split; [exact Hout|]. split; [exact Hdel|].
  split; [exact Hkeep|]. split; [exact Hshrink | exact Hno].
Qed.

(** The effect of [ExtraMerge] on the directory and the pages. *)
Lemma ExtraMerge_effect (t : HashTable) (key : KeyType) (value : ValueType) (eb : bucket) :
  let dir := dir_page t in
  let pid := KeyToPageId key dir in
  let index := KeyToDirectoryIndex key dir in
  let d := GetLocalDepth dir index in
  let split := GetSplitImageIndex dir index in
  let extra_pid := GetBucketPageId dir split in
  (0 < d -> FetchBucketPage t extra_pid = Some eb) ->
  exists r t', ExtraMerge t key value = Some (r, t')
    /\ (r = true <-> 0 < d /\ IsEmpty eb = true /\ GetLocalDepth dir split = d)
    /\ (r = false -> t' = t)
    /\ (r = true ->
        let dir' := dir_page t' in
        (forall j, 0 <= j < dir_Size dir ->
           GetBucketPageId dir' j
           = (if GetBucketPageId dir j =? extra_pid then pid else GetBucketPageId dir j)
           /\ GetLocalDepth dir' j
              = (if (GetBucketPageId dir j =? extra_pid) || (GetBucketPageId dir j =? pid)
                 then u8 (GetLocalDepth dir j - 1) else GetLocalDepth dir j))
        /\ (forall j, ~ 0 <= j < dir_Size dir ->
              GetBucketPageId dir' j = GetBucketPageId dir j
              /\ GetLocalDepth dir' j = GetLocalDepth dir j)
        /\ bucket_pages t' extra_pid = None
        /\ (forall p, p <> extra_pid -> bucket_pages t' p = bucket_pages t p)
        /\ ((forall j, 0 <= j < dir_Size dir -> GetLocalDepth dir' j < GetGlobalDepth dir) ->
            GetGlobalDepth dir' = u32 (GetGlobalDepth dir - 1))
        /\ ((exists j, 0 <= j < dir_Size dir /\ GetGlobalDepth dir <= GetLocalDepth dir' j) ->
            GetGlobalDepth dir' = GetGlobalDepth dir)
        /\ ExtendibleHashTable.next_page_id t' = ExtendibleHashTable.next_page_id t).
Proof.
  cbv zeta. unfold ExtendibleHashTable.ExtraMerge. cbv zeta.
  set (dir := dir_page t).
  set (index := KeyToDirectoryIndex key dir).
  set (pid := KeyToPageId key dir).
  set (d := GetLocalDepth dir index).
  set (split := GetSplitImageIndex dir index).
  set (extra_pid := GetBucketPageId dir split).
  intros Hfetch.
  destruct (Z.ltb_spec 0 d) as [Hpos|Hzero].
  2:{ exists false, t. split; [reflexivity|]. split; [|split; [reflexivity|discriminate]].
      split; [discriminate | intros [H _]; lia]. }
  rewrite (Hfetch Hpos).
  destruct (Z.eqb_spec (GetLocalDepth dir split) d) as [Hsame|Hdiff]; cbn [andb].
  2:{ exists false, t. split; [reflexivity|]. split; [|split; [reflexivity|discriminate]].
      split; [discriminate | intros (_ & _ & H); contradiction]. }
  destruct (IsEmpty eb) eqn:Hempty.
  2:{ exists false, t. split; [reflexivity|]. split; [|split; [reflexivity|discriminate]].
      split; [discriminate | intros (_ & H & _); discriminate]. }
  eexists true, _. split; [reflexivity|].
  split; [split; [intros _; split; [exact Hpos | split; [reflexivity | exact Hsame]]
                 | intros _; reflexivity]|].
  split; [discriminate|].
  intros _.
  set (body := fun i dir =>
     if Directory.GetBucketPageId dir i =? extra_pid
     then Directory.DecrLocalDepth (Directory.SetBucketPageId dir i pid) i
     else if Directory.GetBucketPageId dir i =? pid
          then Directory.DecrLocalDepth dir i else dir).
  set (dirA := for_loop (Z.to_nat (dir_Size dir)) 0 body dir).
  destruct (for_loop_cells body
              (fun j => (if (GetBucketPageId dir j =? extra_pid)
                            || (GetBucketPageId dir j =? pid)
                         then u8 (GetLocalDepth dir j - 1) else GetLocalDepth dir j,
                         if GetBucketPageId dir j =? extra_pid
                         then pid else GetBucketPageId dir j))
              dir 0 (Z.to_nat (dir_Size dir))) as [HgA HcA].
  { intros i x. unfold body. repeat destruct (_ =? _); reflexivity. }
  { intros i x j Hj. unfold body, Directory.cell.
    repeat destruct (_ =? _); cbn; try reflexivity;
      destruct (Z.eqb_spec j i); try contradiction; reflexivity. }
  { intros i x Hi Hg Hc. specialize (Hc i ltac:(lia)).
    unfold Directory.cell in *. injection Hc as Hc1 Hc2. unfold body.
    unfold Directory.GetLocalDepth, Directory.GetBucketPageId. rewrite Hc2.
    destruct (Directory.bucket_page_ids_ dir i =? extra_pid);
      [|destruct (Directory.bucket_page_ids_ dir i =? pid)];
      cbn; rewrite ?Z.eqb_refl, ?Hc1, ?Hc2; reflexivity. }
  fold dirA in HgA, HcA.
  assert (Hin : forall j, 0 <= j < dir_Size dir ->
                (0 <=? j) && (j <? 0 + Z.of_nat (Z.to_nat (dir_Size dir))) = true)
    by (intros j Hj; apply range_true; lia).
  assert (Hout : forall j, ~ 0 <= j < dir_Size dir ->
                 (0 <=? j) && (j <? 0 + Z.of_nat (Z.to_nat (dir_Size dir))) = false)
    by (intros j Hj; apply range_false; lia).
  cbn zeta. cbn [ExtendibleHashTable.dir_page ExtendibleHashTable.put_dir
                 ExtendibleHashTable.bucket_pages ExtendibleHashTable.DeletePage].
  assert (Hcell' : forall j,
    Directory.cell (if CanShrink dirA then Directory.DecrGlobalDepth dirA else dirA) j
    = Directory.cell dirA j) by (intros; destruct (CanShrink dirA); reflexivity).
  repeat split.
  - pose proof (Hcell' j) as Hc. rewrite HcA, Hin in Hc by assumption.
    unfold Directory.cell in Hc. injection Hc as _ Hc. exact Hc.
  - pose proof (Hcell' j) as Hc. rewrite HcA, Hin in Hc by assumption.
    unfold Directory.cell in Hc. injection Hc as Hc _. exact Hc.
  - pose proof (Hcell' j) as Hc. rewrite HcA, Hout in Hc by assumption.
    unfold Directory.cell in Hc. injection Hc as _ Hc. exact Hc.
  - pose proof (Hcell' j) as Hc. rewrite HcA, Hout in Hc by assumption.
    unfold Directory.cell in Hc. injection Hc as Hc _. exact Hc.
  - rewrite Z.eqb_refl. reflexivity.
  - intros p Hp. destruct (Z.eqb_spec p extra_pid); [contradiction|reflexivity].
  - intros Hall.
    assert (Hs : CanShrink dirA = true).
    { apply CanShrink_true. unfold Directory.Size, Directory.GetGlobalDepth.
      rewrite HgA. intros j Hj. specialize (Hall j Hj).
      pose proof (Hcell' j) as Hc. unfold Directory.cell in Hc. injection Hc as Hc _.
      unfold Directory.GetLocalDepth in *. rewrite <- Hc. exact Hall. }
    rewrite Hs. unfold Directory.GetGlobalDepth. cbn. rewrite HgA. reflexivity.
  - intros (j & Hj & Hge).
    assert (Hs : CanShrink dirA = false).
    { destruct (CanShrink dirA) eqn:Hs; [|reflexivity]. exfalso.
      rewrite CanShrink_true in Hs. unfold Directory.Size, Directory.GetGlobalDepth in Hs.
      rewrite HgA in Hs. specialize (Hs j Hj).
      unfold Directory.GetLocalDepth, Directory.GetGlobalDepth in *. cbn in Hge. lia. }
    rewrite Hs. unfold Directory.GetGlobalDepth. rewrite HgA. reflexivity.
Qed.

(** C7. [ExtraMerge], with [eb] the page of the split image when the
    bucket's local depth [d] is positive: the result is true exactly when
    [d > 0], [eb] is empty and the split image's local depth is [d]; on
    false the table is left as it is; on true every slot that pointed to the
    empty sibling points to the bucket, the slots of both have their local
    depth decremented, the sibling's page is deleted, and the global depth
    is decremented exactly when no slot's local depth reaches it. *)
Theorem ExtraMerge_spec (t : HashTable) (key : KeyType) (value : ValueType) (eb : bucket) :
  let dir := dir_page t in
  let pid := KeyToPageId key dir in
  let index := KeyToDirectoryIndex key dir in
  let d := GetLocalDepth dir index in
  let split := GetSplitImageIndex dir index in
  let extra_pid := GetBucketPageId dir split in
  (0 < d -> FetchBucketPage t extra_pid = Some eb) ->
  exists r t', ExtraMerge t key value = Some (r, t')
    /\ (r = true <-> 0 < d /\ IsEmpty eb = true /\ GetLocalDepth dir split = d)
    /\ (r = false -> t' = t)
    /\ (r = true ->
        let dir' := dir_page t' in
        (forall j, 0 <= j < dir_Size dir ->
           GetBucketPageId dir' j
           = (if GetBucketPageId dir j =? extra_pid then pid else GetBucketPageId dir j)
           /\ GetLocalDepth dir' j
              = (if (GetBucketPageId dir j =? extra_pid) || (GetBucketPageId dir j =? pid)
                 then u8 (GetLocalDepth dir j - 1) else GetLocalDepth dir j))
        /\ (forall j, ~ 0 <= j < dir_Size dir ->
              GetBucketPageId dir' j = GetBucketPageId dir j
              /\ GetLocalDepth dir' j = GetLocalDepth dir j)
        /\ bucket_pages t' extra_pid = None
        /\ (forall p, p <> extra_pid -> bucket_pages t' p = bucket_pages t p)
        /\ ((forall j, 0 <= j < dir_Size dir -> GetLocalDepth dir' j < GetGlobalDepth dir) ->
            GetGlobalDepth dir' = u32 (GetGlobalDepth dir - 1))
        /\ ((exists j, 0 <= j < dir_Size dir /\ GetGlobalDepth dir <= GetLocalDepth dir' j) ->
            GetGlobalDepth dir' = GetGlobalDepth dir)).
Proof.
  intros dir pid index d split extra_pid Hfetch.
  destruct (ExtraMerge_effect t key value eb Hfetch) as (r & t' & Hrun & Hr & Hfalse & Htrue).
  exists r, t'. split; [exact Hrun|]. split; [exact Hr|]. split; [exact Hfalse|].
  intros Hrt.
  destruct (Htrue Hrt) as (Hcells & Hout & Hdel & Hkeep & Hshrink & Hno & _).
  cbv zeta. split; [exact Hcells|]. split; [exact Hout|]. split; [exact Hdel|].
  split; [exact Hkeep|]. split; [exact Hshrink | exact Hno].
Qed.

End TableFacts.

(** ** The directory invariant *)

Section DirectoryInvariant.

Context (MAX_DEPTH : Z).

Local Abbreviation directory := Directory.HashTableDirectoryPage.
Local Abbreviation dir_inv := (ExtendibleHashTable.dir_inv MAX_DEPTH).
Local Abbreviation gd := Directory.global_depth_.
Local Abbreviation ld := Directory.local_depths_.
Local Abbreviation pid := Directory.bucket_page_ids_.
Local Abbreviation cell := Directory.cell.

Lemma cell_eq (d d' : directory) (i j : Z) :
  cell d' j = cell d i <-> ld d' j = ld d i /\ pid d' j = pid d i.
Proof.
  unfold Directory.cell. split.
  - intros H. injection H as H1 H2. auto.
  - intros [-> ->]. reflexivity.
Qed.

Lemma cell_pair (d : directory) (j a b : Z) :
  cell d j = (a, b) <-> ld d j = a /\ pid d j = b.
Proof.
  unfold Directory.cell. split.
  - intros H. injection H as H1 H2. auto.
  - intros [-> ->]. reflexivity.
Qed.

(** The directory after a split of the bucket of slot [i0], of local depth
    [d] and page [p0], with the fresh page [pn]: the slots of the bucket get
    the local depth [d + 1], and those that differ from [i0] in bit [d] get
    the page [pn]; a slot outside the bucket has the cells of the slot it
    mirrors. *)
Lemma dir_inv_split (dir dir' : directory) (i0 pn : Z) :
  dir_inv dir ->
  0 <= i0 < 2 ^ gd dir ->
  (forall j, 0 <= j < 2 ^ gd dir -> pid dir j <> pn) ->
  (gd dir' = gd dir /\ ld dir i0 < gd dir
   \/ gd dir' = gd dir + 1 /\ ld dir i0 = gd dir /\ gd dir + 1 <= MAX_DEPTH) ->
  (forall j, 0 <= j < 2 ^ gd dir' ->
     cell dir' j
     = if j mod 2 ^ ld dir i0 =? i0 mod 2 ^ ld dir i0
       then (ld dir i0 + 1,
             if j mod 2 ^ (ld dir i0 + 1) =? i0 mod 2 ^ (ld dir i0 + 1)
             then pid dir i0 else pn)
       else cell dir (j mod 2 ^ gd dir)) ->
  dir_inv dir'.
Proof.
  intros [HG Hld Hclass Hpage] Hi0 Hfresh HG' Hcell.
  set (G := gd dir) in *. set (d := ld dir i0) in *. set (p0 := pid dir i0) in *.
  assert (Hd : 0 <= d <= G) by (apply Hld, Hi0).
  assert (HGG' : G <= gd dir' <= G + 1) by lia.
  assert (Hhat : forall j, 0 <= j mod 2 ^ G < 2 ^ G) by (intros; apply mod_pow2_range; lia).
  assert (Hlow : forall j e, 0 <= e <= G -> (j mod 2 ^ G) mod 2 ^ e = j mod 2 ^ e)
    by (intros; apply mod_mod_pow2; lia).
  (* a slot outside the bucket mirrors a slot outside the bucket *)
  assert (Hout : forall j, j mod 2 ^ d <> i0 mod 2 ^ d -> pid dir (j mod 2 ^ G) <> p0).
  { intros j Hj Hp. apply Hj. rewrite <- (Hlow j d) by lia.
    apply (Hpage i0 (j mod 2 ^ G)); auto. }
  assert (Hin : forall j, j mod 2 ^ d = i0 mod 2 ^ d -> cell dir (j mod 2 ^ G) = cell dir i0).
  { intros j Hj. apply Hclass; auto. rewrite Hlow by lia. exact Hj. }
  constructor.
  - lia.
  - intros j Hj. pose proof (Hcell j Hj) as Hc.
    destruct (Z.eqb_spec (j mod 2 ^ d) (i0 mod 2 ^ d)) as [HC|HC].
    + apply cell_pair in Hc. destruct Hc as [-> _]. lia.
    + apply cell_eq in Hc. destruct Hc as [-> _].
      pose proof (Hld (j mod 2 ^ G) (Hhat j)). fold G in H. lia.
  - intros i j Hi Hj. pose proof (Hcell i Hi) as Hci. pose proof (Hcell j Hj) as Hcj.
    destruct (Z.eqb_spec (i mod 2 ^ d) (i0 mod 2 ^ d)) as [HCi|HCi].
    + pose proof Hci as Hci'. apply cell_pair in Hci'. destruct Hci' as [-> _].
      intros Hji. rewrite Hci, Hcj.
      assert (HCj : j mod 2 ^ d = i0 mod 2 ^ d)
        by (rewrite <- HCi; apply low_bits_le with (d + 1); [lia | exact Hji]).
      destruct (Z.eqb_spec (j mod 2 ^ d) (i0 mod 2 ^ d)); [|contradiction].
      rewrite Hji. reflexivity.
    + pose proof Hci as Hci'. apply cell_eq in Hci'. destruct Hci' as [-> _].
      intros Hji. rewrite Hci.
      assert (He := Hld (i mod 2 ^ G) (Hhat i)). fold G in He.
      assert (Hmirror : cell dir (j mod 2 ^ G) = cell dir (i mod 2 ^ G)).
      { apply Hclass; auto. rewrite !Hlow by lia. exact Hji. }
      destruct (Z.eqb_spec (j mod 2 ^ d) (i0 mod 2 ^ d)) as [HCj|HCj].
      * exfalso. apply (Hout i HCi).
        apply cell_eq in Hmirror. destruct Hmirror as [_ <-].
        pose proof (Hin j HCj) as Hj0. apply cell_eq in Hj0. apply Hj0.
      * rewrite Hcj. exact Hmirror.
  - intros i j Hi Hj. pose proof (Hcell i Hi) as Hci. pose proof (Hcell j Hj) as Hcj.
    destruct (Z.eqb_spec (i mod 2 ^ d) (i0 mod 2 ^ d)) as [HCi|HCi];
      destruct (Z.eqb_spec (j mod 2 ^ d) (i0 mod 2 ^ d)) as [HCj|HCj].
    + apply cell_pair in Hci, Hcj. destruct Hci as [-> ->]. destruct Hcj as [_ ->].
      assert (Hne : p0 <> pn) by (apply Hfresh, Hi0).
      destruct (Z.eqb_spec (i mod 2 ^ (d + 1)) (i0 mod 2 ^ (d + 1))) as [HBi|HBi];
        destruct (Z.eqb_spec (j mod 2 ^ (d + 1)) (i0 mod 2 ^ (d + 1))) as [HBj|HBj];
        intros Hp; try (exfalso; auto; fail).
      * rewrite HBi, HBj. reflexivity.
      * apply low_bits_other_half with i0; auto. lia.
    + apply cell_pair in Hci. apply cell_eq in Hcj. destruct Hci as [_ ->].
      destruct Hcj as [_ ->]. intros Hp. exfalso.
      destruct (Z.eqb_spec (i mod 2 ^ (d + 1)) (i0 mod 2 ^ (d + 1))).
      * apply (Hout j HCj Hp).
      * apply (Hfresh (j mod 2 ^ G) (Hhat j) Hp).
    + apply cell_pair in Hcj. apply cell_eq in Hci. destruct Hci as [_ ->].
      destruct Hcj as [_ ->]. intros Hp. exfalso.
      destruct (Z.eqb_spec (j mod 2 ^ (d + 1)) (i0 mod 2 ^ (d + 1))).
      * apply (Hout i HCi). symmetry. exact Hp.
      * apply (Hfresh (i mod 2 ^ G) (Hhat i)). symmetry. exact Hp.
    + apply cell_eq in Hci, Hcj. destruct Hci as [-> ->]. destruct Hcj as [_ ->].
      intros Hp. assert (He := Hld (i mod 2 ^ G) (Hhat i)). fold G in He.
      rewrite <- (Hlow j (ld dir (i mod 2 ^ G))), <- (Hlow i (ld dir (i mod 2 ^ G))) by lia.
      apply Hpage; auto.
Qed.

(** The directory after the buckets of the slots [a] and [b], split images
    of each other at local depth [e + 1], are merged into the page of [b]. *)
Lemma dir_inv_merge (dir dir' : directory) (a b e : Z) :
  dir_inv dir ->
  0 <= a < 2 ^ gd dir -> 0 <= b < 2 ^ gd dir ->
  0 <= e -> ld dir a = e + 1 -> ld dir b = e + 1 ->
  b mod 2 ^ e = a mod 2 ^ e -> b mod 2 ^ (e + 1) <> a mod 2 ^ (e + 1) ->
  gd dir' = gd dir ->
  (forall j, 0 <= j < 2 ^ gd dir ->
     cell dir' j
     = if j mod 2 ^ e =? a mod 2 ^ e then (e, pid dir b) else cell dir j) ->
  dir_inv dir'.
Proof.
  intros [HG Hld Hclass Hpage] Ha Hb He Hlda Hldb Hlow Hhigh HG' Hcell.
  set (G := gd dir) in *.
  assert (HeG : e + 1 <= G) by (rewrite <- Hlda; apply Hld, Ha).
  assert (Hbit : Z.testbit b e <> Z.testbit a e).
  { intros Hbit. apply Hhigh. apply low_bits_succ; auto. }
  (* the slots of the merged bucket are those of the two pages *)
  assert (Hin : forall j, 0 <= j < 2 ^ G -> j mod 2 ^ e = a mod 2 ^ e ->
                pid dir j = pid dir a \/ pid dir j = pid dir b).
  { intros j Hj HC. destruct (Bool.bool_dec (Z.testbit j e) (Z.testbit a e)) as [Hja|Hja].
    - left. apply (proj1 (cell_eq dir dir a j)). apply Hclass; auto.
      rewrite Hlda. apply low_bits_succ; auto.
    - right. apply (proj1 (cell_eq dir dir b j)). apply Hclass; auto.
      rewrite Hldb. apply low_bits_succ; auto. split; [congruence|].
      destruct (Z.testbit j e), (Z.testbit a e), (Z.testbit b e); auto; exfalso; auto. }
  assert (Hout : forall j, 0 <= j < 2 ^ G ->
                 pid dir j = pid dir a \/ pid dir j = pid dir b -> j mod 2 ^ e = a mod 2 ^ e).
  { intros j Hj [Hp|Hp].
    - apply low_bits_le with (e + 1); [lia|]. rewrite <- Hlda. apply Hpage; auto.
    - rewrite <- Hlow. apply low_bits_le with (e + 1); [lia|].
      rewrite <- Hldb. apply Hpage; auto. }
  constructor.
  - lia.
  - rewrite HG'. intros j Hj. pose proof (Hcell j Hj) as Hc.
    destruct (Z.eqb_spec (j mod 2 ^ e) (a mod 2 ^ e)) as [HC|HC].
    + apply cell_pair in Hc. destruct Hc as [-> _]. lia.
    + apply cell_eq in Hc. destruct Hc as [-> _]. apply Hld, Hj.
  - rewrite HG'. intros i j Hi Hj.
    pose proof (Hcell i Hi) as Hci. pose proof (Hcell j Hj) as Hcj.
    destruct (Z.eqb_spec (i mod 2 ^ e) (a mod 2 ^ e)) as [HCi|HCi].
    + pose proof Hci as Hci'. apply cell_pair in Hci'. destruct Hci' as [-> _].
      intros Hji. rewrite Hci, Hcj.
      destruct (Z.eqb_spec (j mod 2 ^ e) (a mod 2 ^ e)); [reflexivity|]. exfalso. lia.
    + pose proof Hci as Hci'. apply cell_eq in Hci'. destruct Hci' as [-> _].
      intros Hji. rewrite Hci.
      assert (Hsame : cell dir j = cell dir i) by (apply Hclass; auto).
      destruct (Z.eqb_spec (j mod 2 ^ e) (a mod 2 ^ e)) as [HCj|HCj].
      * exfalso. apply HCi, Hout; auto.
        apply cell_eq in Hsame. destruct Hsame as [_ <-]. apply Hin; auto.
      * rewrite Hcj. exact Hsame.
  - rewrite HG'. intros i j Hi Hj.
    pose proof (Hcell i Hi) as Hci. pose proof (Hcell j Hj) as Hcj.
    destruct (Z.eqb_spec (i mod 2 ^ e) (a mod 2 ^ e)) as [HCi|HCi];
      destruct (Z.eqb_spec (j mod 2 ^ e) (a mod 2 ^ e)) as [HCj|HCj].
    + apply cell_pair in Hci. destruct Hci as [-> _]. intros _. lia.
    + apply cell_pair in Hci. apply cell_eq in Hcj. destruct Hci as [_ ->].
      destruct Hcj as [_ ->]. intros Hp. exfalso. apply HCj, Hout; auto.
    + apply cell_pair in Hcj. apply cell_eq in Hci. destruct Hci as [_ ->].
      destruct Hcj as [_ ->]. intros Hp. exfalso. apply HCi, Hout; auto.
    + apply cell_eq in Hci, Hcj. destruct Hci as [-> ->]. destruct Hcj as [_ ->].
      apply Hpage; auto.
Qed.

(** The slots of two buckets that are split images of each other. *)
Lemma merge_class (dir : directory) (a b e j : Z) :
  dir_inv dir ->
  0 <= a < 2 ^ gd dir -> 0 <= b < 2 ^ gd dir -> 0 <= j < 2 ^ gd dir ->
  0 <= e -> ld dir a = e + 1 -> ld dir b = e + 1 ->
  b mod 2 ^ e = a mod 2 ^ e -> b mod 2 ^ (e + 1) <> a mod 2 ^ (e + 1) ->
  (j mod 2 ^ e = a mod 2 ^ e <-> pid dir j = pid dir a \/ pid dir j = pid dir b)
  /\ (j mod 2 ^ e = a mod 2 ^ e -> ld dir j = e + 1)
  /\ pid dir a <> pid dir b.
Proof.
  intros [HG Hld Hclass Hpage] Ha Hb Hj He Hlda Hldb Hlow Hhigh.
  assert (Hbit : Z.testbit b e <> Z.testbit a e).
  { intros Hbit. apply Hhigh. apply low_bits_succ; auto. }
  assert (Hin : j mod 2 ^ e = a mod 2 ^ e ->
                cell dir j = cell dir a \/ cell dir j = cell dir b).
  { intros HC. destruct (Bool.bool_dec (Z.testbit j e) (Z.testbit a e)) as [Hja|Hja].
    - left. apply Hclass; auto. rewrite Hlda. apply low_bits_succ; auto.
    - right. apply Hclass; auto. rewrite Hldb. apply low_bits_succ; auto.
      split; [rewrite HC; auto|].
      destruct (Z.testbit j e), (Z.testbit a e), (Z.testbit b e); auto; exfalso; auto. }
  split; [split|split].
  - intros HC. destruct (Hin HC) as [H|H]; apply cell_eq in H; [left|right]; apply H.
  - intros [Hp|Hp].
    + apply low_bits_le with (e + 1); [lia|]. rewrite <- Hlda. apply Hpage; auto.
    + rewrite <- Hlow. apply low_bits_le with (e + 1); [lia|].
      rewrite <- Hldb. apply Hpage; auto.
  - intros HC. destruct (Hin HC) as [H|H]; apply cell_eq in H; destruct H as [-> _]; auto.
  - intros Hp. apply Hhigh. rewrite <- Hlda. apply Hpage; auto.
Qed.

(** Halving the directory when no local depth reaches the global depth. *)
Lemma dir_inv_shrink (dir dir' : directory) :
  dir_inv dir ->
  (forall j, 0 <= j < 2 ^ gd dir -> ld dir j < gd dir) ->
  gd dir' = gd dir - 1 ->
  (forall j, cell dir' j = cell dir j) ->
  dir_inv dir'.
Proof.
  intros [HG Hld Hclass Hpage] Hall HG' Hcell.
  assert (H0 : 0 <= 0 < 2 ^ gd dir) by (split; [lia | apply pow2_pos; lia]).
  pose proof (Hall 0 H0) as Hlt. pose proof (Hld 0 H0) as Hge.
  assert (Hsub : forall j, 0 <= j < 2 ^ gd dir' -> 0 <= j < 2 ^ gd dir).
  { intros j Hj. rewrite HG' in Hj.
    pose proof (pow2_le (gd dir - 1) (gd dir) ltac:(lia)). lia. }
  assert (Hl : forall j, ld dir' j = ld dir j)
    by (intros j; apply (proj1 (cell_eq dir dir' j j) (Hcell j))).
  assert (Hp : forall j, pid dir' j = pid dir j)
    by (intros j; apply (proj1 (cell_eq dir dir' j j) (Hcell j))).
  constructor.
  - lia.
  - intros j Hj. rewrite Hl. pose proof (Hall j (Hsub j Hj)). pose proof (Hld j (Hsub j Hj)).
    lia.
  - intros i j Hi Hj. rewrite Hl, !Hcell. apply Hclass; auto.
  - intros i j Hi Hj. rewrite Hl, !Hp. apply Hpage; auto.
Qed.

End DirectoryInvariant.

(** ** The hash table: the invariant is maintained *)

Section TableInvariant.

Context (BUCKET_ARRAY_SIZE : nat) {KeyType ValueType : Type}.
Context (cmp : KeyType -> KeyType -> Z).
Context (value_eq : ValueType -> ValueType -> bool).
Context (default_key : KeyType) (default_value : ValueType).
Context (hash_fn : KeyType -> Z).
Context (MAX_DEPTH : Z).
Context (shl_overflow : Z -> Z).

(** The directory arrays hold at most [2^31] slots, so that slot indices
    and masks are [uint32_t] values. *)
Hypothesis MAX_DEPTH_le : MAX_DEPTH <= 31.
Hypothesis cmp_spec : forall a b, cmp a b = 0 <-> a = b.
Hypothesis value_eq_spec : forall a b, value_eq a b = true <-> a = b.

Local Abbreviation bucket := (BucketPage.HashTableBucketPage KeyType ValueType).
Local Abbreviation directory := Directory.HashTableDirectoryPage.
Local Abbreviation HashTable := (@ExtendibleHashTable.HashTable KeyType ValueType).
Local Abbreviation bucket_inv :=
  (BucketPage.bucket_inv BUCKET_ARRAY_SIZE default_key default_value).
Local Abbreviation holds := (BucketPage.holds BUCKET_ARRAY_SIZE default_key default_value).
Local Abbreviation slot := (BucketPage.slot default_key default_value).
Local Abbreviation IsReadable := (@BucketPage.IsReadable KeyType ValueType).
Local Abbreviation IsOccupied := (@BucketPage.IsOccupied KeyType ValueType).
Local Abbreviation zero_page :=
  (BucketPage.zero_page BUCKET_ARRAY_SIZE default_key default_value).
Local Abbreviation IsFull := (@BucketPage.IsFull BUCKET_ARRAY_SIZE KeyType ValueType).
Local Abbreviation IsEmpty := (@BucketPage.IsEmpty BUCKET_ARRAY_SIZE KeyType ValueType).
Local Abbreviation bucket_Insert :=
  (BucketPage.Insert BUCKET_ARRAY_SIZE cmp value_eq default_key default_value).
Local Abbreviation bucket_Remove :=
  (BucketPage.Remove BUCKET_ARRAY_SIZE cmp value_eq default_key default_value).
Local Abbreviation bucket_GetValue :=
  (BucketPage.GetValue BUCKET_ARRAY_SIZE cmp default_key default_value).
Local Abbreviation GetGlobalDepthMask := (Directory.GetGlobalDepthMask shl_overflow).
Local Abbreviation GetLocalDepthMask := (Directory.GetLocalDepthMask shl_overflow).
Local Abbreviation GetSplitImageIndex := (Directory.GetSplitImageIndex shl_overflow).
Local Abbreviation dir_Size := (Directory.Size shl_overflow).
Local Abbreviation CanShrink := (Directory.CanShrink shl_overflow).
Local Abbreviation shl1 := (Directory.shl1 shl_overflow).
Local Abbreviation gd := Directory.global_depth_.
Local Abbreviation ld := Directory.local_depths_.
Local Abbreviation pid := Directory.bucket_page_ids_.
Local Abbreviation cell := Directory.cell.
Local Abbreviation dir_page := (@ExtendibleHashTable.dir_page KeyType ValueType).
Local Abbreviation bucket_pages := (@ExtendibleHashTable.bucket_pages KeyType ValueType).
Local Abbreviation next_page_id := (@ExtendibleHashTable.next_page_id KeyType ValueType).
Local Abbreviation KeyToDirectoryIndex :=
  (ExtendibleHashTable.KeyToDirectoryIndex hash_fn shl_overflow).
Local Abbreviation KeyToPageId := (ExtendibleHashTable.KeyToPageId hash_fn shl_overflow).
Local Abbreviation Hash := (ExtendibleHashTable.Hash hash_fn).
Local Abbreviation dir_inv := (ExtendibleHashTable.dir_inv MAX_DEPTH).
Local Abbreviation table_inv :=
  (ExtendibleHashTable.table_inv BUCKET_ARRAY_SIZE default_key default_value hash_fn
     MAX_DEPTH).
Local Abbreviation present :=
  (ExtendibleHashTable.present BUCKET_ARRAY_SIZE default_key default_value hash_fn
     shl_overflow).
Local Abbreviation beyond_MAX_DEPTH :=
  (ExtendibleHashTable.beyond_MAX_DEPTH BUCKET_ARRAY_SIZE hash_fn MAX_DEPTH shl_overflow).
Local Abbreviation split_directory :=
  (ExtendibleHashTable.split_directory MAX_DEPTH shl_overflow).
Local Abbreviation redistribute :=
  (ExtendibleHashTable.redistribute BUCKET_ARRAY_SIZE cmp value_eq default_key default_value
     hash_fn shl_overflow).
Local Abbreviation SplitInsert :=
  (ExtendibleHashTable.SplitInsert BUCKET_ARRAY_SIZE cmp value_eq default_key default_value
     hash_fn MAX_DEPTH shl_overflow).
Local Abbreviation Insert :=
  (ExtendibleHashTable.Insert BUCKET_ARRAY_SIZE cmp value_eq default_key default_value
     hash_fn MAX_DEPTH shl_overflow).
Local Abbreviation Merge :=
  (@ExtendibleHashTable.Merge BUCKET_ARRAY_SIZE KeyType ValueType hash_fn shl_overflow).
Local Abbreviation ExtraMerge :=
  (@ExtendibleHashTable.ExtraMerge BUCKET_ARRAY_SIZE KeyType ValueType hash_fn shl_overflow).
Local Abbreviation ExtraMerge_loop :=
  (@ExtendibleHashTable.ExtraMerge_loop BUCKET_ARRAY_SIZE KeyType ValueType hash_fn
     shl_overflow).
Local Abbreviation Remove :=
  (ExtendibleHashTable.Remove BUCKET_ARRAY_SIZE cmp value_eq default_key default_value
     hash_fn shl_overflow).
Local Abbreviation GetValue :=
  (ExtendibleHashTable.GetValue BUCKET_ARRAY_SIZE cmp default_key default_value
     hash_fn shl_overflow).
Local Abbreviation init :=
  (@ExtendibleHashTable.init BUCKET_ARRAY_SIZE KeyType ValueType default_key default_value).
Local Abbreviation run :=
  (ExtendibleHashTable.run BUCKET_ARRAY_SIZE cmp value_eq default_key default_value
     hash_fn MAX_DEPTH shl_overflow).

Lemma Hash_range (key : KeyType) : 0 <= Hash key < 2 ^ 32.
Proof.
  unfold ExtendibleHashTable.Hash, u32. apply Z.mod_pos_bound. lia.
Qed.

Lemma depth_le_31 (dir : directory) : dir_inv dir -> 0 <= gd dir <= 31.
Proof.
  intros Hinv. pose proof (ExtendibleHashTable.global_depth_range _ _ Hinv). lia.
Qed.

Lemma Size_pow2 (dir : directory) : dir_inv dir -> dir_Size dir = 2 ^ gd dir.
Proof.
  intros Hinv. apply shl1_pow2, depth_le_31, Hinv.
Qed.

Lemma mask_pow2 (n : Z) : 0 <= n <= 31 -> u32 (shl1 n - 1) = 2 ^ n - 1.
Proof.
  intros Hn. rewrite shl1_pow2 by exact Hn. apply u32_small.
  pose proof (pow2_lt_32 n Hn). lia.
Qed.

Lemma GetGlobalDepthMask_pow2 (dir : directory) :
  dir_inv dir -> GetGlobalDepthMask dir = 2 ^ gd dir - 1.
Proof.
  intros Hinv. apply mask_pow2, depth_le_31, Hinv.
Qed.

Lemma local_depth_le_31 (dir : directory) (i : Z) :
  dir_inv dir -> 0 <= i < 2 ^ gd dir -> 0 <= ld dir i <= 31.
Proof.
  intros Hinv Hi. pose proof (ExtendibleHashTable.local_depth_range _ _ Hinv i Hi).
  pose proof (depth_le_31 dir Hinv). lia.
Qed.

Lemma GetLocalDepthMask_pow2 (dir : directory) (i : Z) :
  dir_inv dir -> 0 <= i < 2 ^ gd dir -> GetLocalDepthMask dir i = 2 ^ ld dir i - 1.
Proof.
  intros Hinv Hi. apply mask_pow2, local_depth_le_31; auto.
Qed.

(** A key is routed to the slot given by the low [global_depth] bits of its hash. *)
Lemma KeyToDirectoryIndex_mod (key : KeyType) (dir : directory) :
  dir_inv dir -> KeyToDirectoryIndex key dir = Hash key mod 2 ^ gd dir.
Proof.
  intros Hinv. unfold ExtendibleHashTable.KeyToDirectoryIndex.
  rewrite GetGlobalDepthMask_pow2 by exact Hinv. apply land_mask.
  apply (depth_le_31 dir Hinv).
Qed.

Lemma KeyToDirectoryIndex_low (key : KeyType) (dir : directory) (n : Z) :
  dir_inv dir -> 0 <= n <= gd dir ->
  KeyToDirectoryIndex key dir mod 2 ^ n = Hash key mod 2 ^ n.
Proof.
  intros Hinv Hn. rewrite KeyToDirectoryIndex_mod by exact Hinv.
  apply mod_mod_pow2, Hn.
Qed.

Lemma KeyToDirectoryIndex_range (key : KeyType) (dir : directory) :
  dir_inv dir -> 0 <= KeyToDirectoryIndex key dir < 2 ^ gd dir.
Proof.
  intros Hinv. rewrite KeyToDirectoryIndex_mod by exact Hinv.
  apply mod_pow2_range, (depth_le_31 dir Hinv).
Qed.

(** The directory part of [SplitInsert] on the bucket of slot [i0]. *)
Lemma split_directory_effect (dir : directory) (i0 pn : Z) :
  dir_inv dir -> 0 <= i0 < 2 ^ gd dir ->
  (ld dir i0 < gd dir \/ gd dir < MAX_DEPTH) ->
  exists dir', split_directory dir i0 (pid dir i0) pn = Some dir'
    /\ (gd dir' = gd dir /\ ld dir i0 < gd dir
        \/ gd dir' = gd dir + 1 /\ ld dir i0 = gd dir /\ gd dir + 1 <= MAX_DEPTH)
    /\ forall j, 0 <= j < 2 ^ gd dir' ->
         cell dir' j
         = if j mod 2 ^ ld dir i0 =? i0 mod 2 ^ ld dir i0
           then (ld dir i0 + 1,
                 if j mod 2 ^ (ld dir i0 + 1) =? i0 mod 2 ^ (ld dir i0 + 1)
                 then pid dir i0 else pn)
           else cell dir (j mod 2 ^ gd dir).
Proof.
  intros Hinv Hi0 Hroom.
  pose proof (depth_le_31 dir Hinv) as HG.
  pose proof (ExtendibleHashTable.local_depth_range _ _ Hinv i0 Hi0) as Hd.
  assert (Hmask : GetLocalDepthMask dir i0 = 2 ^ ld dir i0 - 1)
    by (apply GetLocalDepthMask_pow2; auto).
  assert (Hsize : dir_Size dir = 2 ^ gd dir) by (apply Size_pow2, Hinv).
  set (G := gd dir) in Hi0, Hroom, HG, Hd, Hsize |- *.
  set (d := ld dir i0) in Hroom, Hd, Hmask |- *. set (p0 := pid dir i0).
  assert (Hd31 : 0 <= d <= 31) by lia.
  assert (Hnew : u32 (2 ^ d - 1 + u32 (2 ^ d - 1 + 1)) = 2 ^ (d + 1) - 1).
  { pose proof (pow2_lt_32 d Hd31). rewrite (u32_small (2 ^ d - 1 + 1)) by lia.
    replace (2 ^ d - 1 + (2 ^ d - 1 + 1)) with (2 ^ (d + 1) - 1)
      by (rewrite pow2_succ; lia).
    apply u32_small. rewrite pow2_succ by lia.
    assert (2 ^ d <= 2 ^ 31) by (apply pow2_le; lia).
    change (2 ^ 32) with (2 * 2 ^ 31). lia. }
  unfold ExtendibleHashTable.split_directory. cbv zeta.
  rewrite Hmask, Hnew, Hsize, (land_mask i0 (d + 1)) by lia.
  change (Directory.GetLocalDepth dir i0) with d.
  assert (Hclass0 : forall j, 0 <= j < 2 ^ G -> j mod 2 ^ d = i0 mod 2 ^ d ->
                    ld dir j = d /\ pid dir j = p0).
  { intros j Hj HC. apply cell_eq. apply (ExtendibleHashTable.same_class _ _ Hinv); auto. }
  assert (Hpage0 : forall j, 0 <= j < 2 ^ G -> pid dir j = p0 -> j mod 2 ^ d = i0 mod 2 ^ d).
  { intros j Hj HC. apply (ExtendibleHashTable.same_page _ _ Hinv); auto. }
  assert (Hu8 : u8 (d + 1) = d + 1) by (apply Z.mod_small; change (2 ^ 8) with 256; lia).
  set (body1 := fun (i : Z) (dir0 : directory) =>
                  if Z.land i (2 ^ (d + 1) - 1) =? i0 mod 2 ^ (d + 1)
                  then Directory.IncrLocalDepth dir0 i else dir0).
  set (dir1 := for_loop (Z.to_nat (2 ^ G)) 0 body1 dir).
  destruct (for_loop_cells body1
              (fun j => (if j mod 2 ^ (d + 1) =? i0 mod 2 ^ (d + 1)
                         then u8 (ld dir j + 1) else ld dir j, pid dir j))
              dir 0 (Z.to_nat (2 ^ G))) as [Hg1 Hc1].
  { intros i x. unfold body1. destruct (_ =? _); reflexivity. }
  { intros i x j Hj. unfold body1, Directory.cell.
    destruct (_ =? _); cbn; [|reflexivity].
    destruct (Z.eqb_spec j i); [contradiction|reflexivity]. }
  { intros i x Hi Hg Hc. specialize (Hc i ltac:(lia)).
    apply cell_eq in Hc. destruct Hc as [Hc1 Hc2]. unfold body1.
    rewrite land_mask by lia.
    destruct (_ =? _); apply cell_pair; cbn; rewrite ?Z.eqb_refl, ?Hc1, ?Hc2; auto. }
  fold dir1 in Hg1, Hc1.
  assert (Hcell1 : forall j, 0 <= j < 2 ^ G ->
            cell dir1 j = (if j mod 2 ^ (d + 1) =? i0 mod 2 ^ (d + 1)
                           then d + 1 else ld dir j, pid dir j)).
  { intros j Hj. rewrite Hc1, range_to_nat, range_true by lia.
    destruct (Z.eqb_spec (j mod 2 ^ (d + 1)) (i0 mod 2 ^ (d + 1))) as [HB|HB]; auto.
    destruct (Hclass0 j Hj (low_bits_le _ _ d (d + 1) ltac:(lia) HB)) as [-> _].
    rewrite Hu8. reflexivity. }
  unfold Directory.GetGlobalDepth. rewrite Hg1. fold G.
  destruct (Z.ltb_spec d G) as [Hlt|Hge].
  - set (body2 := fun (i : Z) (dir0 : directory) =>
                    if (Directory.GetBucketPageId dir0 i =? p0)
                       && negb (Z.land i (2 ^ (d + 1) - 1) =? i0 mod 2 ^ (d + 1))
                    then Directory.IncrLocalDepth (Directory.SetBucketPageId dir0 i pn) i
                    else dir0).
    set (dir2 := for_loop (Z.to_nat (2 ^ G)) 0 body2 dir1).
    destruct (for_loop_cells body2
                (fun j => if (pid dir1 j =? p0)
                             && negb (j mod 2 ^ (d + 1) =? i0 mod 2 ^ (d + 1))
                          then (u8 (ld dir1 j + 1), pn) else cell dir1 j)
                dir1 0 (Z.to_nat (2 ^ G))) as [Hg2 Hc2].
    { intros i x. unfold body2. destruct (_ && _); reflexivity. }
    { intros i x j Hj. unfold body2, Directory.cell.
      destruct (_ && _); cbn; [|reflexivity].
      destruct (Z.eqb_spec j i); [contradiction|reflexivity]. }
    { intros i x Hi Hg Hc. specialize (Hc i ltac:(lia)).
      pose proof Hc as Hc'. apply cell_eq in Hc'. destruct Hc' as [Hc1' Hc2']. unfold body2.
      rewrite land_mask by lia. unfold Directory.GetBucketPageId. rewrite Hc2'.
      destruct (_ && _); [|exact Hc].
      apply cell_pair; cbn; rewrite ?Z.eqb_refl, ?Hc1'; auto. }
    fold dir2 in Hg2, Hc2.
    exists dir2. split; [reflexivity|]. split; [left; split; [rewrite Hg2, Hg1; reflexivity | exact Hlt]|].
    rewrite Hg2, Hg1. fold G. intros j Hj.
    rewrite Hc2, range_to_nat, range_true by lia.
    pose proof (Hcell1 j Hj) as H1. pose proof H1 as H1'.
    apply cell_pair in H1'. destruct H1' as [Hld1 Hpid1]. rewrite Hpid1.
    rewrite (mod_small_pow2 j G Hj).
    destruct (Z.eqb_spec (j mod 2 ^ d) (i0 mod 2 ^ d)) as [HC|HC].
    + destruct (Hclass0 j Hj HC) as [Hldj Hpidj]. rewrite Hpidj, Z.eqb_refl. cbn [andb].
      destruct (Z.eqb_spec (j mod 2 ^ (d + 1)) (i0 mod 2 ^ (d + 1))) as [HB|HB]; cbn [negb].
      * rewrite H1. rewrite Hpidj. reflexivity.
      * rewrite Hld1, Hldj, Hu8. reflexivity.
    + destruct (Z.eqb_spec (pid dir j) p0) as [Hp|Hp]; [exfalso; auto|]. cbn [andb].
      rewrite H1.
      destruct (Z.eqb_spec (j mod 2 ^ (d + 1)) (i0 mod 2 ^ (d + 1))) as [HB|HB];
        [|reflexivity].
      exfalso. apply HC. apply low_bits_le with (d + 1); [lia | exact HB].
  - assert (HdG : d = G) by lia.
    assert (HGM : G + 1 <= MAX_DEPTH) by lia.
    assert (Hg1' : u32 (gd dir1 + 1) = G + 1)
      by (rewrite Hg1; fold G; apply u32_small; split; [lia|]; change (2 ^ 32) with 4294967296;
          lia).
    set (dirI := Directory.mkDir (G + 1) (ld dir1) (pid dir1)).
    assert (HI : Directory.IncrGlobalDepth dir1 = dirI)
      by (unfold Directory.IncrGlobalDepth, dirI; rewrite Hg1'; reflexivity).
    rewrite HI. unfold Directory.Size. change (gd dirI) with (G + 1).
    destruct (Z.ltb_spec MAX_DEPTH (G + 1)) as [Hbad|_]; [lia|].
    rewrite shl1_pow2 by lia.
    replace (2 ^ (G + 1) - 2 ^ G) with (2 ^ G) by (rewrite pow2_succ; lia).
    set (body3 := fun (i : Z) (dir0 : directory) =>
      Directory.SetLocalDepth
        (if Directory.GetBucketPageId dir0 (u32 (i - 2 ^ G)) =? p0
         then Directory.SetBucketPageId dir0 i pn
         else Directory.SetBucketPageId dir0 i
                (Directory.GetBucketPageId dir0 (u32 (i - 2 ^ G))))
        i (Directory.GetLocalDepth dir0 (u32 (i - 2 ^ G)))).
    set (dir3 := for_loop (Z.to_nat (2 ^ G)) (2 ^ G) body3 dirI).
    pose proof (pow2_lt_32 G HG) as HG32.
    assert (Hsub : forall i, 2 ^ G <= i < 2 ^ G + 2 ^ G -> u32 (i - 2 ^ G) = i - 2 ^ G)
      by (intros i Hi; apply u32_small; lia).
    destruct (for_loop_cells body3
                (fun j => (u8 (ld dir1 (j - 2 ^ G)),
                           if pid dir1 (j - 2 ^ G) =? p0 then pn else pid dir1 (j - 2 ^ G)))
                dirI (2 ^ G) (Z.to_nat (2 ^ G))) as [Hg3 Hc3].
    { intros i x. unfold body3. destruct (_ =? _); reflexivity. }
    { intros i x j Hj. unfold body3, Directory.cell.
      destruct (_ =? _); cbn; destruct (Z.eqb_spec j i); try contradiction; reflexivity. }
    { intros i x Hi Hg Hc. rewrite Z2Nat.id in Hi by lia.
      specialize (Hc (i - 2 ^ G) ltac:(lia)).
      apply cell_eq in Hc. destruct Hc as [Hc1' Hc2']. unfold body3.
      rewrite Hsub by lia.
      unfold Directory.GetBucketPageId, Directory.GetLocalDepth. rewrite Hc1', Hc2'.
      cbn [dirI Directory.local_depths_ Directory.bucket_page_ids_].
      destruct (_ =? _); apply cell_pair; cbn; rewrite ?Z.eqb_refl; auto. }
    fold dir3 in Hg3, Hc3.
    exists dir3. split; [reflexivity|].
    split; [right; rewrite Hg3; change (gd dirI) with (G + 1); auto|].
    rewrite Hg3. change (gd dirI) with (G + 1). intros j Hj.
    rewrite pow2_succ in Hj by lia.
    rewrite Hc3, range_to_nat.
    destruct (Z.leb_spec (2 ^ G) j) as [Hhi|Hlo]; cbn [andb].
    + destruct (Z.ltb_spec j (2 ^ G + 2 ^ G)) as [_|Hbad]; [|lia].
      assert (Hjm : j mod 2 ^ G = j - 2 ^ G).
      { symmetry. apply Z.mod_unique with 1; lia. }
      assert (Hj' : 0 <= j - 2 ^ G < 2 ^ G) by lia.
      pose proof (Hcell1 _ Hj') as H1. apply cell_pair in H1. destruct H1 as [Hld1 Hpid1].
      rewrite Hld1, Hpid1, Hjm.
      assert (Hjj : j mod 2 ^ d = (j - 2 ^ G) mod 2 ^ d).
      { rewrite HdG, Hjm. symmetry. apply mod_small_pow2. lia. }
      rewrite Hjj.
      destruct (Z.eqb_spec ((j - 2 ^ G) mod 2 ^ d) (i0 mod 2 ^ d)) as [HC|HC].
      * destruct (Hclass0 _ Hj' HC) as [Hldj Hpidj]. rewrite Hpidj, Z.eqb_refl.
        assert (He : j - 2 ^ G = i0).
        { rewrite HdG, !mod_small_pow2 in HC by lia. exact HC. }
        rewrite He, Z.eqb_refl, Hu8.
        destruct (Z.eqb_spec (j mod 2 ^ (d + 1)) (i0 mod 2 ^ (d + 1))) as [HB|HB];
          [|reflexivity].
        exfalso. rewrite HdG, pow2_succ, !Z.mod_small in HB by lia. lia.
      * destruct (Z.eqb_spec (pid dir (j - 2 ^ G)) p0) as [Hp|Hp]; [exfalso; auto|].
        destruct (Z.eqb_spec ((j - 2 ^ G) mod 2 ^ (d + 1)) (i0 mod 2 ^ (d + 1)))
          as [HB|HB].
        -- exfalso. apply HC. apply low_bits_le with (d + 1); [lia | exact HB].
        -- symmetry. apply cell_pair. split; [|reflexivity]. symmetry. apply Z.mod_small.
           pose proof (ExtendibleHashTable.local_depth_range _ _ Hinv _ Hj') as Hr.
           change (2 ^ 8) with 256. fold G in Hr. lia.
    + assert (Hjr : 0 <= j < 2 ^ G) by lia.
      change (cell dirI j) with (cell dir1 j).
      rewrite (Hcell1 j Hjr), (mod_small_pow2 j G Hjr).
      destruct (Z.eqb_spec (j mod 2 ^ d) (i0 mod 2 ^ d)) as [HC|HC].
      * destruct (Hclass0 j Hjr HC) as [Hldj Hpidj].
        assert (He : j = i0) by (rewrite HdG, !mod_small_pow2 in HC by lia; exact HC).
        rewrite He, !Z.eqb_refl. reflexivity.
      * destruct (Z.eqb_spec (j mod 2 ^ (d + 1)) (i0 mod 2 ^ (d + 1))) as [HB|HB];
          [|reflexivity].
        exfalso. apply HC. apply low_bits_le with (d + 1); [lia | exact HB].
Qed.

Local Abbreviation moves_to :=
  (ExtendibleHashTable.moves_to default_key default_value hash_fn shl_overflow).
Local Abbreviation moved_count :=
  (ExtendibleHashTable.moved_count default_key default_value hash_fn shl_overflow).

Lemma moved_count_S (dir : directory) (pn : Z) (b0 : bucket) (i : nat) :
  moved_count dir pn b0 (S i)
  = (moved_count dir pn b0 i + if moves_to dir pn b0 i then 1 else 0)%nat.
Proof.
  unfold ExtendibleHashTable.moved_count. rewrite seq_S, filter_app, length_app. simpl.
  destruct (moves_to dir pn b0 i); reflexivity.
Qed.

Lemma moved_count_le (dir : directory) (pn : Z) (b0 : bucket) (i : nat) :
  (moved_count dir pn b0 i <= i)%nat.
Proof.
  induction i as [|i IH]; [apply Nat.le_refl|]. rewrite moved_count_S.
  destruct (moves_to dir pn b0 i); lia.
Qed.

Lemma moved_count_all (dir : directory) (pn : Z) (b0 : bucket) (n : nat) :
  (forall s, (s < n)%nat -> moves_to dir pn b0 s = true) -> moved_count dir pn b0 n = n.
Proof.
  induction n as [|n IH]; intros H; [reflexivity|].
  rewrite moved_count_S, IH, H by auto. lia.
Qed.

Lemma moved_count_lt (dir : directory) (pn : Z) (b0 : bucket) (n s : nat) :
  (s < n)%nat -> moves_to dir pn b0 s = false -> (moved_count dir pn b0 n < n)%nat.
Proof.
  induction n as [|n IH]; intros Hs Hm; [lia|]. rewrite moved_count_S.
  destruct (Nat.eq_dec s n) as [->|Hne].
  - rewrite Hm. pose proof (moved_count_le dir pn b0 n). lia.
  - specialize (IH ltac:(lia) Hm). destruct (moves_to dir pn b0 n); lia.
Qed.

(** The loop of [SplitInsert] over the slots of the full bucket [b0]: the
    entries routed to the new page leave the old one and fill the first
    slots of the new one. *)
Lemma redistribute_loop (dir : directory) (pn : Z) (b0 : bucket) (n i : nat)
    (old new : bucket) :
  (i + n = BUCKET_ARRAY_SIZE)%nat ->
  bucket_inv b0 ->
  (forall s, (s < BUCKET_ARRAY_SIZE)%nat -> IsReadable b0 s = true) ->
  bucket_inv old ->
  (forall s, IsReadable old s
             = IsReadable b0 s && negb ((s <? i)%nat && moves_to dir pn b0 s)) ->
  (forall s, slot old s = slot b0 s) ->
  bucket_inv new ->
  (forall k v, holds new k v <->
     exists s, (s < i)%nat /\ moves_to dir pn b0 s = true /\ slot b0 s = (k, v)) ->
  (forall m, IsReadable new m = (m <? moved_count dir pn b0 i)%nat) ->
  let r := redistribute dir pn n i old new in
  bucket_inv (fst r)
  /\ (forall s, IsReadable (fst r) s
                = IsReadable b0 s
                  && negb ((s <? BUCKET_ARRAY_SIZE)%nat && moves_to dir pn b0 s))
  /\ (forall s, slot (fst r) s = slot b0 s)
  /\ bucket_inv (snd r)
  /\ (forall k v, holds (snd r) k v <->
        exists s, (s < BUCKET_ARRAY_SIZE)%nat /\ moves_to dir pn b0 s = true
                  /\ slot b0 s = (k, v))
  /\ (forall m, IsReadable (snd r) m
                = (m <? moved_count dir pn b0 BUCKET_ARRAY_SIZE)%nat).
Proof.
  revert i old new. induction n as [|n IH];
    intros i old new Hn Hb0 Hfull Hold Hr Hs Hnew Hh Hfill.
  - simpl. assert (He : i = BUCKET_ARRAY_SIZE) by lia. rewrite He in Hr, Hh, Hfill.
    split; [exact Hold|]. split; [exact Hr|]. split; [exact Hs|].
    split; [exact Hnew|]. split; [exact Hh | exact Hfill].
  - cbn zeta. cbn [ExtendibleHashTable.redistribute].
    assert (Hi : (i < BUCKET_ARRAY_SIZE)%nat) by lia.
    assert (Hri : IsReadable old i = true).
    { rewrite Hr, (Hfull i Hi), Nat.ltb_irrefl. reflexivity. }
    unfold BucketPage.KeyAt, BucketPage.ValueAt. rewrite Hri, Hs.
    change (ExtendibleHashTable.KeyToPageId hash_fn shl_overflow
              (fst (slot b0 i)) dir =? pn) with (moves_to dir pn b0 i).
    pose proof (moved_count_le dir pn b0 i) as Hle.
    destruct (moves_to dir pn b0 i) eqn:Hm.
    + assert (Hnot : ~ holds new (fst (slot b0 i)) (snd (slot b0 i))).
      { intros H. apply Hh in H. destruct H as (s & Hlt & _ & Hslot).
        rewrite <- surjective_pairing in Hslot.
        assert (s = i); [|lia].
        apply (BucketPage.inv_nodup _ _ _ _ Hb0); auto; try lia. apply Hfull. lia. }
      assert (Hfree : exists s, (s < BUCKET_ARRAY_SIZE)%nat /\ IsReadable new s = false).
      { exists (moved_count dir pn b0 i). split; [lia|]. rewrite Hfill.
        apply Nat.ltb_irrefl. }
      destruct (Insert_holds BUCKET_ARRAY_SIZE cmp value_eq default_key default_value
                  cmp_spec value_eq_spec new (fst (slot b0 i)) (snd (slot b0 i)) Hnew)
        as (_ & _ & Hins).
      destruct (Hins Hnot Hfree) as (r & Hrlt & Hrnr & Hrbefore & Hret).
      assert (Hrc : r = moved_count dir pn b0 i).
      { rewrite Hfill in Hrnr. apply Nat.ltb_ge in Hrnr.
        destruct (Nat.eq_dec r (moved_count dir pn b0 i)) as [|Hne]; [assumption|].
        specialize (Hrbefore (moved_count dir pn b0 i) ltac:(lia)).
        rewrite Hfill, Nat.ltb_irrefl in Hrbefore. discriminate. }
      apply IH; auto; try lia.
      * apply bucket_inv_SetUnreadable; auto.
      * intros s. unfold BucketPage.RemoveAt.
        rewrite (IsReadable_SetUnreadable BUCKET_ARRAY_SIZE) by (auto; apply Hold).
        rewrite Hr. destruct (Nat.eqb_spec s i) as [->|Hne].
        -- rewrite Hm, Nat.ltb_irrefl.
           destruct (Nat.ltb_spec i (S i)); [|lia]. simpl. rewrite andb_false_r. reflexivity.
        -- simpl. destruct (Nat.ltb_spec s i); destruct (Nat.ltb_spec s (S i));
             try reflexivity; lia.
      * apply bucket_inv_Insert; auto.
      * intros k v. split.
        -- intros H. apply Insert_holds_inv in H; auto. destruct H as [H|H].
           ++ apply Hh in H. destruct H as (s & Hlt & H). exists s. split; [lia | exact H].
           ++ exists i. split; [lia|]. split; [exact Hm|].
              rewrite H. destruct (slot b0 i); reflexivity.
        -- intros (s & Hlt & Hms & Hslot). destruct (Nat.eq_dec s i) as [->|Hne].
           ++ rewrite Hslot. simpl. apply Insert_stores; auto.
           ++ apply Insert_preserves_holds; auto. apply Hh. exists s.
              split; [lia | auto].
      * intros m. rewrite Hret. cbn [snd].
        rewrite (IsReadable_write_slot BUCKET_ARRAY_SIZE) by (auto; apply Hnew).
        rewrite Hfill, moved_count_S, Hm, Hrc.
        destruct (Nat.eqb_spec m (moved_count dir pn b0 i));
          destruct (Nat.ltb_spec m (moved_count dir pn b0 i));
          destruct (Nat.ltb_spec m (moved_count dir pn b0 i + 1)); simpl; auto; lia.
    + apply IH; auto; try lia.
      * intros s. rewrite Hr. destruct (Nat.eq_dec s i) as [->|Hne].
        -- rewrite Hm, !andb_false_r. reflexivity.
        -- destruct (Nat.ltb_spec s i); destruct (Nat.ltb_spec s (S i));
             try reflexivity; lia.
      * intros k v. rewrite Hh. split; intros (s & Hlt & Hms & Hslot); exists s.
        -- split; [lia | auto].
        -- split; [|auto]. destruct (Nat.eq_dec s i) as [->|Hne]; [|lia].
           rewrite Hm in Hms. discriminate.
      * intros m. rewrite Hfill, moved_count_S, Hm, Nat.add_0_r. reflexivity.
Qed.

Lemma holds_key (b : bucket) (P : KeyType -> Prop) :
  (forall s, (s < BUCKET_ARRAY_SIZE)%nat -> IsReadable b s = true -> P (fst (slot b s)))
  <-> (forall k v, holds b k v -> P k).
Proof.
  split.
  - intros H k v (s & Hs & Hr & Hslot). specialize (H s Hs Hr). rewrite Hslot in H. exact H.
  - intros H s Hs Hr. apply (H (fst (slot b s)) (snd (slot b s))).
    exists s. split; [exact Hs|]. split; [exact Hr|]. apply surjective_pairing.
Qed.

(** The page a key is routed to, in a state that satisfies the invariant. *)
Lemma table_inv_route (t : HashTable) (k : KeyType) :
  table_inv t ->
  exists b, bucket_pages t (KeyToPageId k (dir_page t)) = Some b /\ bucket_inv b.
Proof.
  intros Hinv. pose proof (ExtendibleHashTable.inv_dir _ _ _ _ _ _ Hinv) as Hdir.
  destruct (ExtendibleHashTable.inv_pages _ _ _ _ _ _ Hinv
              (KeyToDirectoryIndex k (dir_page t))
              (KeyToDirectoryIndex_range k _ Hdir)) as (b & Hb & Hbinv & _).
  exists b. split; [exact Hb | exact Hbinv].
Qed.

(** *** The state after a split *)

Section SplitState.

Variables (t t' : HashTable) (key : KeyType) (value : ValueType).
Variables (b0 oldF newF : bucket) (dir' : directory).

Let dir := dir_page t.
Let i0 := KeyToDirectoryIndex key dir.
Let d := ld dir i0.
Let p0 := pid dir i0.
Let pn := next_page_id t.

Hypothesis Hinv : table_inv t.
Hypothesis Hb0 : bucket_pages t p0 = Some b0.
Hypothesis HG' :
  gd dir' = gd dir /\ d < gd dir
  \/ gd dir' = gd dir + 1 /\ d = gd dir /\ gd dir + 1 <= MAX_DEPTH.
Hypothesis Hcell' :
  forall j, 0 <= j < 2 ^ gd dir' ->
    cell dir' j
    = if j mod 2 ^ d =? i0 mod 2 ^ d
      then (d + 1, if j mod 2 ^ (d + 1) =? i0 mod 2 ^ (d + 1) then p0 else pn)
      else cell dir (j mod 2 ^ gd dir).
Hypothesis Ht'dir : dir_page t' = dir'.
Hypothesis Ht'next : next_page_id t' = pn + 1.
Hypothesis Ht'new : bucket_pages t' pn = Some newF.
Hypothesis Ht'old : bucket_pages t' p0 = Some oldF.
Hypothesis Ht'other : forall p, p <> pn -> p <> p0 -> bucket_pages t' p = bucket_pages t p.
Hypothesis HoldF : bucket_inv oldF.
Hypothesis HnewF : bucket_inv newF.
Hypothesis Hold_in :
  forall k v, holds oldF k v ->
    KeyToPageId k dir' = p0 /\ (holds b0 k v \/ (k, v) = (key, value)).
Hypothesis Hnew_in :
  forall k v, holds newF k v ->
    KeyToPageId k dir' = pn /\ (holds b0 k v \/ (k, v) = (key, value)).
Hypothesis Hb0_out :
  forall k v, holds b0 k v ->
    (KeyToPageId k dir' = p0 -> holds oldF k v)
    /\ (KeyToPageId k dir' = pn -> holds newF k v).

Local Lemma split_dir : dir_inv dir.
Proof. apply Hinv. Qed.

Local Lemma split_i0 : 0 <= i0 < 2 ^ gd dir.
Proof. apply KeyToDirectoryIndex_range, split_dir. Qed.

Local Lemma split_d : 0 <= d <= gd dir.
Proof. apply (ExtendibleHashTable.local_depth_range _ _ split_dir), split_i0. Qed.

Local Lemma split_fresh : forall j, 0 <= j < 2 ^ gd dir -> pid dir j <> pn.
Proof.
  intros j Hj. pose proof (ExtendibleHashTable.inv_fresh _ _ _ _ _ _ Hinv j Hj) as H.
  fold dir pn in H. lia.
Qed.

Local Lemma split_dir' : dir_inv dir'.
Proof.
  apply dir_inv_split with dir i0 pn; auto using split_dir, split_i0, split_fresh.
Qed.

Local Lemma split_key_class : Hash key mod 2 ^ d = i0 mod 2 ^ d.
Proof.
  unfold i0. rewrite KeyToDirectoryIndex_mod by apply split_dir.
  symmetry. apply mod_mod_pow2. apply split_d.
Qed.

(** The cells of the slot a key is routed to after the split. *)
Local Lemma split_route (k : KeyType) :
  cell dir' (KeyToDirectoryIndex k dir')
  = if Hash k mod 2 ^ d =? i0 mod 2 ^ d
    then (d + 1, if Hash k mod 2 ^ (d + 1) =? i0 mod 2 ^ (d + 1) then p0 else pn)
    else cell dir (KeyToDirectoryIndex k dir).
Proof.
  pose proof split_d as Hd. pose proof (depth_le_31 _ split_dir) as HG.
  pose proof (depth_le_31 _ split_dir') as HG1.
  rewrite Hcell' by (apply KeyToDirectoryIndex_range, split_dir').
  rewrite !KeyToDirectoryIndex_mod by (apply split_dir || apply split_dir').
  rewrite !mod_mod_pow2 by lia. reflexivity.
Qed.

(** The entries of the split bucket agree with [i0] on the low [d] bits. *)
Local Lemma split_b0_class (k : KeyType) (v : ValueType) :
  holds b0 k v -> Hash k mod 2 ^ d = i0 mod 2 ^ d.
Proof.
  destruct (ExtendibleHashTable.inv_pages _ _ _ _ _ _ Hinv i0 split_i0)
    as (b & Hb & _ & Hroute).
  fold dir p0 in Hb. rewrite Hb0 in Hb. injection Hb as <-.
  apply (proj1 (holds_key b0 (fun k => Hash k mod 2 ^ d = i0 mod 2 ^ d)) Hroute).
Qed.

Local Lemma split_p0_pn : p0 <> pn.
Proof. apply split_fresh, split_i0. Qed.

Lemma split_table_inv : table_inv t'.
Proof.
  pose proof split_d as Hd. pose proof (depth_le_31 _ split_dir) as HG.
  pose proof split_p0_pn as Hne.
  constructor.
  - rewrite Ht'dir. apply split_dir'.
  - rewrite Ht'dir. intros j Hj. pose proof (Hcell' j Hj) as Hc.
    destruct (Z.eqb_spec (j mod 2 ^ d) (i0 mod 2 ^ d)) as [HC|HC].
    + apply cell_pair in Hc. destruct Hc as [Hl Hp]. rewrite Hl, Hp.
      destruct (Z.eqb_spec (j mod 2 ^ (d + 1)) (i0 mod 2 ^ (d + 1))) as [HB|HB].
      * exists oldF. split; [exact Ht'old|]. split; [exact HoldF|].
        apply (proj2 (holds_key oldF
                 (fun k => Hash k mod 2 ^ (d + 1) = j mod 2 ^ (d + 1)))).
        intros k v Hh. destruct (Hold_in k v Hh) as [Hroute Hwhere].
        assert (Hk : Hash k mod 2 ^ d = i0 mod 2 ^ d).
        { destruct Hwhere as [Hw|Hw]; [apply (split_b0_class k v Hw)|].
          injection Hw as -> _. apply split_key_class. }
        pose proof (split_route k) as Hr. apply Z.eqb_eq in Hk. rewrite Hk in Hr.
        apply cell_pair in Hr. destruct Hr as [_ Hr].
        change (pid dir' (KeyToDirectoryIndex k dir')) with (KeyToPageId k dir') in Hr.
        rewrite Hroute in Hr. rewrite HB.
        destruct (Z.eqb_spec (Hash k mod 2 ^ (d + 1)) (i0 mod 2 ^ (d + 1))); [assumption|].
        exfalso. auto.
      * exists newF. split; [exact Ht'new|]. split; [exact HnewF|].
        apply (proj2 (holds_key newF
                 (fun k => Hash k mod 2 ^ (d + 1) = j mod 2 ^ (d + 1)))).
        intros k v Hh. destruct (Hnew_in k v Hh) as [Hroute Hwhere].
        assert (Hk : Hash k mod 2 ^ d = i0 mod 2 ^ d).
        { destruct Hwhere as [Hw|Hw]; [apply (split_b0_class k v Hw)|].
          injection Hw as -> _. apply split_key_class. }
        pose proof (split_route k) as Hr. pose proof Hk as Hk'.
        apply Z.eqb_eq in Hk'. rewrite Hk' in Hr.
        apply cell_pair in Hr. destruct Hr as [_ Hr].
        change (pid dir' (KeyToDirectoryIndex k dir')) with (KeyToPageId k dir') in Hr.
        rewrite Hroute in Hr.
        destruct (Z.eqb_spec (Hash k mod 2 ^ (d + 1)) (i0 mod 2 ^ (d + 1))) as [HBk|HBk];
          [exfalso; auto|].
        apply low_bits_other_half with i0; auto. lia.
    + assert (Hhat : 0 <= j mod 2 ^ gd dir < 2 ^ gd dir) by (apply mod_pow2_range; lia).
      apply cell_eq in Hc. destruct Hc as [Hl Hp]. rewrite Hl, Hp.
      destruct (ExtendibleHashTable.inv_pages _ _ _ _ _ _ Hinv _ Hhat)
        as (b & Hb & Hbinv & Hroute).
      fold dir in Hb, Hroute.
      pose proof (ExtendibleHashTable.local_depth_range _ _ split_dir _ Hhat) as He.
      exists b. split; [|split; [exact Hbinv|]].
      * rewrite Ht'other; auto; [apply split_fresh, Hhat|].
        intros Hp0. apply HC. rewrite <- (mod_mod_pow2 j d (gd dir)) by lia.
        apply (ExtendibleHashTable.same_page _ _ split_dir i0 _ split_i0 Hhat Hp0).
      * intros s Hs Hr. rewrite (Hroute s Hs Hr). apply mod_mod_pow2. lia.
  - rewrite Ht'dir, Ht'next. intros j Hj. pose proof (Hcell' j Hj) as Hc.
    pose proof (ExtendibleHashTable.inv_fresh _ _ _ _ _ _ Hinv) as Hfr. fold dir pn in Hfr.
    destruct (Z.eqb_spec (j mod 2 ^ d) (i0 mod 2 ^ d)) as [HC|HC].
    + apply cell_pair in Hc. destruct Hc as [_ ->].
      destruct (_ =? _); [|lia]. pose proof (Hfr i0 split_i0). fold p0 in H. lia.
    + apply cell_eq in Hc. destruct Hc as [_ ->].
      pose proof (Hfr (j mod 2 ^ gd dir) ltac:(apply mod_pow2_range; lia)). lia.
Qed.

(** A key of the split bucket's class is routed, before the split, to the
    split bucket. *)
Local Lemma split_class_route (k : KeyType) :
  Hash k mod 2 ^ d = i0 mod 2 ^ d <-> KeyToPageId k dir = p0.
Proof.
  pose proof split_d as Hd. pose proof (depth_le_31 _ split_dir) as HG.
  pose proof (KeyToDirectoryIndex_range k dir split_dir) as Hk.
  assert (Hm : KeyToDirectoryIndex k dir mod 2 ^ d = Hash k mod 2 ^ d).
  { rewrite KeyToDirectoryIndex_mod by apply split_dir. apply mod_mod_pow2. lia. }
  unfold ExtendibleHashTable.KeyToPageId, Directory.GetBucketPageId. split.
  - intros HC.
    apply (proj1 (cell_eq dir dir i0 (KeyToDirectoryIndex k dir))).
    apply (ExtendibleHashTable.same_class _ _ split_dir); auto using split_i0.
    fold d. rewrite Hm. exact HC.
  - intros Hp. rewrite <- Hm.
    apply (ExtendibleHashTable.same_page _ _ split_dir _ _ split_i0 Hk Hp).
Qed.

Local Lemma split_route_page (k : KeyType) :
  KeyToPageId k dir'
  = if Hash k mod 2 ^ d =? i0 mod 2 ^ d
    then (if Hash k mod 2 ^ (d + 1) =? i0 mod 2 ^ (d + 1) then p0 else pn)
    else KeyToPageId k dir.
Proof.
  pose proof (split_route k) as Hr.
  unfold ExtendibleHashTable.KeyToPageId, Directory.GetBucketPageId.
  destruct (Hash k mod 2 ^ d =? i0 mod 2 ^ d).
  - apply cell_pair in Hr. apply Hr.
  - apply cell_eq in Hr. apply Hr.
Qed.

Lemma split_present_preserved (k : KeyType) (v : ValueType) :
  present t k v -> present t' k v.
Proof.
  intros (b & Hb & Hh). fold dir in Hb. unfold ExtendibleHashTable.present.
  rewrite Ht'dir. pose proof (split_route_page k) as Hr.
  destruct (Z.eqb_spec (Hash k mod 2 ^ d) (i0 mod 2 ^ d)) as [HC|HC].
  - apply split_class_route in HC. rewrite HC, Hb0 in Hb. injection Hb as <-.
    destruct (Hb0_out k v Hh) as [Ho Hn].
    destruct (Hash k mod 2 ^ (d + 1) =? i0 mod 2 ^ (d + 1)); rewrite Hr.
    + exists oldF. auto.
    + exists newF. auto.
  - rewrite Hr. exists b. split; [|exact Hh]. rewrite Ht'other; auto.
    + apply split_fresh, KeyToDirectoryIndex_range, split_dir.
    + intros Hp. apply HC, split_class_route, Hp.
Qed.

Lemma split_present_inv (k : KeyType) (v : ValueType) :
  present t' k v -> present t k v \/ (k, v) = (key, value).
Proof.
  intros (b & Hb & Hh). rewrite Ht'dir in Hb. pose proof (split_route_page k) as Hr.
  pose proof split_p0_pn as Hne.
  destruct (Z.eqb_spec (Hash k mod 2 ^ d) (i0 mod 2 ^ d)) as [HC|HC].
  - apply split_class_route in HC.
    assert (Hw : holds b0 k v \/ (k, v) = (key, value)).
    { destruct (Hash k mod 2 ^ (d + 1) =? i0 mod 2 ^ (d + 1)); rewrite Hr in Hb.
      - rewrite Ht'old in Hb. injection Hb as <-. apply (Hold_in k v Hh).
      - rewrite Ht'new in Hb. injection Hb as <-. apply (Hnew_in k v Hh). }
    destruct Hw as [Hw|Hw]; [left|right; exact Hw].
    exists b0. fold dir. rewrite HC. auto.
  - left. exists b. fold dir. rewrite <- Hr. split; [|exact Hh].
    rewrite <- Ht'other; auto; rewrite Hr.
    + apply split_fresh, KeyToDirectoryIndex_range, split_dir.
    + intros Hp. apply HC, split_class_route, Hp.
Qed.

End SplitState.

(** The two buckets after the loop of [SplitInsert] on the full bucket [b0]. *)
Lemma redistribute_full (dir : directory) (pn : Z) (b0 : bucket) :
  bucket_inv b0 ->
  (forall s, (s < BUCKET_ARRAY_SIZE)%nat -> IsReadable b0 s = true) ->
  let r := redistribute dir pn BUCKET_ARRAY_SIZE 0 b0 zero_page in
  bucket_inv (fst r) /\ bucket_inv (snd r)
  /\ (forall s, (s < BUCKET_ARRAY_SIZE)%nat ->
                IsReadable (fst r) s = negb (moves_to dir pn b0 s))
  /\ (forall m, IsReadable (snd r) m
                = (m <? moved_count dir pn b0 BUCKET_ARRAY_SIZE)%nat)
  /\ (forall k v, holds (fst r) k v <-> holds b0 k v /\ KeyToPageId k dir <> pn)
  /\ (forall k v, holds (snd r) k v <-> holds b0 k v /\ KeyToPageId k dir = pn).
Proof.
  intros Hb0 Hfull.
  destruct (redistribute_loop dir pn b0 BUCKET_ARRAY_SIZE 0 b0 zero_page)
    as (Hold & Hr & Hs & Hnew & Hh & Hfill); auto.
  - intros s. rewrite andb_true_r. reflexivity.
  - apply bucket_inv_zero_page.
  - intros k v. split.
    + intros H. exfalso. apply (not_holds_zero_page _ _ _ _ _ H).
    + intros (s & Hs & _). lia.
  - intros m. rewrite IsReadable_zero_page. reflexivity.
  - cbv zeta. split; [exact Hold|]. split; [exact Hnew|]. split; [|split; [exact Hfill|]].
    + intros s Hs'. rewrite Hr, (Hfull s Hs').
      destruct (Nat.ltb_spec s BUCKET_ARRAY_SIZE); [|lia]. reflexivity.
    + assert (Hmv : forall s k v, slot b0 s = (k, v) ->
                (moves_to dir pn b0 s = true <-> KeyToPageId k dir = pn)).
      { intros s k v Hslot. unfold ExtendibleHashTable.moves_to. rewrite Hslot. simpl.
        apply Z.eqb_eq. }
      split; intros k v; split.
      * intros (s & Hlt & Hrs & Hslot). rewrite Hs in Hslot. rewrite Hr in Hrs.
        apply andb_true_iff in Hrs. destruct Hrs as [Hr0 Hnm].
        destruct (Nat.ltb_spec s BUCKET_ARRAY_SIZE); [|lia]. simpl in Hnm.
        split; [exists s; auto|]. intros Hp. apply (Hmv s k v Hslot) in Hp.
        rewrite Hp in Hnm. discriminate.
      * intros [(s & Hlt & Hrs & Hslot) Hp]. exists s. rewrite Hs, Hr, Hrs.
        split; [exact Hlt|]. split; [|exact Hslot].
        destruct (moves_to dir pn b0 s) eqn:Hm; [|rewrite andb_false_r; reflexivity].
        exfalso. apply Hp, (Hmv s k v Hslot), Hm.
      * intros H. apply Hh in H. destruct H as (s & Hlt & Hm & Hslot).
        split; [exists s; auto | apply (Hmv s k v Hslot), Hm].
      * intros [(s & Hlt & Hrs & Hslot) Hp]. apply Hh. exists s.
        split; [exact Hlt|]. split; [apply (Hmv s k v Hslot), Hp | exact Hslot].
Qed.

(** Within a class of the low [d] bits, agreement on the low [d + 1] bits
    is agreement on bit [d]. *)
Lemma same_half_bit (x y d : Z) :
  0 <= d -> x mod 2 ^ d = y mod 2 ^ d ->
  (x mod 2 ^ (d + 1) = y mod 2 ^ (d + 1) <-> Z.testbit x d = Z.testbit y d).
Proof.
  intros Hd Hlow. rewrite low_bits_succ by exact Hd. split; [intros [_ H]; exact H | auto].
Qed.

(** [SplitInsert] on a full bucket, when the directory has room: one split,
    after which the pair is inserted if its bucket has a free slot. *)
Lemma SplitInsert_full (t : HashTable) (key : KeyType) (value : ValueType) (b0 : bucket) :
  table_inv t ->
  bucket_pages t (KeyToPageId key (dir_page t)) = Some b0 ->
  IsFull b0 = true ->
  (ld (dir_page t) (KeyToDirectoryIndex key (dir_page t)) < gd (dir_page t)
   \/ gd (dir_page t) < MAX_DEPTH) ->
  exists r t', SplitInsert t key value = Some (r, t')
    /\ table_inv t'
    /\ (forall k v, present t k v -> present t' k v)
    /\ (forall k v, present t' k v -> present t k v \/ (k, v) = (key, value))
    /\ (r = true -> present t' key value)
    /\ (present t key value -> r = false)
    /\ (~ present t key value ->
        (r = true <->
         exists s, (s < BUCKET_ARRAY_SIZE)%nat
           /\ Z.testbit (Hash (fst (slot b0 s)))
                (ld (dir_page t) (KeyToDirectoryIndex key (dir_page t)))
              <> Z.testbit (Hash key)
                   (ld (dir_page t) (KeyToDirectoryIndex key (dir_page t))))).
Proof.
  intros Hinv Hfetch Hfull Hroom.
  pose proof (ExtendibleHashTable.inv_dir _ _ _ _ _ _ Hinv) as Hdir.
  pose proof (KeyToDirectoryIndex_range key _ Hdir) as Hi0.
  destruct (split_directory_effect _ _ (next_page_id t) Hdir Hi0 Hroom)
    as (dir' & Hsplit & HG' & Hcell').
  set (dir := dir_page t) in Hfetch, Hroom, Hdir, Hi0, Hsplit, HG', Hcell' |- *.
  set (i0 := KeyToDirectoryIndex key dir) in Hroom, Hi0, Hsplit, HG', Hcell' |- *.
  set (d := ld dir i0) in Hroom, HG', Hcell' |- *.
  set (pn := next_page_id t) in Hsplit, Hcell'.
  change (KeyToPageId key dir) with (pid dir i0) in Hfetch.
  set (p0 := pid dir i0) in Hfetch, Hsplit, Hcell'.
  pose proof (ExtendibleHashTable.local_depth_range _ _ Hdir i0 Hi0) as Hd. fold d in Hd.
  (* the old bucket *)
  destruct (ExtendibleHashTable.inv_pages _ _ _ _ _ _ Hinv i0 Hi0)
    as (b0' & Hb0' & Hb0 & _).
  fold dir p0 in Hb0'. rewrite Hfetch in Hb0'. injection Hb0' as <-.
  assert (Hall : forall s, (s < BUCKET_ARRAY_SIZE)%nat -> IsReadable b0 s = true)
    by (apply (IsFull_inv BUCKET_ARRAY_SIZE default_key default_value b0 Hb0), Hfull).
  assert (Hne : p0 <> pn).
  { pose proof (ExtendibleHashTable.inv_fresh _ _ _ _ _ _ Hinv i0 Hi0) as H.
    fold dir p0 pn in H. lia. }
  (* routing after the split *)
  assert (Hroute : forall k, KeyToPageId k dir'
            = if Hash k mod 2 ^ d =? i0 mod 2 ^ d
              then (if Hash k mod 2 ^ (d + 1) =? i0 mod 2 ^ (d + 1) then p0 else pn)
              else KeyToPageId k dir)
    by (intros k; apply (split_route_page t key dir' Hinv HG' Hcell' k)).
  assert (Hclass : forall k v, holds b0 k v -> Hash k mod 2 ^ d = i0 mod 2 ^ d)
    by (intros k v; apply (split_b0_class t key b0 Hinv Hfetch k v)).
  assert (Hkey : Hash key mod 2 ^ d = i0 mod 2 ^ d).
  { unfold i0. rewrite KeyToDirectoryIndex_mod by exact Hdir.
    symmetry. apply mod_mod_pow2. exact Hd. }
  assert (Hroute_in : forall k, Hash k mod 2 ^ d = i0 mod 2 ^ d ->
            (KeyToPageId k dir' = p0 \/ KeyToPageId k dir' = pn)
            /\ (KeyToPageId k dir' = p0 <-> Z.testbit (Hash k) d = Z.testbit i0 d)).
  { intros k Hk. rewrite Hroute. pose proof Hk as Hk'. apply Z.eqb_eq in Hk'. rewrite Hk'.
    rewrite <- (same_half_bit (Hash k) i0 d) by (lia || exact Hk).
    destruct (Z.eqb_spec (Hash k mod 2 ^ (d + 1)) (i0 mod 2 ^ (d + 1))) as [HB|HB].
    - split; [left; reflexivity|]. split; auto.
    - split; [right; reflexivity|]. split; [intros; exfalso; auto | contradiction]. }
  (* the two buckets after the loop *)
  pose proof (redistribute_full dir' pn b0 Hb0 Hall) as Hrd. cbv zeta in Hrd.
  unfold ExtendibleHashTable.SplitInsert. cbv zeta.
  unfold ExtendibleHashTable.FetchBucketPage.
  fold dir. change (KeyToPageId key dir) with p0. fold i0.
  rewrite Hfetch, Hfull. cbn [negb].
  unfold ExtendibleHashTable.NewPage. fold pn. fold dir. rewrite Hsplit.
  unfold BucketPage.Size.
  destruct (redistribute dir' pn BUCKET_ARRAY_SIZE 0 b0 zero_page) as [old' new'].
  cbn [fst snd] in Hrd.
  destruct Hrd as (Hold' & Hnew' & Hrold & Hrnew & Hhold & Hhnew).
  (* what remains is common to the two targets of the last [Insert] *)
  assert (Hfinish : forall ret oldF newF t',
    dir_page t' = dir' -> next_page_id t' = pn + 1 ->
    bucket_pages t' pn = Some newF -> bucket_pages t' p0 = Some oldF ->
    (forall p, p <> pn -> p <> p0 -> bucket_pages t' p = bucket_pages t p) ->
    (KeyToPageId key dir' = p0
     /\ bucket_Insert old' key value = (ret, oldF) /\ newF = new'
     \/ KeyToPageId key dir' = pn
        /\ bucket_Insert new' key value = (ret, newF) /\ oldF = old') ->
    table_inv t'
    /\ (forall k v, present t k v -> present t' k v)
    /\ (forall k v, present t' k v -> present t k v \/ (k, v) = (key, value))
    /\ (ret = true -> present t' key value)
    /\ (present t key value -> ret = false)
    /\ (~ present t key value ->
        (ret = true <->
         exists s, (s < BUCKET_ARRAY_SIZE)%nat
           /\ Z.testbit (Hash (fst (slot b0 s))) d <> Z.testbit (Hash key) d))).
  { intros ret oldF newF t' Hdir'eq Hnext Hpn Hp0 Hother Hcase.
    assert (HoldF : bucket_inv oldF).
    { destruct Hcase as [(_ & Hins & _)|(_ & _ & ->)]; [|exact Hold'].
      replace oldF with (snd (bucket_Insert old' key value)) by (rewrite Hins; reflexivity).
      apply bucket_inv_Insert; auto. }
    assert (HnewF : bucket_inv newF).
    { destruct Hcase as [(_ & _ & ->)|(_ & Hins & _)]; [exact Hnew'|].
      replace newF with (snd (bucket_Insert new' key value)) by (rewrite Hins; reflexivity).
      apply bucket_inv_Insert; auto. }
    assert (Hold_in : forall k v, holds oldF k v ->
              KeyToPageId k dir' = p0 /\ (holds b0 k v \/ (k, v) = (key, value))).
    { intros k v Hh.
      assert (Hw : holds old' k v \/ ((k, v) = (key, value) /\ KeyToPageId key dir' = p0)).
      { destruct Hcase as [(Ht & Hins & _)|(_ & _ & ->)]; [|left; exact Hh].
        replace oldF with (snd (bucket_Insert old' key value)) in Hh
          by (rewrite Hins; reflexivity).
        apply Insert_holds_inv in Hh; auto. destruct Hh; auto. }
      destruct Hw as [Hw|[Hw Ht]].
      - apply Hhold in Hw. destruct Hw as [Hb Hnp]. split; [|left; exact Hb].
        destruct (Hroute_in k (Hclass k v Hb)) as [[Hp|Hp] _]; [exact Hp | contradiction].
      - split; [|right; exact Hw]. injection Hw as -> _. exact Ht. }
    assert (Hnew_in : forall k v, holds newF k v ->
              KeyToPageId k dir' = pn /\ (holds b0 k v \/ (k, v) = (key, value))).
    { intros k v Hh.
      assert (Hw : holds new' k v \/ ((k, v) = (key, value) /\ KeyToPageId key dir' = pn)).
      { destruct Hcase as [(_ & _ & ->)|(Ht & Hins & _)]; [left; exact Hh|].
        replace newF with (snd (bucket_Insert new' key value)) in Hh
          by (rewrite Hins; reflexivity).
        apply Insert_holds_inv in Hh; auto. destruct Hh; auto. }
      destruct Hw as [Hw|[Hw Ht]].
      - apply Hhnew in Hw. destruct Hw as [Hb Hnp]. split; [exact Hnp | left; exact Hb].
      - split; [|right; exact Hw]. injection Hw as -> _. exact Ht. }
    assert (Hb0_out : forall k v, holds b0 k v ->
              (KeyToPageId k dir' = p0 -> holds oldF k v)
              /\ (KeyToPageId k dir' = pn -> holds newF k v)).
    { intros k v Hb. split; intros Hp.
      - assert (Ho : holds old' k v) by (apply Hhold; split; [exact Hb | lia]).
        destruct Hcase as [(_ & Hins & _)|(_ & _ & ->)]; [|exact Ho].
        replace oldF with (snd (bucket_Insert old' key value))
          by (rewrite Hins; reflexivity).
        apply Insert_preserves_holds; auto.
      - assert (Hn : holds new' k v) by (apply Hhnew; split; [exact Hb | exact Hp]).
        destruct Hcase as [(_ & _ & ->)|(_ & Hins & _)]; [exact Hn|].
        replace newF with (snd (bucket_Insert new' key value))
          by (rewrite Hins; reflexivity).
        apply Insert_preserves_holds; auto. }
    assert (Hpres : present t key value <-> holds b0 key value).
    { unfold ExtendibleHashTable.present. fold dir.
      change (KeyToPageId key dir) with p0. rewrite Hfetch. split.
      - intros (b & Hb & Hh). injection Hb as <-. exact Hh.
      - intros Hh. exists b0. auto. }
    split; [apply (split_table_inv t t' key value b0 oldF newF dir'); assumption|].
    split; [apply (split_present_preserved t t' key b0 oldF newF dir'); assumption|].
    split; [apply (split_present_inv t t' key value b0 oldF newF dir'); assumption|].
    split; [|split].
    - intros ->. unfold ExtendibleHashTable.present. rewrite Hdir'eq.
      destruct Hcase as [(Ht & Hins & _)|(Ht & Hins & _)]; rewrite Ht.
      + exists oldF. split; [exact Hp0|].
        eapply Insert_true_holds; [exact Hold' | exact Hins].
      + exists newF. split; [exact Hpn|].
        eapply Insert_true_holds; [exact Hnew' | exact Hins].
    - intros Hp. apply Hpres in Hp.
      destruct Hcase as [(Ht & Hins & _)|(Ht & Hins & _)].
      + assert (Ho : holds old' key value) by (apply Hhold; split; [exact Hp | lia]).
        destruct (Insert_holds BUCKET_ARRAY_SIZE cmp value_eq default_key default_value
                    cmp_spec value_eq_spec old' key value Hold') as (Hdup & _).
        rewrite (Hdup Ho) in Hins. injection Hins as <- _. reflexivity.
      + assert (Hn : holds new' key value) by (apply Hhnew; split; [exact Hp | exact Ht]).
        destruct (Insert_holds BUCKET_ARRAY_SIZE cmp value_eq default_key default_value
                    cmp_spec value_eq_spec new' key value Hnew') as (Hdup & _).
        rewrite (Hdup Hn) in Hins. injection Hins as <- _. reflexivity.
    - intros Hnp. rewrite Hpres in Hnp.
      assert (Hslotclass : forall s, (s < BUCKET_ARRAY_SIZE)%nat ->
                Hash (fst (slot b0 s)) mod 2 ^ d = i0 mod 2 ^ d).
      { intros s Hs. apply (Hclass (fst (slot b0 s)) (snd (slot b0 s))).
        exists s. split; [exact Hs|]. split; [apply Hall, Hs | apply surjective_pairing]. }
      assert (Hmv : forall s, (s < BUCKET_ARRAY_SIZE)%nat ->
                (moves_to dir' pn b0 s = false
                 <-> Z.testbit (Hash (fst (slot b0 s))) d = Z.testbit i0 d)).
      { intros s Hs. destruct (Hroute_in _ (Hslotclass s Hs)) as [Hor Hiff].
        rewrite <- Hiff. unfold ExtendibleHashTable.moves_to.
        destruct (Z.eqb_spec (KeyToPageId (fst (slot b0 s)) dir') pn) as [He|He].
        - split; [discriminate|]. intros Hp. exfalso. lia.
        - split; [|reflexivity]. intros _. destruct Hor; [assumption|contradiction]. }
      destruct (Hroute_in key Hkey) as [_ Hkbit].
      destruct Hcase as [(Ht & Hins & _)|(Ht & Hins & _)].
      + assert (Hno : ~ holds old' key value) by (intros H; apply Hhold in H; tauto).
        destruct (Insert_holds BUCKET_ARRAY_SIZE cmp value_eq default_key default_value
                    cmp_spec value_eq_spec old' key value Hold') as (_ & Hfullc & Hfree).
        apply Hkbit in Ht. split.
        * intros ->.
          destruct (IsFull_false BUCKET_ARRAY_SIZE default_key default_value old' Hold')
            as (s & Hs & Hnr).
          { destruct (IsFull old') eqn:Hf; [|reflexivity]. exfalso.
            pose proof (proj1 (IsFull_inv BUCKET_ARRAY_SIZE default_key default_value
                                 old' Hold') Hf) as Hf'.
            rewrite (Hfullc Hno Hf') in Hins. discriminate. }
          exists s. split; [exact Hs|]. rewrite Hrold in Hnr by exact Hs.
          apply negb_false_iff in Hnr. intros Hbit.
          assert (Hm : moves_to dir' pn b0 s = false)
            by (apply (Hmv s Hs); rewrite Hbit; exact Ht).
          rewrite Hm in Hnr. discriminate.
        * intros (s & Hs & Hbit).
          assert (Hm : moves_to dir' pn b0 s = true).
          { destruct (moves_to dir' pn b0 s) eqn:Hm; [reflexivity|]. exfalso.
            apply (Hmv s Hs) in Hm. apply Hbit. rewrite Hm. symmetry. exact Ht. }
          destruct (Hfree Hno) as (r & _ & _ & _ & Hret).
          { exists s. split; [exact Hs|]. rewrite Hrold, Hm by exact Hs. reflexivity. }
          rewrite Hret in Hins. injection Hins as <- _. reflexivity.
      + assert (Hno : ~ holds new' key value) by (intros H; apply Hhnew in H; tauto).
        destruct (Insert_holds BUCKET_ARRAY_SIZE cmp value_eq default_key default_value
                    cmp_spec value_eq_spec new' key value Hnew') as (_ & Hfullc & Hfree).
        assert (Hkb : Z.testbit (Hash key) d <> Z.testbit i0 d).
        { intros Hb. apply Hkbit in Hb. lia. }
        split.
        * intros ->.
          assert (Hex : exists s, (s < BUCKET_ARRAY_SIZE)%nat
                                  /\ moves_to dir' pn b0 s = false).
          { assert (Hdec : forall n, (n <= BUCKET_ARRAY_SIZE)%nat ->
                      (exists s, (s < n)%nat /\ moves_to dir' pn b0 s = false)
                      \/ forall s, (s < n)%nat -> moves_to dir' pn b0 s = true).
            { induction n as [|n IH]; intros Hn; [right; intros; lia|].
              destruct (IH ltac:(lia)) as [(s & Hs & Hm)|Hallm].
              - left. exists s. split; [lia | exact Hm].
              - destruct (moves_to dir' pn b0 n) eqn:Hm.
                + right. intros s Hs. destruct (Nat.eq_dec s n) as [->|];
                    [exact Hm | apply Hallm; lia].
                + left. exists n. split; [lia | exact Hm]. }
            destruct (Hdec BUCKET_ARRAY_SIZE (Nat.le_refl _)) as [Hex|Hallm]; [exact Hex|].
            exfalso. apply moved_count_all in Hallm.
            rewrite Hfullc in Hins; [discriminate | exact Hno |].
            intros s Hs. rewrite Hrnew, Hallm. apply Nat.ltb_lt, Hs. }
          destruct Hex as (s & Hs & Hm). exists s. split; [exact Hs|].
          apply (Hmv s Hs) in Hm. rewrite Hm. auto.
        * intros (s & Hs & Hbit).
          assert (Hm : moves_to dir' pn b0 s = false).
          { apply (Hmv s Hs).
            destruct (Z.testbit (Hash (fst (slot b0 s))) d), (Z.testbit (Hash key) d),
              (Z.testbit i0 d); auto; exfalso; auto. }
          pose proof (moved_count_lt dir' pn b0 BUCKET_ARRAY_SIZE s Hs Hm) as Hlt.
          destruct (Hfree Hno) as (r & _ & _ & _ & Hret).
          { exists (moved_count dir' pn b0 BUCKET_ARRAY_SIZE). split; [exact Hlt|].
            rewrite Hrnew. apply Nat.ltb_irrefl. }
          rewrite Hret in Hins. injection Hins as <- _. reflexivity. }
  change (ExtendibleHashTable.KeyToPageId hash_fn shl_overflow key dir')
    with (KeyToPageId key dir').
  destruct (Hroute_in key Hkey) as [Htarget _].
  destruct (Z.eqb_spec (KeyToPageId key dir') p0) as [Ht|Ht].
  - destruct (bucket_Insert old' key value) as [ret oldF] eqn:Hins.
    eexists ret, _. split; [reflexivity|]. apply Hfinish with oldF new'; auto.
    + cbn. rewrite Z.eqb_refl. reflexivity.
    + cbn. destruct (Z.eqb_spec p0 pn); [contradiction|]. rewrite Z.eqb_refl. reflexivity.
    + intros p Hp1 Hp2. cbn.
      destruct (Z.eqb_spec p pn); [contradiction|].
      destruct (Z.eqb_spec p p0); [contradiction|]. reflexivity.
  - assert (Ht' : KeyToPageId key dir' = pn) by (destruct Htarget; [contradiction|assumption]).
    destruct (bucket_Insert new' key value) as [ret newF] eqn:Hins.
    eexists ret, _. split; [reflexivity|]. apply Hfinish with old' newF; auto.
    + cbn. rewrite Z.eqb_refl. reflexivity.
    + cbn. destruct (Z.eqb_spec p0 pn); [contradiction|]. rewrite Z.eqb_refl. reflexivity.
    + intros p Hp1 Hp2. cbn.
      destruct (Z.eqb_spec p pn); [contradiction|].
      destruct (Z.eqb_spec p p0); [contradiction|]. reflexivity.
Qed.

(** What one split leaves behind: a new page, the directory of
    [split_directory] with the local depth of the key's slot one higher,
    and, when the pair was not stored and the call returns false, a bucket
    of the key that is full again and does not hold the pair. *)
Lemma SplitInsert_shape (t : HashTable) (key : KeyType) (value : ValueType) (b0 : bucket) :
  table_inv t ->
  bucket_pages t (KeyToPageId key (dir_page t)) = Some b0 ->
  IsFull b0 = true ->
  (ld (dir_page t) (KeyToDirectoryIndex key (dir_page t)) < gd (dir_page t)
   \/ gd (dir_page t) < MAX_DEPTH) ->
  exists r t', SplitInsert t key value = Some (r, t')
    /\ next_page_id t' = next_page_id t + 1
    /\ (exists bn, bucket_pages t' (next_page_id t) = Some bn)
    /\ (gd (dir_page t') = gd (dir_page t)
        /\ ld (dir_page t) (KeyToDirectoryIndex key (dir_page t)) < gd (dir_page t)
        \/ gd (dir_page t') = gd (dir_page t) + 1
           /\ ld (dir_page t) (KeyToDirectoryIndex key (dir_page t)) = gd (dir_page t))
    /\ (forall j, 0 <= j < 2 ^ gd (dir_page t') ->
          cell (dir_page t') j
          = let i0 := KeyToDirectoryIndex key (dir_page t) in
            let d := ld (dir_page t) i0 in
            if j mod 2 ^ d =? i0 mod 2 ^ d
            then (d + 1,
                  if j mod 2 ^ (d + 1) =? i0 mod 2 ^ (d + 1)
                  then KeyToPageId key (dir_page t) else next_page_id t)
            else cell (dir_page t) (j mod 2 ^ gd (dir_page t)))
    /\ ld (dir_page t') (KeyToDirectoryIndex key (dir_page t'))
       = ld (dir_page t) (KeyToDirectoryIndex key (dir_page t)) + 1
    /\ (r = false -> ~ present t key value ->
        ~ present t' key value
        /\ exists b', bucket_pages t' (KeyToPageId key (dir_page t')) = Some b'
             /\ IsFull b' = true).
Proof.
  intros Hinv Hfetch Hfull Hroom.
  pose proof (ExtendibleHashTable.inv_dir _ _ _ _ _ _ Hinv) as Hdir.
  pose proof (KeyToDirectoryIndex_range key _ Hdir) as Hi0.
  destruct (split_directory_effect _ _ (next_page_id t) Hdir Hi0 Hroom)
    as (dir' & Hsplit & HG' & Hcell').
  assert (Hnp0 : ~ present t key value -> ~ holds b0 key value).
  { intros Hnp Hh. apply Hnp. exists b0. auto. }
  pose proof (split_route t key dir' Hinv HG' Hcell' key) as Hrk.
  cbv zeta.
  set (dir := dir_page t) in Hfetch, Hroom, Hdir, Hi0, Hsplit, HG', Hcell', Hrk |- *.
  set (i0 := KeyToDirectoryIndex key dir) in Hroom, Hi0, Hsplit, HG', Hcell', Hrk |- *.
  set (d := ld dir i0) in Hroom, HG', Hcell', Hrk |- *.
  set (pn := next_page_id t) in Hsplit, Hcell', Hrk |- *.
  change (KeyToPageId key dir) with (pid dir i0) in Hfetch |- *.
  set (p0 := pid dir i0) in Hfetch, Hsplit, Hcell', Hrk |- *.
  pose proof (ExtendibleHashTable.local_depth_range _ _ Hdir i0 Hi0) as Hd. fold d in Hd.
  destruct (ExtendibleHashTable.inv_pages _ _ _ _ _ _ Hinv i0 Hi0)
    as (b0' & Hb0' & Hb0 & _).
  fold dir p0 in Hb0'. rewrite Hfetch in Hb0'. injection Hb0' as <-.
  assert (Hall : forall s, (s < BUCKET_ARRAY_SIZE)%nat -> IsReadable b0 s = true)
    by (apply (IsFull_inv BUCKET_ARRAY_SIZE default_key default_value b0 Hb0), Hfull).
  assert (Hne : p0 <> pn).
  { pose proof (ExtendibleHashTable.inv_fresh _ _ _ _ _ _ Hinv i0 Hi0) as H.
    fold dir p0 pn in H. lia. }
  assert (Hkey : Hash key mod 2 ^ d = i0 mod 2 ^ d).
  { unfold i0. rewrite KeyToDirectoryIndex_mod by exact Hdir.
    symmetry. apply mod_mod_pow2. exact Hd. }
  assert (Hld : ld dir' (KeyToDirectoryIndex key dir') = d + 1).
  { rewrite (proj2 (Z.eqb_eq _ _) Hkey) in Hrk. apply cell_pair in Hrk. apply Hrk. }
  assert (Htarget : KeyToPageId key dir' = p0 \/ KeyToPageId key dir' = pn).
  { rewrite (proj2 (Z.eqb_eq _ _) Hkey) in Hrk. apply cell_pair in Hrk.
    change (KeyToPageId key dir') with (pid dir' (KeyToDirectoryIndex key dir')).
    destruct Hrk as [_ ->]. destruct (_ =? _); auto. }
  assert (HG'' : gd dir' = gd dir /\ d < gd dir \/ gd dir' = gd dir + 1 /\ d = gd dir)
    by (destruct HG' as [H|(H1 & H2 & _)]; auto).
  pose proof (redistribute_full dir' pn b0 Hb0 Hall) as Hrd. cbv zeta in Hrd.
  unfold ExtendibleHashTable.SplitInsert. cbv zeta.
  unfold ExtendibleHashTable.FetchBucketPage.
  fold dir. change (KeyToPageId key dir) with p0. fold i0.
  rewrite Hfetch, Hfull. cbn [negb].
  unfold ExtendibleHashTable.NewPage. fold pn. fold dir. rewrite Hsplit.
  unfold BucketPage.Size.
  destruct (redistribute dir' pn BUCKET_ARRAY_SIZE 0 b0 zero_page) as [old' new'].
  cbn [fst snd] in Hrd.
  destruct Hrd as (Hold' & Hnew' & _ & _ & Hhold & Hhnew).
  change (ExtendibleHashTable.KeyToPageId hash_fn shl_overflow key dir')
    with (KeyToPageId key dir').
  assert (Hfailed : forall F F', bucket_inv F -> ~ holds F key value ->
            bucket_Insert F key value = (false, F') ->
            F' = F /\ IsFull F = true).
  { intros F F' HF Hno Hins. split; [apply (Insert_false_same _ _ _ _ _ _ _ _ _ Hins)|].
    destruct (IsFull F) eqn:Hf; [reflexivity|]. exfalso.
    destruct (Insert_holds BUCKET_ARRAY_SIZE cmp value_eq default_key default_value
                cmp_spec value_eq_spec F key value HF) as (_ & _ & Hfree).
    destruct (Hfree Hno (IsFull_false BUCKET_ARRAY_SIZE default_key default_value F HF Hf))
      as (s & _ & _ & _ & Hret).
    rewrite Hret in Hins. discriminate. }
  destruct (Z.eqb_spec (KeyToPageId key dir') p0) as [Ht|Ht].
  - destruct (bucket_Insert old' key value) as [ret oldF] eqn:Hins.
    eexists ret, _. split; [reflexivity|]. split; [reflexivity|].
    split; [eexists; cbn; rewrite Z.eqb_refl; reflexivity|].
    split; [exact HG''|]. split; [exact Hcell'|]. split; [exact Hld|].
    intros -> Hnp. apply Hnp0 in Hnp.
    assert (Hno : ~ holds old' key value) by (intros H; apply Hhold in H; tauto).
    destruct (Hfailed old' oldF Hold' Hno Hins) as [-> Hf].
    cbn [ExtendibleHashTable.dir_page ExtendibleHashTable.put_bucket
           ExtendibleHashTable.put_dir].
    assert (Hpage : forall t1,
              bucket_pages
                (ExtendibleHashTable.put_bucket
                   (ExtendibleHashTable.put_bucket t1 p0 old') pn new')
                (KeyToPageId key dir') = Some old').
    { intros t1. rewrite Ht. cbn. destruct (Z.eqb_spec p0 pn); [contradiction|].
      rewrite Z.eqb_refl. reflexivity. }
    split.
    + intros (b & Hb & Hh). cbn [ExtendibleHashTable.dir_page
        ExtendibleHashTable.put_bucket ExtendibleHashTable.put_dir] in Hb.
      rewrite Hpage in Hb. injection Hb as <-. exact (Hno Hh).
    + exists old'. split; [apply Hpage | exact Hf].
  - assert (Ht' : KeyToPageId key dir' = pn) by (destruct Htarget; [contradiction|assumption]).
    destruct (bucket_Insert new' key value) as [ret newF] eqn:Hins.
    eexists ret, _. split; [reflexivity|]. split; [reflexivity|].
    split; [eexists; cbn; rewrite Z.eqb_refl; reflexivity|].
    split; [exact HG''|]. split; [exact Hcell'|]. split; [exact Hld|].
    intros -> Hnp. apply Hnp0 in Hnp.
    assert (Hno : ~ holds new' key value) by (intros H; apply Hhnew in H; tauto).
    destruct (Hfailed new' newF Hnew' Hno Hins) as [-> Hf].
    assert (Hpage : forall t1,
              bucket_pages
                (ExtendibleHashTable.put_bucket
                   (ExtendibleHashTable.put_bucket t1 p0 old') pn new')
                (KeyToPageId key dir') = Some new').
    { intros t1. rewrite Ht'. cbn. rewrite Z.eqb_refl. reflexivity. }
    split.
    + intros (b & Hb & Hh). cbn [ExtendibleHashTable.dir_page
        ExtendibleHashTable.put_bucket ExtendibleHashTable.put_dir] in Hb.
      rewrite Hpage in Hb. injection Hb as <-. exact (Hno Hh).
    + exists new'. split; [apply Hpage | exact Hf].
Qed.

(** *** States that differ only in how they are written *)

Local Abbreviation same_state := (@ExtendibleHashTable.same_state KeyType ValueType).

Lemma same_state_refl (t : HashTable) : same_state t t.
Proof.
  repeat split.
Qed.

Lemma same_state_put_bucket (t : HashTable) (p : Z) (b : bucket) :
  bucket_pages t p = Some b -> same_state t (ExtendibleHashTable.put_bucket t p b).
Proof.
  intros Hb. split; [reflexivity|]. split; [reflexivity|]. split; [|reflexivity].
  intros q. cbn. destruct (Z.eqb_spec q p) as [->|]; [exact Hb | reflexivity].
Qed.

Lemma same_state_route (t t' : HashTable) (k : KeyType) :
  same_state t t' -> KeyToPageId k (dir_page t) = KeyToPageId k (dir_page t').
Proof.
  intros (Hg & Hc & _).
  unfold ExtendibleHashTable.KeyToPageId, ExtendibleHashTable.KeyToDirectoryIndex,
    Directory.GetGlobalDepthMask, Directory.GetBucketPageId.
  rewrite <- Hg. symmetry. apply (proj1 (cell_eq _ _ _ _) (eq_sym (Hc _))).
Qed.

Lemma same_state_present (t t' : HashTable) (k : KeyType) (v : ValueType) :
  same_state t t' -> present t k v -> present t' k v.
Proof.
  intros Hs (b & Hb & Hh). exists b. split; [|exact Hh].
  rewrite <- (same_state_route t t' k Hs). destruct Hs as (_ & _ & Hp & _).
  rewrite <- Hp. exact Hb.
Qed.

Lemma same_state_sym (t t' : HashTable) : same_state t t' -> same_state t' t.
Proof.
  intros (Hg & Hc & Hp & Hn). split; [auto|]. split; [auto|]. split; auto.
Qed.

Lemma same_state_dir_inv (d1 d2 : directory) :
  gd d1 = gd d2 -> (forall i, cell d1 i = cell d2 i) -> dir_inv d1 -> dir_inv d2.
Proof.
  intros Hg Hc [HG Hld Hclass Hpage].
  assert (Hl : forall i, ld d2 i = ld d1 i)
    by (intros i; apply (proj1 (cell_eq d1 d2 i i)); symmetry; apply Hc).
  assert (Hp : forall i, pid d2 i = pid d1 i)
    by (intros i; apply (proj1 (cell_eq d1 d2 i i)); symmetry; apply Hc).
  constructor.
  - rewrite <- Hg. exact HG.
  - rewrite <- Hg. intros i Hi. rewrite Hl. apply Hld, Hi.
  - rewrite <- Hg. intros i j Hi Hj. rewrite Hl, <- !Hc. apply Hclass; auto.
  - rewrite <- Hg. intros i j Hi Hj. rewrite Hl, !Hp. apply Hpage; auto.
Qed.

Lemma same_state_table_inv (t t' : HashTable) :
  same_state t t' -> table_inv t -> table_inv t'.
Proof.
  intros (Hg & Hc & Hp & Hn) [Hdir Hpages Hfresh].
  assert (Hl : forall i, ld (dir_page t') i = ld (dir_page t) i)
    by (intros i; apply (proj1 (cell_eq _ _ i i)); symmetry; apply Hc).
  assert (Hpi : forall i, pid (dir_page t') i = pid (dir_page t) i)
    by (intros i; apply (proj1 (cell_eq _ _ i i)); symmetry; apply Hc).
  constructor.
  - apply same_state_dir_inv with (dir_page t); auto.
  - rewrite <- Hg. intros i Hi. rewrite Hl, Hpi, <- Hp. apply Hpages, Hi.
  - rewrite <- Hg, <- Hn. intros i Hi. rewrite Hpi. apply Hfresh, Hi.
Qed.

(** *** Writing the bucket a key is routed to *)

Lemma table_inv_put_bucket (t : HashTable) (key : KeyType) (b b' : bucket) :
  table_inv t ->
  bucket_pages t (KeyToPageId key (dir_page t)) = Some b ->
  bucket_inv b' ->
  (forall k v, holds b' k v -> holds b k v \/ k = key) ->
  table_inv (ExtendibleHashTable.put_bucket t (KeyToPageId key (dir_page t)) b').
Proof.
  intros Hinv Hb Hb' Hsub. pose proof Hinv as [Hdir Hpages Hfresh].
  pose proof (KeyToDirectoryIndex_range key _ Hdir) as Hi0.
  pose proof (depth_le_31 _ Hdir) as HG.
  constructor; cbn [ExtendibleHashTable.put_bucket ExtendibleHashTable.dir_page
                    ExtendibleHashTable.bucket_pages ExtendibleHashTable.next_page_id].
  - exact Hdir.
  - intros j Hj. destruct (Hpages j Hj) as (bj & Hbj & Hbjinv & Hroute).
    destruct (Z.eqb_spec (pid (dir_page t) j) (KeyToPageId key (dir_page t))) as [He|He].
    + exists b'. split; [reflexivity|]. split; [exact Hb'|].
      rewrite He, Hb in Hbj. injection Hbj as <-.
      apply (proj2 (holds_key b' (fun k => Hash k mod 2 ^ ld (dir_page t) j
                                           = j mod 2 ^ ld (dir_page t) j))).
      intros k v Hh. destruct (Hsub k v Hh) as [Hold| ->].
      * apply (proj1 (holds_key b (fun k => Hash k mod 2 ^ ld (dir_page t) j
                                          = j mod 2 ^ ld (dir_page t) j)) Hroute k v Hold).
      * pose proof (ExtendibleHashTable.local_depth_range _ _ Hdir j Hj) as Hlj.
        rewrite <- (ExtendibleHashTable.same_page _ _ Hdir j _ Hj Hi0 (eq_sym He)).
        rewrite KeyToDirectoryIndex_mod by exact Hdir. symmetry. apply mod_mod_pow2. lia.
    + exists bj. auto.
  - exact Hfresh.
Qed.

Lemma present_put_bucket (t : HashTable) (key k : KeyType) (v : ValueType) (b' : bucket) :
  present (ExtendibleHashTable.put_bucket t (KeyToPageId key (dir_page t)) b') k v
  <-> (KeyToPageId k (dir_page t) = KeyToPageId key (dir_page t) /\ holds b' k v)
      \/ (KeyToPageId k (dir_page t) <> KeyToPageId key (dir_page t) /\ present t k v).
Proof.
  unfold ExtendibleHashTable.present.
  cbn [ExtendibleHashTable.put_bucket ExtendibleHashTable.dir_page
       ExtendibleHashTable.bucket_pages].
  destruct (Z.eqb_spec (KeyToPageId k (dir_page t)) (KeyToPageId key (dir_page t)))
    as [He|He].
  - split.
    + intros (b & Hb & Hh). injection Hb as <-. left. auto.
    + intros [[_ Hh]|[Hn _]]; [|contradiction]. exists b'. auto.
  - split.
    + intros H. right. auto.
    + intros [[Hn _]|[_ H]]; [contradiction | exact H].
Qed.

(** [Insert] of the table: what it returns and the state it leaves, by the
    state of the bucket [b] the key is routed to. *)
Lemma Insert_effect (t : HashTable) (key : KeyType) (value : ValueType) :
  table_inv t ->
  exists b, bucket_pages t (KeyToPageId key (dir_page t)) = Some b /\ bucket_inv b
    /\ (present t key value <-> holds b key value)
    /\ (IsFull b = false -> holds b key value ->
        exists t', Insert t key value = Some (false, t') /\ same_state t t')
    /\ (IsFull b = false -> ~ holds b key value ->
        exists t', Insert t key value = Some (true, t') /\ table_inv t'
          /\ (forall k v, present t k v -> present t' k v)
          /\ (forall k v, present t' k v -> present t k v \/ (k, v) = (key, value))
          /\ present t' key value)
    /\ (IsFull b = true ->
        Insert t key value
        = SplitInsert (ExtendibleHashTable.put_bucket t (KeyToPageId key (dir_page t)) b)
            key value).
Proof.
  intros Hinv. destruct (table_inv_route t key Hinv) as (b & Hb & Hbinv).
  exists b. split; [exact Hb|]. split; [exact Hbinv|].
  assert (Hpres : present t key value <-> holds b key value).
  { unfold ExtendibleHashTable.present. rewrite Hb. split.
    - intros (b1 & He & Hh). injection He as <-. exact Hh.
    - intros Hh. exists b. auto. }
  split; [exact Hpres|].
  destruct (Insert_holds BUCKET_ARRAY_SIZE cmp value_eq default_key default_value
              cmp_spec value_eq_spec b key value Hbinv) as (Hdup & Hfullc & Hfree).
  unfold ExtendibleHashTable.Insert. cbv zeta. unfold ExtendibleHashTable.FetchBucketPage.
  rewrite Hb.
  split; [|split].
  - intros Hnf Hh. rewrite (Hdup Hh). cbn [negb andb]. rewrite Hnf.
    eexists. split; [reflexivity|]. apply same_state_put_bucket, Hb.
  - intros Hnf Hnh.
    destruct (Hfree Hnh (IsFull_false BUCKET_ARRAY_SIZE default_key default_value b Hbinv Hnf))
      as (r & Hr & Hnr & Hbefore & Hret).
    rewrite Hret. cbn [negb andb]. eexists. split; [reflexivity|].
    assert (Hwf : BucketPage.wf_bucket BUCKET_ARRAY_SIZE b) by apply Hbinv.
    assert (Hb' : bucket_inv (BucketPage.write_slot b r key value))
      by (apply bucket_inv_write_slot; auto).
    split; [|split; [|split]].
    + apply table_inv_put_bucket with b; auto.
      intros k v Hh. apply holds_write_slot in Hh; auto. destruct Hh as [Hh|Hh]; auto.
      right. congruence.
    + intros k v Hp. apply present_put_bucket.
      destruct (Z.eq_dec (KeyToPageId k (dir_page t)) (KeyToPageId key (dir_page t)))
        as [He|He]; [left|right; auto].
      split; [exact He|]. apply holds_write_slot; auto. left.
      destruct Hp as (b1 & Hb1 & Hh). rewrite He, Hb in Hb1. injection Hb1 as <-. exact Hh.
    + intros k v Hp. apply present_put_bucket in Hp. destruct Hp as [[He Hh]|[_ Hp]]; auto.
      apply holds_write_slot in Hh; auto. destruct Hh as [Hh|Hh]; auto.
      left. exists b. rewrite He. auto.
    + apply present_put_bucket. left. split; [reflexivity|].
      apply holds_write_slot; auto.
  - intros Hf.
    destruct (BucketPage.Insert BUCKET_ARRAY_SIZE cmp value_eq default_key default_value
                b key value) as [ret b1] eqn:Hins.
    destruct ret.
    + exfalso.
      assert (Hall := proj1 (IsFull_inv BUCKET_ARRAY_SIZE default_key default_value
                               b Hbinv) Hf).
      destruct (holds_dec BUCKET_ARRAY_SIZE cmp value_eq default_key default_value
                  cmp_spec value_eq_spec b key value) as [Hh|Hnh].
      * specialize (Hdup Hh). try rewrite Hins in Hdup. discriminate.
      * specialize (Hfullc Hnh Hall). try rewrite Hins in Hfullc. discriminate.
    + apply Insert_false_same in Hins. subst b1. cbn [negb andb]. rewrite Hf. reflexivity.
Qed.

(** *** The state after a merge *)

Section MergeState.

Variables (t t' : HashTable) (a b e : Z) (ba : bucket).

Let dir := dir_page t.
Let dir' := dir_page t'.

Hypothesis Hinv : table_inv t.
Hypothesis Ha : 0 <= a < 2 ^ gd dir.
Hypothesis Hb : 0 <= b < 2 ^ gd dir.
Hypothesis He : 0 <= e.
Hypothesis Hlda : ld dir a = e + 1.
Hypothesis Hldb : ld dir b = e + 1.
Hypothesis Hlow : b mod 2 ^ e = a mod 2 ^ e.
Hypothesis Hhigh : b mod 2 ^ (e + 1) <> a mod 2 ^ (e + 1).
Hypothesis Hba : bucket_pages t (pid dir a) = Some ba.
Hypothesis Hempty : IsEmpty ba = true.
Hypothesis Hcell' :
  forall j, 0 <= j < 2 ^ gd dir ->
    cell dir' j = if j mod 2 ^ e =? a mod 2 ^ e then (e, pid dir b) else cell dir j.
Hypothesis HG' :
  gd dir' = gd dir
  \/ (gd dir' = gd dir - 1 /\ forall j, 0 <= j < 2 ^ gd dir -> ld dir' j < gd dir).
Hypothesis Hpages' : forall p, p <> pid dir a -> bucket_pages t' p = bucket_pages t p.
Hypothesis Hnext' : next_page_id t' = next_page_id t.

Local Lemma merge_dir : dir_inv dir.
Proof. apply Hinv. Qed.

(** The merged directory before the global depth is decremented. *)
Local Lemma merge_dirB : dir_inv (Directory.mkDir (gd dir) (ld dir') (pid dir')).
Proof.
  apply dir_inv_merge with dir a b e; auto using merge_dir.
Qed.

Local Lemma merge_G : 0 <= gd dir' <= gd dir /\ 0 <= gd dir <= 31.
Proof.
  pose proof (depth_le_31 _ merge_dir) as HG.
  pose proof (ExtendibleHashTable.local_depth_range _ _ merge_dir a Ha) as Hr.
  fold dir in Hr. destruct HG' as [->|[-> _]]; lia.
Qed.

Local Lemma merge_sub (j : Z) : 0 <= j < 2 ^ gd dir' -> 0 <= j < 2 ^ gd dir.
Proof.
  pose proof merge_G as [HG1 HG2]. intros Hj.
  pose proof (pow2_le (gd dir') (gd dir) ltac:(lia)). lia.
Qed.

Local Lemma merge_dir' : dir_inv dir'.
Proof.
  destruct HG' as [HG|[HG Hall]].
  - apply same_state_dir_inv with (Directory.mkDir (gd dir) (ld dir') (pid dir'));
      auto using merge_dirB.
  - apply dir_inv_shrink with (Directory.mkDir (gd dir) (ld dir') (pid dir'));
      auto using merge_dirB.
Qed.

(** The slot a key is routed to after the merge has the cells of the slot
    it was routed to before, as merged. *)
Local Lemma merge_route (k : KeyType) :
  cell dir' (KeyToDirectoryIndex k dir')
  = if Hash k mod 2 ^ e =? a mod 2 ^ e then (e, pid dir b)
    else cell dir (KeyToDirectoryIndex k dir).
Proof.
  pose proof merge_G as [HG1 HG2].
  pose proof (KeyToDirectoryIndex_range k dir merge_dir) as Hk.
  pose proof (KeyToDirectoryIndex_range k dir' merge_dir') as Hk'.
  pose proof (Hcell' _ Hk) as Hc.
  assert (Hm : KeyToDirectoryIndex k dir mod 2 ^ e = Hash k mod 2 ^ e).
  { rewrite KeyToDirectoryIndex_mod by apply merge_dir. apply mod_mod_pow2.
    pose proof (ExtendibleHashTable.local_depth_range _ _ merge_dir a Ha) as Hr.
    fold dir in Hr. lia. }
  rewrite Hm in Hc. rewrite <- Hc.
  (* the two slots agree on the local depth of the first, in the merged directory *)
  apply (ExtendibleHashTable.same_class _ _ merge_dirB
           (KeyToDirectoryIndex k dir) (KeyToDirectoryIndex k dir')); auto.
  - apply merge_sub, Hk'.
  - cbn [Directory.local_depths_].
    pose proof (ExtendibleHashTable.local_depth_range _ _ merge_dir' _ Hk') as Hl'.
    pose proof (ExtendibleHashTable.local_depth_range _ _ merge_dirB _ Hk) as Hl.
    cbn [Directory.local_depths_ Directory.global_depth_] in Hl.
    assert (Hle : ld dir' (KeyToDirectoryIndex k dir) <= gd dir').
    { destruct HG' as [->|[-> Hall]]; [lia|]. specialize (Hall _ Hk). lia. }
    rewrite (KeyToDirectoryIndex_low k dir'), (KeyToDirectoryIndex_low k dir);
      auto using merge_dir, merge_dir'; lia.
Qed.

Lemma merge_table_inv : table_inv t'.
Proof.
  pose proof merge_G as [HG1 HG2]. pose proof Hinv as [Hdir Hpages Hfresh].
  fold dir in Hdir, Hpages, Hfresh.
  constructor; fold dir'.
  - apply merge_dir'.
  - intros j Hj'. pose proof (merge_sub j Hj') as Hj. pose proof (Hcell' j Hj) as Hc.
    destruct (merge_class _ dir a b e j Hdir Ha Hb Hj He Hlda Hldb Hlow Hhigh)
      as (Hcl & _ & Hab).
    destruct (Z.eqb_spec (j mod 2 ^ e) (a mod 2 ^ e)) as [HC|HC].
    + apply cell_pair in Hc. destruct Hc as [-> ->].
      destruct (Hpages b Hb) as (bb & Hbb & Hbbinv & Hroute).
      exists bb. split; [rewrite Hpages'; auto|]. split; [exact Hbbinv|].
      intros s Hs Hr. rewrite HC, <- Hlow. apply low_bits_le with (e + 1); [lia|].
      rewrite <- Hldb. apply Hroute; auto.
    + apply cell_eq in Hc. destruct Hc as [-> ->].
      destruct (Hpages j Hj) as (bj & Hbj & Hbjinv & Hroute).
      exists bj. split; [|auto]. rewrite Hpages'; auto.
      intros Hp. apply HC, Hcl. auto.
  - rewrite Hnext'. intros j Hj'. pose proof (merge_sub j Hj') as Hj.
    pose proof (Hcell' j Hj) as Hc.
    destruct (Z.eqb_spec (j mod 2 ^ e) (a mod 2 ^ e)) as [HC|HC].
    + apply cell_pair in Hc. destruct Hc as [_ ->]. apply Hfresh, Hb.
    + apply cell_eq in Hc. destruct Hc as [_ ->]. apply Hfresh, Hj.
Qed.

Lemma merge_present (k : KeyType) (v : ValueType) : present t k v -> present t' k v.
Proof.
  pose proof Hinv as [Hdir Hpages Hfresh]. fold dir in Hdir.
  intros (bk & Hbk & Hh). fold dir in Hbk.
  assert (Hne : KeyToPageId k dir <> pid dir a).
  { intros Hp. rewrite Hp, Hba in Hbk. injection Hbk as <-.
    destruct (Hpages a Ha) as (ba' & Hba' & Hbainv & _). fold dir in Hba'.
    rewrite Hba in Hba'. injection Hba' as <-.
    apply (IsEmpty_not_holds BUCKET_ARRAY_SIZE default_key default_value ba k v Hbainv
             Hempty Hh). }
  exists bk. split; [|exact Hh]. fold dir'.
  pose proof (merge_route k) as Hr.
  pose proof (KeyToDirectoryIndex_range k dir Hdir) as Hk.
  destruct (merge_class _ dir a b e _ Hdir Ha Hb Hk He Hlda Hldb Hlow Hhigh)
    as (Hcl & _ & _).
  assert (Hm : KeyToDirectoryIndex k dir mod 2 ^ e = Hash k mod 2 ^ e).
  { rewrite KeyToDirectoryIndex_mod by exact Hdir. apply mod_mod_pow2.
    pose proof (ExtendibleHashTable.local_depth_range _ _ Hdir a Ha) as Hra. lia. }
  rewrite Hm in Hcl.
  assert (Hsame : KeyToPageId k dir' = KeyToPageId k dir).
  { unfold ExtendibleHashTable.KeyToPageId, Directory.GetBucketPageId.
    destruct (Z.eqb_spec (Hash k mod 2 ^ e) (a mod 2 ^ e)) as [HC|HC].
    - apply cell_pair in Hr. destruct Hr as [_ ->].
      destruct (proj1 Hcl HC) as [Hp|Hp]; [contradiction | symmetry; exact Hp].
    - apply cell_eq in Hr. apply Hr. }
  rewrite Hsame, Hpages'; auto.
Qed.

(** The merge brings no pair into the table. *)
Lemma merge_present_inv (k : KeyType) (v : ValueType) : present t' k v -> present t k v.
Proof.
  pose proof Hinv as [Hdir Hpages Hfresh]. fold dir in Hdir.
  intros (bk & Hbk & Hh). fold dir' in Hbk.
  pose proof (merge_route k) as Hr.
  pose proof (KeyToDirectoryIndex_range k dir Hdir) as Hk.
  destruct (merge_class _ dir a b e _ Hdir Ha Hb Hk He Hlda Hldb Hlow Hhigh)
    as (Hcl & _ & Hab).
  pose proof (ExtendibleHashTable.local_depth_range _ _ Hdir a Ha) as Hra.
  assert (Hm : KeyToDirectoryIndex k dir mod 2 ^ e = Hash k mod 2 ^ e).
  { rewrite KeyToDirectoryIndex_mod by exact Hdir. apply mod_mod_pow2. lia. }
  rewrite Hm in Hcl.
  unfold ExtendibleHashTable.KeyToPageId, Directory.GetBucketPageId in Hbk.
  destruct (Z.eqb_spec (Hash k mod 2 ^ e) (a mod 2 ^ e)) as [HC|HC].
  - apply cell_pair in Hr. destruct Hr as [_ Hp]. rewrite Hp in Hbk.
    rewrite Hpages' in Hbk by (intros Hq; apply Hab; symmetry; exact Hq).
    destruct (proj1 Hcl HC) as [Hpa|Hpb].
    + exfalso. apply Hhigh.
      destruct (Hpages b Hb) as (bb & Hbb & _ & Hroute). fold dir in Hbb, Hroute.
      rewrite Hbb in Hbk. injection Hbk as <-.
      destruct Hh as (s & Hs & Hrs & Hslot).
      specialize (Hroute s Hs Hrs). rewrite Hslot in Hroute. cbn [fst] in Hroute.
      rewrite Hldb in Hroute. rewrite <- Hroute.
      pose proof (ExtendibleHashTable.same_page _ _ Hdir a _ Ha Hk Hpa) as Hsp.
      fold dir in Hsp. rewrite Hlda in Hsp. rewrite <- Hsp.
      symmetry. apply KeyToDirectoryIndex_low; [exact Hdir | lia].
    + exists bk. split; [|exact Hh]. fold dir.
      unfold ExtendibleHashTable.KeyToPageId, Directory.GetBucketPageId.
      rewrite Hpb. exact Hbk.
  - apply cell_eq in Hr. destruct Hr as [_ Hp]. rewrite Hp in Hbk.
    rewrite Hpages' in Hbk by (intros Hq; apply HC, Hcl; left; exact Hq).
    exists bk. split; [exact Hbk | exact Hh].
Qed.

(** The local depth of a key of the merged class, after the merge. *)
Lemma merge_depth (k : KeyType) :
  Hash k mod 2 ^ e = a mod 2 ^ e -> ld dir' (KeyToDirectoryIndex k dir') = e.
Proof.
  intros HC. pose proof (merge_route k) as Hr. apply Z.eqb_eq in HC. rewrite HC in Hr.
  apply cell_pair in Hr. apply Hr.
Qed.

End MergeState.

(** *** [Merge], [ExtraMerge] and [Remove] maintain the invariant *)

Lemma all_below_dec (f : Z -> Z) (n G : Z) :
  (forall j, 0 <= j < n -> f j < G) \/ (exists j, 0 <= j < n /\ G <= f j).
Proof.
  destruct (Z.le_gt_cases n 0) as [Hn|Hn]; [left; intros; lia|].
  rewrite <- (Z2Nat.id n) by lia. induction (Z.to_nat n) as [|m IH].
  - left. intros j Hj. lia.
  - destruct IH as [IH|(j & Hj & Hge)].
    + destruct (Z.lt_ge_cases (f (Z.of_nat m)) G) as [Hlt|Hge].
      * left. intros j Hj. destruct (Z.eq_dec j (Z.of_nat m)) as [->|Hne]; [exact Hlt|].
        apply IH. lia.
      * right. exists (Z.of_nat m). split; [lia | exact Hge].
    + right. exists j. split; [lia | exact Hge].
Qed.

Lemma split_image_facts (dir : directory) (i0 : Z) :
  dir_inv dir -> 0 <= i0 < 2 ^ gd dir -> 0 < ld dir i0 ->
  let s := GetSplitImageIndex dir i0 in
  s = Z.lxor i0 (2 ^ (ld dir i0 - 1))
  /\ 0 <= s < 2 ^ gd dir
  /\ s mod 2 ^ (ld dir i0 - 1) = i0 mod 2 ^ (ld dir i0 - 1)
  /\ s mod 2 ^ (ld dir i0 - 1 + 1) <> i0 mod 2 ^ (ld dir i0 - 1 + 1).
Proof.
  intros Hinv Hi0 Hpos.
  pose proof (ExtendibleHashTable.local_depth_range _ _ Hinv i0 Hi0) as Hd.
  pose proof (depth_le_31 dir Hinv) as HG.
  assert (Hs : GetSplitImageIndex dir i0 = Z.lxor i0 (2 ^ (ld dir i0 - 1))).
  { unfold Directory.GetSplitImageIndex.
    rewrite (u32_small (ld dir i0 - 1)) by (change (2 ^ 32) with 4294967296; lia).
    rewrite shl1_pow2 by lia. reflexivity. }
  cbv zeta. rewrite Hs. split; [reflexivity|]. split; [|split].
  - apply lxor_pow2_range; auto. lia.
  - apply lxor_pow2_low. lia.
  - intros H. apply low_bits_succ in H; [|lia]. destruct H as [_ H].
    rewrite lxor_pow2_bit in H by lia. destruct (Z.testbit i0 (ld dir i0 - 1)); discriminate.
Qed.

Lemma u8_small (x : Z) : 0 <= x < 256 -> u8 x = x.
Proof. intros Hx. apply Z.mod_small. change (2 ^ 8) with 256. exact Hx. Qed.

Lemma Merge_inv (t : HashTable) (key : KeyType) (value : ValueType) :
  table_inv t ->
  exists t', Merge t key value = Some t' /\ table_inv t'
    /\ (forall k v, present t k v -> present t' k v)
    /\ (forall k v, present t' k v -> present t k v)
    /\ gd (dir_page t') <= gd (dir_page t).
Proof.
  intros Hinv. pose proof Hinv as [Hdir Hpages Hfresh].
  pose proof (KeyToDirectoryIndex_range key _ Hdir) as Hi0.
  pose proof (depth_le_31 _ Hdir) as HG.
  pose proof (ExtendibleHashTable.local_depth_range _ _ Hdir _ Hi0) as Hd.
  destruct (Hpages _ Hi0) as (bp & Hbp & Hbpinv & _).
  destruct (Merge_effect BUCKET_ARRAY_SIZE hash_fn shl_overflow t key value bp
              (proj1 Hd) Hbp) as (t' & Hrun & Hsame & Hmerge).
  exists t'. split; [exact Hrun|].
  set (dir := dir_page t) in *.
  set (i0 := KeyToDirectoryIndex key dir) in *.
  set (d := ld dir i0) in *.
  assert (Hnone : table_inv t /\ (forall k v, present t k v -> present t k v)
                  /\ (forall k v, present t k v -> present t k v)
                  /\ gd (dir_page t) <= gd (dir_page t))
    by (split; [exact Hinv|]; split; [auto|]; split; [auto | lia]).
  destruct (Z.eq_dec d 0) as [Hz|Hnz]; [rewrite (Hsame (or_introl Hz)); exact Hnone|].
  destruct (IsEmpty bp) eqn:Hempty;
    [|rewrite (Hsame (or_intror (or_introl eq_refl))); exact Hnone].
  destruct (Z.eq_dec (ld dir (GetSplitImageIndex dir i0)) d) as [Heq|Hneq];
    [|rewrite (Hsame (or_intror (or_intror Hneq))); exact Hnone].
  clear Hsame. specialize (Hmerge Hnz eq_refl Heq). cbv zeta in Hmerge.
  destruct Hmerge as (Hcells & _ & Hdel & Hkeep & Hshrink & Hnoshrink & Hnext).
  destruct (split_image_facts dir i0 Hdir Hi0 ltac:(fold d; lia))
    as (Hs & Hsr & Hslow & Hshigh).
  fold d in Hs, Hslow, Hshigh. cbv zeta in Hsr.
  set (s := GetSplitImageIndex dir i0) in *.
  assert (Hsize : dir_Size dir = 2 ^ gd dir) by (apply Size_pow2, Hdir).
  rewrite Hsize in Hcells, Hshrink, Hnoshrink.
  assert (Hlm : GetLocalDepthMask dir i0 = 2 ^ d - 1)
    by (apply GetLocalDepthMask_pow2; auto).
  assert (Hsm : Z.lxor (GetLocalDepthMask dir i0) (shl1 (u32 (d - 1))) = 2 ^ (d - 1) - 1).
  { rewrite Hlm, (u32_small (d - 1)) by (change (2 ^ 32) with 4294967296; lia).
    rewrite shl1_pow2 by lia. apply lxor_mask_top. lia. }
  assert (Hcell' : forall j, 0 <= j < 2 ^ gd dir ->
            cell (dir_page t') j
            = if j mod 2 ^ (d - 1) =? i0 mod 2 ^ (d - 1) then (d - 1, pid dir s)
              else cell dir j).
  { intros j Hj. destruct (Hcells j Hj) as [Hp Hl].
    unfold Directory.GetBucketPageId, Directory.GetLocalDepth in Hp, Hl.
    fold dir i0 d in Hp, Hl. rewrite Hsm in Hl. rewrite Hlm in Hp.
    rewrite !land_mask in Hp, Hl by lia.
    destruct (merge_class _ dir i0 s (d - 1) j Hdir Hi0 Hsr Hj ltac:(lia)
                ltac:(fold d; lia) ltac:(lia) Hslow Hshigh) as (Hcl & Hldj & Hab).
    destruct (Z.eqb_spec (j mod 2 ^ (d - 1)) (i0 mod 2 ^ (d - 1))) as [HC|HC].
    - apply cell_pair. rewrite Hl, Hp, (Hldj HC).
      replace (d - 1 + 1 - 1) with (d - 1) by lia. split; [apply u8_small; lia|].
      destruct (Z.eqb_spec (j mod 2 ^ d) (i0 mod 2 ^ d)) as [HD|HD]; [reflexivity|].
      destruct (proj1 Hcl HC) as [Hpa|Hpb]; [|exact Hpb]. exfalso. apply HD.
      pose proof (ExtendibleHashTable.same_page _ _ Hdir i0 j Hi0 Hj Hpa) as Hsp.
      exact Hsp.
    - apply cell_pair. rewrite Hl, Hp. split; [reflexivity|].
      destruct (Z.eqb_spec (j mod 2 ^ d) (i0 mod 2 ^ d)) as [HD|HD]; [|reflexivity].
      exfalso. apply HC. apply low_bits_le with d; [lia | exact HD]. }
  assert (HG' : gd (dir_page t') = gd dir
                \/ (gd (dir_page t') = gd dir - 1
                    /\ forall j, 0 <= j < 2 ^ gd dir -> ld (dir_page t') j < gd dir)).
  { destruct (all_below_dec (ld (dir_page t')) (2 ^ gd dir) (gd dir)) as [Hall|Hex].
    - right. split; [|exact Hall]. unfold Directory.GetGlobalDepth in Hshrink.
      rewrite (Hshrink Hall). apply u32_small. change (2 ^ 32) with 4294967296. lia.
    - left. apply (Hnoshrink Hex). }
  assert (Hpg : forall p, p <> pid dir i0 -> bucket_pages t' p = bucket_pages t p)
    by exact Hkeep.
  split; [|split; [|split]].
  - apply (merge_table_inv t t' i0 s (d - 1)); auto; fold dir; fold d; try lia.
  - apply (merge_present t t' i0 s (d - 1) bp); auto; fold dir; fold d; try lia.
  - apply (merge_present_inv t t' i0 s (d - 1)); auto; fold dir; fold d; try lia.
  - fold dir. destruct HG' as [HGe|[HGe _]]; rewrite HGe; lia.
Qed.

Lemma ExtraMerge_inv (t : HashTable) (key : KeyType) (value : ValueType) :
  table_inv t ->
  exists r t', ExtraMerge t key value = Some (r, t') /\ table_inv t'
    /\ (forall k v, present t k v -> present t' k v)
    /\ (r = false -> t' = t)
    /\ (r = true ->
        ld (dir_page t') (KeyToDirectoryIndex key (dir_page t'))
        < ld (dir_page t) (KeyToDirectoryIndex key (dir_page t)))
    /\ (forall k v, present t' k v -> present t k v)
    /\ gd (dir_page t') <= gd (dir_page t).
Proof.
  intros Hinv. pose proof Hinv as [Hdir Hpages Hfresh].
  pose proof (KeyToDirectoryIndex_range key _ Hdir) as Hi0.
  pose proof (depth_le_31 _ Hdir) as HG.
  pose proof (ExtendibleHashTable.local_depth_range _ _ Hdir _ Hi0) as Hd.
  assert (Hfetch : exists eb,
            0 < ld (dir_page t) (KeyToDirectoryIndex key (dir_page t)) ->
            bucket_pages t
              (pid (dir_page t)
                 (GetSplitImageIndex (dir_page t) (KeyToDirectoryIndex key (dir_page t))))
            = Some eb).
  { destruct (Z.lt_ge_cases 0 (ld (dir_page t) (KeyToDirectoryIndex key (dir_page t))))
      as [Hpos|Hz].
    - destruct (split_image_facts _ _ Hdir Hi0 Hpos) as (_ & Hsr & _).
      destruct (Hpages _ Hsr) as (eb & Heb & _). exists eb. intros _. exact Heb.
    - destruct (Hpages _ Hi0) as (eb & _). exists eb. intros Hpos. exfalso. lia. }
  destruct Hfetch as (eb & Hfetch).
  destruct (ExtraMerge_effect BUCKET_ARRAY_SIZE hash_fn shl_overflow t key value eb Hfetch)
    as (r & t' & Hrun & Hr & Hfalse & Htrue).
  exists r, t'. split; [exact Hrun|].
  destruct r.
  2:{ rewrite (Hfalse eq_refl). split; [exact Hinv|]. split; [auto|].
      split; [reflexivity|]. split; [discriminate|]. split; [auto | lia]. }
  clear Hfalse. destruct (proj1 Hr eq_refl) as (Hpos & Hempty & Heq). clear Hr.
  specialize (Hfetch Hpos). specialize (Htrue eq_refl). cbv zeta in Htrue.
  destruct Htrue as (Hcells & _ & Hdel & Hkeep & Hshrink & Hnoshrink & Hnext).
  unfold ExtendibleHashTable.KeyToPageId, Directory.GetBucketPageId,
    Directory.GetLocalDepth in Hcells, Hdel, Hkeep, Hshrink, Hnoshrink, Heq, Hpos.
  cbv zeta in Hcells, Hdel, Hkeep.
  set (dir := dir_page t) in *.
  set (i0 := KeyToDirectoryIndex key dir) in *.
  set (d := ld dir i0) in *.
  destruct (split_image_facts dir i0 Hdir Hi0 ltac:(fold d; lia))
    as (Hs & Hsr & Hslow & Hshigh).
  fold d in Hs, Hslow, Hshigh. cbv zeta in Hsr.
  set (s := GetSplitImageIndex dir i0) in *.
  assert (Hsize : dir_Size dir = 2 ^ gd dir) by (apply Size_pow2, Hdir).
  rewrite Hsize in Hcells, Hshrink, Hnoshrink.
  assert (Hcell' : forall j, 0 <= j < 2 ^ gd dir ->
            cell (dir_page t') j
            = if j mod 2 ^ (d - 1) =? s mod 2 ^ (d - 1) then (d - 1, pid dir i0)
              else cell dir j).
  { intros j Hj. destruct (Hcells j Hj) as [Hp Hl].
    destruct (merge_class _ dir s i0 (d - 1) j Hdir Hsr Hi0 Hj ltac:(lia)
                ltac:(lia) ltac:(fold d; lia) (eq_sym Hslow)
                (fun H => Hshigh (eq_sym H))) as (Hcl & Hldj & Hab).
    destruct (Z.eqb_spec (j mod 2 ^ (d - 1)) (s mod 2 ^ (d - 1))) as [HC|HC].
    - apply cell_pair. rewrite Hl, Hp, (Hldj HC).
      replace (d - 1 + 1 - 1) with (d - 1) by lia.
      destruct (proj1 Hcl HC) as [Hpa|Hpb].
      + rewrite Hpa, Z.eqb_refl. cbn [orb]. split; [apply u8_small; lia | reflexivity].
      + rewrite Hpb, Z.eqb_refl, Bool.orb_true_r. split; [apply u8_small; lia|].
        destruct (Z.eqb_spec (pid dir i0) (pid dir s)) as [He|He]; reflexivity.
    - apply cell_pair. rewrite Hl, Hp.
      destruct (Z.eqb_spec (pid dir j) (pid dir s)) as [He|He];
        [exfalso; apply HC, Hcl; left; exact He|].
      destruct (Z.eqb_spec (pid dir j) (pid dir i0)) as [He'|He'];
        [exfalso; apply HC, Hcl; right; exact He'|].
      cbn [orb]. split; reflexivity. }
  assert (HG' : gd (dir_page t') = gd dir
                \/ (gd (dir_page t') = gd dir - 1
                    /\ forall j, 0 <= j < 2 ^ gd dir -> ld (dir_page t') j < gd dir)).
  { destruct (all_below_dec (ld (dir_page t')) (2 ^ gd dir) (gd dir)) as [Hall|Hex].
    - right. split; [|exact Hall]. unfold Directory.GetGlobalDepth in Hshrink.
      rewrite (Hshrink Hall). apply u32_small. change (2 ^ 32) with 4294967296. lia.
    - left. apply (Hnoshrink Hex). }
  assert (Hlds : ld dir s = d - 1 + 1) by lia.
  assert (Hldi : ld dir i0 = d - 1 + 1) by (fold d; lia).
  assert (He0 : 0 <= d - 1) by lia.
  assert (Hhigh' : i0 mod 2 ^ (d - 1 + 1) <> s mod 2 ^ (d - 1 + 1))
    by (intros H; apply Hshigh; symmetry; exact H).
  split; [|split; [|split; [discriminate|split; [intros _|split]]]].
  - apply (merge_table_inv t t' s i0 (d - 1)); auto.
  - apply (merge_present t t' s i0 (d - 1) eb); auto.
  - rewrite (merge_depth t t' s i0 (d - 1) Hinv Hsr Hi0 He0 Hlds Hldi (eq_sym Hslow)
               Hhigh' Hcell' HG' key).
    + lia.
    + rewrite Hslow. symmetry. apply KeyToDirectoryIndex_low; [exact Hdir | lia].
  - apply (merge_present_inv t t' s i0 (d - 1)); auto.
  - fold dir. destruct HG' as [HGe|[HGe _]]; rewrite HGe; lia.
Qed.

(** *** The directory page is full *)

Lemma for_loop_gd (body : Z -> directory -> directory) (n : nat) (lo : Z) (d0 : directory) :
  (forall i d, gd (body i d) = gd d) -> gd (for_loop n lo body d0) = gd d0.
Proof.
  intros Hgd. revert lo d0. induction n as [|n IH]; intros lo d0; simpl; [reflexivity|].
  rewrite IH. apply Hgd.
Qed.

(** With the bucket at the global depth [MAX_DEPTH], the doubled directory
    does not fit the page. *)
Lemma split_directory_overflow (dir : directory) (i0 p0 pn : Z) :
  dir_inv dir -> 0 <= i0 < 2 ^ gd dir ->
  ~ (ld dir i0 < gd dir \/ gd dir < MAX_DEPTH) ->
  split_directory dir i0 p0 pn = None.
Proof.
  intros Hinv Hi0 Hroom.
  pose proof (depth_le_31 dir Hinv) as HG.
  pose proof (ExtendibleHashTable.global_depth_range _ _ Hinv) as HM.
  unfold ExtendibleHashTable.split_directory. cbv zeta.
  unfold Directory.GetGlobalDepth, Directory.GetLocalDepth.
  rewrite for_loop_gd by (intros i x; destruct (_ =? _); reflexivity).
  destruct (Z.ltb_spec (ld dir i0) (gd dir)) as [Hlt|Hge]; [exfalso; apply Hroom; left; exact Hlt|].
  cbn [Directory.IncrGlobalDepth Directory.global_depth_].
  rewrite for_loop_gd by (intros i x; destruct (_ =? _); reflexivity).
  rewrite u32_small by (change (2 ^ 32) with 4294967296; lia).
  destruct (Z.ltb_spec MAX_DEPTH (gd dir + 1)) as [Hlt|Hge']; [reflexivity|].
  exfalso. apply Hroom. right. lia.
Qed.

Lemma SplitInsert_overflow (t : HashTable) (key : KeyType) (value : ValueType) (b0 : bucket) :
  table_inv t ->
  bucket_pages t (KeyToPageId key (dir_page t)) = Some b0 ->
  IsFull b0 = true ->
  ~ (ld (dir_page t) (KeyToDirectoryIndex key (dir_page t)) < gd (dir_page t)
     \/ gd (dir_page t) < MAX_DEPTH) ->
  SplitInsert t key value = None.
Proof.
  intros Hinv Hfetch Hfull Hroom.
  pose proof (ExtendibleHashTable.inv_dir _ _ _ _ _ _ Hinv) as Hdir.
  pose proof (KeyToDirectoryIndex_range key _ Hdir) as Hi0.
  unfold ExtendibleHashTable.SplitInsert. cbv zeta.
  unfold ExtendibleHashTable.FetchBucketPage. rewrite Hfetch, Hfull. cbn [negb].
  unfold ExtendibleHashTable.NewPage.
  rewrite (split_directory_overflow _ _ _ _ Hdir Hi0 Hroom). reflexivity.
Qed.

(** *** [Insert] and [Remove] maintain the invariant *)

Lemma Insert_inv (t t' : HashTable) (key : KeyType) (value : ValueType) (r : bool) :
  table_inv t -> Insert t key value = Some (r, t') ->
  table_inv t'
  /\ (forall k v, present t k v -> present t' k v)
  /\ (forall k v, present t' k v -> present t k v \/ (k, v) = (key, value))
  /\ (r = true -> present t' key value)
  /\ (present t key value -> r = false).
Proof.
  intros Hinv Hrun.
  destruct (Insert_effect t key value Hinv)
    as (b & Hb & Hbinv & Hpres & Hdup & Hnew & Hsplit).
  destruct (IsFull b) eqn:Hfull.
  - rewrite (Hsplit eq_refl) in Hrun. clear Hdup Hnew Hsplit.
    pose proof (same_state_put_bucket t _ b Hb) as Hsame.
    set (t1 := ExtendibleHashTable.put_bucket t (KeyToPageId key (dir_page t)) b) in *.
    pose proof (same_state_table_inv t t1 Hsame Hinv) as Hinv1.
    assert (Hb1 : bucket_pages t1 (KeyToPageId key (dir_page t1)) = Some b).
    { unfold t1. cbn. rewrite Z.eqb_refl. reflexivity. }
    destruct (Z.lt_ge_cases (ld (dir_page t1) (KeyToDirectoryIndex key (dir_page t1)))
                (gd (dir_page t1))) as [Hlt|Hge].
    + destruct (SplitInsert_full t1 key value b Hinv1 Hb1 Hfull (or_introl Hlt))
        as (r1 & t2 & Hrun1 & Hinv2 & Hkeep & Hback & Hin & Hdupl & _).
      rewrite Hrun1 in Hrun. injection Hrun as -> ->.
      split; [exact Hinv2|]. split; [|split; [|split]].
      * intros k v Hp. apply Hkeep, (same_state_present t t1 k v Hsame Hp).
      * intros k v Hp. destruct (Hback k v Hp) as [Hp1|He]; [left|right; exact He].
        apply (same_state_present t1 t k v (same_state_sym t t1 Hsame) Hp1).
      * exact Hin.
      * intros Hp. apply Hdupl, (same_state_present t t1 key value Hsame Hp).
    + destruct (Z.lt_ge_cases (gd (dir_page t1)) MAX_DEPTH) as [Hlt|Hge'].
      * destruct (SplitInsert_full t1 key value b Hinv1 Hb1 Hfull (or_intror Hlt))
          as (r1 & t2 & Hrun1 & Hinv2 & Hkeep & Hback & Hin & Hdupl & _).
        rewrite Hrun1 in Hrun. injection Hrun as -> ->.
        split; [exact Hinv2|]. split; [|split; [|split]].
        -- intros k v Hp. apply Hkeep, (same_state_present t t1 k v Hsame Hp).
        -- intros k v Hp. destruct (Hback k v Hp) as [Hp1|He]; [left|right; exact He].
           apply (same_state_present t1 t k v (same_state_sym t t1 Hsame) Hp1).
        -- exact Hin.
        -- intros Hp. apply Hdupl, (same_state_present t t1 key value Hsame Hp).
      * exfalso.
        rewrite (SplitInsert_overflow t1 key value b Hinv1 Hb1 Hfull) in Hrun;
          [discriminate|]. intros [H|H]; lia.
  - destruct (holds_dec BUCKET_ARRAY_SIZE cmp value_eq default_key default_value
                cmp_spec value_eq_spec b key value) as [Hh|Hh].
    + destruct (Hdup eq_refl Hh) as (t2 & Hrun2 & Hsame).
      rewrite Hrun2 in Hrun. injection Hrun as <- <-.
      split; [apply (same_state_table_inv t t2 Hsame Hinv)|]. split; [|split; [|split]].
      * intros k v. apply same_state_present, Hsame.
      * intros k v Hp. left. apply (same_state_present t2 t k v (same_state_sym t t2 Hsame) Hp).
      * discriminate.
      * reflexivity.
    + destruct (Hnew eq_refl Hh) as (t2 & Hrun2 & Hinv2 & Hkeep & Hback & Hin).
      rewrite Hrun2 in Hrun. injection Hrun as <- <-.
      split; [exact Hinv2|]. split; [exact Hkeep|]. split; [exact Hback|].
      split; [intros _; exact Hin|]. intros Hp. exfalso. apply Hh, Hpres, Hp.
Qed.

(** *** [Insert] on a full bucket *)

(** On a full bucket [Insert] is [SplitInsert]: no state when the directory
    would have to grow beyond [MAX_DEPTH], and otherwise one split. *)
Lemma Insert_on_full_bucket (t : HashTable) (key : KeyType) (value : ValueType) (b : bucket) :
  table_inv t ->
  bucket_pages t (KeyToPageId key (dir_page t)) = Some b ->
  IsFull b = true ->
  (~ (ld (dir_page t) (KeyToDirectoryIndex key (dir_page t)) < gd (dir_page t)
      \/ gd (dir_page t) < MAX_DEPTH) ->
   Insert t key value = None)
  /\ (ld (dir_page t) (KeyToDirectoryIndex key (dir_page t)) < gd (dir_page t)
      \/ gd (dir_page t) < MAX_DEPTH ->
      exists r t', Insert t key value = Some (r, t')
        /\ next_page_id t' = next_page_id t + 1
        /\ (exists bn, bucket_pages t' (next_page_id t) = Some bn)
        /\ (gd (dir_page t') = gd (dir_page t)
            /\ ld (dir_page t) (KeyToDirectoryIndex key (dir_page t)) < gd (dir_page t)
            \/ gd (dir_page t') = gd (dir_page t) + 1
               /\ ld (dir_page t) (KeyToDirectoryIndex key (dir_page t)) = gd (dir_page t))
        /\ (forall j, 0 <= j < 2 ^ gd (dir_page t') ->
              cell (dir_page t') j
              = let i0 := KeyToDirectoryIndex key (dir_page t) in
                let d := ld (dir_page t) i0 in
                if j mod 2 ^ d =? i0 mod 2 ^ d
                then (d + 1,
                      if j mod 2 ^ (d + 1) =? i0 mod 2 ^ (d + 1)
                      then KeyToPageId key (dir_page t) else next_page_id t)
                else cell (dir_page t) (j mod 2 ^ gd (dir_page t)))
        /\ ld (dir_page t') (KeyToDirectoryIndex key (dir_page t'))
           = ld (dir_page t) (KeyToDirectoryIndex key (dir_page t)) + 1
        /\ (r = false -> ~ present t key value ->
            ~ present t' key value
            /\ exists b', bucket_pages t' (KeyToPageId key (dir_page t')) = Some b'
                 /\ IsFull b' = true)
        /\ (~ present t key value ->
            (r = true <->
             exists s, (s < BUCKET_ARRAY_SIZE)%nat
               /\ Z.testbit (Hash (fst (slot b s)))
                    (ld (dir_page t) (KeyToDirectoryIndex key (dir_page t)))
                  <> Z.testbit (Hash key)
                       (ld (dir_page t) (KeyToDirectoryIndex key (dir_page t)))))).
Proof.
  intros Hinv Hb Hfull.
  destruct (Insert_effect t key value Hinv) as (b1 & Hb1 & _ & _ & _ & _ & Hsplit).
  rewrite Hb in Hb1. injection Hb1 as <-. rewrite (Hsplit Hfull). clear Hsplit.
  pose proof (same_state_put_bucket t _ b Hb) as Hsame.
  set (t1 := ExtendibleHashTable.put_bucket t (KeyToPageId key (dir_page t)) b) in *.
  pose proof (same_state_table_inv t t1 Hsame Hinv) as Hinv1.
  assert (Hb1 : bucket_pages t1 (KeyToPageId key (dir_page t1)) = Some b).
  { unfold t1. cbn. rewrite Z.eqb_refl. reflexivity. }
  assert (Hpres : ~ present t key value -> ~ present t1 key value).
  { intros Hnp Hp. apply Hnp.
    apply (same_state_present t1 t key value (same_state_sym t t1 Hsame) Hp). }
  split.
  - intros Hno. apply (SplitInsert_overflow t1 key value b Hinv1 Hb1 Hfull Hno).
  - intros Hroom.
    destruct (SplitInsert_shape t1 key value b Hinv1 Hb1 Hfull Hroom)
      as (r & t' & Hrun & Hnext & Hnew & HG & Hcell & Hld & Hfail).
    destruct (SplitInsert_full t1 key value b Hinv1 Hb1 Hfull Hroom)
      as (r1 & t1' & Hrun1 & _ & _ & _ & _ & _ & Hiff).
    rewrite Hrun in Hrun1. injection Hrun1 as <- <-.
    exists r, t'. split; [exact Hrun|]. split; [exact Hnext|]. split; [exact Hnew|].
    split; [exact HG|]. split; [exact Hcell|]. split; [exact Hld|]. split.
    + intros Hr Hnp. apply (Hfail Hr (Hpres Hnp)).
    + intros Hnp. apply (Hiff (Hpres Hnp)).
Qed.

(** *** The capacity of the directory *)

Lemma beyond_MAX_DEPTH_dec (t : HashTable) (key : KeyType) :
  table_inv t -> beyond_MAX_DEPTH t key \/ ~ beyond_MAX_DEPTH t key.
Proof.
  intros Hinv. destruct (table_inv_route t key Hinv) as (b & Hb & _).
  unfold ExtendibleHashTable.beyond_MAX_DEPTH, Directory.GetLocalDepth,
    Directory.GetGlobalDepth.
  destruct (IsFull b) eqn:Hfull.
  - destruct (Z.eq_dec (ld (dir_page t) (KeyToDirectoryIndex key (dir_page t)))
                (gd (dir_page t))) as [Hd|Hd];
      [destruct (Z.eq_dec (gd (dir_page t)) MAX_DEPTH) as [HG|HG]|].
    + left. exists b. auto.
    + right. intros (b1 & _ & _ & _ & H). contradiction.
    + right. intros (b1 & _ & _ & H & _). contradiction.
  - right. intros (b1 & Hb1 & Hf & _). rewrite Hb in Hb1. injection Hb1 as <-. congruence.
Qed.

(** Beyond the capacity [Insert] and [SplitInsert] give no state. *)
Lemma Insert_beyond (t : HashTable) (key : KeyType) (value : ValueType) :
  table_inv t -> beyond_MAX_DEPTH t key ->
  Insert t key value = None /\ SplitInsert t key value = None.
Proof.
  intros Hinv (b & Hb & Hfull & Hld & HG).
  unfold Directory.GetLocalDepth, Directory.GetGlobalDepth in Hld, HG. split.
  - apply (Insert_on_full_bucket t key value b Hinv Hb Hfull). lia.
  - apply (SplitInsert_overflow t key value b Hinv Hb Hfull). lia.
Qed.

(** Within the capacity they return. *)
Lemma Insert_within (t : HashTable) (key : KeyType) (value : ValueType) :
  table_inv t -> ~ beyond_MAX_DEPTH t key ->
  (exists r t', Insert t key value = Some (r, t'))
  /\ (exists r t', SplitInsert t key value = Some (r, t')).
Proof.
  intros Hinv Hno.
  destruct (Insert_effect t key value Hinv)
    as (b & Hb & Hbinv & Hpres & Hdup & Hnew & _).
  pose proof (ExtendibleHashTable.inv_dir _ _ _ _ _ _ Hinv) as Hdir.
  pose proof (ExtendibleHashTable.local_depth_range _ _ Hdir _
                (KeyToDirectoryIndex_range key _ Hdir)) as Hd.
  pose proof (ExtendibleHashTable.global_depth_range _ _ Hdir) as HG.
  destruct (IsFull b) eqn:Hfull.
  - assert (Hroom : ld (dir_page t) (KeyToDirectoryIndex key (dir_page t)) < gd (dir_page t)
                    \/ gd (dir_page t) < MAX_DEPTH).
    { destruct (Z.eq_dec (ld (dir_page t) (KeyToDirectoryIndex key (dir_page t)))
                  (gd (dir_page t))) as [He|He]; [|left; lia].
      destruct (Z.eq_dec (gd (dir_page t)) MAX_DEPTH) as [He'|He']; [|right; lia].
      exfalso. apply Hno. exists b. auto. }
    split.
    + destruct (proj2 (Insert_on_full_bucket t key value b Hinv Hb Hfull) Hroom)
        as (r & t' & Hrun & _).
      exists r, t'. exact Hrun.
    + destruct (SplitInsert_full t key value b Hinv Hb Hfull Hroom) as (r & t' & Hrun & _).
      exists r, t'. exact Hrun.
  - split.
    + destruct (holds_dec BUCKET_ARRAY_SIZE cmp value_eq default_key default_value
                  cmp_spec value_eq_spec b key value) as [Hh|Hh].
      * destruct (Hdup eq_refl Hh) as (t2 & Hrun2 & _). exists false, t2. exact Hrun2.
      * destruct (Hnew eq_refl Hh) as (t2 & Hrun2 & _). exists true, t2. exact Hrun2.
    + unfold ExtendibleHashTable.SplitInsert. cbv zeta.
      unfold ExtendibleHashTable.FetchBucketPage. rewrite Hb, Hfull. cbn [negb].
      destruct (bucket_Insert b key value) as [ret b']. eexists ret, _. reflexivity.
Qed.

Lemma ExtraMerge_loop_inv (fuel : nat) (t : HashTable) (key : KeyType) (value : ValueType) :
  table_inv t ->
  (Z.to_nat (ld (dir_page t) (KeyToDirectoryIndex key (dir_page t))) < fuel)%nat ->
  exists t', ExtraMerge_loop fuel t key value = Some t' /\ table_inv t'
    /\ (forall k v, present t k v -> present t' k v)
    /\ (forall k v, present t' k v -> present t k v)
    /\ gd (dir_page t') <= gd (dir_page t)
    /\ ExtraMerge t' key value = Some (false, t').
Proof.
  revert t. induction fuel as [|fuel IH]; intros t Hinv Hfuel; [exfalso; lia|].
  destruct (ExtraMerge_inv t key value Hinv)
    as (r & t1 & Hrun & Hinv1 & Hkeep & Hfalse & Htrue & Hback & Hgd).
  cbn [ExtendibleHashTable.ExtraMerge_loop]. rewrite Hrun. destruct r.
  - specialize (Htrue eq_refl).
    pose proof (ExtendibleHashTable.inv_dir _ _ _ _ _ _ Hinv1) as Hdir1.
    pose proof (ExtendibleHashTable.local_depth_range _ _ Hdir1 _
                  (KeyToDirectoryIndex_range key _ Hdir1)) as Hd1.
    destruct (IH t1 Hinv1 ltac:(lia)) as (t2 & Hrun2 & Hinv2 & Hkeep2 & Hback2 & Hgd2 & Hend).
    exists t2. split; [exact Hrun2|]. split; [exact Hinv2|]. split; [|split; [|split]].
    + intros k v Hp. apply Hkeep2, Hkeep, Hp.
    + intros k v Hp. apply Hback, Hback2, Hp.
    + lia.
    + exact Hend.
  - exists t1. split; [reflexivity|]. split; [exact Hinv1|]. split; [exact Hkeep|].
    split; [exact Hback|]. split; [exact Hgd|].
    rewrite (Hfalse eq_refl) in Hrun |- *. exact Hrun.
Qed.

Lemma Remove_inv (t : HashTable) (key : KeyType) (value : ValueType) :
  table_inv t ->
  exists r t', Remove t key value = Some (r, t') /\ table_inv t'
    /\ (forall k v, present t k v -> (k, v) <> (key, value) -> present t' k v).
Proof.
  intros Hinv. destruct (table_inv_route t key Hinv) as (b & Hb & Hbinv).
  unfold ExtendibleHashTable.Remove, ExtendibleHashTable.Remove_in_bucket. cbv zeta.
  unfold ExtendibleHashTable.FetchBucketPage. rewrite Hb.
  pose proof (bucket_inv_Remove BUCKET_ARRAY_SIZE cmp value_eq default_key default_value
                b key value Hbinv) as Hbinv'.
  pose proof (fun k v => Remove_holds_inv BUCKET_ARRAY_SIZE cmp value_eq default_key
                default_value b key k value v Hbinv) as Hback.
  pose proof (fun k v => Remove_preserves_holds BUCKET_ARRAY_SIZE cmp value_eq default_key
                default_value cmp_spec value_eq_spec b key k value v Hbinv) as Hkeep.
  destruct (bucket_Remove b key value) as [ret b'] eqn:Hrem. cbn [snd] in Hbinv', Hback, Hkeep.
  set (t1 := ExtendibleHashTable.put_bucket t (KeyToPageId key (dir_page t)) b').
  assert (Hinv1 : table_inv t1).
  { apply (table_inv_put_bucket t key b b' Hinv Hb Hbinv').
    intros k v Hh. left. apply Hback, Hh. }
  assert (Hpres1 : forall k v, present t k v -> (k, v) <> (key, value) -> present t1 k v).
  { intros k v Hp Hne. apply present_put_bucket.
    destruct (Z.eq_dec (KeyToPageId k (dir_page t)) (KeyToPageId key (dir_page t)))
      as [He|He]; [left|right; auto].
    split; [exact He|]. apply Hkeep; [|exact Hne].
    destruct Hp as (b1 & Hb1 & Hh). rewrite He, Hb in Hb1. injection Hb1 as <-. exact Hh. }
  destruct (ret && IsEmpty b').
  - destruct (Merge_inv t1 key value Hinv1) as (t2 & Hrun2 & Hinv2 & Hkeep2 & _).
    rewrite Hrun2.
    pose proof (ExtendibleHashTable.inv_dir _ _ _ _ _ _ Hinv2) as Hdir2.
    pose proof (ExtendibleHashTable.local_depth_range _ _ Hdir2 _
                  (KeyToDirectoryIndex_range key _ Hdir2)) as Hd2.
    pose proof (depth_le_31 _ Hdir2) as HG2.
    destruct (ExtraMerge_loop_inv 257 t2 key value Hinv2 ltac:(lia))
      as (t3 & Hrun3 & Hinv3 & Hkeep3 & _).
    rewrite Hrun3. exists ret, t3. split; [reflexivity|]. split; [exact Hinv3|].
    intros k v Hp Hne. apply Hkeep3, Hkeep2, Hpres1; assumption.
  - exists ret, t1. split; [reflexivity|]. split; [exact Hinv1 | exact Hpres1].
Qed.

(** *** Counting the slots of a bucket *)

(** The number of [j] in [[lo, lo + n)] that satisfy [P]. *)
Lemma count_app (P : Z -> bool) (lo n m : nat) :
  length (filter P (map Z.of_nat (seq lo (n + m))))
  = (length (filter P (map Z.of_nat (seq lo n)))
     + length (filter P (map Z.of_nat (seq (lo + n) m))))%nat.
Proof.
  rewrite seq_app, map_app, filter_app, length_app. reflexivity.
Qed.

Lemma count_shift (P Q : Z -> bool) (k n lo : nat) :
  (forall j, (lo <= j < lo + n)%nat -> P (Z.of_nat (j + k)) = Q (Z.of_nat j)) ->
  length (filter P (map Z.of_nat (seq (lo + k) n)))
  = length (filter Q (map Z.of_nat (seq lo n))).
Proof.
  revert lo. induction n as [|n IH]; intros lo Hext; [reflexivity|].
  cbn [seq map filter]. rewrite <- (Hext lo) by lia.
  specialize (IH (S lo)). cbn [Nat.add] in IH.
  destruct (P (Z.of_nat (lo + k))); cbn [length]; rewrite IH; auto; intros j Hj; apply Hext; lia.
Qed.

Lemma count_ext (P Q : Z -> bool) (n lo : nat) :
  (forall j, (lo <= j < lo + n)%nat -> P (Z.of_nat j) = Q (Z.of_nat j)) ->
  length (filter P (map Z.of_nat (seq lo n))) = length (filter Q (map Z.of_nat (seq lo n))).
Proof.
  intros Hext. rewrite <- (count_shift P Q 0 n lo).
  - rewrite Nat.add_0_r. reflexivity.
  - intros j Hj. rewrite Nat.add_0_r. apply Hext, Hj.
Qed.

Lemma count_none (P : Z -> bool) (n lo : nat) :
  (forall j, (lo <= j < lo + n)%nat -> P (Z.of_nat j) = false) ->
  length (filter P (map Z.of_nat (seq lo n))) = 0%nat.
Proof.
  intros Hnone. rewrite (count_ext P (fun _ => false) n lo Hnone).
  clear Hnone. revert lo. induction n as [|n IH]; intros lo; [reflexivity|].
  cbn [seq map filter]. apply IH.
Qed.

Lemma count_single (r n : nat) :
  (r < n)%nat ->
  length (filter (fun j => j =? Z.of_nat r) (map Z.of_nat (seq 0 n))) = 1%nat.
Proof.
  induction n as [|n IH]; intros Hr; [exfalso; lia|].
  replace (S n) with (n + 1)%nat by lia. rewrite count_app. cbn [Nat.add seq map filter].
  destruct (Nat.eq_dec r n) as [->|Hne].
  - rewrite Z.eqb_refl. rewrite count_none; [reflexivity|].
    intros j Hj. apply Z.eqb_neq. lia.
  - rewrite IH by lia. destruct (Z.eqb_spec (Z.of_nat n) (Z.of_nat r)) as [He|He];
      [exfalso; lia | reflexivity].
Qed.

(** Among the [2^(d + e)] slots, [2^e] agree with [r] on the low [d] bits. *)
Lemma count_class (d r : Z) (e : nat) :
  0 <= d -> 0 <= r < 2 ^ d ->
  length (filter (fun j => j mod 2 ^ d =? r)
            (map Z.of_nat (seq 0 (Z.to_nat (2 ^ (d + Z.of_nat e))))))
  = (2 ^ e)%nat.
Proof.
  intros Hd Hr. induction e as [|e IH].
  - rewrite Z.add_0_r.
    rewrite (count_ext _ (fun j => j =? Z.of_nat (Z.to_nat r))).
    + apply count_single. lia.
    + intros j Hj. rewrite Z2Nat.id by lia. rewrite Z.mod_small by lia. reflexivity.
  - assert (Hpos : 0 < 2 ^ (d + Z.of_nat e)) by (apply Z.pow_pos_nonneg; lia).
    replace (Z.to_nat (2 ^ (d + Z.of_nat (S e))))
      with (Z.to_nat (2 ^ (d + Z.of_nat e)) + Z.to_nat (2 ^ (d + Z.of_nat e)))%nat.
    2:{ replace (d + Z.of_nat (S e)) with (d + Z.of_nat e + 1) by lia.
        rewrite (Z.pow_add_r 2 (d + Z.of_nat e) 1) by lia. change (2 ^ 1) with 2.
        rewrite Z2Nat.inj_mul by lia. change (Z.to_nat 2) with 2%nat.
        generalize (Z.to_nat (2 ^ (d + Z.of_nat e))). intros m. lia. }
    rewrite count_app. cbn [Nat.add].
    rewrite (count_shift _ (fun j => j mod 2 ^ d =? r) (Z.to_nat (2 ^ (d + Z.of_nat e))) _ 0).
    + rewrite IH. cbn [Nat.pow]. lia.
    + intros j Hj. rewrite Nat2Z.inj_add, Z2Nat.id by lia.
      rewrite Z.pow_add_r by lia. rewrite (Z.mul_comm (2 ^ d)), Z.mod_add; [reflexivity|].
      apply Z.pow_nonzero; lia.
Qed.

(** The invariant the operations maintain gives the directory invariants
    of the specification. *)
Lemma dir_inv_directory_invariants (dir : directory) :
  dir_inv dir -> ExtendibleHashTable.directory_invariants shl_overflow dir.
Proof.
  intros Hinv. pose proof (depth_le_31 dir Hinv) as HG.
  pose proof (Size_pow2 dir Hinv) as Hsize.
  split; unfold Directory.GetGlobalDepth, Directory.GetLocalDepth, Directory.GetBucketPageId;
    rewrite ?Hsize.
  - reflexivity.
  - intros i Hi. apply (ExtendibleHashTable.local_depth_range _ _ Hinv i Hi).
  - intros i j Hi Hj Hmask Hld.
    pose proof (ExtendibleHashTable.local_depth_range _ _ Hinv i Hi) as Hd.
    rewrite !GetLocalDepthMask_pow2 in Hmask by auto.
    rewrite <- Hld in Hmask. rewrite !land_mask in Hmask by lia.
    symmetry. apply cell_eq. apply (ExtendibleHashTable.same_class _ _ Hinv); auto.
  - intros i Hi.
    pose proof (ExtendibleHashTable.local_depth_range _ _ Hinv i Hi) as Hd.
    unfold ExtendibleHashTable.slot_count, Directory.slots, Directory.GetBucketPageId.
    fold (dir_Size dir). rewrite Hsize.
    assert (Hpos : 0 < 2 ^ gd dir) by (apply Z.pow_pos_nonneg; lia).
    rewrite (count_ext _ (fun j => j mod 2 ^ ld dir i =? i mod 2 ^ ld dir i)).
    + replace (gd dir) with (ld dir i + Z.of_nat (Z.to_nat (gd dir - ld dir i))) at 1 by lia.
      rewrite count_class; [| lia | apply Z.mod_pos_bound, Z.pow_pos_nonneg; lia].
      rewrite Nat2Z.inj_pow, Z2Nat.id by lia. reflexivity.
    + intros j Hj. assert (Hjr : 0 <= Z.of_nat j < 2 ^ gd dir) by lia.
      destruct (Z.eqb_spec (Z.of_nat j mod 2 ^ ld dir i) (i mod 2 ^ ld dir i)) as [HC|HC].
      * apply Z.eqb_eq. apply cell_eq. apply (ExtendibleHashTable.same_class _ _ Hinv); auto.
      * apply Z.eqb_neq. intros He. apply HC.
        apply (ExtendibleHashTable.same_page _ _ Hinv); auto.
Qed.

(** *** The states a table reaches *)

Section Reachable.

Hypothesis MAX_DEPTH_nonneg : 0 <= MAX_DEPTH.

Local Abbreviation operation := (@ExtendibleHashTable.operation KeyType ValueType).
Local Abbreviation OpInsert := (@ExtendibleHashTable.OpInsert KeyType ValueType).
Local Abbreviation OpRemove := (@ExtendibleHashTable.OpRemove KeyType ValueType).
Local Abbreviation step :=
  (ExtendibleHashTable.step BUCKET_ARRAY_SIZE cmp value_eq default_key default_value
     hash_fn MAX_DEPTH shl_overflow).

Lemma table_inv_init : table_inv init.
Proof.
  assert (Hone : forall i, 0 <= i < 2 ^ 0 -> i = 0) by (intros i; change (2 ^ 0) with 1; lia).
  split.
  - split; cbn.
    + lia.
    + intros i Hi. lia.
    + intros i j Hi Hj _. rewrite (Hone i Hi), (Hone j Hj). reflexivity.
    + intros i j Hi Hj _. rewrite (Hone i Hi), (Hone j Hj). reflexivity.
  - intros i Hi. cbn in Hi. rewrite (Hone i Hi). exists zero_page. cbn.
    split; [reflexivity|]. split; [apply bucket_inv_zero_page|].
    intros s Hs Hr. rewrite IsReadable_zero_page in Hr by exact Hs. discriminate.
  - intros i Hi. cbn in Hi. rewrite (Hone i Hi). cbn. lia.
Qed.

Lemma step_inv (t t' : HashTable) (o : operation) (r : bool) :
  table_inv t -> step t o = Some (r, t') -> table_inv t'.
Proof.
  intros Hinv Hstep. destruct o as [key value|key value]; cbn in Hstep.
  - apply (Insert_inv t t' key value r Hinv Hstep).
  - destruct (Remove_inv t key value Hinv) as (r1 & t1 & Hrun & Hinv1 & _).
    rewrite Hrun in Hstep. injection Hstep as _ <-. exact Hinv1.
Qed.


Lemma run_inv (ops : list operation) (t t' : HashTable) :
  table_inv t -> run ops t = Some t' -> table_inv t'.
Proof.
  revert t. induction ops as [|o ops IH]; intros t Hinv Hrun; cbn in Hrun.
  - injection Hrun as <-. exact Hinv.
  - destruct (step t o) as [[r t1]|] eqn:Hstep; [|discriminate].
    apply (IH t1); [|exact Hrun]. apply (step_inv t t1 o r Hinv Hstep).
Qed.


Lemma reachable_inv (ops : list operation) (t : HashTable) :
  run ops init = Some t -> table_inv t.
Proof. apply run_inv, table_inv_init. Qed.


Lemma Insert_total (t : HashTable) (key : KeyType) (value : ValueType) :
  table_inv t -> gd (dir_page t) < MAX_DEPTH ->
  exists r t', Insert t key value = Some (r, t').
Proof.
  intros Hinv Hroom.
  destruct (Insert_effect t key value Hinv)
    as (b & Hb & Hbinv & Hpres & Hdup & Hnew & Hsplit).
  destruct (IsFull b) eqn:Hfull.
  - rewrite (Hsplit eq_refl).
    pose proof (same_state_put_bucket t _ b Hb) as Hsame.
    set (t1 := ExtendibleHashTable.put_bucket t (KeyToPageId key (dir_page t)) b) in *.
    pose proof (same_state_table_inv t t1 Hsame Hinv) as Hinv1.
    assert (Hb1 : bucket_pages t1 (KeyToPageId key (dir_page t1)) = Some b).
    { unfold t1. cbn. rewrite Z.eqb_refl. reflexivity. }
    destruct (SplitInsert_full t1 key value b Hinv1 Hb1 Hfull (or_intror Hroom))
      as (r1 & t2 & Hrun1 & _).
    exists r1, t2. exact Hrun1.
  - destruct (holds_dec BUCKET_ARRAY_SIZE cmp value_eq default_key default_value
                cmp_spec value_eq_spec b key value) as [Hh|Hh].
    + destruct (Hdup eq_refl Hh) as (t2 & Hrun2 & _). exists false, t2. exact Hrun2.
    + destruct (Hnew eq_refl Hh) as (t2 & Hrun2 & _). exists true, t2. exact Hrun2.
Qed.


Lemma SplitInsert_dir_inv (t t' : HashTable) (key : KeyType) (value : ValueType)
    (r : bool) :
  table_inv t -> SplitInsert t key value = Some (r, t') -> dir_inv (dir_page t').
Proof.
  intros Hinv Hrun. destruct (table_inv_route t key Hinv) as (b & Hb & Hbinv).
  destruct (IsFull b) eqn:Hfull.
  - destruct (Z.lt_ge_cases (ld (dir_page t) (KeyToDirectoryIndex key (dir_page t)))
                (gd (dir_page t))) as [Hlt|Hge];
      [|destruct (Z.lt_ge_cases (gd (dir_page t)) MAX_DEPTH) as [Hlt|Hge']].
    + destruct (SplitInsert_full t key value b Hinv Hb Hfull (or_introl Hlt))
        as (r1 & t1 & Hrun1 & Hinv1 & _).
      rewrite Hrun1 in Hrun. injection Hrun as _ <-. apply Hinv1.
    + destruct (SplitInsert_full t key value b Hinv Hb Hfull (or_intror Hlt))
        as (r1 & t1 & Hrun1 & Hinv1 & _).
      rewrite Hrun1 in Hrun. injection Hrun as _ <-. apply Hinv1.
    + exfalso. rewrite (SplitInsert_overflow t key value b Hinv Hb Hfull) in Hrun;
        [discriminate|]. intros [H|H]; lia.
  - unfold ExtendibleHashTable.SplitInsert in Hrun. cbv zeta in Hrun.
    unfold ExtendibleHashTable.FetchBucketPage in Hrun. rewrite Hb, Hfull in Hrun.
    cbn [negb] in Hrun. destruct (bucket_Insert b key value) as [ret b'].
    injection Hrun as _ <-. apply Hinv.
Qed.

(** A sequence of calls gives no state only at an [Insert] that would
    grow the directory beyond [MAX_DEPTH]. *)
Lemma run_None (ops : list operation) (t : HashTable) :
  table_inv t -> run ops t = None ->
  exists ops1 key value ops2 t1,
    ops = ops1 ++ OpInsert key value :: ops2
    /\ run ops1 t = Some t1 /\ beyond_MAX_DEPTH t1 key.
Proof.
  revert t. induction ops as [|o ops IH]; intros t Hinv Hrun; cbn in Hrun; [discriminate|].
  destruct (step t o) as [[r t1]|] eqn:Hstep.
  - destruct (IH t1 (step_inv t t1 o r Hinv Hstep) Hrun)
      as (ops1 & k & v & ops2 & t2 & -> & Hrun1 & Hb).
    exists (o :: ops1), k, v, ops2, t2. split; [reflexivity|].
    split; [cbn; rewrite Hstep; exact Hrun1 | exact Hb].
  - destruct o as [key value|key value]; cbn in Hstep.
    + exists [], key, value, ops, t. split; [reflexivity|]. split; [reflexivity|].
      destruct (beyond_MAX_DEPTH_dec t key Hinv) as [Hb|Hb]; [exact Hb|].
      destruct (Insert_within t key value Hinv Hb) as [(r & t' & Hins) _].
      rewrite Hins in Hstep. discriminate.
    + destruct (Remove_inv t key value Hinv) as (r & t' & Hrem & _).
      rewrite Hrem in Hstep. discriminate.
Qed.

(** C2, as the code has it.  After a sequence of [Insert] and [Remove]
    calls on a new table in which no [Insert] had to double a directory of
    global depth [MAX_DEPTH], the directory satisfies the invariants of the
    specification: its size is [2^global_depth], no local depth exceeds the
    global depth, slots of equal local depth that agree under their local
    masks hold the same page id, and the page of a slot is held by
    [2^(global_depth - local_depth)] slots.  From such a state [Remove],
    [Merge] and [ExtraMerge] return a state whose directory satisfies them
    again, and so do [Insert] and [SplitInsert] unless the bucket of the key
    is full with its local depth and the global depth at [MAX_DEPTH]; in
    that case they give no state; and a sequence of calls gives no state
    only when one of its [Insert]s meets that case. *)
Theorem directory_invariants_preserved (ops : list operation) (t : HashTable) :
  run ops init = Some t ->
  ExtendibleHashTable.directory_invariants shl_overflow (dir_page t)
  /\ (forall key value, exists r t',
        Remove t key value = Some (r, t')
        /\ ExtendibleHashTable.directory_invariants shl_overflow (dir_page t'))
  /\ (forall key value, ~ beyond_MAX_DEPTH t key ->
        (exists r t',
           Insert t key value = Some (r, t')
           /\ ExtendibleHashTable.directory_invariants shl_overflow (dir_page t'))
        /\ (exists r t',
              SplitInsert t key value = Some (r, t')
              /\ ExtendibleHashTable.directory_invariants shl_overflow (dir_page t')))
  /\ (forall key value, beyond_MAX_DEPTH t key ->
        Insert t key value = None /\ SplitInsert t key value = None)
  /\ (forall key value, exists t',
        Merge t key value = Some t'
        /\ ExtendibleHashTable.directory_invariants shl_overflow (dir_page t'))
  /\ (forall key value, exists r t',
        ExtraMerge t key value = Some (r, t')
        /\ ExtendibleHashTable.directory_invariants shl_overflow (dir_page t'))
  /\ (forall ops', run ops' t = None ->
        exists ops1 key value ops2 t1,
          ops' = ops1 ++ OpInsert key value :: ops2
          /\ run ops1 t = Some t1 /\ beyond_MAX_DEPTH t1 key).
Proof.
  intros Hrun. pose proof (reachable_inv ops t Hrun) as Hinv.
  split; [|split; [|split; [|split; [|split; [|split]]]]].
  - apply dir_inv_directory_invariants, Hinv.
  - intros key value. destruct (Remove_inv t key value Hinv) as (r & t' & Hrem & Hinv' & _).
    exists r, t'. split; [exact Hrem|]. apply dir_inv_directory_invariants, Hinv'.
  - intros key value Hroom.
    destruct (Insert_within t key value Hinv Hroom)
      as [(r & t' & Hins) (r2 & t2 & Hsplit)].
    split.
    + exists r, t'. split; [exact Hins|]. apply dir_inv_directory_invariants.
      apply (Insert_inv t t' key value r Hinv Hins).
    + exists r2, t2. split; [exact Hsplit|]. apply dir_inv_directory_invariants.
      apply (SplitInsert_dir_inv t t2 key value r2 Hinv Hsplit).
  - intros key value Hfull. apply (Insert_beyond t key value Hinv Hfull).
  - intros key value. destruct (Merge_inv t key value Hinv) as (t' & Hm & Hinv' & _).
    exists t'. split; [exact Hm|]. apply dir_inv_directory_invariants, Hinv'.
  - intros key value.
    destruct (ExtraMerge_inv t key value Hinv) as (r & t' & Hm & Hinv' & _).
    exists r, t'. split; [exact Hm|]. apply dir_inv_directory_invariants, Hinv'.
  - intros ops'. apply (run_None ops' t Hinv).
Qed.

(** C4, as the code has it.  On a state that holds the pair, [Insert(k, v)]
    returns false and the stored pairs stay the same.  When the bucket of
    the pair is not full the state is left as it is.  When it is full the
    call goes through [SplitInsert], which splits the bucket: the pool hands
    out a new page, the local depth of the key's slot grows by one, and the
    global depth grows by one (the directory doubles) when the local depth
    was the global depth, the directory being the one [split_directory]
    describes; this needs a local depth below the global depth or a global
    depth below [MAX_DEPTH], and without that the call gives no state. *)
Theorem Insert_duplicate (ops : list operation) (t : HashTable)
    (k : KeyType) (v : ValueType) :
  run ops init = Some t -> present t k v ->
  let i0 := KeyToDirectoryIndex k (dir_page t) in
  let d := ld (dir_page t) i0 in
  exists b, bucket_pages t (KeyToPageId k (dir_page t)) = Some b
    /\ (forall r t', Insert t k v = Some (r, t') ->
          r = false /\ forall k' v', present t' k' v' <-> present t k' v')
    /\ (IsFull b = false ->
        exists t', Insert t k v = Some (false, t')
          /\ ExtendibleHashTable.same_state t t')
    /\ (IsFull b = true -> d < gd (dir_page t) \/ gd (dir_page t) < MAX_DEPTH ->
        exists t', Insert t k v = Some (false, t')
          /\ next_page_id t' = next_page_id t + 1
          /\ (exists bn, bucket_pages t' (next_page_id t) = Some bn)
          /\ ld (dir_page t') (KeyToDirectoryIndex k (dir_page t')) = d + 1
          /\ (d < gd (dir_page t) -> gd (dir_page t') = gd (dir_page t))
          /\ (d = gd (dir_page t) ->
              gd (dir_page t') = gd (dir_page t) + 1
              /\ dir_Size (dir_page t') = 2 * dir_Size (dir_page t))
          /\ (forall j, 0 <= j < dir_Size (dir_page t') ->
                cell (dir_page t') j
                = if j mod 2 ^ d =? i0 mod 2 ^ d
                  then (d + 1,
                        if j mod 2 ^ (d + 1) =? i0 mod 2 ^ (d + 1)
                        then KeyToPageId k (dir_page t) else next_page_id t)
                  else cell (dir_page t) (j mod 2 ^ gd (dir_page t))))
    /\ (IsFull b = true -> d = gd (dir_page t) -> gd (dir_page t) = MAX_DEPTH ->
        Insert t k v = None).
Proof.
  intros Hrun Hp i0 d. pose proof (reachable_inv ops t Hrun) as Hinv.
  destruct (Insert_effect t k v Hinv) as (b & Hb & Hbinv & Hpres & Hdup & _ & _).
  assert (Hret : forall r t', Insert t k v = Some (r, t') ->
            r = false /\ forall k' v', present t' k' v' <-> present t k' v').
  { intros r t' Hins.
    destruct (Insert_inv t t' k v r Hinv Hins) as (_ & Hkeep & Hback & _ & Hfalse).
    split; [apply Hfalse, Hp|]. intros k' v'. split; [|apply Hkeep].
    intros Hp'. destruct (Hback k' v' Hp') as [Hold|He]; [exact Hold|].
    injection He as -> ->. exact Hp. }
  exists b. split; [exact Hb|]. split; [exact Hret|]. split; [|split].
  - intros Hnf. apply (Hdup Hnf), Hpres, Hp.
  - intros Hfull Hroom.
    destruct (proj2 (Insert_on_full_bucket t k v b Hinv Hb Hfull) Hroom)
      as (r & t' & Hins & Hnext & Hnew & HG & Hcell & Hld & _).
    destruct (Hret r t' Hins) as [-> _].
    pose proof (Insert_inv t t' k v false Hinv Hins) as [Hinv' _].
    pose proof (Size_pow2 _ (ExtendibleHashTable.inv_dir _ _ _ _ _ _ Hinv)) as HS.
    pose proof (Size_pow2 _ (ExtendibleHashTable.inv_dir _ _ _ _ _ _ Hinv')) as HS'.
    pose proof (depth_le_31 _ (ExtendibleHashTable.inv_dir _ _ _ _ _ _ Hinv)) as HG31.
    exists t'. split; [exact Hins|]. split; [exact Hnext|]. split; [exact Hnew|].
    split; [exact Hld|]. fold i0 d in HG. split; [|split].
    + intros Hlt. destruct HG as [[HG _]|[_ HG]]; [exact HG | lia].
    + intros He. destruct HG as [[_ HG]|[HG _]]; [lia|]. split; [exact HG|].
      rewrite HS, HS', HG. apply Z.pow_succ_r. lia.
    + intros j Hj. rewrite HS' in Hj. apply (Hcell j Hj).
  - intros Hfull Hd HG.
    apply (proj1 (Insert_on_full_bucket t k v b Hinv Hb Hfull)). fold i0 d. lia.
Qed.

(** C5, as the code has it.  For a pair the table does not hold: when the
    bucket of the key is not full, [Insert] returns true and the pair is
    stored.  When it is full, with a local depth below the global depth or a
    global depth below [MAX_DEPTH], [SplitInsert] splits the bucket exactly
    once, on the hash bit at its local depth: the pool hands out one page,
    the local depth of the key's slot grows by one and the global depth by
    one if the two were equal; [Insert] returns true exactly when some key
    of the bucket differs from the new key in that bit, and the pair is then
    stored; otherwise the bucket of the key is full again, the pair is not
    stored and [Insert] returns false.  No pair is lost.  Without room for
    the directory to grow the call gives no state. *)
Theorem Insert_new_pair (ops : list operation) (t : HashTable)
    (k : KeyType) (v : ValueType) :
  run ops init = Some t -> ~ present t k v ->
  let d := ld (dir_page t) (KeyToDirectoryIndex k (dir_page t)) in
  exists b, bucket_pages t (KeyToPageId k (dir_page t)) = Some b
    /\ (IsFull b = false ->
        exists t', Insert t k v = Some (true, t') /\ present t' k v)
    /\ (IsFull b = true -> d < gd (dir_page t) \/ gd (dir_page t) < MAX_DEPTH ->
        exists r t', Insert t k v = Some (r, t')
          /\ next_page_id t' = next_page_id t + 1
          /\ ld (dir_page t') (KeyToDirectoryIndex k (dir_page t')) = d + 1
          /\ gd (dir_page t')
             = (if d <? gd (dir_page t) then gd (dir_page t) else gd (dir_page t) + 1)
          /\ (r = true <->
              exists s, (s < BUCKET_ARRAY_SIZE)%nat
                /\ Z.testbit (Hash (fst (slot b s))) d <> Z.testbit (Hash k) d)
          /\ (r = true -> present t' k v)
          /\ (r = false ->
              ~ present t' k v
              /\ exists b', bucket_pages t' (KeyToPageId k (dir_page t')) = Some b'
                   /\ IsFull b' = true)
          /\ (forall k' v',
                present t' k' v'
                <-> present t k' v' \/ (r = true /\ (k', v') = (k, v))))
    /\ (IsFull b = true -> d = gd (dir_page t) -> gd (dir_page t) = MAX_DEPTH ->
        Insert t k v = None).
Proof.
  intros Hrun Hnp d. pose proof (reachable_inv ops t Hrun) as Hinv.
  destruct (Insert_effect t k v Hinv) as (b & Hb & Hbinv & Hpres & _ & Hnew & _).
  exists b. split; [exact Hb|]. split; [|split].
  - intros Hnf. destruct (Hnew Hnf) as (t' & Hins & _ & _ & _ & Hin).
    + intros Hh. apply Hnp, Hpres, Hh.
    + exists t'. split; [exact Hins | exact Hin].
  - intros Hfull Hroom.
    destruct (proj2 (Insert_on_full_bucket t k v b Hinv Hb Hfull) Hroom)
      as (r & t' & Hins & Hnext & _ & HG & _ & Hld & Hfail & Hiff).
    destruct (Insert_inv t t' k v r Hinv Hins) as (_ & Hkeep & Hback & Hin & _).
    exists r, t'. split; [exact Hins|]. split; [exact Hnext|]. split; [exact Hld|].
    fold d in HG. split; [|split; [exact (Hiff Hnp)|split; [exact Hin|split]]].
    + destruct HG as [[HG Hlt]|[HG He]].
      * destruct (Z.ltb_spec d (gd (dir_page t))); [exact HG | lia].
      * destruct (Z.ltb_spec d (gd (dir_page t))); [lia | exact HG].
    + intros Hr. apply (Hfail Hr Hnp).
    + intros k' v'. split.
      * intros Hp'. destruct (Hback k' v' Hp') as [Hold|He]; [left; exact Hold|].
        destruct r; [right; split; [reflexivity | exact He]|].
        exfalso. injection He as -> ->. apply (proj1 (Hfail eq_refl Hnp) Hp').
      * intros [Hold|[Hr He]]; [apply Hkeep, Hold|].
        injection He as -> ->. apply Hin, Hr.
  - intros Hfull Hd HG.
    apply (proj1 (Insert_on_full_bucket t k v b Hinv Hb Hfull)). fold d. lia.
Qed.

(** *** What [GetValue], [Insert] and [Remove] do to the stored pairs *)

Local Abbreviation GetAllItem :=
  (BucketPage.GetAllItem BUCKET_ARRAY_SIZE default_key default_value).
Local Abbreviation RemoveAllItem_loop :=
  (ExtendibleHashTable.RemoveAllItem_loop BUCKET_ARRAY_SIZE cmp value_eq default_key
     default_value hash_fn shl_overflow).
Local Abbreviation RemoveAllItem :=
  (ExtendibleHashTable.RemoveAllItem BUCKET_ARRAY_SIZE cmp value_eq default_key
     default_value hash_fn shl_overflow).

Lemma Remove_effect (t : HashTable) (key : KeyType) (value : ValueType) :
  table_inv t ->
  exists r t', Remove t key value = Some (r, t') /\ table_inv t'
    /\ (r = true <-> present t key value)
    /\ (forall k v, present t' k v <-> present t k v /\ (k, v) <> (key, value))
    /\ gd (dir_page t') <= gd (dir_page t).
Proof.
  intros Hinv. destruct (table_inv_route t key Hinv) as (b & Hb & Hbinv).
  unfold ExtendibleHashTable.Remove, ExtendibleHashTable.Remove_in_bucket. cbv zeta.
  unfold ExtendibleHashTable.FetchBucketPage. rewrite Hb.
  destruct (bucket_Remove_parts BUCKET_ARRAY_SIZE cmp value_eq default_key default_value
              cmp_spec value_eq_spec b key value Hbinv) as (Hret & Hbinv' & Hpairs).
  destruct (bucket_Remove b key value) as [ret b'] eqn:Hrem. cbn [fst snd] in Hret, Hbinv', Hpairs.
  set (t1 := ExtendibleHashTable.put_bucket t (KeyToPageId key (dir_page t)) b').
  assert (Hinv1 : table_inv t1).
  { apply (table_inv_put_bucket t key b b' Hinv Hb Hbinv').
    intros k v Hh. left. apply Hpairs, Hh. }
  assert (Hpres : present t key value <-> holds b key value).
  { unfold ExtendibleHashTable.present. rewrite Hb. split.
    - intros (b1 & He & Hh). injection He as <-. exact Hh.
    - intros Hh. exists b. auto. }
  assert (Hpres1 : forall k v, present t1 k v <-> present t k v /\ (k, v) <> (key, value)).
  { intros k v. unfold t1. rewrite present_put_bucket. split.
    - intros [[He Hh]|[He Hp]].
      + apply Hpairs in Hh. destruct Hh as [Hh Hne]. split; [|exact Hne].
        exists b. rewrite He. auto.
      + split; [exact Hp|]. intros Hpair. injection Hpair as -> _. apply He. reflexivity.
    - intros [Hp Hne].
      destruct (Z.eq_dec (KeyToPageId k (dir_page t)) (KeyToPageId key (dir_page t)))
        as [He|He]; [left|right; auto].
      split; [exact He|]. apply Hpairs. split; [|exact Hne].
      destruct Hp as (b1 & Hb1 & Hh). rewrite He, Hb in Hb1. injection Hb1 as <-. exact Hh. }
  assert (Hr : ret = true <-> present t key value) by (rewrite Hpres; exact Hret).
  destruct (ret && IsEmpty b').
  - destruct (Merge_inv t1 key value Hinv1) as (t2 & Hrun2 & Hinv2 & Hkeep2 & Hback2 & Hgd2).
    rewrite Hrun2.
    pose proof (ExtendibleHashTable.inv_dir _ _ _ _ _ _ Hinv2) as Hdir2.
    pose proof (ExtendibleHashTable.local_depth_range _ _ Hdir2 _
                  (KeyToDirectoryIndex_range key _ Hdir2)) as Hd2.
    pose proof (depth_le_31 _ Hdir2) as HG2.
    destruct (ExtraMerge_loop_inv 257 t2 key value Hinv2 ltac:(lia))
      as (t3 & Hrun3 & Hinv3 & Hkeep3 & Hback3 & Hgd3 & _).
    rewrite Hrun3. exists ret, t3. split; [reflexivity|]. split; [exact Hinv3|].
    split; [exact Hr|]. split.
    + intros k v. rewrite <- Hpres1. split.
      * intros Hp. apply Hback2, Hback3, Hp.
      * intros Hp. apply Hkeep3, Hkeep2, Hp.
    + change (gd (dir_page t1)) with (gd (dir_page t)) in Hgd2. lia.
  - exists ret, t1. split; [reflexivity|]. split; [exact Hinv1|]. split; [exact Hr|].
    split; [exact Hpres1|]. cbn. lia.
Qed.

Lemma present_GetValue (t : HashTable) (key : KeyType) (result : list ValueType) :
  table_inv t ->
  exists vs,
    GetValue t key result
    = Some (match vs with [] => false | _ :: _ => true end, result ++ vs)
    /\ (forall v, In v vs <-> present t key v)
    /\ NoDup vs.
Proof.
  intros Hinv. destruct (table_inv_route t key Hinv) as (b & Hb & Hbinv).
  destruct (bucket_GetValue_parts BUCKET_ARRAY_SIZE cmp default_key default_value
              cmp_spec b key result Hbinv) as (vs & Hget & Hin & Hnd).
  exists vs. split; [|split; [|exact Hnd]].
  - unfold ExtendibleHashTable.GetValue. cbv zeta.
    unfold ExtendibleHashTable.FetchBucketPage. rewrite Hb, Hget. reflexivity.
  - intros v. rewrite Hin. unfold ExtendibleHashTable.present. rewrite Hb. split.
    + intros Hh. exists b. auto.
    + intros (b1 & He & Hh). injection He as <-. exact Hh.
Qed.


(** The pairs of the page of a slot are routed to that page. *)
Lemma page_routes (t : HashTable) (i : Z) (b : bucket) (k : KeyType) (v : ValueType) :
  table_inv t -> 0 <= i < 2 ^ gd (dir_page t) ->
  bucket_pages t (pid (dir_page t) i) = Some b -> holds b k v ->
  KeyToPageId k (dir_page t) = pid (dir_page t) i.
Proof.
  intros Hinv Hi Hb (s & Hs & Hr & Hslot). pose proof Hinv as [Hdir Hpages _].
  destruct (Hpages i Hi) as (b1 & Hb1 & _ & Hroute). rewrite Hb in Hb1. injection Hb1 as <-.
  specialize (Hroute s Hs Hr). rewrite Hslot in Hroute. cbn [fst] in Hroute.
  pose proof (ExtendibleHashTable.local_depth_range _ _ Hdir i Hi) as Hd.
  pose proof (KeyToDirectoryIndex_range k _ Hdir) as Hk.
  unfold ExtendibleHashTable.KeyToPageId, Directory.GetBucketPageId.
  apply cell_eq. apply (ExtendibleHashTable.same_class _ _ Hdir); auto.
  rewrite KeyToDirectoryIndex_low by (exact Hdir || lia). exact Hroute.
Qed.

Lemma RemoveAllItem_loop_effect (items : list (KeyType * ValueType)) (t : HashTable) :
  table_inv t ->
  exists t', RemoveAllItem_loop items t = Some t' /\ table_inv t'
    /\ (forall k v, present t' k v <-> present t k v /\ ~ In (k, v) items).
Proof.
  revert t. induction items as [|[key value] items IH]; intros t Hinv.
  - exists t. split; [reflexivity|]. split; [exact Hinv|]. intros k v. cbn. tauto.
  - cbn [ExtendibleHashTable.RemoveAllItem_loop fst snd].
    destruct (Remove_effect t key value Hinv) as (r & t1 & Hrem & Hinv1 & _ & Hpairs & _).
    rewrite Hrem. destruct (IH t1 Hinv1) as (t2 & Hrun & Hinv2 & Hrest).
    exists t2. split; [exact Hrun|]. split; [exact Hinv2|].
    intros k v. rewrite Hrest, Hpairs. cbn [In]. split.
    + intros [[Hp Hne] Hnot]. split; [exact Hp|]. intros [He|Hin]; [|exact (Hnot Hin)].
      apply Hne. symmetry. exact He.
    + intros [Hp Hnot]. split; [split; [exact Hp|]|].
      * intros He. apply Hnot. left. symmetry. exact He.
      * intros Hin. apply Hnot. right. exact Hin.
Qed.

Lemma SplitInsert_depth (t t' : HashTable) (key : KeyType) (value : ValueType) (r : bool) :
  table_inv t -> SplitInsert t key value = Some (r, t') ->
  gd (dir_page t) <= gd (dir_page t') <= gd (dir_page t) + 1.
Proof.
  intros Hinv Hrun. pose proof (ExtendibleHashTable.inv_dir _ _ _ _ _ _ Hinv) as Hdir.
  pose proof (KeyToDirectoryIndex_range key _ Hdir) as Hi0.
  unfold ExtendibleHashTable.SplitInsert in Hrun. cbv zeta in Hrun.
  destruct (ExtendibleHashTable.FetchBucketPage t _) as [b|]; [|discriminate].
  destruct (IsFull b); cbn [negb] in Hrun.
  - unfold ExtendibleHashTable.NewPage in Hrun.
    destruct (Z.lt_ge_cases (ld (dir_page t) (KeyToDirectoryIndex key (dir_page t)))
                (gd (dir_page t))) as [Hlt|Hge];
      [|destruct (Z.lt_ge_cases (gd (dir_page t)) MAX_DEPTH) as [Hlt|Hge']].
    3:{ rewrite (split_directory_overflow (dir_page t) _ _ _ Hdir Hi0) in Hrun;
          [discriminate|]. intros [H|H]; lia. }
    all: match goal with
         | H : _ < _ |- _ =>
             first [ destruct (split_directory_effect (dir_page t) _ (next_page_id t) Hdir Hi0
                                 (or_introl H)) as (dir' & Hsd & HG' & _)
                   | destruct (split_directory_effect (dir_page t) _ (next_page_id t) Hdir Hi0
                                 (or_intror H)) as (dir' & Hsd & HG' & _) ]
         end.
    all: unfold ExtendibleHashTable.KeyToPageId, Directory.GetBucketPageId in Hrun;
      rewrite Hsd in Hrun;
      destruct (ExtendibleHashTable.redistribute _ _ _ _ _ _ _ _ _ _ _ _ _)
        as [old' new'];
      destruct (_ =? _); destruct (BucketPage.Insert _ _ _ _ _ _ _ _) as [ret bF];
      injection Hrun as _ <-; cbn; destruct HG' as [[-> _]|[-> _]]; lia.
  - destruct (BucketPage.Insert _ _ _ _ _ _ _ _) as [ret bF].
    injection Hrun as _ <-. cbn. lia.
Qed.

Lemma Insert_depth (t t' : HashTable) (key : KeyType) (value : ValueType) (r : bool) :
  table_inv t -> Insert t key value = Some (r, t') ->
  gd (dir_page t) <= gd (dir_page t') <= gd (dir_page t) + 1.
Proof.
  intros Hinv Hrun. destruct (table_inv_route t key Hinv) as (b & Hb & Hbinv).
  unfold ExtendibleHashTable.Insert in Hrun. cbv zeta in Hrun.
  unfold ExtendibleHashTable.FetchBucketPage in Hrun. rewrite Hb in Hrun.
  destruct (bucket_Insert b key value) as [ret b'] eqn:Hins.
  destruct (negb ret && IsFull b') eqn:Hc.
  - apply andb_prop in Hc. destruct Hc as [Hret _]. apply negb_true_iff in Hret. subst ret.
    apply (Insert_false_same BUCKET_ARRAY_SIZE cmp value_eq default_key default_value) in Hins.
    subst b'.
    apply (SplitInsert_depth _ t' key value r) in Hrun; [exact Hrun|].
    apply (same_state_table_inv t); [apply same_state_put_bucket, Hb | exact Hinv].
  - injection Hrun as _ <-. cbn. lia.
Qed.

(** The table's [GetValue(key)] on a state the table reaches: the page of
    the key is in the pool, the values stored under the key are appended to
    [result], each once, and the result is true exactly when there is one. *)
Theorem table_GetValue_spec (ops : list operation) (t : HashTable) (key : KeyType)
    (result : list ValueType) :
  run ops init = Some t ->
  exists vs,
    GetValue t key result
    = Some (match vs with [] => false | _ :: _ => true end, result ++ vs)
    /\ (forall v, In v vs <-> present t key v)
    /\ NoDup vs.
Proof.
  intros Hrun. apply present_GetValue, (reachable_inv ops t Hrun).
Qed.

(** The table's [Remove(key, value)] on a state the table reaches: it
    returns (the loop on [ExtraMerge] ends), its result is true exactly when
    the pair was stored, and afterwards the table stores the pairs it stored
    except that one, whatever buckets were merged. *)
Theorem table_Remove_spec (ops : list operation) (t : HashTable) (key : KeyType)
    (value : ValueType) :
  run ops init = Some t ->
  exists r t', Remove t key value = Some (r, t')
    /\ (r = true <-> present t key value)
    /\ (forall k v, present t' k v <-> present t k v /\ (k, v) <> (key, value)).
Proof.
  intros Hrun.
  destruct (Remove_effect t key value (reachable_inv ops t Hrun))
    as (r & t' & Hrem & _ & Hr & Hpairs & _).
  exists r, t'. auto.
Qed.


(** [Insert(key, value)] loses no stored pair, also when it splits a bucket
    and moves entries to the new page; it adds no pair but [(key, value)];
    and when it returns true the pair is stored and was not stored before. *)
Theorem Insert_keeps_pairs (ops : list operation) (t t' : HashTable) (key : KeyType)
    (value : ValueType) (r : bool) :
  run ops init = Some t ->
  Insert t key value = Some (r, t') ->
  (forall k v, present t k v -> present t' k v)
  /\ (forall k v, present t' k v -> present t k v \/ (k, v) = (key, value))
  /\ (r = true -> present t' key value /\ ~ present t key value).
Proof.
  intros Hrun Hins.
  destruct (Insert_inv t t' key value r (reachable_inv ops t Hrun) Hins)
    as (_ & Hkeep & Hback & Hin & Hdup).
  split; [exact Hkeep|]. split; [exact Hback|].
  intros Hr. split; [apply Hin, Hr|]. intros Hp. rewrite (Hdup Hp) in Hr. discriminate.
Qed.

(** The loop [while (ExtraMerge(...)) {}] of [Remove] ends: from a state
    the table reaches, with [d] the local depth of the key's bucket, [d + 1]
    calls suffice, every call that returns true having lowered that local
    depth; it ends in a state in which [ExtraMerge] returns false and
    changes nothing, with the same stored pairs and a global depth that has
    not grown. *)
Theorem ExtraMerge_loop_terminates (ops : list operation) (t : HashTable) (key : KeyType)
    (value : ValueType) (fuel : nat) :
  run ops init = Some t ->
  ld (dir_page t) (KeyToDirectoryIndex key (dir_page t)) < Z.of_nat fuel ->
  exists t', ExtraMerge_loop fuel t key value = Some t'
    /\ ExtraMerge t' key value = Some (false, t')
    /\ (forall k v, present t' k v <-> present t k v)
    /\ ExtendibleHashTable.GetGlobalDepth t' <= ExtendibleHashTable.GetGlobalDepth t.
Proof.
  intros Hrun Hfuel. pose proof (reachable_inv ops t Hrun) as Hinv.
  pose proof (ExtendibleHashTable.inv_dir _ _ _ _ _ _ Hinv) as Hdir.
  pose proof (ExtendibleHashTable.local_depth_range _ _ Hdir _
                (KeyToDirectoryIndex_range key _ Hdir)) as Hd.
  destruct (ExtraMerge_loop_inv fuel t key value Hinv ltac:(lia))
    as (t' & Hloop & _ & Hkeep & Hback & Hgd & Hend).
  exists t'. split; [exact Hloop|]. split; [exact Hend|]. split; [|exact Hgd].
  intros k v. split; [apply Hback | apply Hkeep].
Qed.

(** In a state the table reaches no directory slot dangles: the index of
    every key lies in the directory, the page of every slot is in the pool
    (also after [Merge] and [ExtraMerge] have deleted pages) under an id the
    pool has handed out, and every pair of that page is routed to it. *)
Theorem directory_pages_live (ops : list operation) (t : HashTable) :
  run ops init = Some t ->
  (forall key, 0 <= KeyToDirectoryIndex key (dir_page t) < dir_Size (dir_page t))
  /\ (forall i, 0 <= i < dir_Size (dir_page t) ->
        exists b,
          ExtendibleHashTable.FetchBucketPage t (Directory.GetBucketPageId (dir_page t) i)
          = Some b
          /\ Directory.GetBucketPageId (dir_page t) i < next_page_id t
          /\ forall k v, holds b k v ->
               KeyToPageId k (dir_page t) = Directory.GetBucketPageId (dir_page t) i).
Proof.
  intros Hrun. pose proof (reachable_inv ops t Hrun) as Hinv.
  pose proof Hinv as [Hdir Hpages Hfresh].
  rewrite (Size_pow2 _ Hdir). split.
  - intros key. apply KeyToDirectoryIndex_range, Hdir.
  - intros i Hi. destruct (Hpages i Hi) as (b & Hb & _ & _).
    exists b. split; [exact Hb|]. split; [apply Hfresh, Hi|].
    intros k v Hh. apply (page_routes t i b k v Hinv Hi Hb Hh).
Qed.

(** A new table: the global depth is 0, [GetValue] of any key returns false
    and leaves [result] as it is, and [Remove] of any pair returns false and
    leaves the state as it is. *)
Theorem new_table_is_empty (key : KeyType) (value : ValueType) (result : list ValueType) :
  ExtendibleHashTable.GetGlobalDepth init = 0
  /\ GetValue init key result = Some (false, result)
  /\ exists t', Remove init key value = Some (false, t')
       /\ ExtendibleHashTable.same_state init t'.
Proof.
  pose proof table_inv_init as Hinv.
  destruct (table_inv_route init key Hinv) as (b & Hb & Hbinv).
  assert (Hzero : b = zero_page).
  { cbn in Hb. destruct (_ =? 1); [|discriminate]. injection Hb as <-. reflexivity. }
  subst b.
  split; [reflexivity|]. split.
  - destruct (present_GetValue init key result Hinv) as (vs & Hget & Hin & _).
    destruct vs as [|v vs].
    + rewrite Hget, app_nil_r. reflexivity.
    + exfalso. destruct (proj1 (Hin v) (or_introl eq_refl)) as (b1 & Hb1 & Hh).
      rewrite Hb in Hb1. injection Hb1 as <-.
      apply (not_holds_zero_page BUCKET_ARRAY_SIZE default_key default_value _ _ Hh).
  - unfold ExtendibleHashTable.Remove, ExtendibleHashTable.Remove_in_bucket. cbv zeta.
    unfold ExtendibleHashTable.FetchBucketPage. rewrite Hb.
    rewrite (proj2 (Remove_result BUCKET_ARRAY_SIZE cmp value_eq default_key default_value
                      cmp_spec value_eq_spec zero_page key value Hbinv)
               (not_holds_zero_page BUCKET_ARRAY_SIZE default_key default_value key value)).
    cbn [andb]. eexists. split; [reflexivity|]. apply same_state_put_bucket, Hb.
Qed.

(** [RemoveAllItem(bucket_idx)] on a slot of the directory, in a state the
    table reaches: it returns, and afterwards the table stores the pairs it
    stored except those of the page of that slot. *)
Theorem RemoveAllItem_spec (ops : list operation) (t : HashTable) (bucket_idx : Z) :
  run ops init = Some t ->
  0 <= bucket_idx < dir_Size (dir_page t) ->
  exists b t',
    ExtendibleHashTable.FetchBucketPage t (Directory.GetBucketPageId (dir_page t) bucket_idx)
    = Some b
    /\ RemoveAllItem t bucket_idx = Some t'
    /\ (forall k v, holds b k v -> present t k v)
    /\ (forall k v, present t' k v <-> present t k v /\ ~ holds b k v).
Proof.
  intros Hrun Hi. pose proof (reachable_inv ops t Hrun) as Hinv.
  pose proof Hinv as [Hdir Hpages _]. rewrite (Size_pow2 _ Hdir) in Hi.
  destruct (Hpages bucket_idx Hi) as (b & Hb & _ & _).
  destruct (RemoveAllItem_loop_effect (GetAllItem b) t Hinv) as (t' & Hloop & _ & Hpairs).
  exists b, t'. split; [exact Hb|]. split; [|split].
  - unfold ExtendibleHashTable.RemoveAllItem. cbv zeta.
    unfold ExtendibleHashTable.FetchBucketPage, Directory.GetBucketPageId.
    rewrite Hb. exact Hloop.
  - intros k v Hh. exists b. split; [|exact Hh].
    rewrite (page_routes t bucket_idx b k v Hinv Hi Hb Hh). exact Hb.
  - intros k v. rewrite Hpairs.
    rewrite (GetAllItem_In BUCKET_ARRAY_SIZE default_key default_value b k v). reflexivity.
Qed.

(** An [Insert] that returns raises the global depth by one when the
    bucket of the key is full and its local depth is the global depth, and
    leaves it as it is otherwise; a [Remove] never raises it. *)
Theorem GetGlobalDepth_steps (ops : list operation) (t : HashTable) :
  run ops init = Some t ->
  (forall key value r t', Insert t key value = Some (r, t') ->
     exists b, bucket_pages t (KeyToPageId key (dir_page t)) = Some b
       /\ ExtendibleHashTable.GetGlobalDepth t'
          = if IsFull b
               && (ld (dir_page t) (KeyToDirectoryIndex key (dir_page t))
                   =? ExtendibleHashTable.GetGlobalDepth t)
            then ExtendibleHashTable.GetGlobalDepth t + 1
            else ExtendibleHashTable.GetGlobalDepth t)
  /\ (forall key value r t', Remove t key value = Some (r, t') ->
        ExtendibleHashTable.GetGlobalDepth t' <= ExtendibleHashTable.GetGlobalDepth t).
Proof.
  intros Hrun. pose proof (reachable_inv ops t Hrun) as Hinv.
  split.
  - intros key value r t' Hins. destruct (table_inv_route t key Hinv) as (b & Hb & Hbinv).
    exists b. split; [exact Hb|].
    unfold ExtendibleHashTable.GetGlobalDepth, Directory.GetGlobalDepth.
    destruct (IsFull b) eqn:Hfull; cbn [andb].
    + destruct (Insert_on_full_bucket t key value b Hinv Hb Hfull) as [Hnone Hsome].
      assert (Hroom : ld (dir_page t) (KeyToDirectoryIndex key (dir_page t)) < gd (dir_page t)
                      \/ gd (dir_page t) < MAX_DEPTH).
      { destruct (Z.lt_ge_cases (ld (dir_page t) (KeyToDirectoryIndex key (dir_page t)))
                    (gd (dir_page t))) as [Hlt|Hge]; [left; exact Hlt|].
        destruct (Z.lt_ge_cases (gd (dir_page t)) MAX_DEPTH) as [Hlt|Hge'];
          [right; exact Hlt|].
        exfalso. rewrite Hnone in Hins; [discriminate|]. intros [H|H]; lia. }
      destruct (Hsome Hroom) as (r1 & t1 & Hins1 & _ & _ & HG & _).
      rewrite Hins in Hins1. injection Hins1 as <- <-.
      destruct (Z.eqb_spec (ld (dir_page t) (KeyToDirectoryIndex key (dir_page t)))
                  (gd (dir_page t))) as [He|Hne];
        destruct HG as [[HG Hlt]|[HG He']]; try exact HG; lia.
    + unfold ExtendibleHashTable.Insert in Hins. cbv zeta in Hins.
      unfold ExtendibleHashTable.FetchBucketPage in Hins. rewrite Hb in Hins.
      destruct (bucket_Insert b key value) as [ret b'] eqn:Hb'.
      destruct (negb ret && IsFull b') eqn:Hc.
      * apply andb_prop in Hc. destruct Hc as [Hret Hf].
        apply negb_true_iff in Hret. subst ret.
        apply (Insert_false_same BUCKET_ARRAY_SIZE cmp value_eq default_key default_value)
          in Hb'.
        subst b'. congruence.
      * injection Hins as _ <-. reflexivity.
  - intros key value r t' Hrem.
    destruct (Remove_effect t key value Hinv) as (r1 & t1 & Hrem1 & _ & _ & _ & Hgd).
    rewrite Hrem in Hrem1. injection Hrem1 as <- <-. exact Hgd.
Qed.

(** [Insert(key, value)] that returns true followed by [Remove(key, value)]:
    the removal returns true and the table stores the pairs it stored before
    the two calls. *)
Theorem Insert_then_Remove (ops : list operation) (t t1 : HashTable) (key : KeyType)
    (value : ValueType) :
  run ops init = Some t ->
  Insert t key value = Some (true, t1) ->
  exists t2, Remove t1 key value = Some (true, t2)
    /\ (forall k v, present t2 k v <-> present t k v).
Proof.
  intros Hrun Hins.
  destruct (Insert_inv t t1 key value true (reachable_inv ops t Hrun) Hins)
    as (Hinv1 & Hkeep & Hback & Hin & Hdup).
  destruct (Remove_effect t1 key value Hinv1) as (r & t2 & Hrem & _ & Hr & Hpairs & _).
  assert (r = true) as -> by (apply Hr, Hin; reflexivity).
  exists t2. split; [exact Hrem|]. intros k v. rewrite Hpairs. split.
  - intros [Hp Hne]. destruct (Hback k v Hp) as [Hold|He]; [exact Hold | contradiction].
  - intros Hp. split; [apply Hkeep, Hp|]. intros He. injection He as -> ->.
    specialize (Hdup Hp). discriminate.
Qed.

End Reachable.

End TableInvariant.

(** ** The instantiation *)

Lemma IntComparator_spec (a b : Z) : IntTable.IntComparator a b = 0 <-> a = b.
Proof.
  unfold IntTable.IntComparator.
  destruct (Z.ltb_spec a b); [split; [discriminate | lia]|].
  destruct (Z.ltb_spec b a); [split; [discriminate | lia]|].
  split; [lia | reflexivity].
Qed.

Lemma IntTable_MAX_DEPTH_le : IntTable.MAX_DEPTH <= 31.
Proof. discriminate. Qed.

Lemma IntTable_MAX_DEPTH_nonneg : 0 <= IntTable.MAX_DEPTH.
Proof. discriminate. Qed.

Lemma run_after (ops : list IntTable.operation) :
  IntTable.run ops IntTable.init <> None ->
  IntTable.run ops IntTable.init = Some (IntTable.after ops).
Proof.
  unfold IntTable.after. destruct (IntTable.run ops IntTable.init); [reflexivity|].
  intros H. exfalso. apply H. reflexivity.
Qed.

Lemma call_state (t : IntTable.HashTable) (r : option (bool * IntTable.HashTable))
    (b : bool) :
  option_map fst r = Some b -> r = Some (b, IntTable.state_of t r).
Proof.
  destruct r as [[b' t']|]; cbn; [|discriminate]. intros H. injection H as ->. reflexivity.
Qed.

Lemma bucket_inv_filled (n : nat) :
  BucketPage.bucket_inv IntTable.BUCKET_ARRAY_SIZE 0 0 (IntTable.filled n).
Proof.
  induction n as [|n IH]; cbn [IntTable.filled].
  - apply bucket_inv_zero_page.
  - apply (bucket_inv_Insert _ _ _ _ _ IntComparator_spec Z.eqb_eq), IH.
Qed.

(** [Insert(1, 1)] on the page that holds the keys 0, 1 and 2 finds the
    pair in slot 1. *)
Lemma Insert_spec_witness :
  IntTable.bucket_Insert (IntTable.filled 3) 1 1 = (false, IntTable.filled 3).
Proof.
  pose proof (bucket_inv_filled 3) as Hinv.
  destruct (Insert_spec IntTable.BUCKET_ARRAY_SIZE IntTable.IntComparator Z.eqb 0 0
              (IntTable.filled 3) 1 1
              (BucketPage.inv_wf _ _ _ _ Hinv)
              (BucketPage.inv_readable_occupied _ _ _ _ Hinv)) as (Hdup & _ & _).
  apply Hdup. exists 1%nat. split; [|vm_compute; reflexivity].
  split; [vm_compute; lia|].
  intros j Hj. assert (j = 0%nat) as -> by lia. vm_compute. reflexivity.
Defined.

(** With 252 slots, the capacity for 8-byte keys, the last byte of the
    bitmap has four bits in use. *)
Lemma IsFull_iff_all_readable_witness :
  let b := snd (BucketPage.Insert 252 IntTable.IntComparator Z.eqb 0 0
                  (BucketPage.zero_page 252 0 0) 5 5) in
  (BucketPage.IsFull 252 b = true <->
   forall i, (i < 252)%nat -> BucketPage.IsReadable b i = true)
  /\ (BucketPage.IsFull 252 b = true <->
      (forall j, (j < 252 / 8)%nat -> nth j (BucketPage.readable_ b) 0 = to_char 255)
      /\ ((252 mod 8 <> 0)%nat ->
          nth ((252 - 1) / 8) (BucketPage.readable_ b) 0
          = Z.shiftl 1 (Z.of_nat (252 mod 8)) - 1)).
Proof.
  intros b.
  assert (Hinv : BucketPage.bucket_inv 252 0 0 b).
  { apply (bucket_inv_Insert _ _ _ _ _ IntComparator_spec Z.eqb_eq).
    apply bucket_inv_zero_page. }
  apply (IsFull_iff_all_readable 252 b (BucketPage.inv_wf _ _ _ _ Hinv)).
  intros i Hi. apply (BucketPage.inv_tail _ _ _ _ Hinv). lia.
Defined.

(** C9.  [NumReadable] on the page that holds the eight keys 0 .. 7, whose
    first bitmap byte is [0xff]: the byte is read as the [int] -1, the loop
    clears its 32 bits, and the result is 32 while 8 slots are readable. *)
Theorem NumReadable_sign_extension :
  nth 0 (BucketPage.readable_ (IntTable.filled 8)) 0 = to_char 255
  /\ BucketPage.count_readable IntTable.BUCKET_ARRAY_SIZE (IntTable.filled 8) = 8%nat
  /\ BucketPage.NumReadable IntTable.BUCKET_ARRAY_SIZE (IntTable.filled 8) = Some 32.
Proof.
  split; [|split]; vm_compute; reflexivity.
Qed.

(** C10.  On a new table, [Insert(1, 1)] and then [Remove(1, 1)]: the
    removal empties the bucket, so [Remove] calls [Merge], the local depth
    of the bucket is 0, and the shift amount [local_depth - 1] is
    [2^32 - 1]. *)
Theorem Merge_shift_amount_overflow :
  exists b t,
    IntTable.Remove_in_bucket (IntTable.after [ExtendibleHashTable.OpInsert 1 1]) 1 1
    = Some (true, b, t)
    /\ BucketPage.IsEmpty IntTable.BUCKET_ARRAY_SIZE b = true
    /\ Directory.GetLocalDepth (ExtendibleHashTable.dir_page t)
         (ExtendibleHashTable.KeyToDirectoryIndex IntTable.hash_fn IntTable.shl_overflow 1
            (ExtendibleHashTable.dir_page t)) = 0
    /\ ExtendibleHashTable.Merge_shift_amount IntTable.hash_fn IntTable.shl_overflow
         (ExtendibleHashTable.dir_page t) 1 = 4294967295.
Proof.
  eexists. eexists. split; [vm_compute; reflexivity|].
  split; [|split]; vm_compute; reflexivity.
Qed.

(** The keys 0 .. 56 split the first bucket; after [Remove(3, 3)] the
    directory satisfies the invariants. *)
Lemma directory_invariants_preserved_witness :
  ExtendibleHashTable.directory_invariants IntTable.shl_overflow
    (ExtendibleHashTable.dir_page
       (IntTable.after (IntTable.inserts 57 0 1 ++ [ExtendibleHashTable.OpRemove 3 3]))).
Proof.
  refine (proj1 (directory_invariants_preserved IntTable.BUCKET_ARRAY_SIZE
                   IntTable.IntComparator Z.eqb 0 0 IntTable.hash_fn IntTable.MAX_DEPTH
                   IntTable.shl_overflow IntTable_MAX_DEPTH_le IntComparator_spec Z.eqb_eq
                   IntTable_MAX_DEPTH_nonneg
                   (IntTable.inserts 57 0 1 ++ [ExtendibleHashTable.OpRemove 3 3]) _ _)).
  apply run_after. vm_compute. discriminate.
Defined.


(** With the keys 0, 1 and 2 stored, [Insert(1, 1)] returns false and
    leaves the state as it is. *)
Lemma Insert_duplicate_witness :
  exists t',
    IntTable.Insert (IntTable.after (IntTable.inserts 3 0 1)) 1 1 = Some (false, t')
    /\ ExtendibleHashTable.same_state (IntTable.after (IntTable.inserts 3 0 1)) t'.
Proof.
  destruct (Insert_duplicate IntTable.BUCKET_ARRAY_SIZE
              IntTable.IntComparator Z.eqb 0 0 IntTable.hash_fn IntTable.MAX_DEPTH
              IntTable.shl_overflow IntTable_MAX_DEPTH_le IntComparator_spec Z.eqb_eq
              IntTable_MAX_DEPTH_nonneg
              (IntTable.inserts 3 0 1) (IntTable.after (IntTable.inserts 3 0 1)) 1 1)
    as (b & Hb & _ & Hsame & _).
  - apply run_after. vm_compute. discriminate.
  - exists (IntTable.filled 3). split; [vm_compute; reflexivity|].
    exists 1%nat. split; [vm_compute; lia|]. split; vm_compute; reflexivity.
  - apply Hsame. vm_compute in Hb. injection Hb as <-. vm_compute. reflexivity.
Defined.

(** With the keys 0, 1 and 2 stored, [Insert(9, 9)] returns true and the
    pair is stored. *)
Lemma Insert_new_pair_witness :
  exists t',
    IntTable.Insert (IntTable.after (IntTable.inserts 3 0 1)) 9 9 = Some (true, t')
    /\ ExtendibleHashTable.present IntTable.BUCKET_ARRAY_SIZE 0 0 IntTable.hash_fn
         IntTable.shl_overflow t' 9 9.
Proof.
  destruct (Insert_new_pair IntTable.BUCKET_ARRAY_SIZE
              IntTable.IntComparator Z.eqb 0 0 IntTable.hash_fn IntTable.MAX_DEPTH
              IntTable.shl_overflow IntTable_MAX_DEPTH_le IntComparator_spec Z.eqb_eq
              IntTable_MAX_DEPTH_nonneg
              (IntTable.inserts 3 0 1) (IntTable.after (IntTable.inserts 3 0 1)) 9 9)
    as (b & Hb & Hnew & _).
  - apply run_after. vm_compute. discriminate.
  - intros (b & Hb & Hh). vm_compute in Hb. injection Hb as <-.
    destruct (Insert_holds IntTable.BUCKET_ARRAY_SIZE IntTable.IntComparator Z.eqb 0 0
                IntComparator_spec Z.eqb_eq _ 9 9 (bucket_inv_filled 3)) as (Hdup & _).
    specialize (Hdup Hh). vm_compute in Hdup. discriminate Hdup.
  - apply Hnew. vm_compute in Hb. injection Hb as <-. vm_compute. reflexivity.
Defined.

(** In the state in which [Remove(55, 55)] calls it, [Merge] deletes the
    page of the odd keys. *)
Lemma Merge_spec_witness :
  exists t',
    IntTable.Merge IntTable.before_merge 55 55 = Some t'
    /\ ExtendibleHashTable.bucket_pages t' (IntTable.KeyToPageId 55 IntTable.before_merge)
       = None.
Proof.
  destruct (Merge_spec IntTable.BUCKET_ARRAY_SIZE IntTable.hash_fn IntTable.shl_overflow
              IntTable.before_merge 55 55 (IntTable.page_of IntTable.before_merge 55))
    as (t' & Hrun & _ & Hmerge).
  - vm_compute. discriminate.
  - vm_compute. reflexivity.
  - exists t'. split; [exact Hrun|].
    apply Hmerge; vm_compute; [discriminate | reflexivity | reflexivity].
Defined.

(** In the same state, [ExtraMerge] for the key 0 finds the page of the
    odd keys empty at the local depth of its own bucket, and returns true. *)
Lemma ExtraMerge_spec_witness :
  exists t',
    IntTable.ExtraMerge IntTable.before_merge 0 0 = Some (true, t').
Proof.
  destruct (ExtraMerge_spec IntTable.BUCKET_ARRAY_SIZE IntTable.hash_fn
              IntTable.shl_overflow IntTable.before_merge 0 0
              (IntTable.page_of IntTable.before_merge 55))
    as (r & t' & Hrun & Hr & _).
  - intros _. vm_compute. reflexivity.
  - exists t'. unfold IntTable.ExtraMerge. rewrite Hrun. f_equal. f_equal. apply Hr.
    split; [vm_compute; reflexivity|]. split; vm_compute; reflexivity.
Defined.


(** C4 fails on a full bucket.  The 56 pairs (0, 0), ..., (55, 55) fill the
    first bucket, so the table holds (0, 0); [Insert(0, 0)] returns false
    and the global depth goes from 0 to 1. *)
Lemma Insert_duplicate_splits_full_bucket :
  IntTable.run (IntTable.inserts 56 0 1) IntTable.init
  = Some (IntTable.after (IntTable.inserts 56 0 1))
  /\ IntTable.GetValue (IntTable.after (IntTable.inserts 56 0 1)) 0 [] = Some (true, [0])
  /\ IntTable.GetGlobalDepth (IntTable.after (IntTable.inserts 56 0 1)) = 0
  /\ exists t',
       IntTable.Insert (IntTable.after (IntTable.inserts 56 0 1)) 0 0 = Some (false, t')
       /\ IntTable.GetGlobalDepth t' = 1.
Proof.
  split; [apply run_after; vm_compute; discriminate|].
  split; [vm_compute; reflexivity|]. split; [vm_compute; reflexivity|].
  eexists. split; [apply (call_state IntTable.init); vm_compute; reflexivity|].
  vm_compute. reflexivity.
Qed.

(** C5 fails when the keys of a full bucket agree with the new key on the
    hash bit of the split.  With the 56 pairs (0, 0), (2, 2), ..., (110, 110)
    stored, the table does not hold (112, 112), and [Insert(112, 112)]
    returns false after one split. *)
Lemma Insert_new_pair_returns_false :
  IntTable.run (IntTable.inserts 56 0 2) IntTable.init
  = Some (IntTable.after (IntTable.inserts 56 0 2))
  /\ IntTable.GetValue (IntTable.after (IntTable.inserts 56 0 2)) 112 [] = Some (false, [])
  /\ exists t',
       IntTable.Insert (IntTable.after (IntTable.inserts 56 0 2)) 112 112 = Some (false, t')
       /\ IntTable.GetGlobalDepth t' = 1.
Proof.
  split; [apply run_after; vm_compute; discriminate|].
  split; [vm_compute; reflexivity|].
  eexists. split; [apply (call_state IntTable.init); vm_compute; reflexivity|].
  vm_compute. reflexivity.
Qed.

(** C2 fails once the directory fills its arrays.  The 56 pairs (0, 0),
    (1024, 1024), ..., (56320, 56320) fill the first bucket, and nine calls
    [Insert(57344, 57344)] split it nine times on hash bits the keys share:
    the global depth is [MAX_DEPTH] = 9, all 512 slots of the directory are
    in use, and the bucket of the key 57344 is full at the local depth 9.
    One more [Insert(57344, 57344)] reaches [IncrGlobalDepth] in
    [SplitInsert]: the directory would have 1024 slots, and the call, like
    the whole sequence, gives no state. *)
Lemma Insert_beyond_directory_capacity :
  IntTable.run IntTable.at_MAX_DEPTH IntTable.init
  = Some (IntTable.after IntTable.at_MAX_DEPTH)
  /\ IntTable.GetGlobalDepth (IntTable.after IntTable.at_MAX_DEPTH) = IntTable.MAX_DEPTH
  /\ Directory.Size IntTable.shl_overflow
       (ExtendibleHashTable.dir_page (IntTable.after IntTable.at_MAX_DEPTH)) = 512
  /\ ExtendibleHashTable.beyond_MAX_DEPTH IntTable.BUCKET_ARRAY_SIZE IntTable.hash_fn
       IntTable.MAX_DEPTH IntTable.shl_overflow (IntTable.after IntTable.at_MAX_DEPTH) 57344
  /\ Directory.Size IntTable.shl_overflow
       (Directory.IncrGlobalDepth
          (ExtendibleHashTable.dir_page (IntTable.after IntTable.at_MAX_DEPTH))) = 1024
  /\ IntTable.Insert (IntTable.after IntTable.at_MAX_DEPTH) 57344 57344 = None
  /\ IntTable.run (IntTable.at_MAX_DEPTH ++ [ExtendibleHashTable.OpInsert 57344 57344])
       IntTable.init = None.
Proof.
  split; [apply run_after; vm_compute; discriminate|].
  split; [vm_compute; reflexivity|]. split; [vm_compute; reflexivity|].
  split; [|split; [vm_compute; reflexivity|split; vm_compute; reflexivity]].
  exists (IntTable.page_of (IntTable.after IntTable.at_MAX_DEPTH) 57344).
  split; [vm_compute; reflexivity|]. split; [vm_compute; reflexivity|].
  split; vm_compute; reflexivity.
Qed.

(** ** The operations on the pairs, in the instantiation *)

(** The operations at the types and constants of [IntTable]. *)
Local Abbreviation int_run :=
  (ExtendibleHashTable.run IntTable.BUCKET_ARRAY_SIZE IntTable.IntComparator Z.eqb 0 0
     IntTable.hash_fn IntTable.MAX_DEPTH IntTable.shl_overflow).
Local Abbreviation int_init :=
  (@ExtendibleHashTable.init IntTable.BUCKET_ARRAY_SIZE Z Z 0 0).
Local Abbreviation int_Insert :=
  (ExtendibleHashTable.Insert IntTable.BUCKET_ARRAY_SIZE IntTable.IntComparator Z.eqb 0 0
     IntTable.hash_fn IntTable.MAX_DEPTH IntTable.shl_overflow).
Local Abbreviation int_Remove :=
  (ExtendibleHashTable.Remove IntTable.BUCKET_ARRAY_SIZE IntTable.IntComparator Z.eqb 0 0
     IntTable.hash_fn IntTable.shl_overflow).
Local Abbreviation int_GetValue :=
  (ExtendibleHashTable.GetValue IntTable.BUCKET_ARRAY_SIZE IntTable.IntComparator 0 0
     IntTable.hash_fn IntTable.shl_overflow).
Local Abbreviation int_ExtraMerge :=
  (@ExtendibleHashTable.ExtraMerge IntTable.BUCKET_ARRAY_SIZE Z Z IntTable.hash_fn
     IntTable.shl_overflow).
Local Abbreviation int_ExtraMerge_loop :=
  (@ExtendibleHashTable.ExtraMerge_loop IntTable.BUCKET_ARRAY_SIZE Z Z IntTable.hash_fn
     IntTable.shl_overflow).
Local Abbreviation int_RemoveAllItem :=
  (ExtendibleHashTable.RemoveAllItem IntTable.BUCKET_ARRAY_SIZE IntTable.IntComparator
     Z.eqb 0 0 IntTable.hash_fn IntTable.shl_overflow).
Local Abbreviation int_present :=
  (ExtendibleHashTable.present IntTable.BUCKET_ARRAY_SIZE 0 0 IntTable.hash_fn
     IntTable.shl_overflow).
Local Abbreviation int_KeyToPageId :=
  (ExtendibleHashTable.KeyToPageId IntTable.hash_fn IntTable.shl_overflow).
Local Abbreviation int_holds := (BucketPage.holds IntTable.BUCKET_ARRAY_SIZE 0 0).
Local Abbreviation int_bucket_Insert :=
  (BucketPage.Insert IntTable.BUCKET_ARRAY_SIZE IntTable.IntComparator Z.eqb 0 0).
Local Abbreviation int_bucket_Remove :=
  (BucketPage.Remove IntTable.BUCKET_ARRAY_SIZE IntTable.IntComparator Z.eqb 0 0).
Local Abbreviation int_bucket_GetValue :=
  (BucketPage.GetValue IntTable.BUCKET_ARRAY_SIZE IntTable.IntComparator 0 0).

Lemma run_after_full (ops : list IntTable.operation) :
  match int_run ops int_init with Some _ => true | None => false end = true ->
  int_run ops int_init = Some (IntTable.after ops).
Proof.
  unfold IntTable.after, IntTable.run, IntTable.init.
  destruct (int_run ops int_init); [reflexivity | discriminate].
Qed.


Lemma holds_filled (n k : nat) :
  (k < n <= IntTable.BUCKET_ARRAY_SIZE)%nat ->
  int_holds (IntTable.filled n) (Z.of_nat k) (Z.of_nat k).
Proof.
  intros Hk. induction n as [|n IH]; [lia|]. cbn [IntTable.filled].
  destruct (Nat.eq_dec k n) as [->|Hne].
  - apply (Insert_stores IntTable.BUCKET_ARRAY_SIZE IntTable.IntComparator Z.eqb 0 0
             IntComparator_spec Z.eqb_eq _ _ _ (bucket_inv_filled n)).
    apply (IsFull_false IntTable.BUCKET_ARRAY_SIZE 0 0 _ (bucket_inv_filled n)).
    clear IH. destruct Hk as [_ Hn].
    do 56 (destruct n as [|n]; [vm_compute; reflexivity|]).
    exfalso. unfold IntTable.BUCKET_ARRAY_SIZE in Hn. lia.
  - unfold IntTable.holds, IntTable.bucket_Insert.
    apply Insert_preserves_holds; [apply bucket_inv_filled | apply IH; lia].
Qed.

(** [GetValue(1)] on the page that holds the keys 0, 1 and 2. *)
Lemma bucket_GetValue_spec_witness :
  int_bucket_GetValue (IntTable.filled 3) 1 [7] = (true, [7; 1])
  /\ (forall v, In v [1] <-> int_holds (IntTable.filled 3) 1 v)
  /\ NoDup [1].
Proof.
  exact (bucket_GetValue_spec IntTable.BUCKET_ARRAY_SIZE IntTable.IntComparator 0 0
           IntComparator_spec (IntTable.filled 3) 1 [7] (bucket_inv_filled 3)).
Defined.

(** [Remove(1, 1)] on the page that holds the keys 0, 1 and 2 returns true. *)
Lemma bucket_Remove_spec_witness :
  fst (int_bucket_Remove (IntTable.filled 3) 1 1) = true.
Proof.
  apply (bucket_Remove_spec IntTable.BUCKET_ARRAY_SIZE IntTable.IntComparator Z.eqb 0 0
           IntComparator_spec Z.eqb_eq (IntTable.filled 3) 1 1 (bucket_inv_filled 3)).
  apply (holds_filled 3 1). unfold IntTable.BUCKET_ARRAY_SIZE. lia.
Defined.

(** On the full page of the keys 0 .. 55, after [Remove(5, 5)] the page is
    not full and [Insert(99, 99)] returns true. *)
Lemma Remove_then_Insert_witness :
  BucketPage.IsFull IntTable.BUCKET_ARRAY_SIZE (IntTable.filled 56) = true
  /\ BucketPage.IsFull IntTable.BUCKET_ARRAY_SIZE
       (snd (int_bucket_Remove (IntTable.filled 56) 5 5)) = false
  /\ exists b2,
       int_bucket_Insert (snd (int_bucket_Remove (IntTable.filled 56) 5 5)) 99 99
       = (true, b2).
Proof.
  split; [vm_compute; reflexivity|].
  destruct (Remove_then_Insert IntTable.BUCKET_ARRAY_SIZE IntTable.IntComparator Z.eqb 0 0
              IntComparator_spec Z.eqb_eq (IntTable.filled 56) 5 99 5 99
              (bucket_inv_filled 56)) as [Hnf Hins].
  - apply (holds_filled 56 5). unfold IntTable.BUCKET_ARRAY_SIZE. lia.
  - split; [exact Hnf|]. destruct Hins as (b2 & Hb2 & _).
    + intros Hh.
      destruct (Insert_holds IntTable.BUCKET_ARRAY_SIZE IntTable.IntComparator Z.eqb 0 0
                  IntComparator_spec Z.eqb_eq _ 99 99
                  (bucket_inv_Remove IntTable.BUCKET_ARRAY_SIZE IntTable.IntComparator
                     Z.eqb 0 0 (IntTable.filled 56) 5 5 (bucket_inv_filled 56)))
        as (Hdup & _).
      specialize (Hdup Hh). vm_compute in Hdup. discriminate Hdup.
    + exists b2. exact Hb2.
Defined.

(** An empty page: [IsEmpty] is true, and [GetAllItem] lists nothing. *)
Lemma IsEmpty_spec_witness :
  BucketPage.IsEmpty IntTable.BUCKET_ARRAY_SIZE (BucketPage.zero_page IntTable.BUCKET_ARRAY_SIZE 0 0) = true
  <-> BucketPage.GetAllItem IntTable.BUCKET_ARRAY_SIZE 0 0 (BucketPage.zero_page IntTable.BUCKET_ARRAY_SIZE 0 0) = [].
Proof.
  apply (IsEmpty_spec IntTable.BUCKET_ARRAY_SIZE 0 0 (BucketPage.zero_page IntTable.BUCKET_ARRAY_SIZE 0 0)).
  apply bucket_inv_zero_page.
Defined.

(** Slot 7 is the bit 7 of the first byte, which becomes -128. *)
Lemma bitmap_accessors_witness :
  BucketPage.IsReadable (BucketPage.SetReadable (BucketPage.zero_page IntTable.BUCKET_ARRAY_SIZE 0 0) 7) 7 = true
  /\ BucketPage.readable_ (BucketPage.SetReadable (BucketPage.zero_page IntTable.BUCKET_ARRAY_SIZE 0 0) 7)
     = [-128; 0; 0; 0; 0; 0; 0].
Proof.
  split; [|vm_compute; reflexivity].
  destruct (bitmap_accessors IntTable.BUCKET_ARRAY_SIZE (BucketPage.zero_page IntTable.BUCKET_ARRAY_SIZE 0 0) 7 7)
    as (Hset & _).
  - apply wf_zero_page.
  - unfold IntTable.BUCKET_ARRAY_SIZE. lia.
  - rewrite Hset. reflexivity.
Defined.

(** With the keys 0 .. 6 stored, the first byte is [0x7f] and [NumReadable]
    returns 7. *)
Lemma NumReadable_without_bit7_witness :
  BucketPage.NumReadable IntTable.BUCKET_ARRAY_SIZE (IntTable.filled 7)
  = Some (Z.of_nat (BucketPage.count_readable IntTable.BUCKET_ARRAY_SIZE (IntTable.filled 7))).
Proof.
  pose proof (bucket_inv_filled 7) as Hinv.
  apply (NumReadable_without_bit7 IntTable.BUCKET_ARRAY_SIZE (IntTable.filled 7)).
  - apply Hinv.
  - vm_compute. reflexivity.
  - apply (BucketPage.inv_tail _ _ _ _ Hinv).
  - intros j. destruct (Nat.lt_ge_cases (8 * j + 7) IntTable.BUCKET_ARRAY_SIZE) as [Hj|Hj].
    + unfold IntTable.BUCKET_ARRAY_SIZE in Hj.
      do 7 (destruct j as [|j]; [vm_compute; reflexivity|]). exfalso. lia.
    + apply (BucketPage.inv_tail _ _ _ _ Hinv), Hj.
Defined.

(** [GetValue(1)] with the keys 0, 1 and 2 stored. *)
Lemma table_GetValue_spec_witness :
  exists vs,
    int_GetValue (IntTable.after (IntTable.inserts 3 0 1)) 1 []
    = Some (match vs with [] => false | _ :: _ => true end, [] ++ vs)
    /\ (forall v, In v vs <-> int_present (IntTable.after (IntTable.inserts 3 0 1)) 1 v)
    /\ NoDup vs.
Proof.
  apply (table_GetValue_spec IntTable.BUCKET_ARRAY_SIZE IntTable.IntComparator Z.eqb 0 0
           IntTable.hash_fn IntTable.MAX_DEPTH IntTable.shl_overflow
           IntTable_MAX_DEPTH_le IntComparator_spec Z.eqb_eq IntTable_MAX_DEPTH_nonneg
           (IntTable.inserts 3 0 1)).
  apply run_after_full. vm_compute. reflexivity.
Defined.

(** [Remove(55, 55)] of the last odd key, which merges the two buckets. *)
Lemma table_Remove_spec_witness :
  exists r t',
    int_Remove (IntTable.after (IntTable.inserts 57 0 1 ++ IntTable.removes 27 1 2)) 55 55
    = Some (r, t')
    /\ (r = true <->
        IntTable.present
          (IntTable.after (IntTable.inserts 57 0 1 ++ IntTable.removes 27 1 2)) 55 55)
    /\ (forall k v,
          int_present t' k v <->
          IntTable.present
            (IntTable.after (IntTable.inserts 57 0 1 ++ IntTable.removes 27 1 2)) k v
          /\ (k, v) <> (55, 55)).
Proof.
  apply (table_Remove_spec IntTable.BUCKET_ARRAY_SIZE IntTable.IntComparator Z.eqb 0 0
           IntTable.hash_fn IntTable.MAX_DEPTH IntTable.shl_overflow
           IntTable_MAX_DEPTH_le IntComparator_spec Z.eqb_eq IntTable_MAX_DEPTH_nonneg
           (IntTable.inserts 57 0 1 ++ IntTable.removes 27 1 2)).
  apply run_after_full. vm_compute. reflexivity.
Defined.


(** [Insert(56, 56)] on the full bucket of the keys 0 .. 55 splits it; the
    pairs stay. *)
Lemma Insert_keeps_pairs_witness :
  (forall k v,
     int_present (IntTable.after (IntTable.inserts 56 0 1)) k v ->
     int_present (IntTable.after (IntTable.inserts 57 0 1)) k v)
  /\ (forall k v,
        int_present (IntTable.after (IntTable.inserts 57 0 1)) k v ->
        int_present (IntTable.after (IntTable.inserts 56 0 1)) k v
        \/ (k, v) = (56, 56))
  /\ (true = true ->
      int_present (IntTable.after (IntTable.inserts 57 0 1)) 56 56
      /\ ~ int_present (IntTable.after (IntTable.inserts 56 0 1)) 56 56).
Proof.
  apply (Insert_keeps_pairs IntTable.BUCKET_ARRAY_SIZE IntTable.IntComparator Z.eqb
           0 0 IntTable.hash_fn IntTable.MAX_DEPTH IntTable.shl_overflow
           IntTable_MAX_DEPTH_le IntComparator_spec Z.eqb_eq
           IntTable_MAX_DEPTH_nonneg
           (IntTable.inserts 56 0 1) (IntTable.after (IntTable.inserts 56 0 1))
           (IntTable.after (IntTable.inserts 57 0 1)) 56 56 true).
  - apply run_after_full. vm_compute. reflexivity.
  - vm_compute. reflexivity.
Defined.

(** The loop on [ExtraMerge] for the key 0, with the keys 0 .. 56 stored:
    the local depth is 1 and two calls suffice. *)
Lemma ExtraMerge_loop_terminates_witness :
  exists t',
    int_ExtraMerge_loop 2 (IntTable.after (IntTable.inserts 57 0 1)) 0 0 = Some t'
    /\ int_ExtraMerge t' 0 0 = Some (false, t')
    /\ (forall k v,
          int_present t' k v
          <-> int_present (IntTable.after (IntTable.inserts 57 0 1)) k v)
    /\ ExtendibleHashTable.GetGlobalDepth t'
       <= ExtendibleHashTable.GetGlobalDepth (IntTable.after (IntTable.inserts 57 0 1)).
Proof.
  apply (ExtraMerge_loop_terminates IntTable.BUCKET_ARRAY_SIZE IntTable.IntComparator Z.eqb
           0 0 IntTable.hash_fn IntTable.MAX_DEPTH IntTable.shl_overflow
           IntTable_MAX_DEPTH_le IntComparator_spec Z.eqb_eq IntTable_MAX_DEPTH_nonneg
           (IntTable.inserts 57 0 1)).
  - apply run_after_full. vm_compute. reflexivity.
  - vm_compute. reflexivity.
Defined.

(** After the first split the directory has two slots, each with its page. *)
Lemma directory_pages_live_witness :
  Directory.Size IntTable.shl_overflow
    (ExtendibleHashTable.dir_page (IntTable.after (IntTable.inserts 57 0 1))) = 2
  /\ exists b,
       ExtendibleHashTable.FetchBucketPage (IntTable.after (IntTable.inserts 57 0 1))
         (Directory.GetBucketPageId
            (ExtendibleHashTable.dir_page (IntTable.after (IntTable.inserts 57 0 1))) 1)
       = Some b
       /\ forall k v, int_holds b k v ->
            int_KeyToPageId k
              (ExtendibleHashTable.dir_page (IntTable.after (IntTable.inserts 57 0 1)))
            = Directory.GetBucketPageId
                (ExtendibleHashTable.dir_page (IntTable.after (IntTable.inserts 57 0 1))) 1.
Proof.
  split; [vm_compute; reflexivity|].
  destruct (directory_pages_live IntTable.BUCKET_ARRAY_SIZE IntTable.IntComparator Z.eqb
              0 0 IntTable.hash_fn IntTable.MAX_DEPTH IntTable.shl_overflow
              IntTable_MAX_DEPTH_le IntComparator_spec Z.eqb_eq
              IntTable_MAX_DEPTH_nonneg (IntTable.inserts 57 0 1)
              (IntTable.after (IntTable.inserts 57 0 1))) as [_ Hlive].
  - apply run_after_full. vm_compute. reflexivity.
  - destruct (Hlive 1) as (b & Hb & _ & Hroute).
    + vm_compute. split; [discriminate | reflexivity].
    + exists b. split; [exact Hb | exact Hroute].
Defined.

(** A new table of integers: [GetValue(5)] and [Remove(5, 5)]. *)
Lemma new_table_is_empty_witness :
  ExtendibleHashTable.GetGlobalDepth int_init = 0
  /\ int_GetValue int_init 5 [] = Some (false, [])
  /\ exists t', int_Remove int_init 5 5 = Some (false, t')
       /\ ExtendibleHashTable.same_state int_init t'.
Proof.
  apply (new_table_is_empty IntTable.BUCKET_ARRAY_SIZE IntTable.IntComparator Z.eqb 0 0
           IntTable.hash_fn IntTable.MAX_DEPTH IntTable.shl_overflow
           IntTable_MAX_DEPTH_le IntComparator_spec Z.eqb_eq IntTable_MAX_DEPTH_nonneg
           5 5 []).
Defined.

(** [RemoveAllItem(1)] after the first split removes the odd keys. *)
Lemma RemoveAllItem_spec_witness :
  exists b t',
    ExtendibleHashTable.FetchBucketPage (IntTable.after (IntTable.inserts 57 0 1))
      (Directory.GetBucketPageId
         (ExtendibleHashTable.dir_page (IntTable.after (IntTable.inserts 57 0 1))) 1)
    = Some b
    /\ int_RemoveAllItem (IntTable.after (IntTable.inserts 57 0 1)) 1 = Some t'
    /\ (forall k v, int_holds b k v ->
                    int_present (IntTable.after (IntTable.inserts 57 0 1)) k v)
    /\ (forall k v,
          int_present t' k v
          <-> int_present (IntTable.after (IntTable.inserts 57 0 1)) k v
              /\ ~ int_holds b k v).
Proof.
  apply (RemoveAllItem_spec IntTable.BUCKET_ARRAY_SIZE IntTable.IntComparator Z.eqb 0 0
           IntTable.hash_fn IntTable.MAX_DEPTH IntTable.shl_overflow
           IntTable_MAX_DEPTH_le IntComparator_spec Z.eqb_eq IntTable_MAX_DEPTH_nonneg
           (IntTable.inserts 57 0 1)).
  - apply run_after_full. vm_compute. reflexivity.
  - vm_compute. split; [discriminate | reflexivity].
Defined.

(** [Insert(56, 56)] on the full bucket of the keys 0 .. 55, at the global
    depth 0, raises the global depth to 1. *)
Lemma GetGlobalDepth_steps_witness :
  exists b,
    ExtendibleHashTable.bucket_pages (IntTable.after (IntTable.inserts 56 0 1))
      (int_KeyToPageId 56
         (ExtendibleHashTable.dir_page (IntTable.after (IntTable.inserts 56 0 1))))
    = Some b
    /\ ExtendibleHashTable.GetGlobalDepth (IntTable.after (IntTable.inserts 57 0 1))
       = if BucketPage.IsFull IntTable.BUCKET_ARRAY_SIZE b
            && (Directory.local_depths_
                  (ExtendibleHashTable.dir_page (IntTable.after (IntTable.inserts 56 0 1)))
                  (ExtendibleHashTable.KeyToDirectoryIndex IntTable.hash_fn
                     IntTable.shl_overflow 56
                     (ExtendibleHashTable.dir_page
                        (IntTable.after (IntTable.inserts 56 0 1))))
                =? ExtendibleHashTable.GetGlobalDepth
                     (IntTable.after (IntTable.inserts 56 0 1)))
         then ExtendibleHashTable.GetGlobalDepth (IntTable.after (IntTable.inserts 56 0 1)) + 1
         else ExtendibleHashTable.GetGlobalDepth (IntTable.after (IntTable.inserts 56 0 1)).
Proof.
  refine (proj1 (GetGlobalDepth_steps IntTable.BUCKET_ARRAY_SIZE IntTable.IntComparator Z.eqb
                   0 0 IntTable.hash_fn IntTable.MAX_DEPTH IntTable.shl_overflow
                   IntTable_MAX_DEPTH_le IntComparator_spec Z.eqb_eq
                   IntTable_MAX_DEPTH_nonneg (IntTable.inserts 56 0 1)
                   (IntTable.after (IntTable.inserts 56 0 1)) _)
            56 56 true (IntTable.after (IntTable.inserts 57 0 1)) _).
  - apply run_after_full. vm_compute. reflexivity.
  - vm_compute. reflexivity.
Defined.

(** [Insert(9, 9)] on the page of the keys 0, 1 and 2, then [GetValue(9)]. *)
Lemma bucket_Insert_then_GetValue_witness :
  exists vs,
    int_bucket_GetValue (snd (int_bucket_Insert (IntTable.filled 3) 9 9)) 9 []
    = (true, [] ++ vs)
    /\ (forall v, In v vs <-> int_holds (IntTable.filled 3) 9 v \/ v = 9).
Proof.
  refine (proj2 (bucket_Insert_then_GetValue IntTable.BUCKET_ARRAY_SIZE
                   IntTable.IntComparator Z.eqb 0 0 IntComparator_spec Z.eqb_eq
                   (IntTable.filled 3) 9 9 [] (bucket_inv_filled 3) _)).
  right. vm_compute. reflexivity.
Defined.

(** With the keys 0 .. 55 stored, [Insert(56, 56)] splits the bucket and
    [Remove(56, 56)] then restores the stored pairs. *)
Lemma Insert_then_Remove_witness :
  exists t2,
    int_Remove (IntTable.after (IntTable.inserts 57 0 1)) 56 56 = Some (true, t2)
    /\ (forall k v,
          int_present t2 k v
          <-> int_present (IntTable.after (IntTable.inserts 56 0 1)) k v).
Proof.
  apply (Insert_then_Remove IntTable.BUCKET_ARRAY_SIZE IntTable.IntComparator Z.eqb 0 0
           IntTable.hash_fn IntTable.MAX_DEPTH IntTable.shl_overflow
           IntTable_MAX_DEPTH_le IntComparator_spec Z.eqb_eq IntTable_MAX_DEPTH_nonneg
           (IntTable.inserts 56 0 1) (IntTable.after (IntTable.inserts 56 0 1))).
  - apply run_after_full. vm_compute. reflexivity.
  - vm_compute. reflexivity.
Defined.
